(** * Graph model and Tarjan analysis of the biconnected-components visualizer

    A shallow embedding of [graph.js] (class [Graph]: the graph model, the
    plain analysis [analyze] and the instrumented analysis
    [analyzeWithSteps]) and of the replay loop of [app.js]
    ([applyStepsUpTo]), followed by the properties proved about them.

    Conventions of the embedding.
    - Node ids are JavaScript numbers that the program only ever creates as
      integers (the allocator [nextId], or [parseInt] of a prompt): [Z].
    - A JavaScript [Set] of ids iterates in insertion order: a duplicate-free
      list with [JsSet.add] appending at the end.
    - The adjacency [Map] is only read by key or updated entry by entry, so
      its key order is never observed: a [gmap Z (list Z)].
    - The edge [Map] is iterated and rebuilt by [renameNode], where a later
      entry overwrites an earlier one with the same key: an insertion-ordered
      association list.
    - The arrays [disc], [low] and [parent] are read at arbitrary ids; a read
      outside the array is [undefined]: a [gmap Z Z] whose missing keys are
      [undefined].
    - A method that can fail with a [TypeError] returns an [outcome]. *)

From Stdlib Require Import ZArith Lia List String Ascii DecimalString DecimalZ
  DecimalPos.
From stdpp Require Import gmap strings list fin_maps.

Local Open Scope Z_scope.

(** ** JavaScript containers *)

Module JsSet.

Section Elements.
Context {A : Type} `{EqDecision A}.

(** [Set.prototype.has] *)
Definition has (v : A) (s : list A) : bool := bool_decide (v ∈ s).

(** [Set.prototype.add]: a new element goes last, a present one stays. *)
Definition add (v : A) (s : list A) : list A :=
  if has v s then s else s ++ [v].

(** [Set.prototype.delete] *)
Definition delete (v : A) (s : list A) : list A :=
  filter (λ w, w ≠ v) s.
End Elements.

End JsSet.

Module JsMap.

Section Ordered.
Context {V : Type}.

(** [Map.prototype.get]; [None] is [undefined]. *)
Fixpoint get (k : string) (m : list (string * V)) : option V :=
  match m with
  | [] => None
  | (k', v) :: m' => if decide (k' = k) then Some v else get k m'
  end.

(** [Map.prototype.has] *)
Definition has (k : string) (m : list (string * V)) : bool :=
  match get k m with Some _ => true | None => false end.

(** [Map.prototype.set]: an existing key keeps its position. *)
Fixpoint set (k : string) (v : V) (m : list (string * V)) : list (string * V) :=
  match m with
  | [] => [(k, v)]
  | (k', v') :: m' =>
      if decide (k' = k) then (k, v) :: m' else (k', v') :: set k v m'
  end.

(** [Map.prototype.delete] *)
Definition delete (k : string) (m : list (string * V)) : list (string * V) :=
  filter (λ kv, kv.1 ≠ k) m.
End Ordered.

End JsMap.

(** ** Data model *)

(** A node object [{id, x, y}]. The coordinates are display data: they are
    carried along and never read by the model or the analysis. *)
Record Node := mkNode { n_id : Z; n_x : Z; n_y : Z }.

(** An edge object [{a, b, directed}]. *)
Record Edge := mkEdge { e_a : Z; e_b : Z; e_directed : bool }.

(** The fields of [Graph]. *)
Record Graph := mkGraph {
  nodes : list Node;
  adj : gmap Z (list Z);
  nextId : Z;
  edgeMap : list (string * Edge)
}.

(** [new Graph()] *)
Definition empty_graph : Graph :=
  {| nodes := []; adj := ∅; nextId := 0; edgeMap := [] |}.

(** The result of a method call that may throw: the returned value with the
    graph after the call, or the graph as the [TypeError] left it. *)
Inductive outcome (A : Type) : Type :=
| Returned (r : A) (g : Graph)
| Threw (g : Graph).
Arguments Returned {A} r g.
Arguments Threw {A} g.

(** Number-to-string conversion of an integer id, as a template literal
    does it: decimal digits, a leading minus sign for a negative id. *)
Definition string_of_Z (z : Z) : string :=
  NilZero.string_of_int (Z.to_int z).

(** The template [`${a}>${b}`] of a directed edge. *)
Definition directedKey (a b : Z) : string :=
  (string_of_Z a ++ ">" ++ string_of_Z b)%string.

(** [edgeKey(a, b)] *)
Definition edgeKey (a b : Z) : string :=
  let u := Z.min a b in
  let v := Z.max a b in
  (string_of_Z u ++ "-" ++ string_of_Z v)%string.

Definition node_ids (g : Graph) : list Z := n_id <$> nodes g.

(** ** Graph model operations *)

(** [addNode(x, y)]. Ids are integers here and [this.nextId++] adds one,
    which is what the program computes for an allocator from [-2^53] to
    [2^53 - 1]; beyond, a number cannot hold the successor. *)
Definition addNode (x y : Z) (g : Graph) : Z * Graph :=
  let id := nextId g in
  (id, {| nodes := nodes g ++ [mkNode id x y];
          adj := <[id := []]> (adj g);
          nextId := id + 1;
          edgeMap := edgeMap g |}).

Definition with_adj (g : Graph) (m : gmap Z (list Z)) : Graph :=
  {| nodes := nodes g; adj := m; nextId := nextId g; edgeMap := edgeMap g |}.

Definition with_edgeMap (g : Graph) (m : list (string * Edge)) : Graph :=
  {| nodes := nodes g; adj := adj g; nextId := nextId g; edgeMap := m |}.

(** [this.adj.get(a).add(b); this.adj.get(b).add(a); return true]: each
    [get] of a missing key yields [undefined], on which [.add] throws. *)
Definition link (a b : Z) (g : Graph) : outcome bool :=
  match adj g !! a with
  | None => Threw g
  | Some sa =>
      let g1 := with_adj g (<[a := JsSet.add b sa]> (adj g)) in
      match adj g1 !! b with
      | None => Threw g1
      | Some sb => Returned true (with_adj g1 (<[b := JsSet.add a sb]> (adj g1)))
      end
  end.

(** [addEdge(a, b, directed)] *)
Definition addEdge (a b : Z) (directed : bool) (g : Graph) : outcome bool :=
  if decide (a = b) then Returned false g
  else if directed then
    let key := directedKey a b in
    if JsMap.has key (edgeMap g) then Returned false g
    else link a b (with_edgeMap g (JsMap.set key (mkEdge a b true) (edgeMap g)))
  else
    let u := Z.min a b in
    let v := Z.max a b in
    let key := (string_of_Z u ++ "-" ++ string_of_Z v)%string in
    if JsMap.has key (edgeMap g) then Returned false g
    else link a b (with_edgeMap g (JsMap.set key (mkEdge u v false) (edgeMap g))).

(** [this.adj.get(a).delete(b); this.adj.get(b).delete(a); return true] *)
Definition unlink (a b : Z) (g : Graph) : outcome bool :=
  match adj g !! a with
  | None => Threw g
  | Some sa =>
      let g1 := with_adj g (<[a := JsSet.delete b sa]> (adj g)) in
      match adj g1 !! b with
      | None => Threw g1
      | Some sb => Returned true (with_adj g1 (<[b := JsSet.delete a sb]> (adj g1)))
      end
  end.

(** [deleteEdge(a, b, directed)] *)
Definition deleteEdge (a b : Z) (directed : bool) (g : Graph) : outcome bool :=
  if directed then
    let key := directedKey a b in
    if negb (JsMap.has key (edgeMap g)) then Returned false g
    else unlink a b (with_edgeMap g (JsMap.delete key (edgeMap g)))
  else
    let u := Z.min a b in
    let v := Z.max a b in
    let key := (string_of_Z u ++ "-" ++ string_of_Z v)%string in
    if negb (JsMap.has key (edgeMap g)) then Returned false g
    else unlink a b (with_edgeMap g (JsMap.delete key (edgeMap g))).

(** [deleteEdgeByKey(key)]: the two adjacency updates are guarded by
    [this.adj.has], so nothing throws. *)
Definition deleteEdgeByKey (key : string) (g : Graph) : bool * Graph :=
  match JsMap.get key (edgeMap g) with
  | None => (false, g)
  | Some e =>
      let em := JsMap.delete key (edgeMap g) in
      let adj1 := alter (JsSet.delete (e_b e)) (e_a e) (adj g) in
      let adj2 := alter (JsSet.delete (e_a e)) (e_b e) adj1 in
      (true, {| nodes := nodes g; adj := adj2; nextId := nextId g; edgeMap := em |})
  end.

(** [deleteNode(id)] *)
Definition deleteNode (id : Z) (g : Graph) : bool * Graph :=
  let nodes' := filter (λ n, n_id n ≠ id) (nodes g) in
  let adj1 :=
    match adj g !! id with
    | Some neigh =>
        delete id (foldl (λ m v, alter (JsSet.delete id) v m) (adj g) neigh)
    | None => adj g
    end in
  let adj2 := (λ s, if JsSet.has id s then JsSet.delete id s else s) <$> adj1 in
  let em := filter (λ kv, ¬ (e_a kv.2 = id ∨ e_b kv.2 = id)) (edgeMap g) in
  (true, {| nodes := nodes'; adj := adj2; nextId := nextId g; edgeMap := em |}).

(** The body of the loop of [renameNode] that rebuilds the edge map. *)
Definition rekey (oldId newId : Z) (acc : list (string * Edge)) (kv : string * Edge)
  : list (string * Edge) :=
  let e := kv.2 in
  let a := if decide (e_a e = oldId) then newId else e_a e in
  let b := if decide (e_b e = oldId) then newId else e_b e in
  if e_directed e then
    JsMap.set (directedKey a b) (mkEdge a b true) acc
  else
    let u := Z.min a b in
    let v := Z.max a b in
    JsMap.set (string_of_Z u ++ "-" ++ string_of_Z v)%string (mkEdge u v false) acc.

(** [renameNode(oldId, newId)]. [newId + 1] is the integer successor, which
    is what the program computes for [newId] from [-2^53] to [2^53 - 1]. *)
Definition renameNode (oldId newId : Z) (g : Graph) : bool * Graph :=
  if decide (oldId = newId) then (true, g)
  else if bool_decide (newId ∈ node_ids g) then (false, g)
  else
    let nodes' :=
      (λ n, if decide (n_id n = oldId) then mkNode newId (n_x n) (n_y n) else n)
        <$> nodes g in
    let oldNeighbors := default [] (adj g !! oldId) in
    let adj1 := <[newId := oldNeighbors]> (delete oldId (adj g)) in
    let adj2 :=
      map_imap (λ k s,
        Some (if decide (k = newId) then s
              else if JsSet.has oldId s
                   then JsSet.add newId (JsSet.delete oldId s)
                   else s)) adj1 in
    let newEdgeMap := foldl (rekey oldId newId) [] (edgeMap g) in
    (true, {| nodes := nodes'; adj := adj2;
              nextId := Z.max (nextId g) (newId + 1);
              edgeMap := newEdgeMap |}).

(** [clear()] *)
Definition clear (g : Graph) : Graph :=
  {| nodes := []; adj := ∅; nextId := 0; edgeMap := [] |}.

(** ** Traversal state of the analysis *)

(** A component object [{edges, verts}]. *)
Record Comp := mkComp { edges : list (Z * Z); verts : list Z }.

(** The variables the closure [dfs] captures. [edgeStack] keeps the top of
    the stack at the head of the list; [bridges] and [components] grow at
    the end, as [push] does. *)
Record TState := mkTState {
  disc : gmap Z Z;
  low : gmap Z Z;
  parent : gmap Z Z;
  ap : list Z;
  bridges : list (Z * Z);
  components : list Comp;
  edgeStack : list (Z * Z);
  time : Z
}.

(** The object [analyze] returns. *)
Record Result := mkResult {
  articulationPoints : list Z;
  r_bridges : list (Z * Z);
  r_components : list Comp;
  edgeToComp : list (string * nat)
}.

(** How an analysis call ends: with its value, with the [RangeError] of
    [new Array(len)] for an invalid length, or, in this model only, by
    running out of recursion fuel. *)
Inductive run (A : Type) : Type :=
| Done (r : A)
| RangeError
| OutOfFuel.
Arguments Done {A} r.
Arguments RangeError {A}.
Arguments OutOfFuel {A}.

Module Js.

(** Comparisons of array reads: [undefined] and [NaN] (both [None])
    compare false with everything under [<], [>] and [>=], and are
    different from every number under [===]. *)
Definition lt (a b : option Z) : bool :=
  match a, b with Some x, Some y => bool_decide (x < y) | _, _ => false end.
Definition gt (a b : option Z) : bool :=
  match a, b with Some x, Some y => bool_decide (x > y) | _, _ => false end.
Definition ge (a b : option Z) : bool :=
  match a, b with Some x, Some y => bool_decide (x >= y) | _, _ => false end.
Definition seq (a : option Z) (n : Z) : bool := bool_decide (a = Some n).

(** [Math.min] of two reads: [NaN] as soon as one is not a number. *)
Definition min (a b : option Z) : option Z :=
  match a, b with Some x, Some y => Some (Z.min x y) | _, _ => None end.

(** [arr[i] = v]; storing [NaN] leaves a slot that no comparison of the
    program tells from a missing one. *)
Definition store (i : Z) (v : option Z) (arr : gmap Z Z) : gmap Z Z :=
  match v with Some z => <[i := z]> arr | None => delete i arr end.

(** The largest length [new Array(len)] accepts. *)
Definition max_array_length : Z := 4294967295.

(** [new Array(len).fill(v)] for an integer [len]; [None] is the
    [RangeError] for a length outside [0 .. 2^32 - 1]. *)
Definition new_array (len v : Z) : option (gmap Z Z) :=
  if bool_decide (0 <= len <= max_array_length)
  then Some (gset_to_gmap v (list_to_set (seqZ 0 len)))
  else None.

End Js.

(** [st] with [low[u]] replaced. *)
Definition set_low (u : Z) (v : option Z) (st : TState) : TState :=
  mkTState (disc st) (Js.store u v (low st)) (parent st) (ap st) (bridges st)
           (components st) (edgeStack st) (time st).

(** [edgeStack.push([u, v])] *)
Definition push_edge (u v : Z) (st : TState) : TState :=
  mkTState (disc st) (low st) (parent st) (ap st) (bridges st)
           (components st) ((u, v) :: edgeStack st) (time st).

(** [parent[v] = u] *)
Definition set_parent (v u : Z) (st : TState) : TState :=
  mkTState (disc st) (low st) (<[v := u]> (parent st)) (ap st) (bridges st)
           (components st) (edgeStack st) (time st).

(** [ap.add(u)] *)
Definition add_ap (u : Z) (st : TState) : TState :=
  mkTState (disc st) (low st) (parent st) (JsSet.add u (ap st)) (bridges st)
           (components st) (edgeStack st) (time st).

(** [bridges.push([u, v])] *)
Definition add_bridge (u v : Z) (st : TState) : TState :=
  mkTState (disc st) (low st) (parent st) (ap st) (bridges st ++ [(u, v)])
           (components st) (edgeStack st) (time st).

(** [disc[u] = low[u] = ++time] *)
Definition enter (u : Z) (st : TState) : TState :=
  let t := time st + 1 in
  mkTState (<[u := t]> (disc st)) (<[u := t]> (low st)) (parent st) (ap st)
           (bridges st) (components st) (edgeStack st) t.

(** The loop that closes a component inside [dfs]: pop until the stack is
    empty or the edge between [u] and [v] has been popped. Returns the
    popped edges and their endpoints in pop order, and the rest of the
    stack. *)
Fixpoint pop_until (u v : Z) (stack : list (Z * Z))
    (compEdges : list (Z * Z)) (compVerts : list Z)
  : list (Z * Z) * list Z * list (Z * Z) :=
  match stack with
  | [] => (compEdges, compVerts, [])
  | e :: stack' =>
      let compEdges' := compEdges ++ [e] in
      let compVerts' := JsSet.add e.2 (JsSet.add e.1 compVerts) in
      if bool_decide ((e.1 = u ∧ e.2 = v) ∨ (e.1 = v ∧ e.2 = u))
      then (compEdges', compVerts', stack')
      else pop_until u v stack' compEdges' compVerts'
  end.

(** The loop that empties the stack after a root's [dfs] returned. *)
Fixpoint pop_all (stack : list (Z * Z))
    (compEdges : list (Z * Z)) (compVerts : list Z)
  : list (Z * Z) * list Z :=
  match stack with
  | [] => (compEdges, compVerts)
  | e :: stack' =>
      pop_all stack' (compEdges ++ [e]) (JsSet.add e.2 (JsSet.add e.1 compVerts))
  end.

(** The body of the block that forms a component in [dfs]: the pop loop,
    then [if (compEdges.length) components.push(...)]. *)
Definition close_component (u v : Z) (st : TState) : TState :=
  let '(compEdges, compVerts, rest) := pop_until u v (edgeStack st) [] [] in
  mkTState (disc st) (low st) (parent st) (ap st) (bridges st)
           (match compEdges with
            | [] => components st
            | _ => components st ++ [mkComp compEdges compVerts]
            end)
           rest (time st).

(** [if (edgeStack.length) { ...pop everything...; components.push(...) }] *)
Definition close_root (st : TState) : TState :=
  match edgeStack st with
  | [] => st
  | _ =>
      let '(compEdges, compVerts) := pop_all (edgeStack st) [] [] in
      mkTState (disc st) (low st) (parent st) (ap st) (bridges st)
               (match compEdges with
                | [] => components st
                | _ => components st ++ [mkComp compEdges compVerts]
                end)
               [] (time st)
  end.

(** A [for ... of] loop whose body may fail to finish: the state is threaded through the elements in order. *)
Fixpoint for_each {A S : Type} (body : A → S → option S) (l : list A) (s : S)
  : option S :=
  match l with
  | [] => Some s
  | a :: l' =>
      match body a s with
      | Some s' => for_each body l' s'
      | None => None
      end
  end.

(** ** [analyze] *)

Module Plain.

(** [low[u] = Math.min(low[u], low[v])] after the call for the child. *)
Definition relax_child (u v : Z) (st : TState) : TState :=
  set_low u (Js.min (low st !! u) (low st !! v)) st.

(** [if (parent[u] === -1 && children > 1) ap.add(u)] *)
Definition mark_root (u children : Z) (st : TState) : TState :=
  if Js.seq (parent st !! u) (-1) && bool_decide (children > 1)
  then add_ap u st else st.

(** [if (parent[u] !== -1 && low[v] >= disc[u]) ap.add(u)] *)
Definition mark_cut (u v : Z) (st : TState) : TState :=
  if negb (Js.seq (parent st !! u) (-1)) && Js.ge (low st !! v) (disc st !! u)
  then add_ap u st else st.

(** [if (low[v] > disc[u]) bridges.push([u, v])] *)
Definition mark_bridge (u v : Z) (st : TState) : TState :=
  if Js.gt (low st !! v) (disc st !! u) then add_bridge u v st else st.

(** [if (low[v] >= disc[u]) { ... }], the block that forms a component. *)
Definition close_block (u v : Z) (st : TState) : TState :=
  if Js.ge (low st !! v) (disc st !! u) then close_component u v st else st.

(** [low[u] = Math.min(low[u], disc[v])] for a back edge. *)
Definition relax_back (u v : Z) (st : TState) : TState :=
  set_low u (Js.min (low st !! u) (disc st !! v)) st.

(** One iteration of [for (const v of neighbors)] in [dfs(u)]; the loop
    state is the local [children] and the captured variables. [rec] is
    the recursive call [dfs]. *)
Definition visit_neighbor (rec : Z → TState → option TState)
    (nodesPresent : list Z) (u v : Z) (cs : Z * TState) : option (Z * TState) :=
  let '(children, st) := cs in
  if negb (JsSet.has v nodesPresent) then Some (children, st)
  else if Js.seq (disc st !! v) (-1) then
    let children := children + 1 in
    match rec v (push_edge u v (set_parent v u st)) with
    | None => None
    | Some st =>
        Some (children,
              close_block u v
                (mark_bridge u v
                   (mark_cut u v
                      (mark_root u children
                         (relax_child u v st)))))
    end
  else if bool_decide (parent st !! u ≠ Some v)
          && Js.lt (disc st !! v) (disc st !! u) then
    Some (children, relax_back u v (push_edge u v st))
  else Some (children, st).

(** The closure [dfs]; [fuel] bounds the depth of the recursion. *)
Fixpoint dfs (fuel : nat) (g : Graph) (nodesPresent : list Z)
    (u : Z) (st : TState) : option TState :=
  match fuel with
  | O => None
  | S fuel' =>
      let children := 0 in
      let neighbors := default [] (adj g !! u) in
      snd <$> for_each (visit_neighbor (dfs fuel' g nodesPresent) nodesPresent u)
                       neighbors (children, enter u st)
  end.

(** One iteration of [for (const node of this.nodes)]. *)
Definition visit_root (fuel : nat) (g : Graph) (nodesPresent : list Z)
    (node : Node) (st : TState) : option TState :=
  if Js.seq (disc st !! n_id node) (-1) then
    match dfs fuel g nodesPresent (n_id node) st with
    | None => None
    | Some st => Some (close_root st)
    end
  else Some st.

End Plain.

(** [components.forEach((c, idx) => { for (const e of c.edges)
    edgeToComp.set(this.edgeKey(e[0], e[1]), idx) })] *)
Definition build_edgeToComp (comps : list Comp) : list (string * nat) :=
  foldl (λ m ci,
           foldl (λ m e, JsMap.set (edgeKey e.1 e.2) ci.1 m) m (edges ci.2))
        [] (imap (λ idx c, (idx, c)) comps).

(** The captured variables as [analyze] declares them. *)
Definition init_state (g : Graph) : option TState :=
  match Js.new_array (nextId g) (-1), Js.new_array (nextId g) 0,
        Js.new_array (nextId g) (-1) with
  | Some disc, Some low, Some parent =>
      Some (mkTState disc low parent [] [] [] [] 0)
  | _, _, _ => None
  end.

(** [new Set(this.nodes.map((s) => s.id))] *)
Definition nodesPresent_of (g : Graph) : list Z :=
  foldl (λ s i, JsSet.add i s) [] (node_ids g).

Definition result_of (st : TState) : Result :=
  {| articulationPoints := ap st;
     r_bridges := bridges st;
     r_components := components st;
     edgeToComp := build_edgeToComp (components st) |}.

(** [analyze()], with the recursion of [dfs] cut at depth [fuel]. *)
Definition analyze_fuel (fuel : nat) (g : Graph) : run Result :=
  match init_state g with
  | None => RangeError
  | Some st =>
      match for_each (Plain.visit_root fuel g (nodesPresent_of g)) (nodes g) st with
      | None => OutOfFuel
      | Some st => Done (result_of st)
      end
  end.

(** [analyze()]: a call of [dfs] marks a present node that no call had
    marked, so the recursion is never deeper than the number of nodes. The
    limits of an engine, the depth of its call stack and the memory for
    the arrays, are not part of the model: [Done] is the result of a run
    that stayed within them. *)
Definition analyze (g : Graph) : run Result :=
  analyze_fuel (S (length (nodes g))) g.

(** ** [analyzeWithSteps] *)

(** Where an [updateLow] step says the new value came from. *)
Inductive LowSource : Type :=
| FromChild (child : Z)
| BackTo (backTo : Z).

(** The step objects pushed by [pushStep], one constructor per [type]. *)
Inductive Step : Type :=
| Visit (u : Z) (disc low : option Z)
| PushEdge (u v : Z) (back : bool)
| UpdateLow (u : Z) (low : option Z) (src : LowSource)
| MarkAP (u : Z)
| MarkBridge (u v : Z)
| PopComponent (compIndex : nat) (edges : list (Z * Z)) (verts : list Z).

Module Traced.

(** The captured variables of [analyzeWithSteps]: those of [analyze] and
    the array [steps]. *)
Definition SState : Type := TState * list Step.

(** [pushStep(step)] *)
Definition pushStep (step : Step) (ss : SState) : SState :=
  (ss.1, ss.2 ++ [step]).

Definition on_state (f : TState → TState) (ss : SState) : SState :=
  (f ss.1, ss.2).

(** The component-closing block of [dfs], with its [popComponent] step. *)
Definition close_component (u v : Z) (ss : SState) : SState :=
  let st := ss.1 in
  let '(compEdges, compVerts, rest) := pop_until u v (edgeStack st) [] [] in
  let st' := mkTState (disc st) (low st) (parent st) (ap st) (bridges st)
                      (components st) rest (time st) in
  match compEdges with
  | [] => (st', ss.2)
  | _ =>
      let idx := length (components st) in
      let st'' := mkTState (disc st) (low st) (parent st) (ap st) (bridges st)
                           (components st ++ [mkComp compEdges compVerts])
                           rest (time st) in
      pushStep (PopComponent idx ((λ e, (e.1, e.2)) <$> compEdges) compVerts)
               (st'', ss.2)
  end.

(** The block after a root's [dfs], with its [popComponent] step. *)
Definition close_root (ss : SState) : SState :=
  let st := ss.1 in
  match edgeStack st with
  | [] => ss
  | _ =>
      let '(compEdges, compVerts) := pop_all (edgeStack st) [] [] in
      let st' := mkTState (disc st) (low st) (parent st) (ap st) (bridges st)
                          (components st) [] (time st) in
      match compEdges with
      | [] => (st', ss.2)
      | _ =>
          let idx := length (components st) in
          let st'' := mkTState (disc st) (low st) (parent st) (ap st) (bridges st)
                               (components st ++ [mkComp compEdges compVerts])
                               [] (time st) in
          pushStep (PopComponent idx ((λ e, (e.1, e.2)) <$> compEdges) compVerts)
                   (st'', ss.2)
      end
  end.

(** [low[u] = Math.min(low[u], low[v])] and its [updateLow] step. *)
Definition relax_child (u v : Z) (ss : SState) : SState :=
  let ss := on_state (Plain.relax_child u v) ss in
  pushStep (UpdateLow u (low ss.1 !! u) (FromChild v)) ss.

(** [if (parent[u] === -1 && children > 1) { ap.add(u); pushStep(...) }] *)
Definition mark_root (u children : Z) (ss : SState) : SState :=
  if Js.seq (parent ss.1 !! u) (-1) && bool_decide (children > 1)
  then pushStep (MarkAP u) (on_state (add_ap u) ss) else ss.

(** [if (parent[u] !== -1 && low[v] >= disc[u]) { ap.add(u); pushStep(...) }] *)
Definition mark_cut (u v : Z) (ss : SState) : SState :=
  if negb (Js.seq (parent ss.1 !! u) (-1))
     && Js.ge (low ss.1 !! v) (disc ss.1 !! u)
  then pushStep (MarkAP u) (on_state (add_ap u) ss) else ss.

(** [if (low[v] > disc[u]) { bridges.push([u, v]); pushStep(...) }] *)
Definition mark_bridge (u v : Z) (ss : SState) : SState :=
  if Js.gt (low ss.1 !! v) (disc ss.1 !! u)
  then pushStep (MarkBridge u v) (on_state (add_bridge u v) ss) else ss.

(** [if (low[v] >= disc[u]) { ... }], the block that forms a component. *)
Definition close_block (u v : Z) (ss : SState) : SState :=
  if Js.ge (low ss.1 !! v) (disc ss.1 !! u) then close_component u v ss else ss.

(** [edgeStack.push([u, v]); pushStep({type:'pushEdge', ...})] *)
Definition push_edge_step (u v : Z) (back : bool) (ss : SState) : SState :=
  pushStep (PushEdge u v back) (on_state (push_edge u v) ss).

(** [low[u] = Math.min(low[u], disc[v])] and its [updateLow] step. *)
Definition relax_back (u v : Z) (ss : SState) : SState :=
  let ss := on_state (Plain.relax_back u v) ss in
  pushStep (UpdateLow u (low ss.1 !! u) (BackTo v)) ss.

(** [disc[u] = low[u] = ++time] and its [visit] step. *)
Definition enter_step (u : Z) (ss : SState) : SState :=
  let ss := on_state (enter u) ss in
  pushStep (Visit u (disc ss.1 !! u) (low ss.1 !! u)) ss.

(** One iteration of [for (const v of neighbors)] in [dfs(u)]. *)
Definition visit_neighbor (rec : Z → SState → option SState)
    (nodesPresent : list Z) (u v : Z) (cs : Z * SState) : option (Z * SState) :=
  let '(children, ss) := cs in
  if negb (JsSet.has v nodesPresent) then Some (children, ss)
  else if Js.seq (disc ss.1 !! v) (-1) then
    let children := children + 1 in
    match rec v (push_edge_step u v false (on_state (set_parent v u) ss)) with
    | None => None
    | Some ss =>
        Some (children,
              close_block u v
                (mark_bridge u v
                   (mark_cut u v
                      (mark_root u children
                         (relax_child u v ss)))))
    end
  else if bool_decide (parent ss.1 !! u ≠ Some v)
          && Js.lt (disc ss.1 !! v) (disc ss.1 !! u) then
    Some (children, relax_back u v (push_edge_step u v true ss))
  else Some (children, ss).

(** The closure [dfs] of [analyzeWithSteps]. *)
Fixpoint dfs (fuel : nat) (g : Graph) (nodesPresent : list Z)
    (u : Z) (ss : SState) : option SState :=
  match fuel with
  | O => None
  | S fuel' =>
      let children := 0 in
      let neighbors := default [] (adj g !! u) in
      snd <$> for_each (visit_neighbor (dfs fuel' g nodesPresent) nodesPresent u)
                       neighbors (children, enter_step u ss)
  end.

(** One iteration of [for (const node of this.nodes)]. *)
Definition visit_root (fuel : nat) (g : Graph) (nodesPresent : list Z)
    (node : Node) (ss : SState) : option SState :=
  if Js.seq (disc ss.1 !! n_id node) (-1) then
    match dfs fuel g nodesPresent (n_id node) ss with
    | None => None
    | Some ss => Some (close_root ss)
    end
  else Some ss.

End Traced.

(** [analyzeWithSteps()] with the recursion cut at depth [fuel]; returns
    [{ result, steps }] and, for the statements about the stack, the
    captured variables as the call left them. *)
Definition analyzeWithSteps_state (fuel : nat) (g : Graph)
  : run (TState * list Step) :=
  match init_state g with
  | None => RangeError
  | Some st =>
      match for_each (Traced.visit_root fuel g (nodesPresent_of g)) (nodes g) (st, []) with
      | None => OutOfFuel
      | Some ss => Done ss
      end
  end.

Definition analyzeWithSteps_fuel (fuel : nat) (g : Graph)
  : run (Result * list Step) :=
  match analyzeWithSteps_state fuel g with
  | Done ss => Done (result_of ss.1, ss.2)
  | RangeError => RangeError
  | OutOfFuel => OutOfFuel
  end.

(** [analyzeWithSteps()], with the fuel of [analyze] and, as there, without
    the limits of an engine. *)
Definition analyzeWithSteps (g : Graph) : run (Result * list Step) :=
  analyzeWithSteps_fuel (S (length (nodes g))) g.


(** ** The stepper of [app.js] *)

(** [colorForIndex(i)] *)
Definition colorForIndex (i : nat) : string :=
  let palette :=
    ["#7b9ea8"; "#b69cc3"; "#9fbfa6"; "#e6b6b6"; "#e6d3b3"; "#9fc6cf";
     "#f3caa1"; "#d8c6e8"; "#d99b9b"]%string in
  nth (i mod length palette) palette ""%string.

(** An entry [{idx, edges, color}] of [formedComps]. *)
Record FormedComp := mkFormedComp {
  fc_idx : nat;
  fc_edges : list string;
  fc_color : string
}.

(** The local variables of [applyStepsUpTo] that the replay loop fills. *)
Record Replay := mkReplay {
  pushedEdges : list string;
  formedComps : list FormedComp;
  aps : list Z;
  rp_bridges : list (Z * Z);
  currentVisit : option Z;
  visitedNodes : list Z
}.

Definition replay_init : Replay := mkReplay [] [] [] [] None [].

(** The body of the replay loop for a step [s]. *)
Definition replay_step (rp : Replay) (s : Step) : Replay :=
  match s with
  | Visit u _ _ =>
      mkReplay (pushedEdges rp) (formedComps rp) (aps rp) (rp_bridges rp)
               (Some u) (JsSet.add u (visitedNodes rp))
  | PushEdge u v _ =>
      mkReplay (JsSet.add (edgeKey u v) (pushedEdges rp)) (formedComps rp)
               (aps rp) (rp_bridges rp) (currentVisit rp) (visitedNodes rp)
  | UpdateLow _ _ _ => rp
  | MarkAP u =>
      mkReplay (pushedEdges rp) (formedComps rp) (JsSet.add u (aps rp))
               (rp_bridges rp) (currentVisit rp) (visitedNodes rp)
  | MarkBridge u v =>
      mkReplay (pushedEdges rp) (formedComps rp) (aps rp)
               (rp_bridges rp ++ [(u, v)]) (currentVisit rp) (visitedNodes rp)
  | PopComponent compIndex es _ =>
      let color := colorForIndex (length (formedComps rp)) in
      mkReplay (pushedEdges rp)
               (formedComps rp ++
                  [mkFormedComp compIndex ((λ e, edgeKey e.1 e.2) <$> es) color])
               (aps rp) (rp_bridges rp) (currentVisit rp) (visitedNodes rp)
  end.

(** The replay loop of [applyStepsUpTo(idx)]:
    [for (let i = 0; i <= idx; i++) { const s = currentSteps[i];
    if (!s) continue; ... }]. *)
Definition applyStepsUpTo (currentSteps : list Step) (idx : Z) : Replay :=
  foldl (λ rp i,
           match currentSteps !! Z.to_nat i with
           | Some s => replay_step rp s
           | None => rp
           end)
        replay_init (seqZ 0 (idx + 1)).

(** ** Auxiliary notions of the proofs *)

(** Forgetting the steps of the loop state of the instrumented [dfs]. *)
Definition forget (cs : Z * Traced.SState) : Z * TState := (cs.1, cs.2.1).


(** The present nodes the traversal has not entered. *)
Definition undiscovered (P : list Z) (st : TState) : list Z :=
  filter (λ i, disc st !! i = Some (-1)) P.

(** What a stretch of the traversal does to the clock and to the marks. *)
Definition grows (st st' : TState) : Prop :=
  time st ≤ time st' ∧
  ∀ i, disc st !! i ≠ Some (-1) → disc st' !! i ≠ Some (-1).

(** ** Operations and invariants of the graph model *)

(** What a model operation hands back: an id, a boolean, or nothing. *)
Inductive retval : Type :=
| RId (id : Z)
| RBool (b : bool)
| RUndefined.

(** A call of one of the mutating methods of [Graph]. *)
Inductive Op : Type :=
| OpAddNode (x y : Z)
| OpAddEdge (a b : Z) (directed : bool)
| OpDeleteEdge (a b : Z) (directed : bool)
| OpDeleteEdgeByKey (key : string)
| OpDeleteNode (id : Z)
| OpRenameNode (oldId newId : Z)
| OpClear.

Definition as_bool (o : outcome bool) : outcome retval :=
  match o with
  | Returned r g => Returned (RBool r) g
  | Threw g => Threw g
  end.

(** The call [op] on the graph [g]. *)
Definition exec (op : Op) (g : Graph) : outcome retval :=
  match op with
  | OpAddNode x y => let '(id, g') := addNode x y g in Returned (RId id) g'
  | OpAddEdge a b d => as_bool (addEdge a b d g)
  | OpDeleteEdge a b d => as_bool (deleteEdge a b d g)
  | OpDeleteEdgeByKey key =>
      let '(r, g') := deleteEdgeByKey key g in Returned (RBool r) g'
  | OpDeleteNode id => let '(r, g') := deleteNode id g in Returned (RBool r) g'
  | OpRenameNode oldId newId =>
      let '(r, g') := renameNode oldId newId g in Returned (RBool r) g'
  | OpClear => Returned RUndefined (clear g)
  end.

(** The graph a call leaves behind, whether it returned or threw. *)
Definition graph_after {A : Type} (o : outcome A) : Graph :=
  match o with Returned _ g => g | Threw g => g end.

(** The graphs a program can build: from [new Graph()] by calls of the
    mutating methods, with any arguments, a thrown call included. *)
Inductive reachable : Graph → Prop :=
| reachable_new : reachable empty_graph
| reachable_exec op g : reachable g → reachable (graph_after (exec op g)).

(** [b ∈ adjacency[a]]; a node without an entry has no neighbours. *)
Definition adjacent (g : Graph) (a b : Z) : Prop :=
  b ∈ default [] (adj g !! a).

(** Invariant (b) of the data model. *)
Definition adj_symmetric (g : Graph) : Prop :=
  ∀ a b, adjacent g a b ↔ adjacent g b a.

(** Every node has an adjacency entry. *)
Definition nodes_have_adj (g : Graph) : Prop :=
  ∀ i, i ∈ node_ids g → is_Some (adj g !! i).

(** Every node id is below the allocator. *)
Definition ids_below_nextId (g : Graph) : Prop :=
  ∀ i, i ∈ node_ids g → i < nextId g.

(** The adjacency part of a well-formed graph: the adjacency keys are the
    node ids, adjacency is symmetric and irreflexive, and the allocator is
    ahead of every id. *)
Record graph_inv (g : Graph) : Prop := {
  inv_sym : adj_symmetric g;
  inv_keys : ∀ a, is_Some (adj g !! a) ↔ a ∈ node_ids g;
  inv_irrefl : ∀ a, ¬ adjacent g a a;
  inv_bound : ids_below_nextId g
}.

(** The argument an operation renames is a node of the graph. *)
Definition names_node (g : Graph) (op : Op) : Prop :=
  match op with
  | OpRenameNode oldId _ => oldId ∈ node_ids g
  | _ => True
  end.

(** Ids and the allocator are JavaScript numbers, and the model computes
    with integers. The two agree on [x + 1] as long as [x] and its
    successor are integers that a number holds exactly: for [x] from
    [-2^53] up to [2^53 - 1]. Beyond, [x + 1] is rounded, to [x] itself at
    [2^53]. *)
Definition exact_succ (x : Z) : Prop :=
  -9007199254740992 ≤ x < 9007199254740992.

(** The increment an operation makes is exact: [this.nextId++] in
    [addNode], [newId + 1] in [renameNode]. *)
Definition increments_exact (g : Graph) (op : Op) : Prop :=
  match op with
  | OpAddNode _ _ => exact_succ (nextId g)
  | OpRenameNode _ newId => exact_succ newId
  | _ => True
  end.

(** ** Concrete graphs *)

(** The graph a program gets from [new Graph()] by the calls [ops]. *)
Definition graph_of_ops (ops : list Op) : Graph :=
  foldl (λ g op, graph_after (exec op g)) empty_graph ops.

(** Two nodes 0 and 1 joined by an undirected edge. *)
Definition graph_edge01 : Graph :=
  graph_of_ops [OpAddNode 100 100; OpAddNode 200 100; OpAddEdge 0 1 false].

(** One node, and no others. *)
Definition graph_node0 : Graph := graph_of_ops [OpAddNode 100 100].

(** Nodes 0 and 1, then [renameNode(7, 9)] for a node 7 that does not
    exist, then an edge from 1 to the id 9 that no node carries. *)
Definition graph_stale : Graph :=
  graph_of_ops [OpAddNode 100 100; OpAddNode 200 100;
                OpRenameNode 7 9; OpAddEdge 1 9 false].

(** A check of adjacency symmetry that computes. *)
Definition adj_symmetricb (g : Graph) : bool :=
  bool_decide
    (map_Forall (λ a s, Forall (λ b, a ∈ default [] (adj g !! b)) s) (adj g)).

(** ** The path 0-1-2-3 *)

(** The edges of the path 0-1-2-3. *)
Definition path_edges : list (Z * Z) := [(0, 1); (1, 2); (2, 3)].

(** The neighbours of [a], in the order in which [adjacency[a]] lists
    them; none for an id without an entry. *)
Definition neighbours (g : Graph) (a : Z) : list Z := default [] (adj g !! a).

(** The graph with the nodes 0, 1, 2, 3 and the edges 0-1, 1-2, 2-3, as
    four calls of [addNode] and three of [addEdge] leave it, with its
    nodes in any order in the node list and the neighbours of a node in
    any order in its adjacency set. *)
Record is_path4 (g : Graph) : Prop := {
  p4_nodes : node_ids g ≡ₚ [0; 1; 2; 3];
  p4_next : nextId g = 4;
  p4_at0 : neighbours g 0 ≡ₚ [1];
  p4_at1 : neighbours g 1 ≡ₚ [0; 2];
  p4_at2 : neighbours g 2 ≡ₚ [1; 3];
  p4_at3 : neighbours g 3 ≡ₚ [2]
}.

(** The path with its nodes in the order [ids] and the neighbours of 1
    and of 2 in the orders [at1] and [at2]. *)
Definition path4_graph (ids at1 at2 : list Z) : Graph :=
  {| nodes := (λ i, mkNode i 0 0) <$> ids;
     adj := <[0 := [1]]> (<[1 := at1]> (<[2 := at2]> (<[3 := [2]]> ∅)));
     nextId := 4;
     edgeMap := [] |}.

(** Every order of the nodes and of the neighbours. *)
Definition path4_graphs : list Graph :=
  ids ← permutations [0; 1; 2; 3];
  at1 ← permutations [0; 2];
  at2 ← permutations [1; 3];
  [path4_graph ids at1 at2].

(** The canonical keys of a list of edges. *)
Definition keys_of (es : list (Z * Z)) : list string :=
  (λ e, edgeKey e.1 e.2) <$> es.

(** What [analyze] is to return on the path: the three edges as bridges
    and the nodes 1 and 2 as articulation points, in any order. *)
Definition path4_result (g : Graph) : bool :=
  match analyze g with
  | Done r =>
      bool_decide (keys_of (r_bridges r) ∈ permutations (keys_of path_edges))
      && bool_decide (articulationPoints r ∈ permutations [1; 2])
  | _ => false
  end.

(** The path with node 1 first in the node list, so that the traversal
    starts inside the path: four nodes, the ids 0 and 1 exchanged by way
    of -1, then the three edges. *)
Definition graph_path4 : Graph :=
  graph_of_ops [OpAddNode 100 100; OpAddNode 200 100;
                OpAddNode 300 100; OpAddNode 400 100;
                OpRenameNode 0 (-1); OpRenameNode 1 0; OpRenameNode (-1) 1;
                OpAddEdge 0 1 false; OpAddEdge 1 2 false; OpAddEdge 2 3 false].

(** Nodes 0 and 1 joined by an edge, then node 0 renamed to -1. *)
Definition graph_negative : Graph :=
  graph_of_ops [OpAddNode 100 100; OpAddNode 200 100;
                OpAddEdge 0 1 false; OpRenameNode 0 (-1)].

(** One node, renamed to the largest index an array can have. *)
Definition graph_far : Graph :=
  graph_of_ops [OpAddNode 100 100; OpRenameNode 0 4294967295].

(** ** Edges and components *)

(** The endpoints of the edges in the edge collection. *)
Definition edges_of (g : Graph) : list (Z * Z) :=
  (λ kv, (e_a kv.2, e_b kv.2)) <$> edgeMap g.

(** Two pairs that are the same undirected edge. *)
Definition same_edge (e e' : Z * Z) : Prop :=
  e = e' ∨ e = (e'.2, e'.1).

(** The edge [e] is one of the edges of the component [c]. *)
Definition in_component (e : Z * Z) (c : Comp) : Prop :=
  ∃ e', e' ∈ edges c ∧ same_edge e e'.

(** The edge part of a well-formed graph: the endpoints of every edge are
    nodes, no edge is a self-loop, and no two entries are the same edge. *)
Definition edges_well_formed (g : Graph) : Prop :=
  (∀ e, e ∈ edges_of g → e.1 ∈ node_ids g ∧ e.2 ∈ node_ids g ∧ e.1 ≠ e.2) ∧
  (∀ i j e e', edges_of g !! i = Some e → edges_of g !! j = Some e' →
               same_edge e e' → i = j).

(** ** The instrumented analysis with its intermediate states

    A copy of the instrumented analysis in which [pushStep] records, beside
    each step, the captured variables as they are at the moment the step is
    emitted. Forgetting these records gives back [analyzeWithSteps]. *)

Module Ghost.

(** The captured variables, with a log in place of [steps]. *)
Definition SState : Type := TState * list (Step * TState).

(** [pushStep(step)], which also logs the captured variables. *)
Definition pushStep (step : Step) (ss : SState) : SState :=
  (ss.1, ss.2 ++ [(step, ss.1)]).

Definition on_state (f : TState → TState) (ss : SState) : SState :=
  (f ss.1, ss.2).

(** The component-closing block of [dfs], with its [popComponent] step. *)
Definition close_component (u v : Z) (ss : SState) : SState :=
  let st := ss.1 in
  let '(compEdges, compVerts, rest) := pop_until u v (edgeStack st) [] [] in
  let st' := mkTState (disc st) (low st) (parent st) (ap st) (bridges st)
                      (components st) rest (time st) in
  match compEdges with
  | [] => (st', ss.2)
  | _ =>
      let idx := length (components st) in
      let st'' := mkTState (disc st) (low st) (parent st) (ap st) (bridges st)
                           (components st ++ [mkComp compEdges compVerts])
                           rest (time st) in
      pushStep (PopComponent idx ((λ e, (e.1, e.2)) <$> compEdges) compVerts)
               (st'', ss.2)
  end.

(** The block after a root's [dfs], with its [popComponent] step. *)
Definition close_root (ss : SState) : SState :=
  let st := ss.1 in
  match edgeStack st with
  | [] => ss
  | _ =>
      let '(compEdges, compVerts) := pop_all (edgeStack st) [] [] in
      let st' := mkTState (disc st) (low st) (parent st) (ap st) (bridges st)
                          (components st) [] (time st) in
      match compEdges with
      | [] => (st', ss.2)
      | _ =>
          let idx := length (components st) in
          let st'' := mkTState (disc st) (low st) (parent st) (ap st) (bridges st)
                               (components st ++ [mkComp compEdges compVerts])
                               [] (time st) in
          pushStep (PopComponent idx ((λ e, (e.1, e.2)) <$> compEdges) compVerts)
                   (st'', ss.2)
      end
  end.

(** [low[u] = Math.min(low[u], low[v])] and its [updateLow] step. *)
Definition relax_child (u v : Z) (ss : SState) : SState :=
  let ss := on_state (Plain.relax_child u v) ss in
  pushStep (UpdateLow u (low ss.1 !! u) (FromChild v)) ss.

(** [if (parent[u] === -1 && children > 1) { ap.add(u); pushStep(...) }] *)
Definition mark_root (u children : Z) (ss : SState) : SState :=
  if Js.seq (parent ss.1 !! u) (-1) && bool_decide (children > 1)
  then pushStep (MarkAP u) (on_state (add_ap u) ss) else ss.

(** [if (parent[u] !== -1 && low[v] >= disc[u]) { ap.add(u); pushStep(...) }] *)
Definition mark_cut (u v : Z) (ss : SState) : SState :=
  if negb (Js.seq (parent ss.1 !! u) (-1))
     && Js.ge (low ss.1 !! v) (disc ss.1 !! u)
  then pushStep (MarkAP u) (on_state (add_ap u) ss) else ss.

(** [if (low[v] > disc[u]) { bridges.push([u, v]); pushStep(...) }] *)
Definition mark_bridge (u v : Z) (ss : SState) : SState :=
  if Js.gt (low ss.1 !! v) (disc ss.1 !! u)
  then pushStep (MarkBridge u v) (on_state (add_bridge u v) ss) else ss.

(** [if (low[v] >= disc[u]) { ... }], the block that forms a component. *)
Definition close_block (u v : Z) (ss : SState) : SState :=
  if Js.ge (low ss.1 !! v) (disc ss.1 !! u) then close_component u v ss else ss.

(** [edgeStack.push([u, v]); pushStep({type:'pushEdge', ...})] *)
Definition push_edge_step (u v : Z) (back : bool) (ss : SState) : SState :=
  pushStep (PushEdge u v back) (on_state (push_edge u v) ss).

(** [low[u] = Math.min(low[u], disc[v])] and its [updateLow] step. *)
Definition relax_back (u v : Z) (ss : SState) : SState :=
  let ss := on_state (Plain.relax_back u v) ss in
  pushStep (UpdateLow u (low ss.1 !! u) (BackTo v)) ss.

(** [disc[u] = low[u] = ++time] and its [visit] step. *)
Definition enter_step (u : Z) (ss : SState) : SState :=
  let ss := on_state (enter u) ss in
  pushStep (Visit u (disc ss.1 !! u) (low ss.1 !! u)) ss.

(** One iteration of [for (const v of neighbors)] in [dfs(u)]. *)
Definition visit_neighbor (rec : Z → SState → option SState)
    (nodesPresent : list Z) (u v : Z) (cs : Z * SState) : option (Z * SState) :=
  let '(children, ss) := cs in
  if negb (JsSet.has v nodesPresent) then Some (children, ss)
  else if Js.seq (disc ss.1 !! v) (-1) then
    let children := children + 1 in
    match rec v (push_edge_step u v false (on_state (set_parent v u) ss)) with
    | None => None
    | Some ss =>
        Some (children,
              close_block u v
                (mark_bridge u v
                   (mark_cut u v
                      (mark_root u children
                         (relax_child u v ss)))))
    end
  else if bool_decide (parent ss.1 !! u ≠ Some v)
          && Js.lt (disc ss.1 !! v) (disc ss.1 !! u) then
    Some (children, relax_back u v (push_edge_step u v true ss))
  else Some (children, ss).

(** The closure [dfs]. *)
Fixpoint dfs (fuel : nat) (g : Graph) (nodesPresent : list Z)
    (u : Z) (ss : SState) : option SState :=
  match fuel with
  | O => None
  | S fuel' =>
      let children := 0 in
      let neighbors := default [] (adj g !! u) in
      snd <$> for_each (visit_neighbor (dfs fuel' g nodesPresent) nodesPresent u)
                       neighbors (children, enter_step u ss)
  end.

(** One iteration of [for (const node of this.nodes)]. *)
Definition visit_root (fuel : nat) (g : Graph) (nodesPresent : list Z)
    (node : Node) (ss : SState) : option SState :=
  if Js.seq (disc ss.1 !! n_id node) (-1) then
    match dfs fuel g nodesPresent (n_id node) ss with
    | None => None
    | Some ss => Some (close_root ss)
    end
  else Some ss.

End Ghost.

(** [analyzeWithSteps()] with the state at each emission. *)
Definition analyzeWithSteps_log (g : Graph) : run (TState * list (Step * TState)) :=
  match init_state g with
  | None => RangeError
  | Some st =>
      match for_each (Ghost.visit_root (S (length (nodes g))) g (nodesPresent_of g))
                     (nodes g) (st, []) with
      | None => OutOfFuel
      | Some ss => Done ss
      end
  end.

(** Forgetting the recorded states. *)
Definition erase (ss : Ghost.SState) : Traced.SState := (ss.1, fst <$> ss.2).
Definition erase_loop (cs : Z * Ghost.SState) : Z * Traced.SState :=
  (cs.1, erase cs.2).

(** The nodes the traversal has entered: those whose discovery time is
    set. *)
Definition discovered (st : TState) (u : Z) : Prop :=
  ∃ d, disc st !! u = Some d ∧ d ≠ -1.

(** The edges the traversal has pushed so far: those on the stack and
    those already popped into a component. *)
Definition pushed_so_far (st : TState) : list (Z * Z) :=
  edgeStack st ++ concat (edges <$> components st).

(** All the steps replayed. *)
Definition replay (steps : list Step) : Replay :=
  foldl replay_step replay_init steps.

(** What the replayed view shows of a state of the traversal: the visited
    nodes are the entered ones, and the keys of the pushed edges are those
    of the edges pushed so far. *)
Definition view_matches (rp : Replay) (st : TState) : Prop :=
  (∀ u, u ∈ visitedNodes rp ↔ discovered st u) ∧
  (∀ k, k ∈ pushedEdges rp ↔ k ∈ keys_of (pushed_so_far st)).

(** Two states the view cannot tell apart. *)
Definition same_view (st st' : TState) : Prop :=
  (∀ u, discovered st u ↔ discovered st' u) ∧
  (∀ k, k ∈ keys_of (pushed_so_far st) ↔ k ∈ keys_of (pushed_so_far st')).

(** Every prefix of the log replays to a view of the state recorded at its
    last step. *)
Definition log_faithful (log : list (Step * TState)) : Prop :=
  ∀ i s st, log !! i = Some (s, st) →
            view_matches (replay (take (S i) (fst <$> log))) st.

(** The invariant of the logged traversal. *)
Definition ghost_inv (ss : Ghost.SState) : Prop :=
  0 ≤ time ss.1 ∧ view_matches (replay (fst <$> ss.2)) ss.1 ∧ log_faithful ss.2.

(** The steps that change neither the visited nodes nor the pushed edges
    of the replayed view. *)
Definition neutral (s : Step) : Prop :=
  match s with
  | Visit _ _ _ | PushEdge _ _ _ => False
  | _ => True
  end.

(** ** The edges the traversal pushes *)

(** An edge with its smaller endpoint first. *)
Definition norm (e : Z * Z) : Z * Z := (Z.min e.1 e.2, Z.max e.1 e.2).

(** All the edges of the components of a result. *)
Definition component_edges (r : Result) : list (Z * Z) :=
  concat (edges <$> r_components r).

(** Every edge at [x] towards a present node has been pushed. *)
Definition complete (g : Graph) (P : list Z) (st : TState) (x : Z) : Prop :=
  ∀ y, adjacent g x y → y ∈ P → norm (x, y) ∈ norm <$> pushed_so_far st.

(** A pushed edge [(x, y)] joins two entered nodes and is either the tree
    edge by which [y] was entered or an edge back to an older node. *)
Definition edge_ok (st : TState) (x y : Z) : Prop :=
  ∃ dx dy, disc st !! x = Some dx ∧ disc st !! y = Some dy ∧
           dx ≠ -1 ∧ dy ≠ -1 ∧
           ((parent st !! y = Some x ∧ dx < dy) ∨ dy < dx).

(** The invariant of the traversal on the discovery times, the parents and
    the pushed edges. *)
Record core_inv (g : Graph) (P : list Z) (st : TState) : Prop := {
  ci_dom : ∀ x, x ∈ P → is_Some (disc st !! x);
  ci_time : 0 ≤ time st;
  ci_clock : ∀ x d, disc st !! x = Some d → d = -1 ∨ 1 ≤ d ≤ time st;
  ci_inj : ∀ x y d, disc st !! x = Some d → disc st !! y = Some d →
                    d ≠ -1 → x = y;
  ci_edge : ∀ x y, (x, y) ∈ pushed_so_far st →
                   x ∈ P ∧ y ∈ P ∧ adjacent g x y ∧ edge_ok st x y;
  ci_nodup : NoDup (norm <$> pushed_so_far st);
  ci_tree : ∀ x p, discovered st x → parent st !! x = Some p → p ≠ -1 →
                   (p, x) ∈ pushed_so_far st;
  ci_root : ∀ x p, disc st !! x = Some (-1) → parent st !! x = Some p → p = -1
}.

(** What a stretch of the traversal that starts in [s] keeps: the clock
    only advances, the entered nodes keep their time and their parent, the
    nodes entered since have a later time, the pushed edges stay, and a
    new edge starts at a node entered at or after the time of [s]. *)
Record frame (s st : TState) : Prop := {
  fr_time : time s ≤ time st;
  fr_disc : ∀ x d, disc s !! x = Some d → d ≠ -1 →
                   disc st !! x = Some d ∧ parent st !! x = parent s !! x;
  fr_fresh : ∀ x d, disc st !! x = Some d → d ≠ -1 →
                    disc s !! x = Some d ∨ time s < d;
  fr_old : ∀ e, e ∈ pushed_so_far s → e ∈ pushed_so_far st;
  fr_new : ∀ x y, (x, y) ∈ pushed_so_far st →
                  (x, y) ∈ pushed_so_far s ∨
                  ∃ d, disc st !! x = Some d ∧ time s ≤ d
}.

(** The nodes entered after the time [t] are complete. *)
Definition complete_after (g : Graph) (P : list Z) (t : Z) (st : TState) : Prop :=
  ∀ x d, disc st !! x = Some d → t < d → complete g P st x.

(** Two states with the same times and parents and the same pushed edges,
    in some order. *)
Definition same_core (st st' : TState) : Prop :=
  disc st' = disc st ∧ parent st' = parent st ∧ time st' = time st ∧
  pushed_so_far st' ≡ₚ pushed_so_far st.

(** The invariant of the loop over the neighbours of [u], the node entered
    in the state [s1], when the neighbours [rest] are still to come. *)
Record loop_inv (g : Graph) (P : list Z) (u : Z) (s1 : TState)
    (rest : list Z) (st : TState) : Prop := {
  li_self : u ∈ P ∧ disc s1 !! u = Some (time s1) ∧ 1 ≤ time s1;
  li_adj : ∀ y, y ∈ rest → adjacent g u y;
  li_core : core_inv g P st;
  li_frame : frame s1 st;
  li_after : complete_after g P (time s1) st;
  li_rest : ∀ y, y ∈ rest → (u, y) ∉ pushed_so_far st;
  li_done : ∀ y, adjacent g u y → y ∈ P → y ∉ rest →
                 norm (u, y) ∈ norm <$> pushed_so_far st
}.

(** What the analysis needs of the graph: every present id is an index of
    the arrays, adjacency is symmetric and irreflexive, and the adjacency
    sets have no duplicate. *)
Record traversable (g : Graph) (P : list Z) : Prop := {
  tr_range : ∀ x, x ∈ P → 0 ≤ x < nextId g;
  tr_sym : adj_symmetric g;
  tr_irrefl : ∀ x, ¬ adjacent g x x;
  tr_nodup : ∀ x s, adj g !! x = Some s → NoDup s
}.

(** What a call of [dfs] for [w], started in [s0], establishes. *)
Definition dfs_post (g : Graph) (P : list Z) (w : Z) (s0 st' : TState) : Prop :=
  core_inv g P st' ∧ frame (enter w s0) st' ∧ complete_after g P (time s0) st'.

(** The invariant of the loop over the roots: between two roots the edge
    stack is empty and every entered node is complete. *)
Definition root_inv (g : Graph) (P : list Z) (st : TState) : Prop :=
  core_inv g P st ∧ complete_after g P 0 st ∧ edgeStack st = [].

(** Invariant (c) of the data model: the edge collection and the adjacency
    index hold the same edges. *)
Definition edges_match_adjacency (g : Graph) : Prop :=
  ∀ x y, adjacent g x y ↔ ∃ e, e ∈ edges_of g ∧ same_edge (x, y) e.

(** The adjacency sets are sets: no neighbour is listed twice. *)
Definition adj_sets (g : Graph) : Prop :=
  ∀ x s, adj g !! x = Some s → NoDup s.

(** The node ids are array indices as far as their sign goes. *)
Definition ids_nonnegative (g : Graph) : Prop :=
  ∀ i, i ∈ node_ids g → 0 ≤ i.


(** ** Checks that compute *)

(** The adjacency part of a well-formed graph with ids that are array
    indices, as a check: [graph_inv], [adj_sets] and [ids_nonnegative]. *)
Definition model_invb (g : Graph) : bool :=
  adj_symmetricb g
  && bool_decide (map_Forall (λ a s, a ∈ node_ids g ∧ a ∉ s ∧ NoDup s) (adj g))
  && bool_decide (Forall (λ i, is_Some (adj g !! i) ∧ 0 ≤ i < nextId g)
                         (node_ids g)).

(** [edges_match_adjacency] as a check. *)
Definition edges_match_adjacencyb (g : Graph) : bool :=
  bool_decide (map_Forall (λ a s,
                 Forall (λ b, norm (a, b) ∈ norm <$> edges_of g) s) (adj g))
  && bool_decide (Forall (λ e, e.2 ∈ default [] (adj g !! e.1)
                               ∧ e.1 ∈ default [] (adj g !! e.2))
                         (edges_of g)).

(** [edges_well_formed] as a check. *)
Definition edges_well_formedb (g : Graph) : bool :=
  bool_decide (Forall (λ e, e.1 ∈ node_ids g ∧ e.2 ∈ node_ids g ∧ e.1 ≠ e.2)
                      (edges_of g))
  && bool_decide (NoDup (norm <$> edges_of g)).

(** A triangle 0-1-2 with a tail 2-3: two blocks, one cut vertex. *)
Definition graph_triangle_tail : Graph :=
  graph_of_ops [OpAddNode 100 100; OpAddNode 200 100;
                OpAddNode 150 200; OpAddNode 150 300;
                OpAddEdge 0 1 false; OpAddEdge 1 2 false;
                OpAddEdge 2 0 false; OpAddEdge 2 3 false].

(** Nodes 0 and 1 with an undirected and a directed edge between them,
    then the directed one deleted: the undirected edge is left in the edge
    collection and the adjacency sets are empty. *)
Definition graph_unlinked : Graph :=
  graph_of_ops [OpAddNode 100 100; OpAddNode 200 100;
                OpAddEdge 0 1 false; OpAddEdge 0 1 true;
                OpDeleteEdge 0 1 true].


(** ** Keys *)

(** The characters ["0"] to ["9"]. *)
Definition is_digit (c : ascii) : bool :=
  (48 <=? nat_of_ascii c)%nat && (nat_of_ascii c <=? 57)%nat.

(** The characters of a string are all digits. *)
Fixpoint all_digits (s : string) : bool :=
  match s with
  | EmptyString => true
  | String c s' => is_digit c && all_digits s'
  end.

(** The key the model files an edge object under: [`${a}>${b}`] for a
    directed one, [`${a}-${b}`] for an undirected one. *)
Definition key_of (e : Edge) : string :=
  if e_directed e then directedKey (e_a e) (e_b e)
  else (string_of_Z (e_a e) ++ "-" ++ string_of_Z (e_b e))%string.

(** The endpoints of an edge object. *)
Definition ends (e : Edge) : Z * Z := (e_a e, e_b e).

(** ** The edge collection of a well-formed graph *)

(** Every entry is filed under the key of its edge object, an undirected
    entry has its smaller endpoint first, the endpoints of an entry are two
    different nodes, and every pair of the adjacency index is the pair of
    some entry. *)
Record edges_inv (g : Graph) : Prop := {
  ei_nodup : NoDup (edgeMap g).*1;
  ei_key : ∀ k e, (k, e) ∈ edgeMap g → k = key_of e;
  ei_order : ∀ k e, (k, e) ∈ edgeMap g → e_directed e = false → e_a e < e_b e;
  ei_ends : ∀ k e, (k, e) ∈ edgeMap g →
                   e_a e ∈ node_ids g ∧ e_b e ∈ node_ids g ∧ e_a e ≠ e_b e;
  ei_backed : ∀ x y, adjacent g x y →
                     ∃ k e, (k, e) ∈ edgeMap g ∧ norm (ends e) = norm (x, y)
}.

(** [a === oldId ? newId : a] *)
Definition rename_id (oldId newId i : Z) : Z :=
  if decide (i = oldId) then newId else i.

(** The edge object [renameNode] files in place of [e]. *)
Definition renamed (oldId newId : Z) (e : Edge) : Edge :=
  let a := rename_id oldId newId (e_a e) in
  let b := rename_id oldId newId (e_b e) in
  if e_directed e then mkEdge a b true
  else mkEdge (Z.min a b) (Z.max a b) false.

(** [edges_inv] as a check. *)
Definition edges_invb (g : Graph) : bool :=
  bool_decide (NoDup (edgeMap g).*1)
  && bool_decide (Forall (λ kv : string * Edge,
       kv.1 = key_of kv.2 ∧ (e_directed kv.2 = false → e_a kv.2 < e_b kv.2) ∧
       e_a kv.2 ∈ node_ids g ∧ e_b kv.2 ∈ node_ids g ∧ e_a kv.2 ≠ e_b kv.2)
       (edgeMap g))
  && bool_decide (map_Forall (λ a s,
       Forall (λ b, norm (a, b) ∈ (λ kv : string * Edge, norm (ends kv.2))
                                    <$> edgeMap g) s) (adj g)).


(** Nodes 0 and 1 and no edge. *)
Definition graph_two_nodes : Graph :=
  graph_of_ops [OpAddNode 100 100; OpAddNode 200 100].

(** The edge object a call [addEdge(a, b, directed)] or
    [deleteEdge(a, b, directed)] is about. *)
Definition edge_of_call (a b : Z) (directed : bool) : Edge :=
  if directed then mkEdge a b true
  else mkEdge (Z.min a b) (Z.max a b) false.


(** ** Export and import *)

(** An element of the [edges] array of an exported graph:
    [{a, b, directed, key}]. *)
Record JsonEdge := mkJsonEdge {
  je_a : Z; je_b : Z; je_directed : bool; je_key : string
}.

(** The object [{nodes, edges}] that [toJSON] hands to [JSON.stringify]
    and that [fromJSON] gets from its caller, or from [JSON.parse] when it
    is called with a string: [nodes] an array of node objects with numbers
    [id], [x] and [y], [edges] an array of edge objects with numbers [a]
    and [b] and the boolean that [!!e.directed] makes of [directed]. An
    object of another shape, with a list missing or a [null] in a list, is
    outside the model: on it [fromJSON] throws a [TypeError], which its
    caller in [app.js] reports as a failed import. *)
Record JsonData := mkJsonData {
  jd_nodes : list Node;
  jd_edges : list JsonEdge
}.

(** [toJSON()], up to the call of [JSON.stringify]. *)
Definition toJSON_data (g : Graph) : JsonData :=
  {| jd_nodes := nodes g;
     jd_edges := (λ kv : string * Edge,
                    mkJsonEdge (e_a kv.2) (e_b kv.2) (e_directed kv.2) kv.1)
                 <$> edgeMap g |}.

(** [const id = g.addNode(nd.x, nd.y); mapping.set(nd.id, id)] *)
Definition import_node (st : gmap Z Z * Graph) (nd : Node) : gmap Z Z * Graph :=
  let '(id, g') := addNode (n_x nd) (n_y nd) st.2 in
  (<[n_id nd := id]> st.1, g').

(** [if (a !== undefined && b !== undefined) g.addEdge(a, b, directed)]
    for [a = mapping.get(e.a)] and [b = mapping.get(e.b)]; [None] is the
    [TypeError] of an [addEdge] that throws. *)
Definition import_edge (mapping : gmap Z Z) (e : JsonEdge) (g : Graph)
  : option Graph :=
  match mapping !! je_a e, mapping !! je_b e with
  | Some a, Some b =>
      match addEdge a b (je_directed e) g with
      | Returned _ g' => Some g'
      | Threw _ => None
      end
  | _, _ => Some g
  end.

(** [Graph.fromJSON(data)] for an object [data]. *)
Definition fromJSON_data (data : JsonData) : option Graph :=
  let g0 := clear empty_graph in
  let '(mapping, g1) := foldl import_node (∅, g0) (jd_nodes data) in
  for_each (import_edge mapping) (jd_edges data) g1.

(** Every entry of the edge map joins two neighbours. *)
Definition edges_adjacent (g : Graph) : Prop :=
  ∀ k e, (k, e) ∈ edgeMap g → adjacent g (e_a e) (e_b e).

(** The node objects [fromJSON] creates for the node objects [ns]: ids
    from [first] on, in order, with the positions of [ns]. *)
Definition renumbered (first : Z) (ns : list Node) : list Node :=
  zip_with (λ id nd, mkNode id (n_x nd) (n_y nd))
           (seqZ first (Z.of_nat (length ns))) ns.

(** The entry [fromJSON] files for an exported entry whose endpoints the
    mapping sends to [rho]. *)
Definition relabelled (rho : Z → Z) (kv : string * Edge) : string * Edge :=
  let e' := edge_of_call (rho (e_a kv.2)) (rho (e_b kv.2)) (e_directed kv.2) in
  (key_of e', e').

(** The number a mapping gives an id. *)
Definition mapped (m : gmap Z Z) (i : Z) : Z := default 0 (m !! i).

(** The mapping [fromJSON] builds for the node objects [ns]. *)
Definition import_mapping (ns : list Node) : gmap Z Z :=
  (foldl import_node (∅, clear empty_graph) ns).1.

(** [v] is the place of the last node object of [ns] whose id is [i]. *)
Definition last_with_id (ns : list Node) (i v : Z) : Prop :=
  ∃ (k : nat) nd, ns !! k = Some nd ∧ n_id nd = i ∧ v = Z.of_nat k ∧
                  ∀ (j : nat) nd', ns !! j = Some nd' → n_id nd' = i → (j ≤ k)%nat.

(** The edge object that [fromJSON] asks [addEdge] to file for the edge
    object [je], when the mapping knows both its endpoints and sends them
    to two different nodes. *)
Definition imported (m : gmap Z Z) (je : JsonEdge) (E : Edge) : Prop :=
  ∃ a b, m !! je_a je = Some a ∧ m !! je_b je = Some b ∧ a ≠ b ∧
         E = edge_of_call a b (je_directed je).


(** ** Helpers of [app.js] *)

(** [dx*dx + dy*dy] for the node [n] and the point [(x, y)]; positions
    are whole numbers of pixels here, and the arithmetic is that of
    integers, which is the program's under [exact_sqdist] below. *)
Definition sqdist (x y : Z) (n : Node) : Z :=
  let dx := n_x n - x in
  let dy := n_y n - y in
  dx * dx + dy * dy.

(** The body of the loop of [findNearestNodeId]. The state is [best] and
    [bestd]; [None] stands for [null] and for [Infinity]. *)
Definition nearer (x y : Z) (st : option Z * option Z) (n : Node)
  : option Z * option Z :=
  let d := sqdist x y n in
  if match st.2 with
     | None => true
     | Some bestd => bool_decide (d < bestd)
     end
  then (Some (n_id n), Some d) else st.

(** [findNearestNodeId(x, y)] *)
Definition findNearestNodeId (x y : Z) (g : Graph) : option Z :=
  (foldl (nearer x y) (None, None) (nodes g)).1.

(** The program computes [sqdist] exactly: both differences are at most
    [2^26] in absolute value, so that their squares and the sum of these
    are integers up to [2^53], which a number holds without rounding. *)
Definition exact_sqdist (x y : Z) (n : Node) : Prop :=
  Z.abs (n_x n - x) ≤ 67108864 ∧ Z.abs (n_y n - y) ≤ 67108864.

(** The node at place [k] of [ns] is nearest to [(x, y)], and the first of
    the nearest. *)
Definition first_nearest (x y : Z) (ns : list Node) (k : nat) (n : Node) : Prop :=
  ns !! k = Some n ∧
  ∀ j n', ns !! j = Some n' →
          sqdist x y n ≤ sqdist x y n' ∧ ((j < k)%nat → sqdist x y n < sqdist x y n').

(** [s.replace(/c/g, r)] for a character [c] and a replacement [r] that
    has no [$] in it. *)
Fixpoint replace_all (c : ascii) (r : string) (s : string) : string :=
  match s with
  | EmptyString => EmptyString
  | String c' s' =>
      if Ascii.eqb c' c then (r ++ replace_all c r s')%string
      else String c' (replace_all c r s')
  end.

(** [escapeHtml(str)] for a string [str] *)
Definition escapeHtml (str : string) : string :=
  replace_all ">" "&gt;" (replace_all "<" "&lt;" (replace_all "&" "&amp;" str)).

(** What one character is written as. *)
Definition escape_char (c : ascii) : string :=
  if Ascii.eqb c "&" then "&amp;"%string
  else if Ascii.eqb c "<" then "&lt;"%string
  else if Ascii.eqb c ">" then "&gt;"%string
  else String c EmptyString.

(** Every character written as [escape_char] writes it, in one pass. *)
Fixpoint escape_each (s : string) : string :=
  match s with
  | EmptyString => EmptyString
  | String c s' => (escape_char c ++ escape_each s')%string
  end.

(** The character [c] occurs in [s]. *)
Fixpoint occurs (c : ascii) (s : string) : bool :=
  match s with
  | EmptyString => false
  | String c' s' => Ascii.eqb c' c || occurs c s'
  end.


(** ** The end of the trace *)

(** The entries of [formedComps] for the components [comps]: the index,
    the keys of the edges and the colour of each. *)
Definition formed_of (comps : list Comp) : list FormedComp :=
  imap (λ i c, mkFormedComp i (keys_of (edges c)) (colorForIndex i)) comps.

(** The replay of the steps recorded so far shows the articulation
    points, the bridges and the components found so far. *)
Definition replay_matches (ss : Traced.SState) : Prop :=
  aps (replay ss.2) = ap ss.1 ∧
  rp_bridges (replay ss.2) = bridges ss.1 ∧
  formedComps (replay ss.2) = formed_of (components ss.1).

(** ** What a result is made of *)

(** A component as the traversal forms it: at least one edge, and as
    vertices the endpoints of its edges, each once. *)
Definition comp_shaped (c : Comp) : Prop :=
  edges c ≠ [] ∧ NoDup (verts c) ∧
  ∀ x, x ∈ verts c ↔ ∃ e, e ∈ edges c ∧ (x = e.1 ∨ x = e.2).

(** The state of a traversal of [g] over the present nodes [P] holds
    nothing that is not of the graph: every pushed edge joins two present
    nodes that are neighbours, every bridge is a pushed edge, every
    articulation point is a present node and is listed once, and every
    component is shaped as above. *)
Definition sound_state (g : Graph) (P : list Z) (st : TState) : Prop :=
  (∀ x y, (x, y) ∈ pushed_so_far st → x ∈ P ∧ y ∈ P ∧ adjacent g x y) ∧
  (∀ b, b ∈ bridges st → b ∈ pushed_so_far st) ∧
  (∀ a, a ∈ ap st → a ∈ P) ∧
  NoDup (ap st) ∧
  Forall comp_shaped (components st).

(** No pushed edge is lost from one state to the other. *)
Definition pushed_grows (ss ss' : Traced.SState) : Prop :=
  ∀ e, e ∈ pushed_so_far ss.1 → e ∈ pushed_so_far ss'.1.

(** ** The visits of a trace *)

(** The nodes of the [visit] steps of a trace, in order. *)
Definition visited_in (steps : list Step) : list Z :=
  omap (λ s, match s with Visit u _ _ => Some u | _ => None end) steps.

(** [s.type === 'visit'] *)
Definition is_visit (s : Step) : bool :=
  match s with Visit _ _ _ => true | _ => false end.

(** The [visit] steps of a trace, in order. *)
Definition visit_steps (steps : list Step) : list Step :=
  filter (λ s, is_visit s = true) steps.

(** The [visit] steps of a traversal that enters the nodes [order] one
    after the other: the [k]-th carries the number [k], counted from 1, as
    [disc] and as [low]. *)
Definition stamped (order : list Z) : list Step :=
  imap (λ k u, Visit u (Some (Z.of_nat k + 1)) (Some (Z.of_nat k + 1))) order.

(** The [visit] steps recorded so far are those of the nodes entered so
    far, each once and stamped in order. *)
Definition visits_match (P : list Z) (bound : Z) (ss : Traced.SState) : Prop :=
  visit_steps ss.2 = stamped (visited_in ss.2) ∧
  time ss.1 = Z.of_nat (length (visited_in ss.2)) ∧
  NoDup (visited_in ss.2) ∧
  (∀ u, u ∈ visited_in ss.2 ↔ discovered ss.1 u) ∧
  (∀ u, u ∈ visited_in ss.2 → u ∈ P) ∧
  (∀ i, 0 ≤ i < bound → is_Some (disc ss.1 !! i)).

(** From one state to the other no [visit] step was recorded and no
    discovery time set. *)
Definition no_visit (ss ss' : Traced.SState) : Prop :=
  visit_steps ss'.2 = visit_steps ss.2 ∧ visited_in ss'.2 = visited_in ss.2 ∧
  disc ss'.1 = disc ss.1 ∧ time ss'.1 = time ss.1.

(** ** The edge-to-component map *)

(** One entry per edge of every component, in the order of the components
    and of their edges: the key of the edge and the index of the
    component. *)
Definition indexed_keys (comps : list Comp) : list (string * nat) :=
  concat (imap (λ i c, (λ e : Z * Z, (edgeKey e.1 e.2, i)) <$> edges c) comps).


(** ** Graphs drawn in the page *)

(** Every entry of the edge map is an undirected edge. *)
Definition all_undirected (g : Graph) : Prop :=
  ∀ k e, (k, e) ∈ edgeMap g → e_directed e = false.

(** A call as the page makes it: [addEdge] and [deleteEdge] without the
    [directed] argument. *)
Definition undirected_op (op : Op) : Prop :=
  match op with
  | OpAddEdge _ _ d | OpDeleteEdge _ _ d => d = false
  | _ => True
  end.

(** The graphs that calls of the model build from [new Graph()] when every
    call returns, no edge is added or deleted as a directed one, every
    renaming names a node, and every increment of an id is exact. *)
Inductive drawn : Graph → Prop :=
| drawn_new : drawn empty_graph
| drawn_exec op g r g' :
    drawn g → undirected_op op → names_node g op → increments_exact g op →
    exec op g = Returned r g' → drawn g'.

(** What holds of every drawn graph. *)
Record drawn_inv (g : Graph) : Prop := {
  di_graph : graph_inv g;
  di_edges : edges_inv g;
  di_adjacent : edges_adjacent g;
  di_undirected : all_undirected g;
  di_sets : adj_sets g
}.

(** [exact_succ] as a check. *)
Definition exact_succb (x : Z) : bool :=
  bool_decide (-9007199254740992 ≤ x < 9007199254740992).

(** One call of a drawing session; [None] when the call is not one the
    page makes, leaves the range of exact ids, or throws. *)
Definition drawn_step (op : Op) (g : Graph) : option Graph :=
  if match op with
     | OpAddNode _ _ => exact_succb (nextId g)
     | OpAddEdge _ _ d | OpDeleteEdge _ _ d => negb d
     | OpRenameNode oldId newId =>
         bool_decide (oldId ∈ node_ids g) && exact_succb newId
     | _ => true
     end
  then match exec op g with
       | Returned _ g' => Some g'
       | Threw _ => None
       end
  else None.

(** The graphs that calls of the model build from [new Graph()], whatever
    their arguments and however they end, as long as every increment of an
    id is exact. *)
Inductive reachable_exact : Graph → Prop :=
| reachable_exact_new : reachable_exact empty_graph
| reachable_exact_exec op g :
    reachable_exact g → increments_exact g op →
    reachable_exact (graph_after (exec op g)).

(** ** [randomGraph]

    [Math.random()] is no function of the state of the program: the model
    takes what its calls gave as arguments. [pos i] is the position computed
    for the node at place [i] of the node list, and [coin i j] tells whether
    the number drawn for the pair [i < j] was below [p]. Every place and
    every pair is visited once, so that each call has its own argument. *)

(** [for (let i = 0; i < n; i++) g.addNode()], with the default position of
    [addNode]. *)
Definition add_nodes (n : Z) (g : Graph) : Graph :=
  foldl (λ g _, (addNode 100 100 g).2) g (seqZ 0 n).

(** [g.nodes.forEach((nd, i) => { nd.x = ...; nd.y = ...; })] *)
Definition place_nodes (pos : nat → Z * Z) (g : Graph) : Graph :=
  {| nodes := imap (λ i nd, mkNode (n_id nd) (pos i).1 (pos i).2) (nodes g);
     adj := adj g; nextId := nextId g; edgeMap := edgeMap g |}.

(** [if (Math.random() < p) g.addEdge(i, j, false)]; [None] when [addEdge]
    throws. *)
Definition maybe_edge (coin : Z → Z → bool) (i j : Z) (g : Graph)
  : option Graph :=
  if coin i j then
    match addEdge i j false g with
    | Returned _ g' => Some g'
    | Threw _ => None
    end
  else Some g.

(** [Graph.randomGraph(n, p)] for an integer [n]. *)
Definition randomGraph (n : Z) (pos : nat → Z * Z) (coin : Z → Z → bool)
  : option Graph :=
  for_each (λ i, for_each (maybe_edge coin i) (seqZ (i + 1) (n - (i + 1))))
           (seqZ 0 n)
           (place_nodes pos (add_nodes n empty_graph)).

(** The pairs the two loops of [randomGraph] visit, in order. *)
Definition pairs_below (n : Z) : list (Z * Z) :=
  i ← seqZ 0 n; (λ j, (i, j)) <$> seqZ (i + 1) (n - (i + 1)).

(** Three nodes with every draw for an edge below [p]: a triangle. *)
Definition graph_random_triangle : Graph :=
  default empty_graph (randomGraph 3 (λ i, (150 + Z.of_nat i, 80)) (λ _ _, true)).

(** The triangle after node 1 was deleted, a node was added and joined to
    node 0. *)
Definition graph_random_edited : Graph :=
  default empty_graph
    (for_each drawn_step
       [OpDeleteNode 1; OpAddNode 300 200; OpAddEdge 3 0 false]
       graph_random_triangle).

(** * Properties *)

(** ** The two analyses compute the same result *)

Lemma for_each_proj {A S T : Type} (proj : S → T)
    (bodyS : A → S → option S) (bodyT : A → T → option T) (l : list A) :
  (∀ a s, proj <$> bodyS a s = bodyT a (proj s)) →
  ∀ s, proj <$> for_each bodyS l s = for_each bodyT l (proj s).
Proof.
  intros Hbody. induction l as [|a l IH]; intros s; simpl; [done|].
  specialize (Hbody a s).
  destruct (bodyS a s) as [s'|]; simpl in Hbody; rewrite <- Hbody; [apply IH|done].
Qed.

Lemma close_component_forget u v ss :
  (Traced.close_component u v ss).1 = close_component u v ss.1.
Proof.
  unfold Traced.close_component, close_component.
  destruct (pop_until u v (edgeStack ss.1) [] []) as [[ce cv] rest].
  destruct ce; reflexivity.
Qed.

Lemma close_root_forget ss :
  (Traced.close_root ss).1 = close_root ss.1.
Proof.
  unfold Traced.close_root, close_root.
  destruct (edgeStack ss.1); [done|].
  destruct (pop_all _ [] []) as [ce cv].
  destruct ce; reflexivity.
Qed.

Lemma relax_child_forget u v ss :
  (Traced.relax_child u v ss).1 = Plain.relax_child u v ss.1.
Proof. done. Qed.

Lemma mark_root_forget u c ss :
  (Traced.mark_root u c ss).1 = Plain.mark_root u c ss.1.
Proof. unfold Traced.mark_root, Plain.mark_root. by destruct (_ && _). Qed.

Lemma mark_cut_forget u v ss :
  (Traced.mark_cut u v ss).1 = Plain.mark_cut u v ss.1.
Proof. unfold Traced.mark_cut, Plain.mark_cut. by destruct (_ && _). Qed.

Lemma mark_bridge_forget u v ss :
  (Traced.mark_bridge u v ss).1 = Plain.mark_bridge u v ss.1.
Proof. unfold Traced.mark_bridge, Plain.mark_bridge. by destruct (Js.gt _ _). Qed.

Lemma close_block_forget u v ss :
  (Traced.close_block u v ss).1 = Plain.close_block u v ss.1.
Proof.
  unfold Traced.close_block, Plain.close_block.
  destruct (Js.ge _ _); [apply close_component_forget|done].
Qed.

Lemma visit_neighbor_forget recS rec P u v cs :
  (∀ w ss, fst <$> recS w ss = rec w ss.1) →
  forget <$> Traced.visit_neighbor recS P u v cs
  = Plain.visit_neighbor rec P u v (forget cs).
Proof.
  intros Hrec. destruct cs as [children ss].
  unfold Traced.visit_neighbor, Plain.visit_neighbor, forget. cbn [fst snd].
  destruct (negb (JsSet.has v P)); [done|].
  destruct (Js.seq (disc ss.1 !! v) (-1)).
  - pose proof (Hrec v (Traced.push_edge_step u v false
                          (Traced.on_state (set_parent v u) ss))) as Hcall.
    change ((Traced.push_edge_step u v false
               (Traced.on_state (set_parent v u) ss)).1)
      with (push_edge u v (set_parent v u ss.1)) in Hcall.
    rewrite <- Hcall.
    destruct (recS v _) as [ss'|]; [|done].
    cbn [fmap option_fmap option_map fst snd]. do 2 f_equal.
    by rewrite close_block_forget, mark_bridge_forget, mark_cut_forget,
      mark_root_forget, relax_child_forget.
  - by destruct (_ && _).
Qed.

Lemma dfs_forget fuel g P :
  ∀ u ss, fst <$> Traced.dfs fuel g P u ss = Plain.dfs fuel g P u ss.1.
Proof.
  induction fuel as [|fuel IH]; intros u ss; [done|].
  cbn [Traced.dfs Plain.dfs].
  pose proof (for_each_proj forget
    (Traced.visit_neighbor (Traced.dfs fuel g P) P u)
    (Plain.visit_neighbor (Plain.dfs fuel g P) P u)
    (default [] (adj g !! u))
    (λ a s, visit_neighbor_forget _ _ P u a s IH)
    (0, Traced.enter_step u ss)) as Hloop.
  change (forget (0, Traced.enter_step u ss)) with (0, enter u ss.1) in Hloop.
  rewrite <- Hloop.
  destruct (for_each _ _ _) as [[c [st' steps']]|]; reflexivity.
Qed.

Lemma visit_root_forget fuel g P node ss :
  fst <$> Traced.visit_root fuel g P node ss
  = Plain.visit_root fuel g P node ss.1.
Proof.
  unfold Traced.visit_root, Plain.visit_root.
  destruct (Js.seq _ _); [|done].
  rewrite <- dfs_forget.
  destruct (Traced.dfs _ _ _ _ _) as [ss'|]; cbn [fmap option_fmap option_map]; [|done].
  by rewrite close_root_forget.
Qed.

(** C1. For every graph, [analyze] and the result half of
    [analyzeWithSteps] end the same way and, when they return, return the
    same result: the same articulation points, the same bridge list, the
    same components in the same order and the same edge-to-component
    map. *)
Theorem analyze_eq_analyzeWithSteps (g : Graph) :
  analyze g
  = match analyzeWithSteps g with
    | Done rs => Done rs.1
    | RangeError => RangeError
    | OutOfFuel => OutOfFuel
    end.
Proof.
  unfold analyze, analyzeWithSteps, analyze_fuel, analyzeWithSteps_fuel,
    analyzeWithSteps_state.
  destruct (init_state g) as [st|]; [|done].
  pose proof (for_each_proj fst
    (Traced.visit_root (S (length (nodes g))) g (nodesPresent_of g))
    (Plain.visit_root (S (length (nodes g))) g (nodesPresent_of g))
    (nodes g)
    (λ a s, visit_root_forget _ g _ a s) (st, [])) as Hloop.
  cbn [fst] in Hloop. rewrite <- Hloop.
  destruct (for_each _ _ _) as [ss|]; reflexivity.
Qed.

(** ** The analysis returns *)

Section Termination.

Lemma for_each_invariant {A S : Type} (I : S → Prop)
    (body : A → S → option S) (l : list A) :
  (∀ a s, a ∈ l → I s → ∃ s', body a s = Some s' ∧ I s') →
  ∀ s, I s → ∃ s', for_each body l s = Some s' ∧ I s'.
Proof.
  induction l as [|a l IH]; intros Hbody s Hs; simpl; [eauto|].
  destruct (Hbody a s) as (s' & -> & Hs'); [left|done|].
  apply IH; [|done]. intros b t Hb. apply Hbody. by right.
Qed.

Lemma grows_refl st : grows st st.
Proof. split; [lia|done]. Qed.

Lemma grows_trans st1 st2 st3 : grows st1 st2 → grows st2 st3 → grows st1 st3.
Proof. intros [? H1] [? H2]. split; [lia|]. intros i Hi. apply H2, H1, Hi. Qed.

Lemma grows_same st st' :
  disc st' = disc st → time st' = time st → grows st st'.
Proof. intros Hd Ht. split; [lia|]. by rewrite Hd. Qed.

Lemma grows_enter u st : 0 ≤ time st → grows st (enter u st).
Proof.
  intros Ht. split; [simpl; lia|]. intros i Hi. simpl.
  rewrite lookup_insert. case_decide; [|done].
  intros [=]. lia.
Qed.

Lemma undiscovered_grows P st st' :
  grows st st' → (length (undiscovered P st') ≤ length (undiscovered P st))%nat.
Proof.
  intros [_ Hg]. unfold undiscovered.
  induction P as [|i P IH]; [done|].
  rewrite !filter_cons.
  destruct (decide (disc st' !! i = Some (-1))) as [Hi'|Hi'];
    destruct (decide (disc st !! i = Some (-1))) as [Hi|Hi];
    cbn [length]; try lia.
  by apply Hg in Hi.
Qed.

Lemma undiscovered_enter P u st :
  0 ≤ time st → u ∈ P → disc st !! u = Some (-1) →
  (length (undiscovered P (enter u st)) < length (undiscovered P st))%nat.
Proof.
  intros Ht Hu Hd. unfold undiscovered.
  induction P as [|i P IH]; [by apply elem_of_nil in Hu|].
  pose proof (undiscovered_grows P st (enter u st) (grows_enter u st Ht)) as Hle.
  unfold undiscovered in Hle.
  rewrite !filter_cons.
  destruct (decide (i = u)) as [->|Hne].
  - destruct (decide (disc (enter u st) !! u = Some (-1))) as [Hi'|Hi'];
      destruct (decide (disc st !! u = Some (-1))) as [Hi|Hi];
      cbn [length]; try lia; try done.
    cbn [enter disc] in Hi'. rewrite lookup_insert_eq in Hi'.
    injection Hi' as Hi'. lia.
  - apply elem_of_cons in Hu as [->|Hu]; [done|]. specialize (IH Hu).
    destruct (decide (disc (enter u st) !! i = Some (-1))) as [Hi'|Hi'];
      destruct (decide (disc st !! i = Some (-1))) as [Hi|Hi];
      cbn [length]; try lia.
    cbn [enter disc] in Hi'. rewrite lookup_insert_ne in Hi' by congruence. done.
Qed.

Lemma close_component_disc u v st :
  disc (close_component u v st) = disc st ∧
  time (close_component u v st) = time st.
Proof.
  unfold close_component.
  destruct (pop_until u v (edgeStack st) [] []) as [[ce cv] rest]. done.
Qed.

Lemma close_root_disc st :
  disc (close_root st) = disc st ∧ time (close_root st) = time st.
Proof.
  unfold close_root. destruct (edgeStack st); [done|].
  destruct (pop_all _ [] []) as [ce cv]. done.
Qed.

(** The blocks after the call for a child leave the clock and the marks
    alone. *)
Lemma after_child_disc u v c st :
  let st' := Plain.close_block u v
               (Plain.mark_bridge u v
                  (Plain.mark_cut u v
                     (Plain.mark_root u c (Plain.relax_child u v st)))) in
  disc st' = disc st ∧ time st' = time st.
Proof.
  cbv zeta. unfold Plain.close_block.
  set (st3 := Plain.mark_bridge u v _).
  assert (disc st3 = disc st ∧ time st3 = time st) as [Hd Ht].
  { subst st3. unfold Plain.mark_bridge, Plain.mark_cut, Plain.mark_root.
    destruct (Js.gt _ _); destruct (negb _ && _); destruct (_ && _); done. }
  destruct (Js.ge _ _); [|done].
  destruct (close_component_disc u v st3) as [-> ->]. done.
Qed.

(** One neighbour is processed in full when the recursive call is total
    on unmarked present nodes, and the marks only grow. *)
Lemma visit_neighbor_total rec P u v c st :
  (∀ w s, 0 ≤ time s → w ∈ P → disc s !! w = Some (-1) →
          (length (undiscovered P s) ≤ length (undiscovered P st))%nat →
          ∃ s', rec w s = Some s' ∧ grows s s') →
  0 ≤ time st →
  ∃ c' st', Plain.visit_neighbor rec P u v (c, st) = Some (c', st') ∧ grows st st'.
Proof.
  intros Hrec Ht. unfold Plain.visit_neighbor.
  destruct (negb (JsSet.has v P)) eqn:Hpres; [eauto using grows_refl|].
  destruct (Js.seq (disc st !! v) (-1)) eqn:Hdisc.
  - destruct (Hrec v (push_edge u v (set_parent v u st))) as (s' & -> & Hg);
      [done| | |done|].
    + apply negb_false_iff, bool_decide_eq_true in Hpres. done.
    + by apply bool_decide_eq_true in Hdisc.
    + eexists _, _. split; [reflexivity|].
      eapply grows_trans; [apply Hg|].
      destruct (after_child_disc u v (c + 1) s') as [Hd Htime].
      by apply grows_same.
  - destruct (_ && _); eexists _, _; (split; [reflexivity|]);
      by apply grows_same.
Qed.

(** [dfs] returns when its fuel covers the unmarked present nodes. *)
Lemma dfs_total fuel g P :
  ∀ u st, 0 ≤ time st → u ∈ P → disc st !! u = Some (-1) →
          (length (undiscovered P st) ≤ fuel)%nat →
          ∃ st', Plain.dfs fuel g P u st = Some st' ∧ grows st st'.
Proof.
  induction fuel as [|fuel IH]; intros u st Ht Hu Hd Hfuel.
  - pose proof (undiscovered_enter P u st Ht Hu Hd). lia.
  - cbn [Plain.dfs].
    pose proof (undiscovered_enter P u st Ht Hu Hd) as Hlt.
    pose proof (grows_enter u st Ht) as Hge.
    destruct (for_each_invariant
      (λ cs : Z * TState, grows (enter u st) cs.2)
      (Plain.visit_neighbor (Plain.dfs fuel g P) P u)
      (default [] (adj g !! u))) with (s := (0, enter u st))
      as ([c' st'] & -> & Hg); [|apply grows_refl|].
    + intros v [c s] _ Hs. cbn [snd] in Hs.
      destruct (visit_neighbor_total (Plain.dfs fuel g P) P u v c s)
        as (c' & s' & -> & Hg').
      * intros w s0 Ht0 Hw Hd0 Hle. apply IH; try done.
        pose proof (undiscovered_grows P _ _ Hs). lia.
      * destruct Hs as [Hs _]. simpl in Hs. lia.
      * eexists. split; [reflexivity|]. cbn [snd]. eapply grows_trans; eauto.
    + eexists. split; [reflexivity|]. cbn [snd] in Hg.
      eapply grows_trans; eauto.
Qed.

End Termination.

Section AnalyzeReturns.

Lemma JsSet_elem_of_add {A} `{EqDecision A} (x v : A) (s : list A) :
  x ∈ JsSet.add v s ↔ x = v ∨ x ∈ s.
Proof.
  unfold JsSet.add, JsSet.has. case_bool_decide as Hv.
  - split; [by right|]. intros [->|]; done.
  - rewrite elem_of_app, list_elem_of_singleton. tauto.
Qed.

Lemma JsSet_length_add {A} `{EqDecision A} (v : A) (s : list A) :
  (length (JsSet.add v s) ≤ S (length s))%nat.
Proof.
  unfold JsSet.add. destruct (JsSet.has v s); [lia|].
  rewrite length_app. simpl. lia.
Qed.

Lemma elem_of_fold_add (l acc : list Z) (x : Z) :
  x ∈ foldl (λ s i, JsSet.add i s) acc l ↔ x ∈ acc ∨ x ∈ l.
Proof.
  revert acc. induction l as [|i l IH]; intros acc; simpl.
  - rewrite elem_of_nil. tauto.
  - rewrite IH, JsSet_elem_of_add, elem_of_cons. tauto.
Qed.

Lemma length_fold_add (l acc : list Z) :
  (length (foldl (λ s i, JsSet.add i s) acc l) ≤ length acc + length l)%nat.
Proof.
  revert acc. induction l as [|i l IH]; intros acc; simpl; [lia|].
  specialize (IH (JsSet.add i acc)).
  pose proof (JsSet_length_add i acc). lia.
Qed.

Lemma elem_of_nodesPresent g x : x ∈ nodesPresent_of g ↔ x ∈ node_ids g.
Proof.
  unfold nodesPresent_of. rewrite elem_of_fold_add, elem_of_nil. tauto.
Qed.

Lemma length_nodesPresent g :
  (length (nodesPresent_of g) ≤ length (nodes g))%nat.
Proof.
  unfold nodesPresent_of.
  pose proof (length_fold_add (node_ids g) []) as H.
  unfold node_ids in H at 2. rewrite length_fmap in H. simpl in H. lia.
Qed.

Lemma length_undiscovered P st : (length (undiscovered P st) ≤ length P)%nat.
Proof. apply length_filter. Qed.

Lemma init_state_valid g :
  0 ≤ nextId g ≤ Js.max_array_length →
  ∃ st, init_state g = Some st ∧ time st = 0 ∧ ap st = [] ∧ bridges st = []
        ∧ components st = [] ∧ edgeStack st = [].
Proof.
  intros Hn. unfold init_state, Js.new_array.
  rewrite bool_decide_eq_true_2 by done. eexists. split; [reflexivity|done].
Qed.

Lemma init_state_invalid g :
  ¬ (0 ≤ nextId g ≤ Js.max_array_length) → init_state g = None.
Proof.
  intros Hn. unfold init_state, Js.new_array.
  by rewrite bool_decide_eq_false_2 by done.
Qed.

(** The loop over the roots runs to its end from any state with a
    non-negative clock. *)
Lemma roots_total g st :
  0 ≤ time st →
  ∃ st', for_each (Plain.visit_root (S (length (nodes g))) g (nodesPresent_of g))
                  (nodes g) st = Some st'.
Proof.
  intros Ht.
  destruct (for_each_invariant (λ s : TState, 0 ≤ time s)
    (Plain.visit_root (S (length (nodes g))) g (nodesPresent_of g))
    (nodes g)) with (s := st) as (st' & -> & _); [|done|eauto].
  intros node s Hnode Hs. unfold Plain.visit_root.
  destruct (Js.seq (disc s !! n_id node) (-1)) eqn:Hd; [|eauto].
  apply bool_decide_eq_true in Hd.
  destruct (dfs_total (S (length (nodes g))) g (nodesPresent_of g)
              (n_id node) s) as (s' & -> & [Hle _]); try done.
  - apply elem_of_nodesPresent. unfold node_ids.
    apply list_elem_of_fmap. eauto.
  - pose proof (length_undiscovered (nodesPresent_of g) s).
    pose proof (length_nodesPresent g). lia.
  - eexists. split; [reflexivity|].
    rewrite (proj2 (close_root_disc s')). lia.
Qed.

(** [analyze] returns a result for every graph whose allocator is a valid
    array length, and only for those. *)
Lemma analyze_returns g :
  0 ≤ nextId g ≤ Js.max_array_length → ∃ r, analyze g = Done r.
Proof.
  intros Hn. unfold analyze, analyze_fuel.
  destruct (init_state_valid g Hn) as (st & -> & Ht & _).
  destruct (roots_total g st) as (st' & ->); [lia|]. eauto.
Qed.

Lemma analyze_throws g :
  ¬ (0 ≤ nextId g ≤ Js.max_array_length) → analyze g = RangeError.
Proof.
  intros Hn. unfold analyze, analyze_fuel. by rewrite init_state_invalid.
Qed.

End AnalyzeReturns.

(** ** The graph model *)

Section ModelFrames.

Lemma is_Some_insert_existing (m : gmap Z (list Z)) a x i :
  is_Some (m !! a) → is_Some (<[a:=x]> m !! i) ↔ is_Some (m !! i).
Proof.
  intros Ha. rewrite lookup_insert_is_Some'.
  split; [intros [->|]; done|auto].
Qed.

(** What [link] and [unlink] leave alone, also when they throw. *)
Lemma link_frame a b g :
  let g' := graph_after (link a b g) in
  nodes g' = nodes g ∧ nextId g' = nextId g ∧ edgeMap g' = edgeMap g ∧
  ∀ i, is_Some (adj g' !! i) ↔ is_Some (adj g !! i).
Proof.
  unfold link. destruct (adj g !! a) as [sa|] eqn:Ha; [|done].
  cbn [with_adj adj].
  destruct (<[a:=JsSet.add b sa]> (adj g) !! b) as [sb|] eqn:Hb;
    cbn [graph_after with_adj nodes nextId edgeMap adj];
    (split_and!; [done..|]); intros i.
  - rewrite is_Some_insert_existing by (by rewrite Hb).
    apply is_Some_insert_existing. by rewrite Ha.
  - apply is_Some_insert_existing. by rewrite Ha.
Qed.

Lemma unlink_frame a b g :
  let g' := graph_after (unlink a b g) in
  nodes g' = nodes g ∧ nextId g' = nextId g ∧ edgeMap g' = edgeMap g ∧
  ∀ i, is_Some (adj g' !! i) ↔ is_Some (adj g !! i).
Proof.
  unfold unlink. destruct (adj g !! a) as [sa|] eqn:Ha; [|done].
  cbn [with_adj adj].
  destruct (<[a:=JsSet.delete b sa]> (adj g) !! b) as [sb|] eqn:Hb;
    cbn [graph_after with_adj nodes nextId edgeMap adj];
    (split_and!; [done..|]); intros i.
  - rewrite is_Some_insert_existing by (by rewrite Hb).
    apply is_Some_insert_existing. by rewrite Ha.
  - apply is_Some_insert_existing. by rewrite Ha.
Qed.

Lemma addEdge_frame a b d g :
  let g' := graph_after (addEdge a b d g) in
  nodes g' = nodes g ∧ nextId g' = nextId g ∧
  ∀ i, is_Some (adj g' !! i) ↔ is_Some (adj g !! i).
Proof.
  unfold addEdge. destruct (decide (a = b)); [done|].
  destruct d.
  - destruct (JsMap.has _ _); [done|].
    destruct (link_frame a b (with_edgeMap g
      (JsMap.set (directedKey a b) (mkEdge a b true) (edgeMap g))))
      as (? & ? & _ & ?). done.
  - cbv zeta. destruct (JsMap.has _ _); [done|].
    match goal with |- context [link a b ?h] =>
      destruct (link_frame a b h) as (? & ? & _ & ?) end. done.
Qed.

Lemma deleteEdge_frame a b d g :
  let g' := graph_after (deleteEdge a b d g) in
  nodes g' = nodes g ∧ nextId g' = nextId g ∧
  ∀ i, is_Some (adj g' !! i) ↔ is_Some (adj g !! i).
Proof.
  unfold deleteEdge. destruct d; cbv zeta.
  - destruct (negb (JsMap.has _ _)); [done|].
    match goal with |- context [unlink a b ?h] =>
      destruct (unlink_frame a b h) as (? & ? & _ & ?) end. done.
  - destruct (negb (JsMap.has _ _)); [done|].
    match goal with |- context [unlink a b ?h] =>
      destruct (unlink_frame a b h) as (? & ? & _ & ?) end. done.
Qed.

Lemma deleteEdgeByKey_frame key g :
  let g' := (deleteEdgeByKey key g).2 in
  nodes g' = nodes g ∧ nextId g' = nextId g ∧
  ∀ i, is_Some (adj g' !! i) ↔ is_Some (adj g !! i).
Proof.
  unfold deleteEdgeByKey. destruct (JsMap.get key (edgeMap g)) as [e|]; [|done].
  cbn [snd nodes nextId adj]. split_and!; [done..|]. intros i.
  rewrite !lookup_alter_is_Some. done.
Qed.

Lemma node_ids_addNode x y g :
  node_ids (addNode x y g).2 = node_ids g ++ [nextId g].
Proof. unfold node_ids, addNode. cbn [snd nodes]. by rewrite fmap_app. Qed.

Lemma node_ids_deleteNode id g :
  ∀ i, i ∈ node_ids (deleteNode id g).2 ↔ i ∈ node_ids g ∧ i ≠ id.
Proof.
  intros i. unfold node_ids, deleteNode. cbn [snd nodes].
  rewrite !list_elem_of_fmap. split.
  - intros (n & -> & Hn). apply list_elem_of_filter in Hn as [? ?]. eauto.
  - intros [(n & -> & Hn) ?]. exists n. split; [done|].
    by apply list_elem_of_filter.
Qed.

Lemma renameNode_renames oldId newId g :
  oldId ≠ newId → newId ∉ node_ids g →
  renameNode oldId newId g
  = (true,
     {| nodes :=
          (λ n, if decide (n_id n = oldId)
                then mkNode newId (n_x n) (n_y n) else n) <$> nodes g;
        adj :=
          map_imap (λ k s,
            Some (if decide (k = newId) then s
                  else if JsSet.has oldId s
                       then JsSet.add newId (JsSet.delete oldId s)
                       else s))
            (<[newId := default [] (adj g !! oldId)]> (delete oldId (adj g)));
        nextId := Z.max (nextId g) (newId + 1);
        edgeMap := foldl (rekey oldId newId) [] (edgeMap g) |}).
Proof.
  intros Hne Hnew. unfold renameNode.
  destruct (decide (oldId = newId)); [done|].
  by rewrite bool_decide_eq_false_2.
Qed.

Lemma node_ids_renameNode oldId newId g :
  oldId ≠ newId → newId ∉ node_ids g →
  let g' := (renameNode oldId newId g).2 in
  nextId g' = Z.max (nextId g) (newId + 1) ∧
  node_ids g' = (λ i, if decide (i = oldId) then newId else i) <$> node_ids g.
Proof.
  intros Hne Hnew. rewrite renameNode_renames by done.
  cbn [snd nodes nextId]. split; [done|].
  unfold node_ids. cbn [nodes]. rewrite <- !list_fmap_compose.
  apply list_fmap_ext. intros _ n _. simpl. by destruct (decide _).
Qed.

Lemma renameNode_same oldId newId g :
  oldId = newId ∨ newId ∈ node_ids g → (renameNode oldId newId g).2 = g.
Proof.
  intros H. unfold renameNode. destruct (decide (oldId = newId)); [done|].
  destruct H as [?|H]; [done|]. by rewrite bool_decide_eq_true_2.
Qed.

End ModelFrames.

Section ModelInvariants.

Lemma graph_after_exec op g :
  graph_after (exec op g)
  = match op with
    | OpAddNode x y => (addNode x y g).2
    | OpAddEdge a b d => graph_after (addEdge a b d g)
    | OpDeleteEdge a b d => graph_after (deleteEdge a b d g)
    | OpDeleteEdgeByKey key => (deleteEdgeByKey key g).2
    | OpDeleteNode id => (deleteNode id g).2
    | OpRenameNode oldId newId => (renameNode oldId newId g).2
    | OpClear => clear g
    end.
Proof.
  destruct op as [x y|a b d|a b d|key|id|oldId newId|]; cbn [exec].
  - done.
  - by destruct (addEdge a b d g).
  - by destruct (deleteEdge a b d g).
  - by destruct (deleteEdgeByKey key g).
  - done.
  - by destruct (renameNode oldId newId g).
  - done.
Qed.

(** The allocator stays ahead of every node id, whatever is called and
    however the call ends. *)
Lemma exec_ids_below op g :
  ids_below_nextId g → ids_below_nextId (graph_after (exec op g)).
Proof.
  intros Hg. rewrite graph_after_exec.
  destruct op as [x y|a b d|a b d|key|id|oldId newId|].
  - intros i.
    rewrite node_ids_addNode, elem_of_app, list_elem_of_singleton.
    cbn [addNode snd nextId]. intros [Hi%Hg| ->]; lia.
  - destruct (addEdge_frame a b d g) as (Hn & Hid & _).
    intros i; unfold node_ids; rewrite Hn, Hid; apply Hg.
  - destruct (deleteEdge_frame a b d g) as (Hn & Hid & _).
    intros i; unfold node_ids; rewrite Hn, Hid; apply Hg.
  - destruct (deleteEdgeByKey_frame key g) as (Hn & Hid & _).
    intros i; unfold node_ids; rewrite Hn, Hid; apply Hg.
  - intros i Hi. apply node_ids_deleteNode in Hi as [Hi _].
    by apply Hg.
  - destruct (decide (oldId = newId ∨ newId ∈ node_ids g)) as [Hsame|Hren].
    + by rewrite renameNode_same.
    + destruct (node_ids_renameNode oldId newId g) as [Hid Hn]; [tauto..|].
      intros i. rewrite Hn, Hid, list_elem_of_fmap.
      intros (j & -> & Hj%Hg). destruct (decide (j = oldId)); lia.
  - intros i. unfold node_ids. cbn [clear nodes fmap list_fmap].
    by intros ?%elem_of_nil.
Qed.

(** Every node keeps an adjacency entry, whatever is called and however
    the call ends. *)
Lemma exec_nodes_have_adj op g :
  nodes_have_adj g → nodes_have_adj (graph_after (exec op g)).
Proof.
  intros Hg. rewrite graph_after_exec.
  destruct op as [x y|a b d|a b d|key|id|oldId newId|].
  - intros i.
    rewrite node_ids_addNode, elem_of_app, list_elem_of_singleton.
    cbn [addNode snd adj]. rewrite lookup_insert_is_Some'.
    intros [Hi%Hg| ->]; auto.
  - destruct (addEdge_frame a b d g) as (Hn & _ & Ha).
    intros i; unfold node_ids; rewrite Hn, Ha; apply Hg.
  - destruct (deleteEdge_frame a b d g) as (Hn & _ & Ha).
    intros i; unfold node_ids; rewrite Hn, Ha; apply Hg.
  - destruct (deleteEdgeByKey_frame key g) as (Hn & _ & Ha).
    intros i; unfold node_ids; rewrite Hn, Ha; apply Hg.
  - intros i Hi. apply node_ids_deleteNode in Hi as [Hi Hne]. apply Hg in Hi.
    unfold deleteNode. cbn [snd adj]. rewrite lookup_fmap, fmap_is_Some.
    destruct (adj g !! id) as [neigh|] eqn:Hid; [|done].
    rewrite lookup_delete_ne by done.
    clear Hid. revert Hi. generalize (adj g).
    induction neigh as [|v neigh IH]; intros m Hm; [done|].
    cbn [foldl]. apply IH. by rewrite lookup_alter_is_Some.
  - destruct (decide (oldId = newId ∨ newId ∈ node_ids g)) as [Hsame|Hren].
    + by rewrite renameNode_same.
    + destruct (node_ids_renameNode oldId newId g) as [_ Hn]; [tauto..|].
      intros i. rewrite Hn, list_elem_of_fmap. intros (j & -> & Hj%Hg).
      rewrite renameNode_renames by tauto. cbn [snd adj].
      rewrite map_lookup_imap.
      destruct (decide (j = oldId)) as [->|Hj'].
      * by rewrite lookup_insert_eq.
      * destruct (decide (newId = j)) as [->|Hj''].
        { by rewrite lookup_insert_eq. }
        rewrite lookup_insert_ne, lookup_delete_ne by done.
        destruct Hj as [s ->]. done.
  - intros i. unfold node_ids. cbn [clear nodes fmap list_fmap].
    by intros ?%elem_of_nil.
Qed.

Lemma reachable_ids_below g : reachable g → ids_below_nextId g.
Proof.
  induction 1 as [|op g _ IH]; [|by apply exec_ids_below].
  intros i. unfold node_ids. cbn. by intros ?%elem_of_nil.
Qed.

Lemma reachable_nodes_have_adj g : reachable g → nodes_have_adj g.
Proof.
  induction 1 as [|op g _ IH]; [|by apply exec_nodes_have_adj].
  intros i. unfold node_ids. cbn. by intros ?%elem_of_nil.
Qed.

End ModelInvariants.

(** ** [addEdge] *)

Section AddEdge.

Lemma JsMap_set_fresh {V} (k : string) (v : V) (m : list (string * V)) :
  JsMap.has k m = false → JsMap.set k v m = m ++ [(k, v)].
Proof.
  unfold JsMap.has. induction m as [|[k' v'] m IH]; simpl; [done|].
  destruct (decide (k' = k)); [done|].
  intros H. by rewrite IH.
Qed.

Lemma graph_of_ops_reachable ops : reachable (graph_of_ops ops).
Proof.
  unfold graph_of_ops. generalize reachable_new. generalize empty_graph.
  induction ops as [|op ops IH]; intros g Hg; [done|].
  cbn [foldl]. apply IH. by constructor.
Qed.

(** With both adjacency entries there, [link] returns. *)
Lemma link_returns (a b : Z) g sa sb :
  a ≠ b → adj g !! a = Some sa → adj g !! b = Some sb →
  link a b g
  = Returned true
      {| nodes := nodes g;
         adj := <[b := JsSet.add a sb]> (<[a := JsSet.add b sa]> (adj g));
         nextId := nextId g;
         edgeMap := edgeMap g |}.
Proof.
  intros Hne Ha Hb. unfold link. rewrite Ha. cbn [with_adj adj].
  rewrite lookup_insert_ne by done. rewrite Hb. reflexivity.
Qed.

(** [addEdge] in full, on a graph where the endpoints have adjacency
    entries. *)
Lemma addEdge_cases (a b : Z) (d : bool) g sa sb :
  adj g !! a = Some sa → adj g !! b = Some sb →
  let key := if d then directedKey a b else edgeKey a b in
  let e := if d then mkEdge a b true
           else mkEdge (Z.min a b) (Z.max a b) false in
  addEdge a b d g
  = if decide (a = b) then Returned false g
    else if JsMap.has key (edgeMap g) then Returned false g
    else Returned true
           {| nodes := nodes g;
              adj := <[b := JsSet.add a sb]> (<[a := JsSet.add b sa]> (adj g));
              nextId := nextId g;
              edgeMap := edgeMap g ++ [(key, e)] |}.
Proof.
  intros Ha Hb. unfold addEdge, edgeKey.
  destruct (decide (a = b)) as [|Hne]; [done|].
  destruct d; cbv zeta.
  - destruct (JsMap.has _ _) eqn:Hhas; [done|].
    rewrite (link_returns a b _ sa sb) by done.
    cbn [with_edgeMap nodes adj nextId edgeMap].
    by rewrite JsMap_set_fresh.
  - destruct (JsMap.has _ _) eqn:Hhas; [done|].
    rewrite (link_returns a b _ sa sb) by done.
    cbn [with_edgeMap nodes adj nextId edgeMap].
    by rewrite JsMap_set_fresh.
Qed.

End AddEdge.

(** C3, as amended. For every graph whose nodes all have an adjacency
    entry, node ids [a] and [b] of present nodes and any value of the
    directed flag, [addEdge(a, b, directed)] returns false and leaves the
    graph unchanged exactly when [a == b] or the key the call uses already
    exists in the edge collection: the canonical key of [min(a,b)] and
    [max(a,b)] for an undirected call, the ordered key [a>b] for a directed
    call. Otherwise it appends one edge entry under that key, adds [b] to
    [adjacency[a]] and [a] to [adjacency[b]], and returns true. *)
Theorem addEdge_fails_iff_loop_or_key_taken (g : Graph) (a b : Z) (d : bool) :
  nodes_have_adj g → a ∈ node_ids g → b ∈ node_ids g →
  let key := if d then directedKey a b else edgeKey a b in
  let e := if d then mkEdge a b true
           else mkEdge (Z.min a b) (Z.max a b) false in
  (a = b ∨ JsMap.has key (edgeMap g) = true →
   addEdge a b d g = Returned false g) ∧
  (¬ (a = b ∨ JsMap.has key (edgeMap g) = true) →
   ∃ sa sb, adj g !! a = Some sa ∧ adj g !! b = Some sb ∧
     addEdge a b d g
     = Returned true
         {| nodes := nodes g;
            adj := <[b := JsSet.add a sb]> (<[a := JsSet.add b sa]> (adj g));
            nextId := nextId g;
            edgeMap := edgeMap g ++ [(key, e)] |}).
Proof.
  intros Hadj Ha Hb key e.
  destruct (Hadj a Ha) as [sa Hsa]. destruct (Hadj b Hb) as [sb Hsb].
  pose proof (addEdge_cases a b d g sa sb Hsa Hsb) as Hcases.
  cbv zeta in Hcases. fold key e in Hcases. split.
  - intros Hfail. rewrite Hcases. destruct (decide (a = b)); [done|].
    destruct Hfail as [?|Hh]; [done|]. by rewrite Hh.
  - intros Hok. exists sa, sb. split_and!; [done..|].
    rewrite Hcases. destruct (decide (a = b)); [tauto|].
    destruct (JsMap.has key (edgeMap g)); [tauto|done].
Qed.

(** The amended C3 on the graph of two joined nodes: a second undirected
    edge between them is refused. *)
Lemma addEdge_fails_iff_loop_or_key_taken_witness :
  addEdge 0 1 false graph_edge01 = Returned false graph_edge01.
Proof.
  refine (proj1 (addEdge_fails_iff_loop_or_key_taken graph_edge01 0 1 false _ _ _) _).
  - apply reachable_nodes_have_adj, graph_of_ops_reachable.
  - vm_compute. set_solver.
  - vm_compute. set_solver.
  - right. vm_compute. reflexivity.
Defined.

(** C3 as stated fails for a directed call: on the graph of two nodes
    joined by an undirected edge, the canonical key of 0 and 1 exists, and
    yet [addEdge(0, 1, true)] returns true and changes the graph. *)
Lemma addEdge_directed_beside_undirected :
  0 ∈ node_ids graph_edge01 ∧ 1 ∈ node_ids graph_edge01 ∧
  JsMap.has (edgeKey 0 1) (edgeMap graph_edge01) = true ∧
  ∃ g', addEdge 0 1 true graph_edge01 = Returned true g' ∧
        length (edgeMap g') = 2%nat ∧ g' ≠ graph_edge01.
Proof.
  split_and!.
  - vm_compute. set_solver.
  - vm_compute. set_solver.
  - vm_compute. reflexivity.
  - eexists. split; [vm_compute; reflexivity|]. split; [reflexivity|].
    intros H. apply (f_equal edgeMap) in H; apply (f_equal length) in H.
    vm_compute in H. discriminate.
Qed.

(** C9. [addEdge] is total only when both endpoints are ids of present
    nodes. There are calls with an endpoint that is no node, with distinct
    endpoints and a free key, that do not return false but throw at the
    lookup of the missing adjacency entry (leaving the edge entry and one
    adjacency update behind); and on a graph whose nodes all have an
    adjacency entry, a call with both endpoints present always returns. *)
Theorem addEdge_throws_only_without_node :
  (∃ (g : Graph) (a b : Z) (d : bool) (g' : Graph),
      a ≠ b ∧ (b ∉ node_ids g) ∧
      JsMap.has (if d then directedKey a b else edgeKey a b) (edgeMap g) = false ∧
      addEdge a b d g = Threw g' ∧ g' ≠ g) ∧
  (∀ (g : Graph) (a b : Z) (d : bool),
      nodes_have_adj g → a ∈ node_ids g → b ∈ node_ids g →
      ∃ r g', addEdge a b d g = Returned r g').
Proof.
  split.
  - exists graph_node0, 0, 5, false. eexists. split_and!.
    + done.
    + vm_compute. set_solver.
    + vm_compute. reflexivity.
    + vm_compute. reflexivity.
    + intros H. apply (f_equal edgeMap) in H; apply (f_equal length) in H.
      vm_compute in H. discriminate.
  - intros g a b d Hadj Ha Hb.
    destruct (Hadj a Ha) as [sa Hsa]. destruct (Hadj b Hb) as [sb Hsb].
    rewrite (addEdge_cases a b d g sa sb Hsa Hsb).
    destruct (decide (a = b)); [eauto|].
    destruct (JsMap.has _ _); eauto.
Qed.

(** C9 on the graph of two joined nodes. *)
Lemma addEdge_throws_only_without_node_witness :
  ∃ r g', addEdge 0 1 false graph_edge01 = Returned r g'.
Proof.
  refine (proj2 addEdge_throws_only_without_node graph_edge01 0 1 false _ _ _).
  - apply reachable_nodes_have_adj, graph_of_ops_reachable.
  - vm_compute. set_solver.
  - vm_compute. set_solver.
Defined.

(** ** Adjacency after each operation *)

Section Adjacency.

Lemma JsSet_elem_of_delete {A} `{EqDecision A} (x v : A) (s : list A) :
  x ∈ JsSet.delete v s ↔ x ∈ s ∧ x ≠ v.
Proof. unfold JsSet.delete. rewrite list_elem_of_filter. tauto. Qed.

Lemma JsSet_delete_absent {A} `{EqDecision A} (v : A) (s : list A) :
  v ∉ s → JsSet.delete v s = s.
Proof.
  unfold JsSet.delete. induction s as [|w s IH]; [done|].
  rewrite not_elem_of_cons. intros [Hne Hs].
  rewrite filter_cons_True by congruence. by rewrite IH.
Qed.

Lemma JsSet_has_true {A} `{EqDecision A} (v : A) (s : list A) :
  JsSet.has v s = true ↔ v ∈ s.
Proof. unfold JsSet.has. by rewrite bool_decide_eq_true. Qed.

Lemma JsSet_has_false {A} `{EqDecision A} (v : A) (s : list A) :
  JsSet.has v s = false ↔ v ∉ s.
Proof. unfold JsSet.has. by rewrite bool_decide_eq_false. Qed.

Lemma adjacent_lookup g a b :
  adjacent g a b ↔ ∃ s, adj g !! a = Some s ∧ b ∈ s.
Proof.
  unfold adjacent. destruct (adj g !! a) as [s|]; simpl.
  - split; [eauto|]. by intros (? & [= <-] & ?).
  - split; [by intros ?%elem_of_nil|]. by intros (? & [=] & ?).
Qed.

Lemma adjacent_is_Some g a b : adjacent g a b → is_Some (adj g !! a).
Proof. rewrite adjacent_lookup. intros (s & -> & _). eauto. Qed.

Lemma adjacent_addNode x y g a b :
  adjacent (addNode x y g).2 a b ↔ a ≠ nextId g ∧ adjacent g a b.
Proof.
  unfold adjacent, addNode. cbn [snd adj].
  rewrite lookup_insert. case_decide as Ha; simpl.
  - subst a. rewrite elem_of_nil. tauto.
  - split; [intros; split; [congruence|done]|tauto].
Qed.

(** [link] and [unlink], when they return, add and remove the pair in
    both directions. *)
Lemma adjacent_link (a b : Z) g r g' x y :
  link a b g = Returned r g' →
  adjacent g' x y ↔ adjacent g x y ∨ (x = a ∧ y = b) ∨ (x = b ∧ y = a).
Proof.
  unfold link. destruct (adj g !! a) as [sa|] eqn:Ha; [|done].
  cbn [with_adj adj].
  destruct (<[a:=JsSet.add b sa]> (adj g) !! b) as [sb|] eqn:Hb; [|done].
  intros [= _ <-]. unfold adjacent. cbn [adj with_adj].
  rewrite lookup_insert in Hb. rewrite !lookup_insert.
  destruct (decide (b = x)) as [->|Hbx]; simpl.
  - rewrite JsSet_elem_of_add. case_decide as Hax.
    + subst x. injection Hb as <-. rewrite Ha. simpl.
      rewrite JsSet_elem_of_add. naive_solver.
    + rewrite Hb. simpl. naive_solver.
  - destruct (decide (a = x)) as [->|Hax]; simpl.
    + rewrite JsSet_elem_of_add, Ha. simpl. naive_solver.
    + naive_solver.
Qed.

Lemma adjacent_unlink (a b : Z) g r g' x y :
  unlink a b g = Returned r g' →
  adjacent g' x y ↔ adjacent g x y ∧ ¬ ((x = a ∧ y = b) ∨ (x = b ∧ y = a)).
Proof.
  unfold unlink. destruct (adj g !! a) as [sa|] eqn:Ha; [|done].
  cbn [with_adj adj].
  destruct (<[a:=JsSet.delete b sa]> (adj g) !! b) as [sb|] eqn:Hb; [|done].
  intros [= _ <-]. unfold adjacent. cbn [adj with_adj].
  rewrite lookup_insert in Hb. rewrite !lookup_insert.
  destruct (decide (b = x)) as [->|Hbx]; simpl.
  - rewrite JsSet_elem_of_delete. case_decide as Hax.
    + subst x. injection Hb as <-. rewrite Ha. simpl.
      rewrite JsSet_elem_of_delete. naive_solver.
    + rewrite Hb. simpl. naive_solver.
  - destruct (decide (a = x)) as [->|Hax]; simpl.
    + rewrite JsSet_elem_of_delete, Ha. simpl. naive_solver.
    + naive_solver.
Qed.

End Adjacency.

Section AdjacencyOps.

Lemma adjacent_with_edgeMap g m x y :
  adjacent (with_edgeMap g m) x y ↔ adjacent g x y.
Proof. done. Qed.

Lemma adjacent_addEdge (a b : Z) d g r g' x y :
  addEdge a b d g = Returned r g' →
  (r = true → a ≠ b) ∧
  (adjacent g' x y ↔
   adjacent g x y ∨ (r = true ∧ ((x = a ∧ y = b) ∨ (x = b ∧ y = a)))).
Proof.
  unfold addEdge. destruct (decide (a = b)) as [|Hne].
  { intros [= <- <-]. split; [done|]. naive_solver. }
  destruct d; cbv zeta.
  - destruct (JsMap.has _ _).
    { intros [= <- <-]. split; [done|]. naive_solver. }
    intros Hlink. split; [done|].
    rewrite (adjacent_link _ _ _ _ _ x y Hlink), adjacent_with_edgeMap.
    assert (r = true) as ->; [|naive_solver].
    unfold link in Hlink. repeat case_match; congruence.
  - destruct (JsMap.has _ _).
    { intros [= <- <-]. split; [done|]. naive_solver. }
    intros Hlink. split; [done|].
    rewrite (adjacent_link _ _ _ _ _ x y Hlink), adjacent_with_edgeMap.
    assert (r = true) as ->; [|naive_solver].
    unfold link in Hlink. repeat case_match; congruence.
Qed.

Lemma adjacent_deleteEdge (a b : Z) d g r g' x y :
  deleteEdge a b d g = Returned r g' →
  adjacent g' x y ↔
  adjacent g x y ∧ ¬ (r = true ∧ ((x = a ∧ y = b) ∨ (x = b ∧ y = a))).
Proof.
  unfold deleteEdge. destruct d; cbv zeta.
  - destruct (negb (JsMap.has _ _)).
    { intros [= <- <-]. naive_solver. }
    intros Hun.
    rewrite (adjacent_unlink _ _ _ _ _ x y Hun), adjacent_with_edgeMap.
    assert (r = true) as ->; [|naive_solver].
    unfold unlink in Hun. repeat case_match; congruence.
  - destruct (negb (JsMap.has _ _)).
    { intros [= <- <-]. naive_solver. }
    intros Hun.
    rewrite (adjacent_unlink _ _ _ _ _ x y Hun), adjacent_with_edgeMap.
    assert (r = true) as ->; [|naive_solver].
    unfold unlink in Hun. repeat case_match; congruence.
Qed.

Lemma adjacent_alter_delete (m : gmap Z (list Z)) (a b x y : Z) :
  y ∈ default [] (alter (JsSet.delete b) a m !! x)
  ↔ y ∈ default [] (m !! x) ∧ ¬ (x = a ∧ y = b).
Proof.
  rewrite lookup_alter. case_decide as Hax.
  - subst x. destruct (m !! a) as [s|]; simpl.
    + rewrite JsSet_elem_of_delete. naive_solver.
    + rewrite elem_of_nil. tauto.
  - naive_solver.
Qed.

Lemma adjacent_deleteEdgeByKey key g x y :
  adjacent (deleteEdgeByKey key g).2 x y ↔
  adjacent g x y ∧
  ¬ (∃ e, JsMap.get key (edgeMap g) = Some e ∧
          ((x = e_a e ∧ y = e_b e) ∨ (x = e_b e ∧ y = e_a e))).
Proof.
  unfold deleteEdgeByKey. destruct (JsMap.get key (edgeMap g)) as [e|].
  - unfold adjacent. cbn [snd adj]. rewrite !adjacent_alter_delete.
    naive_solver.
  - cbn [snd]. naive_solver.
Qed.

Lemma lookup_fold_alter_delete (id k : Z) (neigh : list Z) (m : gmap Z (list Z)) :
  JsSet.delete id <$> foldl (λ m v, alter (JsSet.delete id) v m) m neigh !! k
  = JsSet.delete id <$> m !! k.
Proof.
  revert m. induction neigh as [|v neigh IH]; intros m; [done|].
  cbn [foldl]. rewrite IH, lookup_alter. case_decide as Hv; [|done].
  subst v. destruct (m !! k) as [s|]; [|done]. simpl. f_equal.
  unfold JsSet.delete. rewrite list_filter_filter.
  apply list_filter_iff. tauto.
Qed.

Lemma lookup_deleteNode id g k :
  adj (deleteNode id g).2 !! k
  = if decide (k = id) then None else JsSet.delete id <$> adj g !! k.
Proof.
  unfold deleteNode. cbn [snd adj]. rewrite lookup_fmap.
  assert (∀ o : option (list Z),
    (λ s, if JsSet.has id s then JsSet.delete id s else s) <$> o
    = JsSet.delete id <$> o) as Hscrub.
  { intros [s|]; [|done]. simpl. f_equal.
    destruct (JsSet.has id s) eqn:Hhas; [done|].
    apply JsSet_has_false in Hhas. by rewrite JsSet_delete_absent. }
  rewrite Hscrub.
  destruct (adj g !! id) as [neigh|] eqn:Hid.
  - rewrite lookup_delete. case_decide as Hk.
    + subst k. by rewrite decide_True.
    + rewrite decide_False by congruence. apply lookup_fold_alter_delete.
  - case_decide as Hk; [|done]. subst k. by rewrite Hid.
Qed.

Lemma adjacent_deleteNode id g x y :
  adjacent (deleteNode id g).2 x y ↔ adjacent g x y ∧ x ≠ id ∧ y ≠ id.
Proof.
  unfold adjacent. rewrite lookup_deleteNode. case_decide as Hx.
  - simpl. rewrite elem_of_nil. tauto.
  - destruct (adj g !! x) as [s|]; simpl.
    + rewrite JsSet_elem_of_delete. tauto.
    + rewrite elem_of_nil. tauto.
Qed.

End AdjacencyOps.

Section RenameAdjacency.

Lemma lookup_renameNode oldId newId g k :
  oldId ≠ newId → newId ∉ node_ids g →
  adj (renameNode oldId newId g).2 !! k
  = if decide (k = newId) then Some (default [] (adj g !! oldId))
    else if decide (k = oldId) then None
    else (λ s, if JsSet.has oldId s
               then JsSet.add newId (JsSet.delete oldId s) else s)
           <$> adj g !! k.
Proof.
  intros Hne Hnew. rewrite renameNode_renames by done. cbn [snd adj].
  rewrite map_lookup_imap, lookup_insert.
  destruct (decide (newId = k)) as [->|Hk].
  - simpl. by rewrite !decide_True.
  - rewrite (decide_False (P := k = newId)) by congruence.
    rewrite lookup_delete. destruct (decide (oldId = k)) as [->|Hk'].
    + by rewrite decide_True.
    + rewrite (decide_False (P := k = oldId)) by congruence.
      destruct (adj g !! k) as [s|]; simpl; [|done].
      by rewrite decide_False by congruence.
Qed.

Lemma elem_of_renamed (oldId newId y : Z) (s : list Z) :
  y ∈ (if JsSet.has oldId s
       then JsSet.add newId (JsSet.delete oldId s) else s)
  ↔ (y ∈ s ∧ y ≠ oldId) ∨ (y = newId ∧ oldId ∈ s).
Proof.
  destruct (JsSet.has oldId s) eqn:Hhas.
  - apply JsSet_has_true in Hhas.
    rewrite JsSet_elem_of_add, JsSet_elem_of_delete. tauto.
  - apply JsSet_has_false in Hhas. split; [|naive_solver].
    intros Hy. left. split; [done|]. by intros ->.
Qed.

(** Adjacency after a renaming: the neighbours moved to the new key, and
    the old id replaced by the new one in every other entry. *)
Lemma adjacent_renameNode oldId newId g x y :
  oldId ≠ newId → newId ∉ node_ids g →
  adjacent (renameNode oldId newId g).2 x y ↔
  (x = newId ∧ adjacent g oldId y) ∨
  (x ≠ newId ∧ x ≠ oldId ∧
   ((adjacent g x y ∧ y ≠ oldId) ∨ (y = newId ∧ adjacent g x oldId))).
Proof.
  intros Hne Hnew. unfold adjacent. rewrite lookup_renameNode by done.
  destruct (decide (x = newId)) as [->|Hx]; [simpl; naive_solver|].
  destruct (decide (x = oldId)) as [->|Hx'].
  { simpl. rewrite elem_of_nil. naive_solver. }
  destruct (adj g !! x) as [s|]; simpl.
  - rewrite elem_of_renamed. naive_solver.
  - rewrite !elem_of_nil. naive_solver.
Qed.

Lemma adj_symmetric_intro g :
  (∀ a b, adjacent g a b → adjacent g b a) → adj_symmetric g.
Proof. intros H a b. split; apply H. Qed.

End RenameAdjacency.

(** ** The invariants of the graph model *)

Section InvariantSteps.

Lemma inv_neighbor_is_node g a b :
  graph_inv g → adjacent g a b → a ∈ node_ids g ∧ b ∈ node_ids g.
Proof.
  intros Hinv Hab. split.
  - apply (inv_keys g Hinv). by eapply adjacent_is_Some.
  - apply (inv_keys g Hinv). apply (inv_sym g Hinv) in Hab.
    by eapply adjacent_is_Some.
Qed.

Lemma graph_inv_empty : graph_inv empty_graph.
Proof.
  assert (∀ a b, ¬ adjacent empty_graph a b) as Hnone.
  { intros a b. unfold adjacent, empty_graph. cbn [adj].
    rewrite lookup_empty. simpl. by intros ?%elem_of_nil. }
  split.
  - intros a b. split; intros H; by apply Hnone in H.
  - intros a. unfold node_ids, empty_graph. cbn [adj nodes fmap list_fmap].
    rewrite lookup_empty, elem_of_nil. split; [by intros [? [=]]|done].
  - intros a. apply Hnone.
  - intros i. unfold node_ids, empty_graph. cbn [nodes fmap list_fmap].
    by intros ?%elem_of_nil.
Qed.

Lemma graph_inv_addNode x y g : graph_inv g → graph_inv (addNode x y g).2.
Proof.
  intros Hinv.
  assert (∀ a, a ∈ node_ids g → a ≠ nextId g) as Hfresh.
  { intros a Ha%(inv_bound g Hinv). lia. }
  split.
  - apply adj_symmetric_intro. intros a b.
    rewrite !adjacent_addNode. intros [Ha Hab]. split.
    + apply Hfresh. by apply (inv_neighbor_is_node g a b).
    + by apply (inv_sym g Hinv).
  - intros a. rewrite node_ids_addNode, elem_of_app, list_elem_of_singleton.
    cbn [addNode snd adj]. rewrite lookup_insert_is_Some'.
    rewrite (inv_keys g Hinv). naive_solver.
  - intros a. rewrite adjacent_addNode. intros [_ ?].
    by apply (inv_irrefl g Hinv a).
  - apply (exec_ids_below (OpAddNode x y) g), Hinv.
Qed.

Lemma graph_inv_addEdge (a b : Z) d g r g' :
  graph_inv g → addEdge a b d g = Returned r g' → graph_inv g'.
Proof.
  intros Hinv Hadd.
  destruct (addEdge_frame a b d g) as (Hn & Hid & Hk).
  rewrite Hadd in Hn, Hid, Hk. cbn [graph_after] in Hn, Hid, Hk.
  split.
  - apply adj_symmetric_intro. intros x y.
    destruct (adjacent_addEdge a b d g r g' x y Hadd) as [_ ->].
    destruct (adjacent_addEdge a b d g r g' y x Hadd) as [_ ->].
    rewrite (inv_sym g Hinv x y). naive_solver.
  - intros x. rewrite Hk. unfold node_ids. rewrite Hn.
    apply (inv_keys g Hinv).
  - intros x.
    destruct (adjacent_addEdge a b d g r g' x x Hadd) as [Hne ->].
    intros [Hxx|[Hr Hxx]]; [by apply (inv_irrefl g Hinv x)|].
    specialize (Hne Hr). naive_solver.
  - intros i. unfold node_ids. rewrite Hn, Hid. apply (inv_bound g Hinv).
Qed.

Lemma graph_inv_deleteEdge (a b : Z) d g r g' :
  graph_inv g → deleteEdge a b d g = Returned r g' → graph_inv g'.
Proof.
  intros Hinv Hdel.
  destruct (deleteEdge_frame a b d g) as (Hn & Hid & Hk).
  rewrite Hdel in Hn, Hid, Hk. cbn [graph_after] in Hn, Hid, Hk.
  split.
  - apply adj_symmetric_intro. intros x y.
    rewrite (adjacent_deleteEdge a b d g r g' x y Hdel).
    rewrite (adjacent_deleteEdge a b d g r g' y x Hdel).
    rewrite (inv_sym g Hinv x y). naive_solver.
  - intros x. rewrite Hk. unfold node_ids. rewrite Hn.
    apply (inv_keys g Hinv).
  - intros x. rewrite (adjacent_deleteEdge a b d g r g' x x Hdel).
    intros [Hxx _]. by apply (inv_irrefl g Hinv x).
  - intros i. unfold node_ids. rewrite Hn, Hid. apply (inv_bound g Hinv).
Qed.

Lemma graph_inv_deleteEdgeByKey key g :
  graph_inv g → graph_inv (deleteEdgeByKey key g).2.
Proof.
  intros Hinv.
  destruct (deleteEdgeByKey_frame key g) as (Hn & Hid & Hk).
  split.
  - apply adj_symmetric_intro. intros x y.
    rewrite !adjacent_deleteEdgeByKey.
    rewrite (inv_sym g Hinv x y). naive_solver.
  - intros x. rewrite Hk. unfold node_ids. rewrite Hn.
    apply (inv_keys g Hinv).
  - intros x. rewrite adjacent_deleteEdgeByKey.
    intros [Hxx _]. by apply (inv_irrefl g Hinv x).
  - intros i. unfold node_ids. rewrite Hn, Hid. apply (inv_bound g Hinv).
Qed.

Lemma graph_inv_deleteNode id g :
  graph_inv g → graph_inv (deleteNode id g).2.
Proof.
  intros Hinv. split.
  - apply adj_symmetric_intro. intros x y.
    rewrite !adjacent_deleteNode. rewrite (inv_sym g Hinv x y). tauto.
  - intros x. rewrite node_ids_deleteNode, lookup_deleteNode.
    rewrite <- (inv_keys g Hinv). case_decide as Hx.
    + split; [by intros [? [=]]|tauto].
    + rewrite fmap_is_Some. tauto.
  - intros x. rewrite adjacent_deleteNode.
    intros [Hxx _]. by apply (inv_irrefl g Hinv x).
  - apply (exec_ids_below (OpDeleteNode id) g), Hinv.
Qed.

Lemma graph_inv_clear g : graph_inv (clear g).
Proof. apply graph_inv_empty. Qed.

End InvariantSteps.

Section RenameInvariant.

Lemma adj_symmetricb_spec g : adj_symmetricb g = true ↔ adj_symmetric g.
Proof.
  unfold adj_symmetricb. rewrite bool_decide_eq_true. split.
  - intros Hall. apply adj_symmetric_intro. intros a b.
    rewrite (adjacent_lookup g a b). intros (s & Ha & Hb).
    specialize (Hall a s Ha). simpl in Hall.
    rewrite Forall_forall in Hall. by apply Hall.
  - intros Hsym a s Ha. simpl. apply Forall_forall. intros b Hb.
    apply Hsym, adjacent_lookup. eauto.
Qed.

Lemma adj_symmetric_renameNode oldId newId g :
  graph_inv g → oldId ≠ newId → newId ∉ node_ids g →
  adj_symmetric (renameNode oldId newId g).2.
Proof.
  intros Hinv Hne Hnew. apply adj_symmetric_intro. intros x y.
  rewrite !adjacent_renameNode by done.
  assert (∀ a b, adjacent g a b → a ≠ newId ∧ b ≠ newId) as Hnodes.
  { intros a b [Ha Hb]%(inv_neighbor_is_node g a b Hinv).
    split; by intros ->. }
  pose proof (inv_irrefl g Hinv) as Hirr.
  pose proof (inv_sym g Hinv) as Hsym.
  intros [[-> Hoy]|(Hx & Hx' & [[Hxy Hy]|[-> Hxo]])].
  - right. destruct (Hnodes _ _ Hoy) as [_ Hy].
    split_and!; [done| |].
    + intros ->. by apply (Hirr oldId).
    + right. split; [done|]. by apply Hsym.
  - right. destruct (Hnodes _ _ Hxy) as [_ Hy'].
    split_and!; [done..|]. left. split; [|done]. by apply Hsym.
  - left. split; [done|]. by apply Hsym.
Qed.

Lemma graph_inv_renameNode oldId newId g :
  graph_inv g → oldId ∈ node_ids g →
  graph_inv (renameNode oldId newId g).2.
Proof.
  intros Hinv Hold.
  destruct (decide (oldId = newId ∨ newId ∈ node_ids g)) as [Hsame|Hren].
  { by rewrite renameNode_same. }
  assert (oldId ≠ newId) as Hne by tauto.
  assert (newId ∉ node_ids g) as Hnew by tauto.
  assert (∀ a b, adjacent g a b → a ≠ newId ∧ b ≠ newId) as Hnodes.
  { intros a b [Ha Hb]%(inv_neighbor_is_node g a b Hinv).
    split; by intros ->. }
  split.
  - by apply adj_symmetric_renameNode.
  - intros k. destruct (node_ids_renameNode oldId newId g Hne Hnew) as [_ ->].
    rewrite lookup_renameNode, list_elem_of_fmap by done.
    destruct (decide (k = newId)) as [->|Hk].
    { split; [|eauto]. intros _. exists oldId. by rewrite decide_True. }
    destruct (decide (k = oldId)) as [->|Hk'].
    { split; [by intros [? [=]]|]. intros (j & Hj & _).
      destruct (decide (j = oldId)); congruence. }
    rewrite fmap_is_Some, (inv_keys g Hinv). split.
    + intros Hkn. exists k. by rewrite decide_False.
    + intros (j & Hj & Hjn). destruct (decide (j = oldId)); congruence.
  - intros x. rewrite adjacent_renameNode by done.
    intros [[-> Hox]|(Hx & Hx' & [[Hxx _]|[-> _]])]; [|  |done].
    + by destruct (Hnodes _ _ Hox).
    + by apply (inv_irrefl g Hinv x).
  - pose proof (exec_ids_below (OpRenameNode oldId newId) g
                  (inv_bound g Hinv)) as Hb.
    by rewrite graph_after_exec in Hb.
Qed.

End RenameInvariant.

(** ** The path 0-1-2-3 *)

Section Path.

Lemma for_each_fmap {A B S : Type} (f : A → B) (body : B → S → option S)
    (l : list A) (s : S) :
  for_each body (f <$> l) s = for_each (λ a, body (f a)) l s.
Proof.
  revert s. induction l as [|a l IH]; intros s; [done|].
  cbn [fmap list_fmap for_each]. destruct (body (f a) s); [apply IH|done].
Qed.

Lemma for_each_ext {A S : Type} (body body' : A → S → option S) l s :
  (∀ a s, a ∈ l → body a s = body' a s) →
  for_each body l s = for_each body' l s.
Proof.
  revert s. induction l as [|a l IH]; intros s Hext; [done|].
  cbn [for_each]. rewrite Hext by left.
  destruct (body' a s); [|done]. apply IH. intros b t Hb. apply Hext. by right.
Qed.

(** [dfs] reads the adjacency index at present nodes only. *)
Lemma dfs_ext g g' P :
  (∀ u, u ∈ P → neighbours g u = neighbours g' u) →
  ∀ fuel u st, u ∈ P → Plain.dfs fuel g P u st = Plain.dfs fuel g' P u st.
Proof.
  intros Hadj. induction fuel as [|fuel IH]; intros u st Hu; [done|].
  cbn [Plain.dfs]. change (default [] (adj g !! u)) with (neighbours g u).
  change (default [] (adj g' !! u)) with (neighbours g' u).
  rewrite (Hadj u Hu). f_equal. apply for_each_ext.
  intros v [children st'] _. unfold Plain.visit_neighbor.
  destruct (JsSet.has v P) eqn:Hv; [|done]. cbn [negb].
  apply JsSet_has_true in Hv.
  destruct (Js.seq (disc st' !! v) (-1)); [|done]. by rewrite IH.
Qed.

(** [analyze] reads the ids of the nodes in their order, the allocator,
    and the neighbours of the nodes: not the positions, not the edge
    map. *)
Lemma analyze_ext g g' :
  node_ids g = node_ids g' → nextId g = nextId g' →
  (∀ u, u ∈ node_ids g → neighbours g u = neighbours g' u) →
  analyze g = analyze g'.
Proof.
  intros Hids Hnext Hadj. unfold analyze, analyze_fuel, init_state.
  rewrite <- Hnext.
  assert (nodesPresent_of g' = nodesPresent_of g) as ->
    by (unfold nodesPresent_of; by rewrite Hids).
  assert (length (nodes g') = length (nodes g)) as ->.
  { pose proof (f_equal length Hids) as Hlen. unfold node_ids in Hlen.
    by rewrite !length_fmap in Hlen. }
  set (fuel := S (length (nodes g))). set (P := nodesPresent_of g).
  assert (∀ h ns st,
    for_each (Plain.visit_root fuel h P) ns st
    = for_each (λ i, Plain.visit_root fuel h P (mkNode i 0 0)) (n_id <$> ns) st)
    as Hroots by (intros; by rewrite for_each_fmap).
  assert (∀ st,
    for_each (Plain.visit_root fuel g P) (nodes g) st
    = for_each (Plain.visit_root fuel g' P) (nodes g') st) as Heq.
  { intros st. rewrite !Hroots. fold (node_ids g) (node_ids g').
    rewrite <- Hids. apply for_each_ext. intros i st' Hi.
    unfold Plain.visit_root. cbn [n_id].
    destruct (Js.seq _ _); [|done].
    rewrite (dfs_ext g g' P); [done| |by apply elem_of_nodesPresent].
    intros u Hu%elem_of_nodesPresent. by apply Hadj. }
  repeat case_match; try done; by rewrite Heq in *; simplify_eq.
Qed.

(** A path is one of the graphs of [path4_graphs], up to what [analyze]
    does not read. *)
Lemma is_path4_graphs g :
  is_path4 g →
  ∃ g', g' ∈ path4_graphs ∧ analyze g = analyze g'.
Proof.
  intros [Hids Hnext H0 H1 H2 H3].
  apply Permutation_singleton_r in H0, H3.
  exists (path4_graph (node_ids g) (neighbours g 1) (neighbours g 2)). split.
  - unfold path4_graphs. apply list_elem_of_bind. exists (node_ids g).
    split; [|by apply permutations_Permutation].
    apply list_elem_of_bind. exists (neighbours g 1).
    split; [|by apply permutations_Permutation].
    apply list_elem_of_bind. exists (neighbours g 2).
    split; [|by apply permutations_Permutation].
    by apply list_elem_of_singleton.
  - apply analyze_ext.
    + unfold node_ids, path4_graph. cbn [nodes].
      rewrite <- list_fmap_compose. symmetry. apply list_fmap_id.
    + done.
    + intros u Hu. rewrite Hids in Hu.
      set (at1 := neighbours g 1). set (at2 := neighbours g 2).
      assert (∀ v l, adj (path4_graph (node_ids g) at1 at2) !! v = Some l →
                     l = neighbours (path4_graph (node_ids g) at1 at2) v) as Hl
        by (intros v l Hv; unfold neighbours; by rewrite Hv).
      repeat (apply elem_of_cons in Hu as [->|Hu]);
        [..|by apply elem_of_nil in Hu].
      * rewrite H0. apply Hl. cbn [path4_graph adj].
        by rewrite lookup_insert_eq.
      * apply Hl. cbn [path4_graph adj].
        rewrite lookup_insert_ne by done. by rewrite lookup_insert_eq.
      * apply Hl. cbn [path4_graph adj].
        rewrite !lookup_insert_ne by done. by rewrite lookup_insert_eq.
      * rewrite H3. apply Hl. cbn [path4_graph adj].
        rewrite !lookup_insert_ne by done. by rewrite lookup_insert_eq.
Qed.

End Path.

(** C6. For the graph with nodes 0, 1, 2, 3 and the edges 0-1, 1-2, 2-3 of
    a path, in whatever order the node list holds the nodes and the
    adjacency sets hold the neighbours, [analyze] returns exactly the three
    edges as bridges (as an unordered set) and exactly 1 and 2 as
    articulation points. *)
Theorem analyze_path (g : Graph) :
  is_path4 g →
  ∃ r, analyze g = Done r ∧
       keys_of (r_bridges r) ≡ₚ keys_of path_edges ∧
       articulationPoints r ≡ₚ [1; 2].
Proof.
  intros (g' & Hg' & ->)%is_path4_graphs.
  assert (forallb path4_result path4_graphs = true) as Hall
    by (vm_compute; reflexivity).
  rewrite forallb_forall in Hall. apply list_elem_of_In in Hg'.
  specialize (Hall g' Hg'). unfold path4_result in Hall.
  destruct (analyze g') as [r| |]; [|done..].
  apply andb_true_iff in Hall as [Hb Ha].
  apply bool_decide_eq_true, permutations_Permutation in Hb, Ha.
  exists r. by split_and!.
Qed.

(** C6 on the path whose node list starts with node 1: the traversal
    starts inside the path, and node 1 is an articulation point as a root
    with two children. *)
Lemma analyze_path_witness :
  ∃ r, analyze graph_path4 = Done r ∧
       keys_of (r_bridges r) ≡ₚ keys_of path_edges ∧
       articulationPoints r ≡ₚ [1; 2].
Proof.
  apply (analyze_path graph_path4).
  split; vm_compute; try reflexivity.
  apply perm_swap.
Defined.

(** ** Ids that are no array index *)

Section ConcreteGraphs.

Lemma graph_inv_graph_negative : graph_inv graph_negative.
Proof.
  apply (graph_inv_renameNode 0 (-1)
           (graph_of_ops [OpAddNode 100 100; OpAddNode 200 100;
                          OpAddEdge 0 1 false])).
  - eapply (graph_inv_addEdge 0 1 false
              (graph_of_ops [OpAddNode 100 100; OpAddNode 200 100])).
    + apply graph_inv_addNode, graph_inv_addNode, graph_inv_empty.
    + vm_compute. reflexivity.
  - vm_compute. set_solver.
Qed.

Lemma graph_inv_graph_far : graph_inv graph_far.
Proof.
  apply (graph_inv_renameNode 0 4294967295 (graph_of_ops [OpAddNode 100 100])).
  - apply graph_inv_addNode, graph_inv_empty.
  - vm_compute. set_solver.
Qed.

Lemma edges_well_formed_graph_negative : edges_well_formed graph_negative.
Proof.
  split.
  - intros e He. change (edges_of graph_negative) with [(-1, 1)] in He.
    apply list_elem_of_singleton in He as ->. cbn [fst snd].
    change (node_ids graph_negative) with [-1; 1]. set_solver.
  - intros i j e e'. change (edges_of graph_negative) with [(-1, 1)].
    intros Hi Hj _. apply lookup_lt_Some in Hi, Hj. simpl in Hi, Hj. lia.
Qed.

End ConcreteGraphs.

(** C5 at the graph [graph_negative], which the calls [addNode],
    [addNode], [addEdge(0, 1)], [renameNode(0, -1)] build: it is well
    formed, its one edge joins the nodes -1 and 1, and [analyze] returns
    no component at all, so that the edge is in no component. *)
Theorem analyze_drops_edge_of_negative_id :
  reachable graph_negative ∧ graph_inv graph_negative ∧
  edges_well_formed graph_negative ∧
  edges_of graph_negative = [(-1, 1)] ∧
  ∃ r, analyze graph_negative = Done r ∧ r_components r = [] ∧
       ¬ ∃ c, c ∈ r_components r ∧ in_component (-1, 1) c.
Proof.
  split_and!.
  - apply graph_of_ops_reachable.
  - apply graph_inv_graph_negative.
  - apply edges_well_formed_graph_negative.
  - reflexivity.
  - eexists. split; [vm_compute; reflexivity|]. split; [reflexivity|].
    intros (c & Hc & _). cbn [r_components] in Hc. by apply elem_of_nil in Hc.
Qed.

(** C10 at the same graph: every node id is below the allocator, which is
    2, and yet the loop over the roots reads [disc] at the id -1, where
    the array of length 2 has no element. *)
Theorem analyze_reads_outside_arrays :
  reachable graph_negative ∧ ids_below_nextId graph_negative ∧
  nextId graph_negative = 2 ∧
  (n_id <$> head (nodes graph_negative)) = Some (-1) ∧
  ∃ st, init_state graph_negative = Some st ∧
        disc st !! (-1) = None ∧ low st !! (-1) = None ∧
        parent st !! (-1) = None.
Proof.
  split_and!.
  - apply graph_of_ops_reachable.
  - apply reachable_ids_below, graph_of_ops_reachable.
  - reflexivity.
  - reflexivity.
  - eexists. split; [vm_compute; reflexivity|]. split_and!; reflexivity.
Qed.

(** C8 at the graph [graph_far], which [addNode] and
    [renameNode(0, 4294967295)] build: it is well formed, with no edge and
    its one node below the allocator, and [analyze] does not return a
    result: [new Array(4294967296)] throws a [RangeError]. *)
Theorem analyze_throws_on_far_id :
  reachable graph_far ∧ graph_inv graph_far ∧ edges_of graph_far = [] ∧
  nextId graph_far = Js.max_array_length + 1 ∧
  analyze graph_far = RangeError.
Proof.
  split_and!.
  - apply graph_of_ops_reachable.
  - apply graph_inv_graph_far.
  - reflexivity.
  - reflexivity.
  - apply analyze_throws. vm_compute. intros [_ H]. by apply H.
Qed.

(** The well-formed part of C8: on every graph whose allocator is a valid
    array length the analysis returns a result, and the empty graph yields
    the empty result and the empty trace. *)
Lemma analyze_empty_graph :
  analyze empty_graph = Done (mkResult [] [] [] []) ∧
  analyzeWithSteps empty_graph = Done (mkResult [] [] [] [], []).
Proof. split; reflexivity. Qed.

(** ** Replaying a prefix of the trace *)

Section GhostErasure.

Lemma erase_close_component u v ss :
  erase (Ghost.close_component u v ss) = Traced.close_component u v (erase ss).
Proof.
  destruct ss as [st log].
  unfold Ghost.close_component, Traced.close_component, erase.
  cbn [fst snd].
  destruct (pop_until u v (edgeStack st) [] []) as [[ce cv] rest].
  destruct ce; [done|].
  unfold Ghost.pushStep, Traced.pushStep. cbn [fst snd].
  by rewrite fmap_app.
Qed.

Lemma erase_close_root ss :
  erase (Ghost.close_root ss) = Traced.close_root (erase ss).
Proof.
  destruct ss as [st log].
  unfold Ghost.close_root, Traced.close_root, erase. cbn [fst snd].
  destruct (edgeStack st); [done|].
  destruct (pop_all _ [] []) as [ce cv].
  destruct ce; [done|].
  unfold Ghost.pushStep, Traced.pushStep. cbn [fst snd].
  by rewrite fmap_app.
Qed.

Lemma erase_pushStep s ss :
  erase (Ghost.pushStep s ss) = Traced.pushStep s (erase ss).
Proof.
  unfold erase, Ghost.pushStep, Traced.pushStep. cbn [fst snd].
  by rewrite fmap_app.
Qed.

Lemma erase_on_state f ss :
  erase (Ghost.on_state f ss) = Traced.on_state f (erase ss).
Proof. done. Qed.

Lemma erase_relax_child u v ss :
  erase (Ghost.relax_child u v ss) = Traced.relax_child u v (erase ss).
Proof.
  unfold Ghost.relax_child, Traced.relax_child. cbv zeta.
  by rewrite erase_pushStep, erase_on_state.
Qed.

Lemma erase_relax_back u v ss :
  erase (Ghost.relax_back u v ss) = Traced.relax_back u v (erase ss).
Proof.
  unfold Ghost.relax_back, Traced.relax_back. cbv zeta.
  by rewrite erase_pushStep, erase_on_state.
Qed.

Lemma erase_enter_step u ss :
  erase (Ghost.enter_step u ss) = Traced.enter_step u (erase ss).
Proof.
  unfold Ghost.enter_step, Traced.enter_step. cbv zeta.
  by rewrite erase_pushStep, erase_on_state.
Qed.

Lemma erase_push_edge_step u v back ss :
  erase (Ghost.push_edge_step u v back ss)
  = Traced.push_edge_step u v back (erase ss).
Proof.
  unfold Ghost.push_edge_step, Traced.push_edge_step.
  by rewrite erase_pushStep, erase_on_state.
Qed.

Lemma erase_mark_root u c ss :
  erase (Ghost.mark_root u c ss) = Traced.mark_root u c (erase ss).
Proof.
  unfold Ghost.mark_root, Traced.mark_root. change (erase ss).1 with ss.1.
  destruct (_ && _); [|done]. by rewrite erase_pushStep, erase_on_state.
Qed.

Lemma erase_mark_cut u v ss :
  erase (Ghost.mark_cut u v ss) = Traced.mark_cut u v (erase ss).
Proof.
  unfold Ghost.mark_cut, Traced.mark_cut. change (erase ss).1 with ss.1.
  destruct (_ && _); [|done]. by rewrite erase_pushStep, erase_on_state.
Qed.

Lemma erase_mark_bridge u v ss :
  erase (Ghost.mark_bridge u v ss) = Traced.mark_bridge u v (erase ss).
Proof.
  unfold Ghost.mark_bridge, Traced.mark_bridge. change (erase ss).1 with ss.1.
  destruct (Js.gt _ _); [|done]. by rewrite erase_pushStep, erase_on_state.
Qed.

Lemma erase_close_block u v ss :
  erase (Ghost.close_block u v ss) = Traced.close_block u v (erase ss).
Proof.
  unfold Ghost.close_block, Traced.close_block. change (erase ss).1 with ss.1.
  destruct (Js.ge _ _); [|done]. apply erase_close_component.
Qed.

Lemma visit_neighbor_erase recG recT P u v cs :
  (∀ w ss, erase <$> recG w ss = recT w (erase ss)) →
  erase_loop <$> Ghost.visit_neighbor recG P u v cs
  = Traced.visit_neighbor recT P u v (erase_loop cs).
Proof.
  intros Hrec. destruct cs as [children ss].
  unfold Ghost.visit_neighbor, Traced.visit_neighbor, erase_loop.
  cbn [fst snd]. change (erase ss).1 with ss.1.
  destruct (negb (JsSet.has v P)); [done|].
  destruct (Js.seq (disc ss.1 !! v) (-1)).
  - rewrite <- erase_on_state, <- erase_push_edge_step, <- Hrec.
    destruct (recG v _) as [ss'|]; [|done].
    cbn [fmap option_fmap option_map fst snd]. do 2 f_equal.
    by rewrite erase_close_block, erase_mark_bridge, erase_mark_cut,
      erase_mark_root, erase_relax_child.
  - destruct (_ && _); [|done].
    cbn [fmap option_fmap option_map fst snd]. do 2 f_equal.
    by rewrite erase_relax_back, erase_push_edge_step.
Qed.

Lemma dfs_erase fuel g P :
  ∀ u ss, erase <$> Ghost.dfs fuel g P u ss = Traced.dfs fuel g P u (erase ss).
Proof.
  induction fuel as [|fuel IH]; intros u ss; [done|].
  cbn [Ghost.dfs Traced.dfs]. rewrite <- erase_enter_step.
  pose proof (for_each_proj erase_loop
    (Ghost.visit_neighbor (Ghost.dfs fuel g P) P u)
    (Traced.visit_neighbor (Traced.dfs fuel g P) P u)
    (default [] (adj g !! u))
    (λ a s, visit_neighbor_erase _ _ P u a s IH)
    (0, Ghost.enter_step u ss)) as Hloop.
  change (erase_loop (0, Ghost.enter_step u ss))
    with (0, erase (Ghost.enter_step u ss)) in Hloop.
  rewrite <- Hloop.
  destruct (for_each _ _ _) as [[c ss']|]; reflexivity.
Qed.

Lemma visit_root_erase fuel g P node ss :
  erase <$> Ghost.visit_root fuel g P node ss
  = Traced.visit_root fuel g P node (erase ss).
Proof.
  unfold Ghost.visit_root, Traced.visit_root.
  change ((erase ss).1) with ss.1.
  destruct (Js.seq _ _); [|done].
  rewrite <- dfs_erase.
  destruct (Ghost.dfs _ _ _ _ _) as [ss'|]; cbn [fmap option_fmap option_map]; [|done].
  by rewrite erase_close_root.
Qed.

(** The logged run is [analyzeWithSteps] with more in its log: the two
    end the same way, in the same state and with the same steps. *)
Lemma analyzeWithSteps_log_erase g :
  analyzeWithSteps_state (S (length (nodes g))) g
  = match analyzeWithSteps_log g with
    | Done ss => Done (erase ss)
    | RangeError => RangeError
    | OutOfFuel => OutOfFuel
    end.
Proof.
  unfold analyzeWithSteps_state, analyzeWithSteps_log.
  destruct (init_state g) as [st|]; [|done].
  pose proof (for_each_proj erase
    (Ghost.visit_root (S (length (nodes g))) g (nodesPresent_of g))
    (Traced.visit_root (S (length (nodes g))) g (nodesPresent_of g))
    (nodes g)
    (λ a s, visit_root_erase _ g _ a s) (st, [])) as Hloop.
  change (erase (st, [])) with (st, @nil Step) in Hloop.
  rewrite <- Hloop.
  destruct (for_each _ _ _) as [ss|]; reflexivity.
Qed.

End GhostErasure.

Section ReplayInvariant.

Lemma replay_snoc steps s : replay (steps ++ [s]) = replay_step (replay steps) s.
Proof. unfold replay. by rewrite foldl_app. Qed.

Lemma same_view_refl (st : TState) : same_view st st.
Proof. done. Qed.

Lemma view_matches_same rp st st' :
  same_view st st' → view_matches rp st → view_matches rp st'.
Proof.
  intros [Hd Hk] [Hv Hp]. split.
  - intros u. by rewrite Hv, Hd.
  - intros k. by rewrite Hp, Hk.
Qed.

(** Logging a step whose replay matches the state it is logged with. *)
Lemma ghost_inv_push log s st' :
  log_faithful log → 0 ≤ time st' →
  view_matches (replay_step (replay (fst <$> log)) s) st' →
  ghost_inv (st', log ++ [(s, st')]).
Proof.
  intros Hlog Ht Hview. unfold ghost_inv. cbn [fst snd].
  rewrite fmap_app. cbn [fmap list_fmap fst]. rewrite replay_snoc.
  split_and!; [done..|].
  intros i s0 st0 Hi. rewrite fmap_app. cbn [fmap list_fmap fst].
  destruct (decide (i < length log)%nat) as [Hlt|Hge].
  - rewrite lookup_app_l in Hi by done.
    rewrite take_app_le by (rewrite length_fmap; lia).
    by apply (Hlog i s0 st0).
  - rewrite lookup_app_r in Hi by lia.
    destruct (i - length log)%nat as [|n] eqn:Hn; [|by destruct n].
    injection Hi as <- <-.
    rewrite take_ge by (rewrite length_app, length_fmap; simpl; lia).
    by rewrite replay_snoc.
Qed.

Lemma replay_step_neutral rp s :
  neutral s →
  visitedNodes (replay_step rp s) = visitedNodes rp ∧
  pushedEdges (replay_step rp s) = pushedEdges rp.
Proof. by destruct s. Qed.

(** A step that leaves the view alone, logged after a change of state
    that leaves the view alone. *)
Lemma ghost_inv_neutral (f : TState → TState) s ss :
  neutral s → same_view ss.1 (f ss.1) → time (f ss.1) = time ss.1 →
  ghost_inv ss → ghost_inv (Ghost.pushStep s (Ghost.on_state f ss)).
Proof.
  intros Hs Hsame Htime (Ht & Hview & Hlog). destruct ss as [st log].
  unfold Ghost.pushStep, Ghost.on_state. cbn [fst snd] in *.
  apply ghost_inv_push; [done|lia|].
  destruct (replay_step_neutral (replay (fst <$> log)) s Hs) as [Hv Hp].
  apply (view_matches_same _ st); [done|].
  destruct Hview as [Hview1 Hview2]. split; intros x.
  - by rewrite Hv.
  - by rewrite Hp.
Qed.

Lemma ghost_inv_same_view (f : TState → TState) ss :
  same_view ss.1 (f ss.1) → time (f ss.1) = time ss.1 →
  ghost_inv ss → ghost_inv (f ss.1, ss.2).
Proof.
  intros Hsame Htime (Ht & Hview & Hlog). unfold ghost_inv. cbn [fst snd].
  split_and!; [lia| |done]. by apply (view_matches_same _ ss.1).
Qed.

Lemma discovered_enter u st x :
  0 ≤ time st → discovered (enter u st) x ↔ x = u ∨ discovered st x.
Proof.
  intros Ht. unfold discovered. cbn [enter disc].
  rewrite lookup_insert. case_decide as Hx.
  - subst x. split; [auto|]. intros _. exists (time st + 1).
    split; [done|lia].
  - split; [auto|]. intros [?|?]; [congruence|done].
Qed.

Lemma ghost_inv_enter_step u ss :
  ghost_inv ss → ghost_inv (Ghost.enter_step u ss).
Proof.
  intros (Ht & [Hv Hp] & Hlog). destruct ss as [st log].
  unfold Ghost.enter_step, Ghost.pushStep, Ghost.on_state.
  cbn [fst snd] in *.
  apply ghost_inv_push; [done|cbn [enter time]; lia|].
  split; intros x; cbn [replay_step visitedNodes pushedEdges].
  - rewrite JsSet_elem_of_add, discovered_enter, Hv by done. done.
  - by rewrite Hp.
Qed.

Lemma keys_of_cons e es : keys_of (e :: es) = edgeKey e.1 e.2 :: keys_of es.
Proof. done. Qed.

Lemma ghost_inv_push_edge_step (f : TState → TState) u v back ss :
  (∀ st, disc (f st) = disc st ∧ time (f st) = time st ∧
         edgeStack (f st) = edgeStack st ∧ components (f st) = components st) →
  ghost_inv ss →
  ghost_inv (Ghost.push_edge_step u v back (Ghost.on_state f ss)).
Proof.
  intros Hf (Ht & [Hv Hp] & Hlog). destruct ss as [st log].
  destruct (Hf st) as (Hd & Htime & Hstack & Hcomps).
  unfold Ghost.push_edge_step, Ghost.pushStep, Ghost.on_state.
  cbn [fst snd] in *.
  apply ghost_inv_push; [done|cbn [push_edge time]; lia|].
  split; intros x; cbn [replay_step visitedNodes pushedEdges].
  - rewrite Hv. unfold discovered. cbn [push_edge disc]. by rewrite Hd.
  - rewrite JsSet_elem_of_add, Hp. unfold pushed_so_far.
    cbn [push_edge edgeStack components]. rewrite Hstack, Hcomps.
    rewrite <- app_comm_cons, keys_of_cons, elem_of_cons. done.
Qed.

Lemma same_view_fields st st' :
  disc st' = disc st → edgeStack st' = edgeStack st →
  components st' = components st → same_view st st'.
Proof.
  intros Hd Hs Hc. unfold same_view, discovered, pushed_so_far.
  rewrite Hd, Hs, Hc. done.
Qed.

(** A neutral step logged after a change of state that touches neither
    the marks nor the edges. *)
Lemma ghost_inv_quiet (f : TState → TState) s ss :
  neutral s →
  disc (f ss.1) = disc ss.1 → time (f ss.1) = time ss.1 →
  edgeStack (f ss.1) = edgeStack ss.1 →
  components (f ss.1) = components ss.1 →
  ghost_inv ss → ghost_inv (Ghost.pushStep s (Ghost.on_state f ss)).
Proof.
  intros Hs Hd Ht Hst Hc Hinv.
  apply ghost_inv_neutral; [done| |done|done].
  by apply same_view_fields.
Qed.

Lemma ghost_inv_relax_child u v ss :
  ghost_inv ss → ghost_inv (Ghost.relax_child u v ss).
Proof. intros Hinv. unfold Ghost.relax_child. by apply ghost_inv_quiet. Qed.

Lemma ghost_inv_relax_back u v ss :
  ghost_inv ss → ghost_inv (Ghost.relax_back u v ss).
Proof. intros Hinv. unfold Ghost.relax_back. by apply ghost_inv_quiet. Qed.

Lemma ghost_inv_mark_root u c ss :
  ghost_inv ss → ghost_inv (Ghost.mark_root u c ss).
Proof.
  intros Hinv. unfold Ghost.mark_root.
  destruct (_ && _); [by apply ghost_inv_quiet|done].
Qed.

Lemma ghost_inv_mark_cut u v ss :
  ghost_inv ss → ghost_inv (Ghost.mark_cut u v ss).
Proof.
  intros Hinv. unfold Ghost.mark_cut.
  destruct (_ && _); [by apply ghost_inv_quiet|done].
Qed.

Lemma ghost_inv_mark_bridge u v ss :
  ghost_inv ss → ghost_inv (Ghost.mark_bridge u v ss).
Proof.
  intros Hinv. unfold Ghost.mark_bridge.
  destruct (Js.gt _ _); [by apply ghost_inv_quiet|done].
Qed.

End ReplayInvariant.

Section ReplayClose.

Lemma pop_until_split u v stack ce cv ce' cv' rest :
  pop_until u v stack ce cv = (ce', cv', rest) → ce ++ stack = ce' ++ rest.
Proof.
  revert ce cv. induction stack as [|e stack IH]; intros ce cv; simpl.
  - by intros [= <- _ <-].
  - case_bool_decide.
    + intros [= <- _ <-]. by rewrite <- app_assoc.
    + intros Hpop%IH. by rewrite <- app_assoc in Hpop.
Qed.

Lemma pop_all_split stack ce cv ce' cv' :
  pop_all stack ce cv = (ce', cv') → ce' = ce ++ stack.
Proof.
  revert ce cv. induction stack as [|e stack IH]; intros ce cv; simpl.
  - intros [= <- _]. by rewrite app_nil_r.
  - intros Hpop%IH. by rewrite <- app_assoc in Hpop.
Qed.

Lemma elem_of_keys_of_app k es1 es2 :
  k ∈ keys_of (es1 ++ es2) ↔ k ∈ keys_of es1 ∨ k ∈ keys_of es2.
Proof. unfold keys_of. by rewrite fmap_app, elem_of_app. Qed.

(** Moving the popped edges from the stack to a new component leaves the
    view alone. *)
Lemma same_view_close st ce cv rest :
  edgeStack st = ce ++ rest →
  same_view st
    (mkTState (disc st) (low st) (parent st) (ap st) (bridges st)
              (components st ++ [mkComp ce cv]) rest (time st)).
Proof.
  intros Hstack. split; [done|]. intros k. unfold pushed_so_far.
  cbn [edgeStack components]. rewrite Hstack, fmap_app, concat_app.
  cbn [fmap list_fmap concat edges]. rewrite app_nil_r.
  rewrite !elem_of_keys_of_app. tauto.
Qed.

Lemma ghost_inv_close_component u v ss :
  ghost_inv ss → ghost_inv (Ghost.close_component u v ss).
Proof.
  intros Hinv. unfold Ghost.close_component.
  destruct (pop_until u v (edgeStack ss.1) [] []) as [[ce cv] rest] eqn:Hpop.
  apply pop_until_split in Hpop. rewrite app_nil_l in Hpop.
  destruct ce as [|e ce].
  - rewrite app_nil_l in Hpop. rewrite <- Hpop.
    by destruct ss as [[]].
  - apply (ghost_inv_neutral
             (λ st, mkTState (disc st) (low st) (parent st) (ap st) (bridges st)
                      (components st ++ [mkComp (e :: ce) cv]) rest (time st))
             _ ss); [done| |done|done].
    by apply same_view_close.
Qed.

Lemma ghost_inv_close_root ss :
  ghost_inv ss → ghost_inv (Ghost.close_root ss).
Proof.
  intros Hinv. unfold Ghost.close_root.
  destruct (edgeStack ss.1) as [|e0 stack] eqn:Hstack; [done|].
  destruct (pop_all (e0 :: stack) [] []) as [ce cv] eqn:Hpop.
  apply pop_all_split in Hpop. rewrite app_nil_l in Hpop. subst ce.
  apply (ghost_inv_neutral
           (λ st, mkTState (disc st) (low st) (parent st) (ap st) (bridges st)
                    (components st ++ [mkComp (e0 :: stack) cv]) [] (time st))
           _ ss); [done| |done|done].
  apply same_view_close. by rewrite app_nil_r.
Qed.

Lemma ghost_inv_close_block u v ss :
  ghost_inv ss → ghost_inv (Ghost.close_block u v ss).
Proof.
  intros Hinv. unfold Ghost.close_block.
  destruct (Js.ge _ _); [by apply ghost_inv_close_component|done].
Qed.

End ReplayClose.

Section ReplayTraversal.

Lemma for_each_preserves {A S : Type} (I : S → Prop)
    (body : A → S → option S) (l : list A) :
  (∀ a s s', I s → body a s = Some s' → I s') →
  ∀ s s', I s → for_each body l s = Some s' → I s'.
Proof.
  intros Hbody. induction l as [|a l IH]; intros s s' Hs; simpl.
  - by intros [= <-].
  - destruct (body a s) as [s1|] eqn:Ha; [|done].
    apply IH. by eapply Hbody.
Qed.

Lemma ghost_inv_visit_neighbor rec P u v cs cs' :
  (∀ w ss ss', ghost_inv ss → rec w ss = Some ss' → ghost_inv ss') →
  ghost_inv cs.2 → Ghost.visit_neighbor rec P u v cs = Some cs' →
  ghost_inv cs'.2.
Proof.
  intros Hrec Hinv. destruct cs as [children ss]. cbn [snd] in Hinv.
  unfold Ghost.visit_neighbor.
  destruct (negb (JsSet.has v P)); [by intros [= <-]|].
  destruct (Js.seq (disc ss.1 !! v) (-1)).
  - destruct (rec v _) as [ss2|] eqn:Hcall; [|done].
    apply Hrec in Hcall; [|by apply ghost_inv_push_edge_step].
    intros [= <-]. cbn [snd].
    by apply ghost_inv_close_block, ghost_inv_mark_bridge, ghost_inv_mark_cut,
      ghost_inv_mark_root, ghost_inv_relax_child.
  - destruct (_ && _); intros [= <-]; cbn [snd]; [|done].
    apply ghost_inv_relax_back.
    destruct ss as [st log].
    by apply (ghost_inv_push_edge_step (λ st, st) u v true (st, log)).
Qed.

Lemma ghost_inv_dfs fuel g P :
  ∀ u ss ss', ghost_inv ss → Ghost.dfs fuel g P u ss = Some ss' → ghost_inv ss'.
Proof.
  induction fuel as [|fuel IH]; intros u ss ss' Hinv; [done|].
  cbn [Ghost.dfs].
  destruct (for_each _ _ _) as [[c ss1]|] eqn:Hloop; [|done].
  intros [= <-].
  apply (for_each_preserves (λ cs : Z * Ghost.SState, ghost_inv cs.2)
           _ _ (λ a s s' Hs Hb,
                  ghost_inv_visit_neighbor _ P u a s s' IH Hs Hb)
           (0, Ghost.enter_step u ss) _ (ghost_inv_enter_step u ss Hinv))
    in Hloop.
  exact Hloop.
Qed.

Lemma ghost_inv_visit_root fuel g P node ss ss' :
  ghost_inv ss → Ghost.visit_root fuel g P node ss = Some ss' → ghost_inv ss'.
Proof.
  intros Hinv. unfold Ghost.visit_root.
  destruct (Js.seq _ _); [|by intros [= <-]].
  destruct (Ghost.dfs _ _ _ _ _) as [ss1|] eqn:Hdfs; [|done].
  intros [= <-]. apply ghost_inv_close_root.
  by eapply ghost_inv_dfs.
Qed.

Lemma is_Some_new_array len v i x :
  Js.new_array len v = Some x → x !! i = Some v ∨ x !! i = None.
Proof.
  unfold Js.new_array. case_bool_decide; [|done]. intros [= <-].
  destruct (gset_to_gmap v _ !! i) as [y|] eqn:Hi; [|by right].
  apply lookup_gset_to_gmap_Some in Hi as [_ ->]. by left.
Qed.

Lemma ghost_inv_init g st : init_state g = Some st → ghost_inv (st, []).
Proof.
  unfold init_state.
  destruct (Js.new_array (nextId g) (-1)) as [d|] eqn:Hd; [|done].
  destruct (Js.new_array (nextId g) 0) as [l|]; [|done].
  intros [= <-]. split_and!; [done| |by intros i s st].
  split; intros x.
  - change (x ∈ [] ↔ ∃ d0, d !! x = Some d0 ∧ d0 ≠ -1).
    rewrite elem_of_nil. split; [done|]. intros (d0 & Hx & Hne).
    destruct (is_Some_new_array _ _ x d Hd) as [Hx'|Hx'];
      rewrite Hx' in Hx; [|done]. injection Hx as <-. done.
  - done.
Qed.

(** Every prefix of the log of a run replays to the view of the state at
    its last step. *)
Lemma analyzeWithSteps_log_faithful g st log :
  analyzeWithSteps_log g = Done (st, log) → log_faithful log.
Proof.
  unfold analyzeWithSteps_log.
  destruct (init_state g) as [st0|] eqn:Hinit; [|done].
  destruct (for_each _ _ _) as [ss|] eqn:Hloop; [|done].
  intros [= ->].
  apply (for_each_preserves ghost_inv _ _
           (λ a s s' Hs Hb, ghost_inv_visit_root _ g _ a s s' Hs Hb)
           _ _ (ghost_inv_init g st0 Hinit)) in Hloop.
  apply Hloop.
Qed.

End ReplayTraversal.

Section ReplayPrefix.

(** The replay loop up to an index inside the trace replays the prefix
    that ends there. *)
Lemma applyStepsUpTo_take steps (n : nat) :
  (n ≤ length steps)%nat →
  applyStepsUpTo steps (Z.of_nat n - 1) = replay (take n steps).
Proof.
  unfold applyStepsUpTo. replace (Z.of_nat n - 1 + 1) with (Z.of_nat n) by lia.
  induction n as [|n IH]; intros Hn; [done|].
  rewrite seqZ_S, foldl_app, IH by lia. cbn [foldl].
  rewrite Z.add_0_l, Nat2Z.id.
  destruct (lookup_lt_is_Some_2 steps n) as [s Hs]; [lia|].
  rewrite Hs, (take_S_r _ _ _ Hs). by rewrite replay_snoc.
Qed.

Lemma analyzeWithSteps_of_log g st log :
  analyzeWithSteps_log g = Done (st, log) →
  analyzeWithSteps g = Done (result_of st, fst <$> log).
Proof.
  intros Hlog. unfold analyzeWithSteps, analyzeWithSteps_fuel.
  by rewrite analyzeWithSteps_log_erase, Hlog.
Qed.

End ReplayPrefix.

(** C2, as amended. For every graph and every index [i] of the steps that
    [analyzeWithSteps] returns, replaying the first [i + 1] steps as
    [applyStepsUpTo] does reconstructs a set of visited nodes equal to the
    set of nodes the algorithm had entered at the moment the step was
    emitted, and a set of pushed edges equal to the keys of the edges the
    algorithm had pushed by then: the edges on the edge stack together with
    the edges already popped into a component. *)
Theorem replay_prefix_view (g : Graph) (st : TState)
    (log : list (Step * TState)) (i : nat) (s : Step) (sti : TState) :
  analyzeWithSteps_log g = Done (st, log) → log !! i = Some (s, sti) →
  analyzeWithSteps g = Done (result_of st, fst <$> log) ∧
  (∀ u, u ∈ visitedNodes (applyStepsUpTo (fst <$> log) (Z.of_nat i))
        ↔ discovered sti u) ∧
  (∀ k, k ∈ pushedEdges (applyStepsUpTo (fst <$> log) (Z.of_nat i))
        ↔ k ∈ keys_of (edgeStack sti)
          ∨ k ∈ keys_of (concat (edges <$> components sti))).
Proof.
  intros Hrun Hi. split; [by apply analyzeWithSteps_of_log|].
  pose proof (analyzeWithSteps_log_faithful g st log Hrun i s sti Hi)
    as [Hv Hp].
  pose proof (lookup_lt_Some _ _ _ Hi) as Hlt.
  replace (Z.of_nat i) with (Z.of_nat (S i) - 1) by lia.
  rewrite applyStepsUpTo_take by (rewrite length_fmap; lia).
  split; [done|]. intros k. rewrite Hp. apply elem_of_keys_of_app.
Qed.

(** The amended C2 on the graph of two joined nodes, at its last step. *)
Lemma replay_prefix_view_witness :
  ∃ st log s sti,
    analyzeWithSteps graph_edge01 = Done (result_of st, fst <$> log) ∧
    log !! 5%nat = Some (s, sti) ∧
    (∀ u, u ∈ visitedNodes (applyStepsUpTo (fst <$> log) 5) ↔ discovered sti u) ∧
    (∀ k, k ∈ pushedEdges (applyStepsUpTo (fst <$> log) 5)
          ↔ k ∈ keys_of (edgeStack sti)
            ∨ k ∈ keys_of (concat (edges <$> components sti))).
Proof.
  destruct (analyzeWithSteps_log graph_edge01) as [[st log]| |] eqn:Hrun;
    [|by vm_compute in Hrun..].
  destruct (log !! 5%nat) as [[s sti]|] eqn:Hi.
  - exists st, log, s, sti.
    destruct (replay_prefix_view graph_edge01 st log 5 s sti Hrun Hi)
      as (H1 & H2 & H3).
    done.
  - exfalso. vm_compute in Hrun. injection Hrun as _ <-. by vm_compute in Hi.
Defined.

(** C2 as stated fails after a component is popped: on the graph of two
    joined nodes the sixth and last step is the [popComponent] of the
    component of the edge 0-1; the edge stack is empty when it is emitted,
    and the replay of the six steps still holds the key of the edge among
    its pushed edges. *)
Lemma replay_keeps_popped_edges :
  ∃ st log sti,
    analyzeWithSteps_log graph_edge01 = Done (st, log) ∧
    analyzeWithSteps graph_edge01 = Done (result_of st, fst <$> log) ∧
    length log = 6%nat ∧
    log !! 5%nat = Some (PopComponent 0 [(0, 1)] [0; 1], sti) ∧
    edgeStack sti = [] ∧
    components sti = [mkComp [(0, 1)] [0; 1]] ∧
    pushedEdges (applyStepsUpTo (fst <$> log) 5) = [edgeKey 0 1] ∧
    ¬ (∀ k, k ∈ pushedEdges (applyStepsUpTo (fst <$> log) 5)
            ↔ k ∈ keys_of (edgeStack sti)).
Proof.
  destruct (analyzeWithSteps_log graph_edge01) as [[st log]| |] eqn:Hrun;
    [|by vm_compute in Hrun..].
  pose proof (analyzeWithSteps_of_log _ _ _ Hrun) as Hsteps.
  vm_compute in Hrun. injection Hrun as <- <-.
  eexists _, _, _. split; [reflexivity|]. split; [exact Hsteps|].
  split_and!; [reflexivity..|].
  intros H. specialize (H (edgeKey 0 1)).
  change (edgeKey 0 1 ∈ [edgeKey 0 1] ↔ edgeKey 0 1 ∈ []) in H.
  rewrite elem_of_nil in H. apply H. by left.
Qed.

(** ** Every edge is pushed once *)

Section SameCore.

Lemma same_core_refl st : same_core st st.
Proof. done. Qed.

Lemma same_core_trans st1 st2 st3 :
  same_core st1 st2 → same_core st2 st3 → same_core st1 st3.
Proof.
  intros (Hd1 & Hp1 & Ht1 & He1) (Hd2 & Hp2 & Ht2 & He2).
  split_and!; [congruence..|]. by rewrite He2.
Qed.

Lemma same_core_fields st st' :
  disc st' = disc st → parent st' = parent st → time st' = time st →
  edgeStack st' = edgeStack st → components st' = components st →
  same_core st st'.
Proof.
  intros Hd Hp Ht Hs Hc. split_and!; [done..|].
  unfold pushed_so_far. by rewrite Hs, Hc.
Qed.

Lemma discovered_same_core st st' x :
  same_core st st' → discovered st' x ↔ discovered st x.
Proof. intros (Hd & _). unfold discovered. by rewrite Hd. Qed.

Lemma edge_ok_same_core st st' x y :
  same_core st st' → edge_ok st' x y ↔ edge_ok st x y.
Proof. intros (Hd & Hp & _). unfold edge_ok. by rewrite Hd, Hp. Qed.

Lemma elem_of_pushed_same_core st st' e :
  same_core st st' → e ∈ pushed_so_far st' ↔ e ∈ pushed_so_far st.
Proof. intros (_ & _ & _ & He). by rewrite He. Qed.

Lemma core_inv_same_core g P st st' :
  same_core st st' → core_inv g P st → core_inv g P st'.
Proof.
  intros Hsame Hinv. pose proof Hsame as (Hd & Hp & Ht & He).
  destruct Hinv as [Hdom Htime Hclock Hinj Hedge Hnodup Htree Hroot]. split.
  - intros x. rewrite Hd. apply Hdom.
  - by rewrite Ht.
  - intros x d. rewrite Hd, Ht. apply Hclock.
  - intros x y d. rewrite Hd. apply Hinj.
  - intros x y. rewrite He, (edge_ok_same_core st st') by done. apply Hedge.
  - by rewrite He.
  - intros x p. rewrite (discovered_same_core st st'), Hp, He by done.
    apply Htree.
  - intros x p. rewrite Hd, Hp. apply Hroot.
Qed.

Lemma complete_same_core g P st st' x :
  same_core st st' → complete g P st x → complete g P st' x.
Proof.
  intros (_ & _ & _ & He) Hc y Hy HP. rewrite He. by apply Hc.
Qed.

Lemma frame_same_core s st st' :
  same_core st st' → frame s st → frame s st'.
Proof.
  intros (Hd & Hp & Ht & He) [H1 H2 H2' H3 H4]. split.
  - by rewrite Ht.
  - intros x d. rewrite Hd, Hp. apply H2.
  - intros x d. rewrite Hd. apply H2'.
  - intros e. rewrite He. apply H3.
  - intros x y. rewrite He, Hd. apply H4.
Qed.

Lemma frame_refl st : frame st st.
Proof.
  split.
  - lia.
  - done.
  - intros x d Hx Hd. by left.
  - done.
  - intros x y Hxy. by left.
Qed.

Lemma loop_inv_same_core g P u s1 rest st st' :
  same_core st st' → loop_inv g P u s1 rest st → loop_inv g P u s1 rest st'.
Proof.
  intros Hsame [H0 H0' H1 H2 H3 H4 H5].
  pose proof Hsame as (Hd & Hp & Ht & He).
  split.
  - done.
  - done.
  - by eapply core_inv_same_core.
  - by eapply frame_same_core.
  - intros x d. rewrite Hd. intros Hx Hlt.
    eapply complete_same_core; [done|]. by eapply H3.
  - intros y. rewrite He. apply H4.
  - intros y. rewrite He. apply H5.
Qed.

Lemma same_core_close_component u v st :
  same_core st (close_component u v st).
Proof.
  unfold close_component.
  destruct (pop_until u v (edgeStack st) [] []) as [[ce cv] rest] eqn:Hpop.
  apply pop_until_split in Hpop. rewrite app_nil_l in Hpop.
  split_and!; [done..|]. unfold pushed_so_far. cbn [edgeStack components].
  rewrite Hpop. destruct ce as [|e ce]; [done|].
  rewrite fmap_app, concat_app. cbn [fmap list_fmap concat edges].
  rewrite app_nil_r.
  rewrite (app_assoc rest), (Permutation_app_comm (rest ++ _)).
  by rewrite app_assoc.
Qed.

Lemma same_core_close_root st : same_core st (close_root st).
Proof.
  unfold close_root. destruct (edgeStack st) as [|e0 stack] eqn:Hstack; [done|].
  destruct (pop_all (e0 :: stack) [] []) as [ce cv] eqn:Hpop.
  apply pop_all_split in Hpop. rewrite app_nil_l in Hpop. subst ce.
  split_and!; [done..|]. unfold pushed_so_far. cbn [edgeStack components].
  rewrite Hstack, fmap_app, concat_app. cbn [fmap list_fmap concat edges].
  rewrite app_nil_r, app_nil_l. apply Permutation_app_comm.
Qed.

Lemma edgeStack_close_root st : edgeStack (close_root st) = [].
Proof.
  unfold close_root. destruct (edgeStack st) as [|e0 stack] eqn:Hstack; [done|].
  by destruct (pop_all (e0 :: stack) [] []).
Qed.

(** The blocks after the call for a child only reorder the pushed
    edges. *)
Lemma same_core_after_child u v c st :
  same_core st
    (Plain.close_block u v
       (Plain.mark_bridge u v
          (Plain.mark_cut u v
             (Plain.mark_root u c (Plain.relax_child u v st))))).
Proof.
  eapply same_core_trans; [|unfold Plain.close_block;
    destruct (Js.ge _ _); [apply same_core_close_component|apply same_core_refl]].
  unfold Plain.mark_bridge, Plain.mark_cut, Plain.mark_root.
  destruct (Js.gt _ _); destruct (negb _ && _); destruct (_ && _);
    by apply same_core_fields.
Qed.

Lemma same_core_relax_back u v st : same_core st (Plain.relax_back u v st).
Proof. by apply same_core_fields. Qed.

End SameCore.

Section PushedBasics.

Lemma norm_eq e e' : norm e = norm e' ↔ e = e' ∨ e = (e'.2, e'.1).
Proof.
  destruct e as [a b], e' as [a' b']. unfold norm. cbn [fst snd]. split.
  - intros [= Hmin Hmax].
    destruct (Z.min_spec a b) as [[? Ha]|[? Ha]];
      destruct (Z.max_spec a b) as [[? Hb]|[? Hb]];
      destruct (Z.min_spec a' b') as [[? Ha']|[? Ha']];
      destruct (Z.max_spec a' b') as [[? Hb']|[? Hb']];
      rewrite Ha, Ha' in Hmin; rewrite Hb, Hb' in Hmax;
      first [left; f_equal; lia | right; f_equal; lia].
  - intros [[= -> ->]|[= -> ->]]; [done|].
    by rewrite Z.min_comm, Z.max_comm.
Qed.

Lemma norm_swap a b : norm (a, b) = norm (b, a).
Proof. apply norm_eq. by right. Qed.

Lemma elem_of_norm_pushed (es : list (Z * Z)) a b :
  norm (a, b) ∈ norm <$> es ↔ (a, b) ∈ es ∨ (b, a) ∈ es.
Proof.
  rewrite list_elem_of_fmap. split.
  - intros ([x y] & Heq & Hin). apply norm_eq in Heq as [[= -> ->]|[= -> ->]];
      auto.
  - intros [H|H]; [by exists (a, b)|]. exists (b, a). by rewrite norm_swap.
Qed.

Lemma complete_mono g P st st' x :
  (∀ e, e ∈ pushed_so_far st → e ∈ pushed_so_far st') →
  complete g P st x → complete g P st' x.
Proof.
  intros Hsub Hc y Hy HP. specialize (Hc y Hy HP).
  apply elem_of_norm_pushed in Hc. apply elem_of_norm_pushed.
  destruct Hc; auto.
Qed.

Lemma lookup_new_array len v (x : Z) arr :
  Js.new_array len v = Some arr → 0 ≤ x < len → arr !! x = Some v.
Proof.
  unfold Js.new_array. case_bool_decide; [|done]. intros [= <-] Hx.
  apply lookup_gset_to_gmap_Some. split; [|done].
  apply elem_of_list_to_set, elem_of_seqZ. lia.
Qed.

(** The state [analyze] starts from satisfies the invariant. *)
Lemma core_inv_init g P st :
  (∀ x, x ∈ P → 0 ≤ x < nextId g) →
  init_state g = Some st → core_inv g P st.
Proof.
  intros Hrange. unfold init_state.
  destruct (Js.new_array (nextId g) (-1)) as [d|] eqn:Hd; [|done].
  destruct (Js.new_array (nextId g) 0) as [l|]; [|done].
  intros [= <-].
  assert (∀ x y, d !! x = Some y → y = -1) as Hall.
  { intros x y Hx. destruct (is_Some_new_array _ _ x d Hd); congruence. }
  split; cbn [disc parent time pushed_so_far edgeStack components].
  - intros x Hx. erewrite lookup_new_array; eauto.
  - done.
  - intros x y Hx. left. by eapply Hall.
  - intros x y y' Hx _ Hne. by apply Hall in Hx.
  - intros x y. unfold pushed_so_far. cbn. by intros ?%elem_of_nil.
  - unfold pushed_so_far. cbn. constructor.
  - intros x p (y & Hx & Hne). by apply Hall in Hx.
  - intros x p _. apply Hall.
Qed.

End PushedBasics.

Section Entering.

Lemma edge_ok_discovered st x y :
  edge_ok st x y → discovered st x ∧ discovered st y.
Proof.
  intros (dx & dy & Hx & Hy & Hdx & Hdy & _). split; eexists; eauto.
Qed.

Lemma not_discovered st x : disc st !! x = Some (-1) → ¬ discovered st x.
Proof. intros Hx (d & Hd & Hne). congruence. Qed.

(** Entering a root. *)
Lemma core_inv_enter g P u st :
  core_inv g P st → u ∈ P → disc st !! u = Some (-1) →
  core_inv g P (enter u st) ∧ ∀ y, (u, y) ∉ pushed_so_far (enter u st).
Proof.
  intros [Hdom Htime Hclock Hinj Hedge Hnodup Htree Hroot] Hu Hdu.
  assert (∀ x, discovered st x → x ≠ u) as Hold.
  { intros x Hx ->. by apply (not_discovered st u). }
  split; [split|]; cbn [enter disc parent time].
  - intros x Hx. rewrite lookup_insert_is_Some'. auto.
  - lia.
  - intros x d. rewrite lookup_insert. case_decide; [intros [= <-]; lia|].
    intros [?|?]%Hclock; [auto|lia].
  - intros x y d. rewrite !lookup_insert.
    repeat case_decide; try congruence.
    + intros [= <-] Hy%Hclock. lia.
    + intros Hx%Hclock [= <-]. lia.
    + apply Hinj.
  - intros x y Hxy. destruct (Hedge x y Hxy) as (HxP & HyP & Hadj & Hok).
    split_and!; [done..|].
    destruct (edge_ok_discovered _ _ _ Hok) as [Hx%Hold Hy%Hold].
    destruct Hok as (dx & dy & H1 & H2 & H3).
    exists dx, dy. cbn [enter disc parent].
    by rewrite !lookup_insert_ne by done.
  - done.
  - intros x p Hx. apply discovered_enter in Hx as [->|Hx]; [| |done].
    + intros Hp Hne. by apply (Hroot u p) in Hp.
    + by apply Htree.
  - intros x p. rewrite lookup_insert. case_decide; [intros [=]; lia|].
    apply Hroot.
  - intros y Hy. apply Hedge in Hy as (_ & _ & _ & Hok).
    apply edge_ok_discovered in Hok as [Hx _]. by apply Hold in Hx.
Qed.

(** Entering a child [v] of [u] along the tree edge just pushed. *)
Lemma core_inv_enter_child g P u v st :
  core_inv g P st → u ∈ P → v ∈ P → u ≠ -1 → adjacent g u v →
  discovered st u → disc st !! v = Some (-1) →
  let s0 := push_edge u v (set_parent v u st) in
  core_inv g P (enter v s0) ∧ ∀ y, (v, y) ∉ pushed_so_far s0.
Proof.
  intros [Hdom Htime Hclock Hinj Hedge Hnodup Htree Hroot]
    Hu Hv Hu1 Hadj Hdu Hdv s0.
  assert (∀ x, discovered st x → x ≠ v) as Hold.
  { intros x Hx ->. by apply (not_discovered st v). }
  assert (∀ x y, (x, y) ∈ pushed_so_far st → x ≠ v ∧ y ≠ v) as Hends.
  { intros x y Hxy. apply Hedge in Hxy as (_ & _ & _ & Hok).
    apply edge_ok_discovered in Hok as [Hx Hy]. split; by apply Hold. }
  assert (pushed_so_far (enter v s0) = (u, v) :: pushed_so_far st) as Hpushed
    by done.
  split; [split|]; rewrite ?Hpushed; cbn [enter s0 push_edge set_parent disc parent time].
  - intros x Hx. rewrite lookup_insert_is_Some'. auto.
  - lia.
  - intros x d. rewrite lookup_insert. case_decide; [intros [= <-]; lia|].
    intros [?|?]%Hclock; [auto|lia].
  - intros x y d. rewrite !lookup_insert.
    repeat case_decide; try congruence.
    + intros [= <-] Hy%Hclock. lia.
    + intros Hx%Hclock [= <-]. lia.
    + apply Hinj.
  - intros x y [[= -> ->]|Hxy]%elem_of_cons.
    + split_and!; [done..|]. destruct Hdu as (du & Hdu & Hne).
      exists du, (time st + 1). cbn [enter s0 push_edge set_parent disc parent].
      rewrite lookup_insert_ne by (by apply not_eq_sym, Hold; exists du).
      rewrite !lookup_insert_eq. split_and!; [done..| |].
      * destruct (Hclock _ _ Hdu); lia.
      * left. split; [done|]. destruct (Hclock _ _ Hdu); lia.
    + destruct (Hedge x y Hxy) as (HxP & HyP & Hadj' & Hok).
      split_and!; [done..|].
      destruct (Hends x y Hxy) as [Hx Hy].
      destruct Hok as (dx & dy & H1 & H2 & H3).
      exists dx, dy. cbn [enter s0 push_edge set_parent disc parent].
      by rewrite !lookup_insert_ne by done.
  - rewrite fmap_cons. apply NoDup_cons. split; [|done].
    intros [Hin|Hin]%elem_of_norm_pushed; apply Hends in Hin; tauto.
  - intros x p Hx. apply discovered_enter in Hx as [->|Hx]; [| |done].
    + rewrite lookup_insert_eq. intros [= <-] _. by left.
    + rewrite lookup_insert_ne by (by apply not_eq_sym, Hold).
      intros Hp Hne. right. by apply (Htree x p).
  - intros x p. rewrite lookup_insert. case_decide; [intros [=]; lia|].
    rewrite lookup_insert_ne by done. apply Hroot.
  - intros y [[= -> _]|Hy]%elem_of_cons.
    + by apply (Hold u).
    + apply Hends in Hy. tauto.
Qed.

End Entering.

Section LoopSteps.

Context (g : Graph) (P : list Z) (Htrav : traversable g P).

Lemma loop_inv_disc_self u s1 rest st :
  loop_inv g P u s1 rest st → disc st !! u = Some (time s1).
Proof.
  intros Hli. destruct (li_self _ _ _ _ _ _ Hli) as (_ & Hu & Ht).
  apply (fr_disc _ _ (li_frame _ _ _ _ _ _ Hli) u (time s1) Hu). lia.
Qed.

(** A neighbour that needs no push. *)
Lemma loop_inv_skip u s1 v rest st :
  loop_inv g P u s1 (v :: rest) st →
  (v ∈ P → norm (u, v) ∈ norm <$> pushed_so_far st) →
  loop_inv g P u s1 rest st.
Proof.
  intros [Hself Hadj Hcore Hframe Hafter Hrest Hdone] Hv. split; try done.
  - intros y Hy. apply Hadj. by right.
  - intros y Hy. apply Hrest. by right.
  - intros y Hy HP Hnot. destruct (decide (y = v)) as [->|Hne]; [auto|].
    apply Hdone; [done..|]. rewrite not_elem_of_cons. done.
Qed.

(** An edge to an entered neighbour that is not pushed has been pushed
    from the other end. *)
Lemma pushed_from_other_end u s1 v rest st dv :
  loop_inv g P u s1 (v :: rest) st → v ∈ P →
  disc st !! v = Some dv → dv ≠ -1 →
  parent st !! u = Some v ∨ ¬ dv < time s1 →
  norm (u, v) ∈ norm <$> pushed_so_far st.
Proof.
  intros Hli HvP Hdv Hne Hcase.
  pose proof (loop_inv_disc_self _ _ _ _ Hli) as Hdu.
  destruct Hli as [(HuP & Hu1 & Ht1) Hadj Hcore Hframe Hafter Hrest Hdone].
  apply elem_of_norm_pushed. right.
  destruct Hcase as [Hpar|Hge].
  - apply (ci_tree _ _ _ Hcore u v); [|done|].
    + exists (time s1). split; [done|lia].
    + pose proof (tr_range _ _ Htrav v HvP). lia.
  - assert (adjacent g u v) as Huv by (apply Hadj; by left).
    destruct (decide (dv = time s1)) as [->|Hne'].
    + pose proof (ci_inj _ _ _ Hcore u v (time s1) Hdu Hdv Hne) as ->.
      by apply (tr_irrefl _ _ Htrav) in Huv.
    + assert (complete g P st v) as Hc by (apply (Hafter v dv); [done|lia]).
      specialize (Hc u (proj1 (tr_sym _ _ Htrav u v) Huv) HuP).
      apply elem_of_norm_pushed in Hc as [Hc|Hc]; [done|].
      by apply Hrest in Hc; [|left].
Qed.

(** A back edge is pushed. *)
Lemma loop_inv_back u s1 v rest st dv :
  loop_inv g P u s1 (v :: rest) st → v ∉ rest → v ∈ P →
  disc st !! v = Some dv → dv ≠ -1 →
  parent st !! u ≠ Some v → dv < time s1 →
  loop_inv g P u s1 rest (push_edge u v st).
Proof.
  intros Hli Hfresh HvP Hdv Hne Hpar Hlt.
  pose proof (loop_inv_disc_self _ _ _ _ Hli) as Hdu.
  destruct Hli as [(HuP & Hu1 & Ht1) Hadj Hcore Hframe Hafter Hrest Hdone].
  assert (pushed_so_far (push_edge u v st) = (u, v) :: pushed_so_far st)
    as Hpushed by done.
  split.
  - done.
  - intros y Hy. apply Hadj. by right.
  - destruct Hcore as [Hdom Htime Hclock Hinj Hedge Hnodup Htree Hroot].
    split; rewrite ?Hpushed; cbn [push_edge disc parent time]; try done.
    + intros x y [[= -> ->]|Hxy]%elem_of_cons; [|by apply Hedge].
      split_and!; [done..|by apply Hadj; left|].
      exists (time s1), dv. split_and!; [done..|lia|done|by right].
    + rewrite fmap_cons. apply NoDup_cons. split; [|done].
      intros [Hin|Hin]%elem_of_norm_pushed.
      * by apply Hrest in Hin; [|left].
      * apply Hedge in Hin as (_ & _ & _ & dx & dy & Hx & Hy & _ & _ & Hok).
        rewrite Hdv in Hx. rewrite Hdu in Hy.
        injection Hx as <-. injection Hy as <-.
        destruct Hok as [[? _]|?]; [done|lia].
    + intros x p Hx Hp Hp1. right. by apply (Htree x p).
  - destruct Hframe as [F1 F2 F3 F4 F5]. split; rewrite ?Hpushed; try done.
    + intros e He. right. by apply F4.
    + intros x y [[= -> ->]|Hxy]%elem_of_cons; [|by apply F5].
      right. exists (time s1). split; [done|lia].
  - intros x d Hx Hd. eapply complete_mono; [|by apply (Hafter x d)].
    intros e He. rewrite Hpushed. by right.
  - intros y Hy. rewrite Hpushed, not_elem_of_cons. split.
    + intros [= ->]. done.
    + apply Hrest. by right.
  - intros y Hy HP Hnot. rewrite Hpushed, fmap_cons.
    destruct (decide (y = v)) as [->|Hne']; [by left|].
    right. apply Hdone; [done..|]. rewrite not_elem_of_cons. done.
Qed.

(** The state in which the call for a child [v] starts. *)
Lemma loop_inv_call u s1 v rest st :
  loop_inv g P u s1 (v :: rest) st → v ∈ P → disc st !! v = Some (-1) →
  let s0 := push_edge u v (set_parent v u st) in
  core_inv g P (enter v s0) ∧ ∀ y, (v, y) ∉ pushed_so_far s0.
Proof.
  intros Hli HvP Hdv.
  pose proof (loop_inv_disc_self _ _ _ _ Hli) as Hdu.
  destruct Hli as [(HuP & Hu1 & Ht1) Hadj Hcore Hframe Hafter Hrest Hdone].
  apply core_inv_enter_child; try done.
  - pose proof (tr_range _ _ Htrav u HuP). lia.
  - apply Hadj. by left.
  - exists (time s1). split; [done|lia].
Qed.

(** After the call for a child [v] returned. *)
Lemma loop_inv_tree u s1 v rest st st2 :
  loop_inv g P u s1 (v :: rest) st → v ∉ rest → v ∈ P →
  disc st !! v = Some (-1) →
  core_inv g P st2 →
  frame (enter v (push_edge u v (set_parent v u st))) st2 →
  complete_after g P (time st) st2 →
  loop_inv g P u s1 rest st2.
Proof.
  intros Hli Hfresh HvP Hdv Hcore2 Hframe2 Hafter2.
  pose proof (loop_inv_disc_self _ _ _ _ Hli) as Hdu.
  destruct Hli as [(HuP & Hu1 & Ht1) Hadj Hcore Hframe Hafter Hrest Hdone].
  destruct Hframe as [F1 F2 F3 F4 F5].
  destruct Hframe2 as [G1 G2 G3 G4 G5].
  cbn [enter push_edge set_parent disc parent time] in G1, G2, G3.
  assert (∀ e, e ∈ pushed_so_far
                 (enter v (push_edge u v (set_parent v u st)))
               ↔ e = (u, v) ∨ e ∈ pushed_so_far st) as Hpushed.
  { intros e. apply elem_of_cons. }
  assert (∀ x d, disc st !! x = Some d → d ≠ -1 →
                 disc st2 !! x = Some d ∧ parent st2 !! x = parent st !! x)
    as Hkeep.
  { intros x d Hx Hd.
    assert (x ≠ v) as Hxv by (intros ->; congruence).
    destruct (G2 x d) as [-> ->]; [by rewrite lookup_insert_ne|done|].
    by rewrite lookup_insert_ne. }
  assert (∀ x d, disc st2 !! x = Some d → d ≠ -1 → d ≤ time st →
                 disc st !! x = Some d) as Hback.
  { intros x d Hx Hd Hle. destruct (G3 x d Hx Hd) as [Hx'|?]; [|lia].
    rewrite lookup_insert in Hx'. case_decide; [|done].
    injection Hx' as <-. lia. }
  destruct (Hkeep u (time s1) Hdu) as [Hdu2 _]; [lia|].
  split.
  - done.
  - intros y Hy. apply Hadj. by right.
  - done.
  - split.
    + lia.
    + intros x d Hx Hd. destruct (F2 x d Hx Hd) as [Hx' <-].
      by apply Hkeep.
    + intros x d Hx Hd. destruct (decide (d ≤ time st)) as [Hle|Hgt].
      * apply F3; [|done]. by apply Hback.
      * right. lia.
    + intros e He. apply G4, Hpushed. right. by apply F4.
    + intros x y [Hxy|Hxy]%G5.
      * apply Hpushed in Hxy as [[= -> ->]|Hxy].
        { right. exists (time s1). split; [done|lia]. }
        destruct (F5 x y Hxy) as [?|(d & Hx & Hd)]; [by left|].
        right. exists d. split; [|done]. apply Hkeep; [done|lia].
      * destruct Hxy as (d & Hx & Hd). cbn [enter push_edge set_parent time] in Hd.
        right. exists d. split; [done|lia].
  - intros x d Hx Hd. destruct (decide (d ≤ time st)) as [Hle|Hgt].
    + eapply complete_mono; [|apply (Hafter x d); [|done]].
      * intros e He. apply G4, Hpushed. by right.
      * apply Hback; [done|lia|done].
    + apply (Hafter2 x d); [done|lia].
  - intros y Hy [Hxy|Hxy]%G5.
    + apply Hpushed in Hxy as [[= ->]|Hxy]; [done|].
      by apply Hrest in Hxy; [|right].
    + destruct Hxy as (d & Hx & Hd). cbn [enter push_edge set_parent time] in Hd.
      rewrite Hdu2 in Hx. injection Hx as <-. lia.
  - intros y Hy HP Hnot. destruct (decide (y = v)) as [->|Hne'].
    + apply elem_of_norm_pushed. left. apply G4, Hpushed. by left.
    + assert (norm (u, y) ∈ norm <$> pushed_so_far st) as Hin.
      { apply Hdone; [done..|]. rewrite not_elem_of_cons. done. }
      apply elem_of_norm_pushed in Hin. apply elem_of_norm_pushed.
      destruct Hin; [left|right]; apply G4, Hpushed; by right.
Qed.

End LoopSteps.

Section DfsSpec.

Context (g : Graph) (P : list Z) (Htrav : traversable g P).

Lemma for_each_rest {A S : Type} (I : list A → S → Prop)
    (body : A → S → option S) (l : list A) :
  (∀ a rest s s', I (a :: rest) s → body a s = Some s' → I rest s') →
  ∀ s s', I l s → for_each body l s = Some s' → I [] s'.
Proof.
  intros Hbody. induction l as [|a l IH]; intros s s' Hs; simpl.
  - by intros [= <-].
  - destruct (body a s) as [s1|] eqn:Ha; [|done].
    apply IH. by eapply Hbody.
Qed.

Lemma visit_neighbor_step rec u s1 v rest c st c' st' :
  (∀ w s0 st', w ∈ P → core_inv g P (enter w s0) →
               (∀ y, (w, y) ∉ pushed_so_far s0) →
               rec w s0 = Some st' → dfs_post g P w s0 st') →
  v ∉ rest → loop_inv g P u s1 (v :: rest) st →
  Plain.visit_neighbor rec P u v (c, st) = Some (c', st') →
  loop_inv g P u s1 rest st'.
Proof.
  intros Hrec Hfresh Hli. unfold Plain.visit_neighbor.
  destruct (JsSet.has v P) eqn:HvP; cbn [negb].
  2:{ intros [= _ <-]. apply (loop_inv_skip g P u s1 v); [done|].
      apply JsSet_has_false in HvP. done. }
  apply JsSet_has_true in HvP.
  destruct (ci_dom _ _ _ (li_core _ _ _ _ _ _ Hli) v HvP) as [dv Hdv].
  rewrite Hdv, (loop_inv_disc_self g P u s1 _ st Hli).
  unfold Js.seq, Js.lt. case_bool_decide as Hseq.
  - injection Hseq as ->.
    destruct (rec v _) as [st2|] eqn:Hcall; [|done]. intros [= _ <-].
    destruct (loop_inv_call g P Htrav u s1 v rest st Hli HvP Hdv)
      as [Hcore0 Hfresh0].
    destruct (Hrec v _ st2 HvP Hcore0 Hfresh0 Hcall) as (Hc2 & Hf2 & Ha2).
    eapply loop_inv_same_core; [apply same_core_after_child|].
    by apply (loop_inv_tree g P u s1 v rest st st2).
  - assert (dv ≠ -1) as Hne by congruence.
    destruct (bool_decide (parent st !! u ≠ Some v)) eqn:Hpar;
      [destruct (bool_decide (dv < time s1)) eqn:Hlt|]; cbn [andb];
      intros [= _ <-].
    + apply bool_decide_eq_true in Hpar, Hlt.
      eapply loop_inv_same_core; [apply same_core_relax_back|].
      by apply (loop_inv_back g P u s1 v rest st dv).
    + apply bool_decide_eq_false in Hlt.
      apply (loop_inv_skip g P u s1 v); [done|]. intros _.
      apply (pushed_from_other_end g P Htrav u s1 v rest st dv); auto.
    + apply bool_decide_eq_false in Hpar.
      apply (loop_inv_skip g P u s1 v); [done|]. intros _.
      apply (pushed_from_other_end g P Htrav u s1 v rest st dv); try done.
      left. destruct (decide (parent st !! u = Some v)); [done|].
      by destruct Hpar.
Qed.

Lemma dfs_spec fuel :
  ∀ u s0 st', u ∈ P → core_inv g P (enter u s0) →
              (∀ y, (u, y) ∉ pushed_so_far s0) →
              Plain.dfs fuel g P u s0 = Some st' → dfs_post g P u s0 st'.
Proof.
  induction fuel as [|fuel IH]; intros u s0 st' HuP Hcore Hfresh; [done|].
  cbn [Plain.dfs].
  destruct (for_each _ _ _) as [[c st1]|] eqn:Hloop; [|done].
  intros [= <-]. unfold dfs_post. remember (enter u s0) as s1 eqn:Hs1.
  assert (disc s1 !! u = Some (time s1)) as Hself.
  { rewrite Hs1. cbn [enter disc time]. apply lookup_insert_eq. }
  assert (1 ≤ time s1) as Ht1.
  { pose proof (ci_time _ _ _ Hcore).
    destruct (ci_clock _ _ _ Hcore u (time s1) Hself); lia. }
  assert (NoDup (default [] (adj g !! u))) as Hnodup.
  { destruct (adj g !! u) as [s|] eqn:Hs; [|constructor].
    by apply (tr_nodup _ _ Htrav u s). }
  apply (for_each_rest
           (λ rest (cs : Z * TState),
              NoDup rest ∧ loop_inv g P u s1 rest cs.2)
           (Plain.visit_neighbor (Plain.dfs fuel g P) P u)) in Hloop.
  - destruct Hloop as [_ Hli]. cbn [snd] in Hli.
    pose proof (loop_inv_disc_self g P u s1 _ _ Hli) as Hdu.
    destruct Hli as [_ _ Hc Hf Ha _ Hd]. split_and!; [done..|].
    intros x d Hx Hlt. destruct (decide (d = time s1)) as [->|Hne].
    + assert (x = u) as ->
        by (apply (ci_inj _ _ _ Hc x u (time s1) Hx Hdu); lia).
      intros y Hy HyP. apply Hd; [done..|]. by intros ?%elem_of_nil.
    + apply (Ha x d Hx). rewrite Hs1 in Hne |- *. cbn [enter time] in *. lia.
  - intros v rest [c0 st0] [c0' st0'] [Hnd Hli] Hstep. cbn [snd] in *.
    apply NoDup_cons in Hnd as [Hv Hnd]. split; [done|].
    eapply visit_neighbor_step; eauto.
  - split; [done|]. cbn [snd]. split.
    + done.
    + done.
    + done.
    + apply frame_refl.
    + intros x d Hx Hlt.
      destruct (ci_clock _ _ _ Hcore x d Hx); lia.
    + intros y _. rewrite Hs1. apply Hfresh.
    + intros y Hy _ Hnot. exfalso. apply Hnot. done.
Qed.

End DfsSpec.

Section RootLoop.

Context (g : Graph) (P : list Z) (Htrav : traversable g P).

Lemma visit_root_step fuel node st st' :
  n_id node ∈ P → root_inv g P st →
  Plain.visit_root fuel g P node st = Some st' →
  root_inv g P st' ∧ discovered st' (n_id node) ∧
  ∀ x, discovered st x → discovered st' x.
Proof.
  intros HuP (Hcore & Hafter & Hstack). unfold Plain.visit_root.
  destruct (ci_dom _ _ _ Hcore _ HuP) as [d Hd]. rewrite Hd.
  unfold Js.seq. case_bool_decide as Hseq.
  - injection Hseq as ->.
    destruct (Plain.dfs _ _ _ _ _) as [st1|] eqn:Hdfs; [|done].
    intros [= <-].
    destruct (core_inv_enter g P (n_id node) st Hcore HuP Hd) as [Hc1 Hfresh].
    destruct (dfs_spec g P Htrav fuel (n_id node) st st1 HuP Hc1 Hfresh Hdfs)
      as (Hc2 & [F1 F2 F3 F4 F5] & Ha2).
    cbn [enter disc parent time] in F1, F2, F3.
    pose proof (same_core_close_root st1) as Hsame.
    pose proof Hsame as (Hsd & _).
    assert (∀ x dx, disc st !! x = Some dx → dx ≠ -1 →
                    disc st1 !! x = Some dx) as Hkeep.
    { intros x dx Hx Hne. apply (F2 x dx); [|done].
      rewrite lookup_insert_ne; [done|]. intros Heq. congruence. }
    split_and!.
    + split_and!.
      * by eapply core_inv_same_core.
      * intros x dx. rewrite Hsd. intros Hx Hlt.
        eapply complete_same_core; [done|].
        destruct (decide (dx ≤ time st)) as [Hle|Hgt].
        -- eapply complete_mono; [apply F4|].
           apply (Hafter x dx); [|done].
           destruct (F3 x dx Hx) as [Hx'|?]; [lia| |lia].
           rewrite lookup_insert in Hx'. case_decide; [|done].
           injection Hx' as <-. lia.
        -- apply (Ha2 x dx Hx). lia.
      * apply edgeStack_close_root.
    + exists (time st + 1). rewrite Hsd. split.
      * apply (F2 (n_id node)); [apply lookup_insert_eq|].
        pose proof (ci_time _ _ _ Hcore). lia.
      * pose proof (ci_time _ _ _ Hcore). lia.
    + intros x (dx & Hx & Hne). exists dx. rewrite Hsd. auto.
  - intros [= <-]. split_and!; [done| |done].
    exists d. split; [done|congruence].
Qed.

(** After the loop over the roots every node is entered and complete,
    and the edge stack is empty. *)
Lemma roots_spec fuel (ns : list Node) st st' :
  (∀ n, n ∈ ns → n_id n ∈ P) → root_inv g P st →
  for_each (Plain.visit_root fuel g P) ns st = Some st' →
  root_inv g P st' ∧ ∀ n, n ∈ ns → discovered st' (n_id n).
Proof.
  intros HP Hroot Hloop.
  apply (for_each_rest
           (λ rest s, (∀ n, n ∈ rest → n_id n ∈ P) ∧ root_inv g P s ∧
                      ∀ n, n ∈ ns → n ∈ rest ∨ discovered s (n_id n))
           (Plain.visit_root fuel g P)) in Hloop.
  - destruct Hloop as (_ & Hr & Hall). split; [done|].
    intros n Hn. destruct (Hall n Hn) as [?%elem_of_nil|?]; done.
  - intros a rest s s' (HaP & Hr & Hall) Hstep.
    destruct (visit_root_step fuel a s s') as (Hr' & Ha & Hmono);
      [apply HaP; by left|done..|].
    split_and!; [intros n Hn; apply HaP; by right|done|].
    intros n Hn. destruct (Hall n Hn) as [[->|?]%elem_of_cons|?]; auto.
  - split_and!; [done..|]. intros n Hn. by left.
Qed.

End RootLoop.

Section EdgePartition.

Lemma elem_of_concat {A : Type} (x : A) (ls : list (list A)) :
  x ∈ concat ls ↔ ∃ l, x ∈ l ∧ l ∈ ls.
Proof.
  induction ls as [|l0 ls IH]; cbn [concat].
  - split; [by intros ?%elem_of_nil|]. by intros (l & _ & ?%elem_of_nil).
  - rewrite elem_of_app, IH. split.
    + intros [?|(l & ? & ?)]; [exists l0|exists l]; split; try done;
        [by left|by right].
    + intros (l & Hx & [->|?]%elem_of_cons); [by left|right; eauto].
Qed.

Lemma NoDup_fmap_concat_index {A B : Type} (f : A → B) (ls : list (list A))
    i j l l' x y :
  NoDup (f <$> concat ls) → ls !! i = Some l → ls !! j = Some l' →
  x ∈ l → y ∈ l' → f x = f y → i = j.
Proof.
  revert i j. induction ls as [|l0 ls IH]; intros i j Hnd Hi Hj Hx Hy Hf;
    [done|].
  cbn [concat] in Hnd. rewrite fmap_app in Hnd.
  apply NoDup_app in Hnd as (_ & Hdisj & Hnd).
  assert (∀ k lk z, ls !! k = Some lk → z ∈ lk → f z ∈ f <$> concat ls)
    as Hin.
  { intros k lk z Hk Hz. apply list_elem_of_fmap_2.
    apply elem_of_concat. exists lk. split; [done|].
    by eapply list_elem_of_lookup_2. }
  destruct i as [|i], j as [|j]; cbn in Hi, Hj.
  - done.
  - injection Hi as <-. exfalso. apply (Hdisj (f x)).
    + by apply list_elem_of_fmap_2.
    + rewrite Hf. by eapply Hin.
  - injection Hj as <-. exfalso. apply (Hdisj (f y)).
    + by apply list_elem_of_fmap_2.
    + rewrite <- Hf. by eapply Hin.
  - f_equal. by eapply IH.
Qed.

Lemma traversable_of_inv g :
  graph_inv g → adj_sets g → ids_nonnegative g →
  traversable g (nodesPresent_of g).
Proof.
  intros [Hsym Hkeys Hirr Hbound] Hsets Hpos. split; [|done..].
  intros x Hx%elem_of_nodesPresent. split; [by apply Hpos|by apply Hbound].
Qed.

(** The state at the end of [analyze]: every edge of the adjacency index
    between two nodes is in the components, in one orientation and once. *)
Lemma analyze_final_state g :
  traversable g (nodesPresent_of g) → 0 ≤ nextId g ≤ Js.max_array_length →
  ∃ st, analyze g = Done (result_of st) ∧
        NoDup (norm <$> concat (edges <$> components st)) ∧
        (∀ x y, (x, y) ∈ concat (edges <$> components st) →
                x ∈ node_ids g ∧ y ∈ node_ids g ∧ adjacent g x y) ∧
        (∀ x y, x ∈ node_ids g → y ∈ node_ids g → adjacent g x y →
                norm (x, y) ∈ norm <$> concat (edges <$> components st)).
Proof.
  intros Htrav Hn. unfold analyze, analyze_fuel.
  destruct (init_state_valid g Hn) as (st0 & Hinit & Ht0 & _ & _ & Hc0 & Hs0).
  rewrite Hinit.
  destruct (roots_total g st0) as (st & Hloop); [lia|]. rewrite Hloop.
  exists st. split; [done|].
  pose proof (core_inv_init g _ st0 (tr_range _ _ Htrav) Hinit) as Hcore0.
  assert (root_inv g (nodesPresent_of g) st0) as Hroot0.
  { split_and!; [done| |done]. intros x d Hx Hd.
    destruct (ci_clock _ _ _ Hcore0 x d Hx); lia. }
  destruct (roots_spec g _ Htrav (S (length (nodes g))) (nodes g) st0 st) as
    ((Hcore & Hafter & Hstack) & Hall); [|done..|].
  { intros n Hn'. apply elem_of_nodesPresent. unfold node_ids.
    by apply list_elem_of_fmap_2. }
  assert (pushed_so_far st = concat (edges <$> components st)) as Hpushed.
  { unfold pushed_so_far. by rewrite Hstack. }
  rewrite <- Hpushed. split_and!.
  - apply (ci_nodup _ _ _ Hcore).
  - intros x y Hxy.
    destruct (ci_edge _ _ _ Hcore x y Hxy) as (Hx & Hy & Hadj & _).
    by rewrite <- !elem_of_nodesPresent.
  - intros x y Hx Hy Hadj.
    apply list_elem_of_fmap in Hx as (n & -> & Hn').
    destruct (Hall n Hn') as (d & Hd & Hne).
    apply (Hafter (n_id n) d Hd); [|done|by apply elem_of_nodesPresent].
    destruct (ci_clock _ _ _ Hcore _ _ Hd); lia.
Qed.

(** On a graph that satisfies the invariants of the model and whose ids
    are array indices, [analyze] puts every edge of the edge collection in
    exactly one component. *)
Lemma analyze_partitions_edges g :
  graph_inv g → adj_sets g → ids_nonnegative g →
  0 ≤ nextId g ≤ Js.max_array_length →
  edges_match_adjacency g → edges_well_formed g →
  ∃ r, analyze g = Done r ∧
       ∀ e, e ∈ edges_of g →
            ∃ i c, r_components r !! i = Some c ∧ in_component e c ∧
                   ∀ j c', r_components r !! j = Some c' →
                           in_component e c' → j = i.
Proof.
  intros Hinv Hsets Hpos Hn Hmatch [Hends _].
  destruct (analyze_final_state g) as (st & Hrun & Hnd & _ & Hall);
    [by apply traversable_of_inv|done|].
  exists (result_of st). split; [done|]. cbn [result_of r_components].
  intros [a b] He. destruct (Hends _ He) as (Ha & Hb & _). cbn [fst snd] in *.
  assert (adjacent g a b) as Hadj.
  { apply Hmatch. exists (a, b). split; [done|by left]. }
  pose proof (Hall a b Ha Hb Hadj) as Hin.
  apply list_elem_of_fmap in Hin as (e' & Heq & Hin).
  apply elem_of_concat in Hin as (l & Hin & Hl).
  apply list_elem_of_fmap in Hl as (c & -> & Hc).
  apply list_elem_of_lookup in Hc as (i & Hi).
  exists i, c. split_and!; [done| |].
  - exists e'. split; [done|]. by apply norm_eq.
  - intros j c' Hj (e'' & Hin' & Hsame).
    apply (NoDup_fmap_concat_index norm (edges <$> components st) j i
             (edges c') (edges c) e'' e'); [done| | |done..|].
    + by rewrite list_lookup_fmap, Hj.
    + by rewrite list_lookup_fmap, Hi.
    + rewrite <- Heq. symmetry. by apply norm_eq.
Qed.

(** [analyze] returns only when the arrays could be made. *)
Lemma analyze_done_bounds g r :
  analyze g = Done r → 0 ≤ nextId g ≤ Js.max_array_length.
Proof.
  intros Hrun. destruct (decide (0 ≤ nextId g ≤ Js.max_array_length)); [done|].
  by rewrite analyze_throws in Hrun.
Qed.

(** The same of a result that [analyze] returned. *)
Lemma analyze_partitions_returned g r :
  graph_inv g → adj_sets g → ids_nonnegative g →
  edges_match_adjacency g → edges_well_formed g →
  analyze g = Done r →
  ∀ e, e ∈ edges_of g →
       ∃ i c, r_components r !! i = Some c ∧ in_component e c ∧
              ∀ j c', r_components r !! j = Some c' →
                      in_component e c' → j = i.
Proof.
  intros Hinv Hsets Hpos Hmatch Hwf Hrun.
  destruct (analyze_partitions_edges g) as (r' & Hrun' & Hall); try done.
  { by eapply analyze_done_bounds. }
  rewrite Hrun in Hrun'. by injection Hrun' as <-.
Qed.

End EdgePartition.

Section Checks.

Lemma model_invb_spec g :
  model_invb g = true → graph_inv g ∧ adj_sets g ∧ ids_nonnegative g.
Proof.
  unfold model_invb. rewrite !andb_true_iff, !bool_decide_eq_true.
  intros [[Hsym%adj_symmetricb_spec Hadj] Hids].
  rewrite Forall_forall in Hids. split_and!.
  - split; [done| | |].
    + intros a. split; [|intros Ha; by destruct (Hids a Ha)].
      intros [s Hs]. by destruct (Hadj a s Hs).
    + intros a. unfold adjacent. destruct (adj g !! a) as [s|] eqn:Hs.
      * by destruct (Hadj a s Hs) as (_ & ? & _).
      * by intros ?%elem_of_nil.
    + intros i Hi. destruct (Hids i Hi). lia.
  - intros a s Hs. by destruct (Hadj a s Hs) as (_ & _ & ?).
  - intros i Hi. destruct (Hids i Hi). lia.
Qed.

Lemma edges_match_adjacencyb_spec g :
  edges_match_adjacencyb g = true → edges_match_adjacency g.
Proof.
  unfold edges_match_adjacencyb. rewrite andb_true_iff, !bool_decide_eq_true.
  intros [Hadj Hedges] x y. rewrite Forall_forall in Hedges. split.
  - unfold adjacent. destruct (adj g !! x) as [s|] eqn:Hs;
      [|by intros ?%elem_of_nil].
    cbn. intros Hy. pose proof (Hadj x s Hs) as Hall.
    rewrite Forall_forall in Hall.
    destruct (proj1 (list_elem_of_fmap _ _ _) (Hall y Hy)) as (e & Heq & He).
    exists e. split; [done|]. by apply norm_eq.
  - intros ([a b] & He & [[= -> ->]|[= -> ->]]);
      destruct (Hedges _ He) as [? ?]; done.
Qed.

Lemma edges_well_formedb_spec g :
  edges_well_formedb g = true → edges_well_formed g.
Proof.
  unfold edges_well_formedb. rewrite andb_true_iff, !bool_decide_eq_true.
  intros [Hends Hnd]. rewrite Forall_forall in Hends. split; [done|].
  intros i j e e' Hi Hj Hsame.
  apply (NoDup_lookup (norm <$> edges_of g) i j (norm e)); [done| |].
  - by rewrite list_lookup_fmap, Hi.
  - rewrite list_lookup_fmap, Hj. cbn. f_equal. symmetry. by apply norm_eq.
Qed.

(** The triangle with a tail meets every condition of
    [analyze_partitions_edges]: each of its four edges is in exactly one
    of the two components. *)
Lemma analyze_partitions_triangle_tail :
  ∃ r, analyze graph_triangle_tail = Done r ∧
       ∀ e, e ∈ edges_of graph_triangle_tail →
            ∃ i c, r_components r !! i = Some c ∧ in_component e c ∧
                   ∀ j c', r_components r !! j = Some c' →
                           in_component e c' → j = i.
Proof.
  destruct (model_invb_spec graph_triangle_tail) as (Hinv & Hsets & Hpos);
    [by vm_compute|].
  apply analyze_partitions_edges; [done..| | |].
  - by vm_compute.
  - apply edges_match_adjacencyb_spec. by vm_compute.
  - apply edges_well_formedb_spec. by vm_compute.
Qed.

End Checks.

Section AdjacencySets.

Local Notation sets m := (map_Forall (λ (_ : Z) (s : list Z), NoDup s) m).

Lemma NoDup_JsSet_add (v : Z) s : NoDup s → NoDup (JsSet.add v s).
Proof.
  intros Hs. unfold JsSet.add, JsSet.has. case_bool_decide as Hv; [done|].
  apply NoDup_app. split_and!; [done| |apply NoDup_singleton].
  intros x Hx ->%list_elem_of_singleton. done.
Qed.

Lemma NoDup_JsSet_delete (v : Z) s : NoDup s → NoDup (JsSet.delete v s).
Proof. apply NoDup_filter. Qed.

Lemma sets_alter (f : list Z → list Z) k (m : gmap Z (list Z)) :
  (∀ s, NoDup s → NoDup (f s)) → sets m → sets (alter f k m).
Proof.
  intros Hf Hm x s. rewrite lookup_alter. case_decide; [subst k|apply Hm].
  destruct (m !! x) as [s0|] eqn:Hx; cbn; [|done]. intros [= <-].
  apply Hf. by apply (Hm x).
Qed.

Lemma sets_fold_alter (f : list Z → list Z) ks (m : gmap Z (list Z)) :
  (∀ s, NoDup s → NoDup (f s)) → sets m →
  sets (foldl (λ m v, alter f v m) m ks).
Proof.
  intros Hf. revert m. induction ks as [|k ks IH]; intros m Hm; [done|].
  cbn [foldl]. by apply IH, sets_alter.
Qed.

Lemma adj_sets_link a b g : adj_sets g → adj_sets (graph_after (link a b g)).
Proof.
  intros Hg. unfold link. destruct (adj g !! a) as [sa|] eqn:Ha; [|done].
  assert (sets (<[a:=JsSet.add b sa]> (adj g))) as H1.
  { apply map_Forall_insert_2; [|done]. apply NoDup_JsSet_add. by apply (Hg a). }
  cbn [with_adj adj].
  destruct (<[a:=JsSet.add b sa]> (adj g) !! b) as [sb|] eqn:Hb;
    cbn [graph_after]; [|done].
  unfold adj_sets. cbn [with_adj adj].
  apply map_Forall_insert_2; [|done]. apply NoDup_JsSet_add. by apply (H1 b).
Qed.

Lemma adj_sets_unlink a b g :
  adj_sets g → adj_sets (graph_after (unlink a b g)).
Proof.
  intros Hg. unfold unlink. destruct (adj g !! a) as [sa|] eqn:Ha; [|done].
  assert (sets (<[a:=JsSet.delete b sa]> (adj g))) as H1.
  { apply map_Forall_insert_2; [|done]. apply NoDup_JsSet_delete.
    by apply (Hg a). }
  cbn [with_adj adj].
  destruct (<[a:=JsSet.delete b sa]> (adj g) !! b) as [sb|] eqn:Hb;
    cbn [graph_after]; [|done].
  unfold adj_sets. cbn [with_adj adj].
  apply map_Forall_insert_2; [|done]. apply NoDup_JsSet_delete.
  by apply (H1 b).
Qed.

(** No call of the model lists a neighbour twice in an adjacency set. *)
Lemma exec_adj_sets op g :
  adj_sets g → adj_sets (graph_after (exec op g)).
Proof.
  intros Hg. rewrite graph_after_exec.
  destruct op as [x y|a b d|a b d|key|id|oldId newId|].
  - unfold adj_sets, addNode. cbn [snd adj].
    apply map_Forall_insert_2; [apply NoDup_nil_2|done].
  - unfold addEdge. destruct (decide (a = b)); [done|].
    destruct d; destruct (JsMap.has _ _); try done; by apply adj_sets_link.
  - unfold deleteEdge.
    destruct d; destruct (negb _); try done; by apply adj_sets_unlink.
  - unfold deleteEdgeByKey. destruct (JsMap.get key (edgeMap g)); [|done].
    unfold adj_sets. cbn [snd adj].
    do 2 (apply sets_alter; [apply NoDup_JsSet_delete|]). done.
  - unfold adj_sets, deleteNode. cbn [snd adj].
    intros x s. rewrite lookup_fmap.
    assert (sets match adj g !! id with
                 | Some neigh =>
                     delete id (foldl (λ m v, alter (JsSet.delete id) v m)
                                      (adj g) neigh)
                 | None => adj g
                 end) as H1.
    { destruct (adj g !! id); [|done].
      apply map_Forall_delete, sets_fold_alter; [|done].
      apply NoDup_JsSet_delete. }
    destruct (_ !! x) as [s0|] eqn:Hx; cbn; [|done]. intros [= <-].
    apply H1 in Hx. destruct (JsSet.has id s0); [|done].
    by apply NoDup_JsSet_delete.
  - destruct (decide (oldId = newId ∨ newId ∈ node_ids g)) as [Hsame|Hren].
    + by rewrite renameNode_same.
    + rewrite renameNode_renames by tauto. unfold adj_sets. cbn [snd adj].
      intros x s. rewrite map_lookup_imap.
      assert (sets (<[newId:=default [] (adj g !! oldId)]>
                      (delete oldId (adj g)))) as H1.
      { apply map_Forall_insert_2; [|by apply map_Forall_delete].
        destruct (adj g !! oldId) as [s0|] eqn:Ho; [by apply (Hg oldId)|].
        apply NoDup_nil_2. }
      destruct (_ !! x) as [s0|] eqn:Hx; cbn; [|done]. apply H1 in Hx.
      intros [= <-]. case_decide; [done|].
      destruct (JsSet.has oldId s0); [|done].
      by apply NoDup_JsSet_add, NoDup_JsSet_delete.
  - unfold adj_sets, clear. cbn [adj]. apply map_Forall_empty.
Qed.

Lemma reachable_adj_sets g : reachable g → adj_sets g.
Proof.
  induction 1 as [|op g _ IH]; [|by apply exec_adj_sets].
  unfold adj_sets, empty_graph. cbn [adj]. apply map_Forall_empty.
Qed.

(** The arrays of [analyze] have an element at the id of every node when
    the ids are below the allocator and not negative. *)
Lemma init_state_in_bounds g st i :
  ids_below_nextId g → ids_nonnegative g → init_state g = Some st →
  i ∈ node_ids g →
  disc st !! i = Some (-1) ∧ low st !! i = Some 0 ∧ parent st !! i = Some (-1).
Proof.
  intros Hbelow Hpos Hinit Hi. unfold init_state in Hinit.
  destruct (Js.new_array (nextId g) (-1)) as [d|] eqn:Hd; [|done].
  destruct (Js.new_array (nextId g) 0) as [l|] eqn:Hl; [|done].
  injection Hinit as <-. cbn [disc low parent].
  pose proof (Hbelow i Hi). pose proof (Hpos i Hi).
  split_and!; eapply lookup_new_array; try done; lia.
Qed.

End AdjacencySets.

(** The condition [edges_match_adjacency] of [analyze_partitions_edges]
    is needed, and calls of the model can break it: [graph_unlinked] has
    ids 0 and 1, meets [model_invb] and [edges_well_formed], and [analyze]
    puts its one edge in no component, since the traversal follows the
    adjacency sets. *)
Lemma analyze_drops_unlinked_edge :
  reachable graph_unlinked ∧ model_invb graph_unlinked = true ∧
  edges_well_formed graph_unlinked ∧ edges_of graph_unlinked = [(0, 1)] ∧
  ¬ adjacent graph_unlinked 0 1 ∧
  ∃ r, analyze graph_unlinked = Done r ∧ r_components r = [].
Proof.
  split_and!.
  - apply graph_of_ops_reachable.
  - by vm_compute.
  - apply edges_well_formedb_spec. by vm_compute.
  - reflexivity.
  - unfold adjacent. change (adj graph_unlinked !! 0) with (Some (@nil Z)).
    cbn. by intros ?%elem_of_nil.
  - eexists. split; [vm_compute; reflexivity|reflexivity].
Qed.

(** ** Edge keys *)

Section Keys.

Lemma all_digits_string_of_uint d :
  all_digits (NilEmpty.string_of_uint d) = true.
Proof. induction d; cbn [NilEmpty.string_of_uint all_digits]; by try rewrite IHd. Qed.

Lemma string_of_uint_nonempty d :
  d ≠ Decimal.Nil → NilEmpty.string_of_uint d ≠ EmptyString.
Proof. by destruct d. Qed.

(** The decimal form of an integer: an optional minus sign before a
    non-empty run of digits. *)
Lemma string_of_Z_shape z :
  ∃ sign ds, string_of_Z z = (sign ++ ds)%string ∧
             (sign = EmptyString ∨ sign = "-"%string) ∧
             all_digits ds = true ∧ ds ≠ EmptyString.
Proof.
  unfold string_of_Z. destruct z as [|p|p]; cbn [Z.to_int NilZero.string_of_int].
  - exists EmptyString, "0"%string. by split_and!; [|left| |].
  - exists EmptyString, (NilEmpty.string_of_uint (Pos.to_uint p)).
    pose proof (Unsigned.to_uint_nonnil p) as Hnil.
    split_and!; [|by left|apply all_digits_string_of_uint
                 |by apply string_of_uint_nonempty].
    unfold NilZero.string_of_uint. by destruct (Pos.to_uint p).
  - exists "-"%string, (NilEmpty.string_of_uint (Pos.to_uint p)).
    pose proof (Unsigned.to_uint_nonnil p) as Hnil.
    split_and!; [|by right|apply all_digits_string_of_uint
                 |by apply string_of_uint_nonempty].
    unfold NilZero.string_of_uint. by destruct (Pos.to_uint p).
Qed.

Lemma string_of_Z_inj a b : string_of_Z a = string_of_Z b → a = b.
Proof.
  unfold string_of_Z. intros Heq. apply DecimalZ.to_int_inj.
  assert (∀ z, NilZero.int_of_string (NilZero.string_of_int (Z.to_int z))
               = Some (Z.to_int z)) as Hback.
  { intros z. apply NilZero.isi; destruct z as [|p|p]; cbn [Z.to_int];
      try done; intros [= Hp]; by apply (Unsigned.to_uint_nonnil p). }
  pose proof (Hback a) as Ha. rewrite Heq, Hback in Ha. by injection Ha.
Qed.

(** Where a run of digits ends is read off the string. *)
Lemma digits_prefix_inj ds ds' sep sep' r r' :
  all_digits ds = true → all_digits ds' = true →
  is_digit sep = false → is_digit sep' = false →
  (ds ++ String sep r)%string = (ds' ++ String sep' r')%string →
  ds = ds' ∧ sep = sep' ∧ r = r'.
Proof.
  revert ds'. induction ds as [|c ds IH]; intros [|c' ds'];
    cbn [all_digits String.append]; intros Hd Hd' Hs Hs'.
  - by intros [= -> ->].
  - intros [= -> _]. apply andb_true_iff in Hd' as [Hc _]. congruence.
  - intros [= -> _]. apply andb_true_iff in Hd as [Hc _]. congruence.
  - intros [= -> Heq]. apply andb_true_iff in Hd as [_ Hd].
    apply andb_true_iff in Hd' as [_ Hd'].
    destruct (IH ds' Hd Hd' Hs Hs' Heq) as (-> & -> & ->). done.
Qed.

(** The number a key starts with, and what follows it, are read off the
    key. *)
Lemma number_prefix_inj a a' sep sep' r r' :
  is_digit sep = false → is_digit sep' = false →
  (string_of_Z a ++ String sep r)%string
  = (string_of_Z a' ++ String sep' r')%string →
  a = a' ∧ sep = sep' ∧ r = r'.
Proof.
  intros Hs Hs'.
  destruct (string_of_Z_shape a) as (sg & ds & Ha & Hsg & Hds & Hne).
  destruct (string_of_Z_shape a') as (sg' & ds' & Ha' & Hsg' & Hds' & Hne').
  intros Heq. assert (string_of_Z a = string_of_Z a' ∧ sep = sep' ∧ r = r')
    as (? & ? & ?); [|by split_and!; [apply string_of_Z_inj|..]].
  rewrite Ha, Ha' in *. clear Ha Ha'.
  destruct ds as [|c ds]; [done|]. destruct ds' as [|c' ds']; [done|].
  assert (is_digit "-" = false) as Hminus by done.
  destruct Hsg as [->| ->], Hsg' as [->| ->]; cbn [String.append] in Heq |- *.
  - injection Heq as -> Heq.
    cbn [all_digits] in Hds, Hds'.
    apply andb_true_iff in Hds as [_ Hds], Hds' as [_ Hds'].
    destruct (digits_prefix_inj ds ds' sep sep' r r') as (-> & -> & ->); done.
  - injection Heq as -> _. cbn [all_digits] in Hds.
    apply andb_true_iff in Hds as [Hc _]. congruence.
  - injection Heq as <- _. cbn [all_digits] in Hds'.
    apply andb_true_iff in Hds' as [Hc _]. congruence.
  - injection Heq as -> Heq.
    cbn [all_digits] in Hds, Hds'.
    apply andb_true_iff in Hds as [_ Hds], Hds' as [_ Hds'].
    destruct (digits_prefix_inj ds ds' sep sep' r r') as (-> & -> & ->); done.
Qed.

Lemma directedKey_inj a b c d :
  directedKey a b = directedKey c d → a = c ∧ b = d.
Proof.
  unfold directedKey. intros Heq.
  apply number_prefix_inj in Heq as (-> & _ & Heq); [|done..].
  by apply string_of_Z_inj in Heq as ->.
Qed.

Lemma undirected_key_inj u v u' v' :
  (string_of_Z u ++ "-" ++ string_of_Z v)%string
  = (string_of_Z u' ++ "-" ++ string_of_Z v')%string → u = u' ∧ v = v'.
Proof.
  intros Heq.
  apply number_prefix_inj in Heq as (-> & _ & Heq); [|done..].
  by apply string_of_Z_inj in Heq as ->.
Qed.

Lemma edgeKey_inj a b c d :
  edgeKey a b = edgeKey c d → Z.min a b = Z.min c d ∧ Z.max a b = Z.max c d.
Proof. apply undirected_key_inj. Qed.

Lemma directed_key_not_undirected a b u v :
  directedKey a b ≠ (string_of_Z u ++ "-" ++ string_of_Z v)%string.
Proof.
  unfold directedKey. intros Heq.
  by apply number_prefix_inj in Heq as (_ & [=] & _).
Qed.

Lemma edgeKey_norm a b c d :
  edgeKey a b = edgeKey c d ↔ norm (a, b) = norm (c, d).
Proof.
  unfold norm. cbn [fst snd]. split.
  - intros [-> ->]%edgeKey_inj. done.
  - intros [= Hmin Hmax]. unfold edgeKey. by rewrite Hmin, Hmax.
Qed.

End Keys.

(** X1. [edgeKey] names the unordered pair of its arguments: two calls give
    the same key exactly when they are given the same two ids, in either
    order. *)
Theorem edgeKey_eq_iff (a b c d : Z) :
  edgeKey a b = edgeKey c d ↔ (a = c ∧ b = d) ∨ (a = d ∧ b = c).
Proof.
  rewrite edgeKey_norm, norm_eq. cbn [fst snd]. split.
  - intros [[= -> ->]|[= -> ->]]; auto.
  - intros [[-> ->]|[-> ->]]; auto.
Qed.

(** X2. The key of a directed edge names the ordered pair of its endpoints,
    and it is never the key of an undirected edge: the two kinds of entry
    cannot overwrite each other in the edge map. *)
Theorem directedKey_eq_iff (a b c d : Z) :
  (directedKey a b = directedKey c d ↔ a = c ∧ b = d) ∧
  directedKey a b ≠ edgeKey c d.
Proof.
  split; [split|].
  - apply directedKey_inj.
  - by intros [-> ->].
  - apply directed_key_not_undirected.
Qed.

(** ** The edge map *)

Section EdgeMap.

Context {V : Type}.
Implicit Types (m : list (string * V)) (k : string) (v : V).

Lemma JsMap_get_elem k v m : JsMap.get k m = Some v → (k, v) ∈ m.
Proof.
  induction m as [|[k' v'] m IH]; cbn [JsMap.get]; [done|].
  case_decide as Hk.
  - intros [= ->]. subst k'. by left.
  - intros ?%IH. by right.
Qed.

Lemma JsMap_get_None k m : JsMap.get k m = None ↔ k ∉ m.*1.
Proof.
  induction m as [|[k' v'] m IH]; cbn [JsMap.get fmap list_fmap fst].
  - split; [intros _ ?%elem_of_nil|]; done.
  - rewrite not_elem_of_cons. case_decide as Hk.
    + split; [done|]. intros [? _]. congruence.
    + rewrite IH. split; [intros; split; [congruence|done]|tauto].
Qed.

Lemma JsMap_has_true k m : JsMap.has k m = true ↔ k ∈ m.*1.
Proof.
  unfold JsMap.has. pose proof (JsMap_get_None k m) as Hn.
  destruct (JsMap.get k m) as [v|].
  - split; [intros _|done]. destruct (decide (k ∈ m.*1)) as [|Hk]; [done|].
    by apply Hn in Hk.
  - split; [done|]. intros Hk. by apply Hn in Hk.
Qed.

Lemma JsMap_has_false k m : JsMap.has k m = false ↔ k ∉ m.*1.
Proof. rewrite <- JsMap_has_true. by destruct (JsMap.has k m). Qed.

Lemma JsMap_elem_get k v m : NoDup m.*1 → (k, v) ∈ m → JsMap.get k m = Some v.
Proof.
  induction m as [|[k' v'] m IH]; cbn [JsMap.get fmap list_fmap fst].
  - by intros _ ?%elem_of_nil.
  - intros [Hk' Hnd]%NoDup_cons [[= -> ->]|Hin]%elem_of_cons.
    + by rewrite decide_True.
    + case_decide as Hk; [|by apply IH]. subst k'. exfalso. apply Hk'.
      by apply (list_elem_of_fmap_2 fst) in Hin.
Qed.

Lemma elem_of_JsMap_delete k m (kv : string * V) :
  kv ∈ JsMap.delete k m ↔ kv ∈ m ∧ kv.1 ≠ k.
Proof. unfold JsMap.delete. rewrite list_elem_of_filter. tauto. Qed.

Lemma NoDup_JsMap_delete k m : NoDup m.*1 → NoDup (JsMap.delete k m).*1.
Proof.
  intros Hnd. eapply sublist_NoDup; [done|].
  apply fmap_sublist, sublist_filter.
Qed.

Lemma JsMap_delete_absent k m : k ∉ m.*1 → JsMap.delete k m = m.
Proof.
  unfold JsMap.delete. induction m as [|[k' v'] m IH]; [done|].
  cbn [fmap list_fmap fst]. intros [Hne Hk]%not_elem_of_cons.
  rewrite filter_cons_True by (cbn; congruence). f_equal. by apply IH.
Qed.

Lemma JsMap_delete_fresh k v m :
  k ∉ m.*1 → JsMap.delete k (m ++ [(k, v)]) = m.
Proof.
  intros Hk. unfold JsMap.delete. rewrite filter_app.
  rewrite filter_cons_False, filter_nil, app_nil_r by (cbn; tauto).
  induction m as [|[k' v'] m IH]; [done|].
  cbn [fmap list_fmap fst] in Hk. apply not_elem_of_cons in Hk as [Hne Hk].
  rewrite filter_cons_True by (cbn; congruence). f_equal. by apply IH.
Qed.

Lemma JsMap_set_keys k v m :
  (JsMap.set k v m).*1 = if JsMap.has k m then m.*1 else m.*1 ++ [k].
Proof.
  unfold JsMap.has.
  induction m as [|[k' v'] m IH]; cbn [JsMap.set JsMap.get fmap list_fmap fst];
    [done|].
  case_decide as Hk; cbn [fmap list_fmap fst].
  - by subst k'.
  - rewrite IH. by destruct (JsMap.get k m).
Qed.

(** A loop that files one entry per element under keys that are all
    different and all new appends the entries in order. *)
Lemma foldl_set_fresh {A} (f : A → string * V) (l : list A) m :
  NoDup (m.*1 ++ (f <$> l).*1) →
  foldl (λ acc x, JsMap.set (f x).1 (f x).2 acc) m l = m ++ (f <$> l).
Proof.
  revert m. induction l as [|x l IH]; intros m Hnd; cbn [foldl fmap list_fmap].
  - by rewrite app_nil_r.
  - cbn [fmap list_fmap] in Hnd.
    rewrite JsMap_set_fresh.
    + rewrite IH.
      * rewrite <- app_assoc. cbn. by destruct (f x).
      * rewrite fmap_app. cbn [fmap list_fmap fst]. by rewrite <- app_assoc.
    + apply JsMap_has_false. apply NoDup_app in Hnd as (_ & Hdisj & _).
      intros Hin. apply (Hdisj _ Hin). by left.
Qed.

End EdgeMap.

(** ** The edge collection under the operations of the model *)

Section EdgesInv.

Lemma key_of_inj e e' : key_of e = key_of e' → e = e'.
Proof.
  destruct e as [a b d], e' as [a' b' d']. unfold key_of.
  cbn [e_a e_b e_directed]. destruct d, d'; intros Heq.
  - by apply directedKey_inj in Heq as [-> ->].
  - by apply directed_key_not_undirected in Heq.
  - symmetry in Heq. by apply directed_key_not_undirected in Heq.
  - by apply undirected_key_inj in Heq as [-> ->].
Qed.

Lemma norm_min_max a b : norm (Z.min a b, Z.max a b) = norm (a, b).
Proof. unfold norm. cbn [fst snd]. f_equal; lia. Qed.

(** What a call of [addEdge] that returned true found and did. *)
Lemma addEdge_true a b d g g' :
  addEdge a b d g = Returned true g' →
  let e := if d then mkEdge a b true
           else mkEdge (Z.min a b) (Z.max a b) false in
  a ≠ b ∧ is_Some (adj g !! a) ∧ is_Some (adj g !! b) ∧
  key_of e ∉ (edgeMap g).*1 ∧
  edgeMap g' = edgeMap g ++ [(key_of e, e)] ∧ nodes g' = nodes g.
Proof.
  intros Hadd e.
  destruct (adj g !! a) as [sa|] eqn:Ha; cycle 1.
  { exfalso. revert Hadd. unfold addEdge, link.
    destruct (decide (a = b)); [done|].
    destruct d; cbv zeta; destruct (JsMap.has _ _); try done;
      cbn [with_edgeMap adj]; by rewrite Ha. }
  destruct (adj g !! b) as [sb|] eqn:Hb; cycle 1.
  { exfalso. revert Hadd. unfold addEdge, link.
    destruct (decide (a = b)); [done|].
    destruct d; cbv zeta; destruct (JsMap.has _ _); try done;
      cbn [with_edgeMap with_adj adj]; rewrite Ha;
      rewrite lookup_insert_ne by done; by rewrite Hb. }
  rewrite (addEdge_cases a b d g sa sb Ha Hb) in Hadd.
  destruct (decide (a = b)); [done|].
  assert ((if d then directedKey a b else edgeKey a b) = key_of e) as Hkey
    by by destruct d.
  rewrite Hkey in Hadd.
  destruct (JsMap.has (key_of e) (edgeMap g)) eqn:Hhas; [done|].
  apply JsMap_has_false in Hhas. injection Hadd as <-.
  cbn [edgeMap nodes]. split_and!; eauto.
Qed.

Lemma addEdge_false a b d g g' : addEdge a b d g = Returned false g' → g' = g.
Proof.
  unfold addEdge, link. destruct (decide (a = b)); [by intros [= <-]|].
  destruct d; cbv zeta; destruct (JsMap.has _ _); try (by intros [= <-]);
    cbn [with_edgeMap with_adj adj]; repeat case_match; done.
Qed.

Lemma deleteEdge_true a b d g g' :
  deleteEdge a b d g = Returned true g' →
  let e := if d then mkEdge a b true
           else mkEdge (Z.min a b) (Z.max a b) false in
  edgeMap g' = JsMap.delete (key_of e) (edgeMap g) ∧ nodes g' = nodes g.
Proof.
  intros Hdel e.
  assert ((if d then directedKey a b else edgeKey a b) = key_of e) as Hkey
    by by destruct d.
  revert Hdel. unfold deleteEdge.
  destruct d; cbv zeta; (destruct (negb _); [done|]); intros Hun.
  - pose proof (unlink_frame a b
      (with_edgeMap g (JsMap.delete (directedKey a b) (edgeMap g)))) as H.
    rewrite Hun in H. cbn [graph_after] in H.
    destruct H as (Hn & _ & He & _). by rewrite Hn, He.
  - pose proof (unlink_frame a b
      (with_edgeMap g (JsMap.delete
         (string_of_Z (Z.min a b) ++ "-" ++ string_of_Z (Z.max a b))%string
         (edgeMap g)))) as H.
    rewrite Hun in H. cbn [graph_after] in H.
    destruct H as (Hn & _ & He & _). by rewrite Hn, He.
Qed.

Lemma deleteEdge_false a b d g g' :
  deleteEdge a b d g = Returned false g' → g' = g.
Proof.
  unfold deleteEdge, unlink.
  destruct d; cbv zeta; destruct (negb _); try (by intros [= <-]);
    cbn [with_edgeMap with_adj adj]; repeat case_match; done.
Qed.

Lemma edges_inv_addNode x y g : edges_inv g → edges_inv (addNode x y g).2.
Proof.
  intros [Hnd Hkey Hord Hends Hback]. split; try done.
  - intros k e Hin. rewrite node_ids_addNode, !elem_of_app.
    destruct (Hends k e Hin) as (? & ? & ?). auto.
  - intros a b [_ Hadj]%adjacent_addNode. by apply Hback.
Qed.

Lemma edges_inv_addEdge a b d g r g' :
  graph_inv g → edges_inv g → addEdge a b d g = Returned r g' →
  edges_inv g'.
Proof.
  intros Hinv Hei Hadd. destruct r; [|by apply addEdge_false in Hadd as ->].
  pose proof (adjacent_addEdge a b d g true g') as Hadj.
  destruct (addEdge_true a b d g g' Hadd) as (Hne & Ha & Hb & Hfresh & Hem & Hn).
  set (e := if d then mkEdge a b true
            else mkEdge (Z.min a b) (Z.max a b) false) in *.
  assert (node_ids g' = node_ids g) as Hids by (unfold node_ids; by rewrite Hn).
  apply (inv_keys g Hinv) in Ha, Hb.
  assert (norm (ends e) = norm (a, b)) as Hnorm.
  { subst e. destruct d; [done|]. apply norm_min_max. }
  destruct Hei as [Hnd Hkey Hord Hends Hback]. split.
  - rewrite Hem, fmap_app. apply NoDup_app. split_and!; [done| |].
    + intros k Hk ->%list_elem_of_singleton. done.
    + apply NoDup_singleton.
  - intros k e0. rewrite Hem, elem_of_app, list_elem_of_singleton.
    intros [Hin|[= -> ->]]; [by eapply Hkey|done].
  - intros k e0. rewrite Hem, elem_of_app, list_elem_of_singleton.
    intros [Hin|[= -> ->]]; [by eapply Hord|].
    subst e. destruct d; [done|]. cbn. lia.
  - intros k e0. rewrite Hem, Hids, elem_of_app, list_elem_of_singleton.
    intros [Hin|[= -> ->]]; [by eapply Hends|].
    subst e. destruct d; cbn [e_a e_b]; [done|].
    split_and!; [| |lia].
    + destruct (Z.min_spec a b) as [[_ ->]|[_ ->]]; done.
    + destruct (Z.max_spec a b) as [[_ ->]|[_ ->]]; done.
  - intros x y Hxy. apply (proj2 (Hadj x y Hadd)) in Hxy as [Hold|[_ Hnew]].
    + destruct (Hback x y Hold) as (k & e0 & Hin & He0).
      exists k, e0. split; [|done]. rewrite Hem, elem_of_app. by left.
    + exists (key_of e), e. split.
      * rewrite Hem, elem_of_app, list_elem_of_singleton. by right.
      * rewrite Hnorm. destruct Hnew as [[-> ->]|[-> ->]];
          [done|apply norm_swap].
Qed.

Lemma edges_inv_deleteEdge a b d g r g' :
  edges_inv g → deleteEdge a b d g = Returned r g' → edges_inv g'.
Proof.
  intros Hei Hdel. destruct r; [|by apply deleteEdge_false in Hdel as ->].
  pose proof (adjacent_deleteEdge a b d g true g') as Hadj.
  destruct (deleteEdge_true a b d g g' Hdel) as (Hem & Hn).
  set (e := if d then mkEdge a b true
            else mkEdge (Z.min a b) (Z.max a b) false) in *.
  assert (node_ids g' = node_ids g) as Hids by (unfold node_ids; by rewrite Hn).
  assert (norm (ends e) = norm (a, b)) as Hnorm.
  { subst e. destruct d; [done|]. apply norm_min_max. }
  destruct Hei as [Hnd Hkey Hord Hends Hback]. split.
  - rewrite Hem. by apply NoDup_JsMap_delete.
  - intros k e0. rewrite Hem. intros [Hin _]%elem_of_JsMap_delete. eauto.
  - intros k e0. rewrite Hem. intros [Hin _]%elem_of_JsMap_delete. eauto.
  - intros k e0. rewrite Hem, Hids. intros [Hin _]%elem_of_JsMap_delete. eauto.
  - intros x y Hxy. apply (proj1 (Hadj x y Hdel)) in Hxy as [Hold Hnot].
    destruct (Hback x y Hold) as (k & e0 & Hin & He0).
    exists k, e0. split; [|done]. rewrite Hem.
    apply elem_of_JsMap_delete. split; [done|]. cbn [fst]. intros ->.
    apply Hkey, key_of_inj in Hin as ->. apply Hnot. split; [done|].
    rewrite Hnorm in He0. symmetry in He0.
    apply norm_eq in He0 as [[= -> ->]|[= -> ->]]; auto.
Qed.

Lemma deleteEdgeByKey_frame_edges key g :
  nodes (deleteEdgeByKey key g).2 = nodes g ∧
  edgeMap (deleteEdgeByKey key g).2 = JsMap.delete key (edgeMap g).
Proof.
  unfold deleteEdgeByKey.
  destruct (JsMap.get key (edgeMap g)) as [e|] eqn:Hget; [done|].
  cbn [snd]. split; [done|]. apply JsMap_get_None in Hget.
  by rewrite JsMap_delete_absent.
Qed.

Lemma edges_inv_deleteEdgeByKey key g :
  edges_inv g → edges_inv (deleteEdgeByKey key g).2.
Proof.
  intros [Hnd Hkey Hord Hends Hback].
  destruct (deleteEdgeByKey_frame_edges key g) as [Hn Hem].
  assert (node_ids (deleteEdgeByKey key g).2 = node_ids g) as Hids
    by (unfold node_ids; by rewrite Hn).
  split.
  - rewrite Hem. by apply NoDup_JsMap_delete.
  - intros k e0. rewrite Hem. intros [Hin _]%elem_of_JsMap_delete. eauto.
  - intros k e0. rewrite Hem. intros [Hin _]%elem_of_JsMap_delete. eauto.
  - intros k e0. rewrite Hem, Hids. intros [Hin _]%elem_of_JsMap_delete. eauto.
  - intros x y [Hold Hnot]%adjacent_deleteEdgeByKey.
    destruct (Hback x y Hold) as (k & e0 & Hin & He0).
    exists k, e0. split; [|done]. rewrite Hem.
    apply elem_of_JsMap_delete. split; [done|]. cbn [fst]. intros ->.
    apply Hnot. exists e0. split; [by apply JsMap_elem_get|].
    symmetry in He0. unfold ends in He0.
    apply norm_eq in He0 as [[= -> ->]|[= -> ->]]; auto.
Qed.

Lemma edges_inv_deleteNode id g : edges_inv g → edges_inv (deleteNode id g).2.
Proof.
  intros [Hnd Hkey Hord Hends Hback].
  assert (∀ kv, kv ∈ edgeMap (deleteNode id g).2 ↔
                kv ∈ edgeMap g ∧ ¬ (e_a kv.2 = id ∨ e_b kv.2 = id)) as Hem.
  { intros kv. unfold deleteNode. cbn [snd edgeMap].
    rewrite list_elem_of_filter. tauto. }
  split.
  - unfold deleteNode. cbn [snd edgeMap].
    eapply sublist_NoDup; [done|]. apply fmap_sublist, sublist_filter.
  - intros k e [Hin _]%Hem. eauto.
  - intros k e [Hin _]%Hem. eauto.
  - intros k e [Hin Hid]%Hem. cbn [snd] in Hid.
    destruct (Hends k e Hin) as (Ha & Hb & Hne).
    rewrite !node_ids_deleteNode. tauto.
  - intros x y (Hold & Hx & Hy)%adjacent_deleteNode.
    destruct (Hback x y Hold) as (k & e & Hin & He).
    exists k, e. split; [|done]. apply Hem. split; [done|]. cbn [snd].
    unfold ends in He. symmetry in He.
    apply norm_eq in He as [[= -> ->]|[= -> ->]]; tauto.
Qed.

Lemma edges_inv_clear g : edges_inv (clear g).
Proof.
  split; unfold clear; cbn [edgeMap].
  - apply NoDup_nil_2.
  - by intros ?? ?%elem_of_nil.
  - by intros ?? ?%elem_of_nil.
  - by intros ?? ?%elem_of_nil.
  - intros x y. unfold adjacent. cbn [adj]. rewrite lookup_empty.
    by intros ?%elem_of_nil.
Qed.

End EdgesInv.

(** ** Renaming and the edge collection *)

Section RenameEdges.

Context (oldId newId : Z).

Local Notation rho := (rename_id oldId newId).
Local Notation entry :=
  (λ kv : string * Edge,
     (key_of (renamed oldId newId kv.2), renamed oldId newId kv.2)).

Lemma rekey_set acc kv :
  rekey oldId newId acc kv = JsMap.set (entry kv).1 (entry kv).2 acc.
Proof.
  unfold rekey, renamed, key_of, rename_id. cbn [fst snd].
  by destruct (e_directed kv.2).
Qed.

Lemma foldl_rekey acc m :
  foldl (rekey oldId newId) acc m
  = foldl (λ acc kv, JsMap.set (entry kv).1 (entry kv).2 acc) acc m.
Proof.
  revert acc. induction m as [|kv m IH]; intros acc; [done|].
  cbn [foldl]. by rewrite rekey_set, IH.
Qed.

Lemma rename_id_inj i j : i ≠ newId → j ≠ newId → rho i = rho j → i = j.
Proof. unfold rename_id. repeat case_decide; congruence. Qed.

Lemma norm_ends_renamed e :
  norm (ends (renamed oldId newId e)) = norm (rho (e_a e), rho (e_b e)).
Proof.
  unfold renamed, ends. destruct (e_directed e); cbn [e_a e_b]; [done|].
  apply norm_min_max.
Qed.

(** Renaming to an id that no edge mentions sends different edge objects
    to different edge objects. *)
Lemma renamed_inj e e' :
  e_a e ≠ newId → e_b e ≠ newId → e_a e' ≠ newId → e_b e' ≠ newId →
  (e_directed e = false → e_a e < e_b e) →
  (e_directed e' = false → e_a e' < e_b e') →
  renamed oldId newId e = renamed oldId newId e' → e = e'.
Proof.
  destruct e as [a b d], e' as [a' b' d']. cbn [e_a e_b e_directed].
  intros Ha Hb Ha' Hb' Hord Hord'. unfold renamed. cbn [e_a e_b e_directed].
  destruct d, d'; try done.
  - intros [= Ha2 Hb2]. f_equal; by apply rename_id_inj.
  - intros [= Hmin Hmax]. specialize (Hord eq_refl). specialize (Hord' eq_refl).
    assert (rho a ≠ rho b) as Hab by (intros ?%rename_id_inj; lia).
    assert (rho a' ≠ rho b') as Hab' by (intros ?%rename_id_inj; lia).
    assert ((rho a = rho a' ∧ rho b = rho b') ∨ (rho a = rho b' ∧ rho b = rho a'))
      as [[H1 H2]|[H1 H2]] by lia;
      apply rename_id_inj in H1, H2; try done; subst; [done|lia].
Qed.

Context (g : Graph) (Hne : oldId ≠ newId) (Hnew : newId ∉ node_ids g)
        (Hei : edges_inv g).

Lemma endpoint_not_new k e :
  (k, e) ∈ edgeMap g → e_a e ≠ newId ∧ e_b e ≠ newId.
Proof.
  intros Hin. destruct (ei_ends g Hei k e Hin) as (Ha & Hb & _).
  split; intros Heq; by rewrite Heq in *.
Qed.

(** [renameNode] rebuilds the edge map entry by entry, in order: no two
    entries fall on the same key. *)
Lemma edgeMap_renameNode :
  edgeMap (renameNode oldId newId g).2 = entry <$> edgeMap g.
Proof.
  rewrite renameNode_renames by done. cbn [snd edgeMap].
  rewrite foldl_rekey, foldl_set_fresh; [done|]. cbn [fmap list_fmap app].
  rewrite <- list_fmap_compose.
  apply NoDup_fmap_2_strong;
    [|eapply NoDup_fmap_1, (ei_nodup g Hei)].
  intros [k e] [k' e'] Hin Hin'. cbn. intros Heq%key_of_inj.
  destruct (endpoint_not_new k e Hin), (endpoint_not_new k' e' Hin').
  apply renamed_inj in Heq; try done;
    [|by apply (ei_order g Hei k)|by apply (ei_order g Hei k')].
  subst e'. by rewrite (ei_key g Hei k e Hin), (ei_key g Hei k' e Hin').
Qed.

Lemma edges_inv_renameNode : edges_inv (renameNode oldId newId g).2.
Proof.
  pose proof edgeMap_renameNode as Hem.
  destruct (node_ids_renameNode oldId newId g Hne Hnew) as [_ Hids].
  cbv zeta in Hids.
  assert (∀ k' e', (k', e') ∈ edgeMap (renameNode oldId newId g).2 →
            ∃ k e, (k, e) ∈ edgeMap g ∧ e' = renamed oldId newId e
                   ∧ k' = key_of e') as Hpre.
  { intros k' e'. rewrite Hem. intros ([k e] & [= -> ->] & Hin)%list_elem_of_fmap.
    eauto. }
  assert (∀ k e, (k, e) ∈ edgeMap g → rho (e_a e) ≠ rho (e_b e)) as Hdiff.
  { intros k e Hin Heq. destruct (endpoint_not_new k e Hin).
    apply rename_id_inj in Heq; [|done..].
    by destruct (ei_ends g Hei k e Hin) as (_ & _ & ?). }
  split.
  - rewrite Hem, <- list_fmap_compose.
    apply NoDup_fmap_2_strong; [|eapply NoDup_fmap_1, (ei_nodup g Hei)].
    intros [k e] [k' e'] Hin Hin'. cbn. intros Heq%key_of_inj.
    destruct (endpoint_not_new k e Hin), (endpoint_not_new k' e' Hin').
    apply renamed_inj in Heq; try done;
      [|by apply (ei_order g Hei k)|by apply (ei_order g Hei k')].
    subst e'. by rewrite (ei_key g Hei k e Hin), (ei_key g Hei k' e Hin').
  - intros k' e' (k & e & _ & _ & ->)%Hpre. done.
  - intros k' e' (k & e & Hin & -> & _)%Hpre. unfold renamed.
    pose proof (Hdiff k e Hin).
    destruct (e_directed e); cbn [e_directed e_a e_b]; [done|]. lia.
  - intros k' e' (k & e & Hin & -> & _)%Hpre. rewrite Hids.
    destruct (ei_ends g Hei k e Hin) as (Ha & Hb & _).
    pose proof (Hdiff k e Hin) as Hd.
    apply (list_elem_of_fmap_2 rho) in Ha, Hb.
    unfold renamed. destruct (e_directed e); cbn [e_a e_b]; [done|].
    split_and!; [| |lia].
    + destruct (Z.min_spec (rho (e_a e)) (rho (e_b e))) as [[_ ->]|[_ ->]]; done.
    + destruct (Z.max_spec (rho (e_a e)) (rho (e_b e))) as [[_ ->]|[_ ->]]; done.
  - intros x y Hxy.
    assert (∃ u v, adjacent g u v ∧ x = rho u ∧ y = rho v) as (u & v & Huv & -> & ->).
    { apply adjacent_renameNode in Hxy; [|done..].
      destruct Hxy as [[-> Hadj]|(Hx & Hx' & [[Hadj Hy]|[-> Hadj]])].
      - exists oldId, y. split; [done|].
        destruct (ei_backed g Hei _ _ Hadj) as (k & e & Hin & He).
        destruct (ei_ends g Hei k e Hin) as (_ & _ & Hab).
        assert (y ≠ oldId).
        { intros ->. unfold ends in He.
          apply norm_eq in He as [[= ? ?]|[= ? ?]]; congruence. }
        unfold rename_id. rewrite decide_True, decide_False by done. done.
      - exists x, y. split; [done|]. unfold rename_id.
        by rewrite !decide_False by done.
      - exists x, oldId. split; [done|]. unfold rename_id.
        by rewrite decide_False, decide_True by done. }
    destruct (ei_backed g Hei _ _ Huv) as (k & e & Hin & He).
    exists (key_of (renamed oldId newId e)), (renamed oldId newId e). split.
    + rewrite Hem. apply list_elem_of_fmap. by exists (k, e).
    + rewrite norm_ends_renamed. unfold ends in He.
      apply norm_eq in He as [[= -> ->]|[= -> ->]]; [done|apply norm_swap].
Qed.

End RenameEdges.

(** ** The invariants of the model, call by call *)

Section ModelInv.

Lemma edges_inv_empty : edges_inv empty_graph.
Proof. apply (edges_inv_clear empty_graph). Qed.

Lemma edges_invb_spec g : edges_invb g = true → edges_inv g.
Proof.
  unfold edges_invb. rewrite !andb_true_iff, !bool_decide_eq_true.
  intros [[Hnd Hall] Hadj]. rewrite Forall_forall in Hall. split; [done|..].
  - intros k e Hin. by destruct (Hall _ Hin) as (? & _).
  - intros k e Hin. by destruct (Hall _ Hin) as (_ & ? & _).
  - intros k e Hin. by destruct (Hall _ Hin) as (_ & _ & ? & ? & ?).
  - intros x y (s & Hs & Hy)%adjacent_lookup.
    pose proof (Hadj x s Hs) as Hx. rewrite Forall_forall in Hx.
    apply Hx, list_elem_of_fmap in Hy as ([k e] & Heq & Hin). eauto.
Qed.

(** A call that returns keeps the edge collection well formed. *)
Lemma exec_edges_inv op g r g' :
  graph_inv g → edges_inv g → exec op g = Returned r g' → edges_inv g'.
Proof.
  intros Hinv Hei Hexec.
  assert (g' = graph_after (exec op g)) as Hg' by by rewrite Hexec.
  destruct op as [x y|a b d|a b d|key|id|oldId newId|].
  - rewrite graph_after_exec in Hg'. subst g'. by apply edges_inv_addNode.
  - cbn [exec] in Hexec.
    destruct (addEdge a b d g) as [r0 g0|] eqn:Hadd; [|done].
    injection Hexec as _ <-. by eapply edges_inv_addEdge.
  - cbn [exec] in Hexec.
    destruct (deleteEdge a b d g) as [r0 g0|] eqn:Hdel; [|done].
    injection Hexec as _ <-. by eapply edges_inv_deleteEdge.
  - rewrite graph_after_exec in Hg'. subst g'.
    by apply edges_inv_deleteEdgeByKey.
  - rewrite graph_after_exec in Hg'. subst g'. by apply edges_inv_deleteNode.
  - rewrite graph_after_exec in Hg'. subst g'.
    destruct (decide (oldId = newId ∨ newId ∈ node_ids g)) as [Hsame|Hren].
    + by rewrite renameNode_same.
    + apply edges_inv_renameNode; tauto.
  - rewrite graph_after_exec in Hg'. subst g'. apply edges_inv_clear.
Qed.

(** A call that returns keeps the adjacency index well formed, a renaming
    provided it names a node. *)
Lemma exec_graph_inv op g r g' :
  graph_inv g → names_node g op → exec op g = Returned r g' → graph_inv g'.
Proof.
  intros Hinv Hnames Hexec.
  assert (g' = graph_after (exec op g)) as Hg' by by rewrite Hexec.
  destruct op as [x y|a b d|a b d|key|id|oldId newId|].
  - rewrite graph_after_exec in Hg'. subst g'. by apply graph_inv_addNode.
  - cbn [exec] in Hexec.
    destruct (addEdge a b d g) as [r0 g0|] eqn:Hadd; [|done].
    injection Hexec as _ <-. by eapply graph_inv_addEdge.
  - cbn [exec] in Hexec.
    destruct (deleteEdge a b d g) as [r0 g0|] eqn:Hdel; [|done].
    injection Hexec as _ <-. by eapply graph_inv_deleteEdge.
  - rewrite graph_after_exec in Hg'. subst g'.
    by apply graph_inv_deleteEdgeByKey.
  - rewrite graph_after_exec in Hg'. subst g'. by apply graph_inv_deleteNode.
  - rewrite graph_after_exec in Hg'. subst g'.
    by apply graph_inv_renameNode.
  - rewrite graph_after_exec in Hg'. subst g'. apply graph_inv_clear.
Qed.

End ModelInv.

(** X3. The edge collection stays well formed under every operation of the
    model. On a well-formed graph (adjacency symmetric and irreflexive with
    the node ids as keys, ids below the allocator; edge keys all different,
    every entry filed under the key of its edge object, an undirected entry
    with its smaller endpoint first, the endpoints two different nodes,
    every adjacency pair the pair of some entry), a call of [addNode],
    [addEdge], [deleteEdge], [deleteEdgeByKey], [deleteNode], [renameNode]
    of a node, or [clear] that returns leaves a well-formed graph, as long
    as the increment it makes is exact: the allocator in [addNode] and the
    new id in [renameNode] are from [-2^53] to [2^53 - 1]. *)
Theorem exec_keeps_edge_collection (g : Graph) (op : Op) (r : retval) (g' : Graph) :
  graph_inv g → edges_inv g → names_node g op → increments_exact g op →
  exec op g = Returned r g' →
  graph_inv g' ∧ edges_inv g'.
Proof.
  intros Hinv Hei Hnames _ Hexec. split.
  - by eapply exec_graph_inv.
  - by eapply exec_edges_inv.
Qed.

(** X3 on the graph of one edge 0-1, for the call [renameNode(0, 5)]. *)
Lemma exec_keeps_edge_collection_witness :
  graph_inv (renameNode 0 5 graph_edge01).2 ∧
  edges_inv (renameNode 0 5 graph_edge01).2.
Proof.
  refine (exec_keeps_edge_collection graph_edge01 (OpRenameNode 0 5)
            (RBool true) (renameNode 0 5 graph_edge01).2 _ _ _ _ _).
  - apply model_invb_spec. vm_compute. reflexivity.
  - apply edges_invb_spec. vm_compute. reflexivity.
  - vm_compute. set_solver.
  - unfold increments_exact, exact_succ. lia.
  - vm_compute. reflexivity.
Defined.

(** ** [renameNode] of a node *)

Section Renaming.

Context (oldId newId : Z) (g : Graph).
Context (Hinv : graph_inv g) (Hei : edges_inv g).
Context (Hne : oldId ≠ newId) (Hnew : newId ∉ node_ids g).

Local Notation rho := (rename_id oldId newId).
Local Notation g' := (renameNode oldId newId g).2.

Lemma adjacent_renamed x y :
  x ∈ node_ids g → y ∈ node_ids g →
  adjacent g' (rho x) (rho y) ↔ adjacent g x y.
Proof.
  intros Hx Hy. rewrite adjacent_renameNode by done.
  assert (x ≠ newId) as Hxn by (by intros ->).
  assert (y ≠ newId) as Hyn by (by intros ->).
  assert (∀ a, ¬ adjacent g a newId) as Hnone.
  { intros a [_ Hb]%(inv_neighbor_is_node g a newId Hinv). done. }
  pose proof (inv_irrefl g Hinv oldId) as Hirr.
  unfold rename_id. destruct (decide (x = oldId)) as [->|Hxo];
    destruct (decide (y = oldId)) as [->|Hyo].
  - split; [|done]. intros [[_ H]|(? & _)]; [|done]. by apply Hnone in H.
  - split; [|by left]. intros [[_ H]|(? & _)]; done.
  - split.
    + intros [[? _]|(_ & _ & [[H _]|[_ H]])]; [done| |done].
      by apply Hnone in H.
    + intros H. right. split_and!; [done..|]. by right.
  - split.
    + intros [[? _]|(_ & _ & [[H _]|[? _]])]; done.
    + intros H. right. split_and!; [done..|]. by left.
Qed.

Lemma rename_id_back i : i ≠ newId → rename_id newId oldId (rho i) = i.
Proof. unfold rename_id. repeat case_decide; congruence. Qed.

Lemma renamed_back e :
  e_a e ≠ newId → e_b e ≠ newId →
  (e_directed e = false → e_a e < e_b e) →
  renamed newId oldId (renamed oldId newId e) = e.
Proof.
  destruct e as [a b d]. cbn [e_a e_b e_directed]. intros Ha Hb Hord.
  unfold renamed. cbn [e_a e_b e_directed]. destruct d; cbn [e_a e_b e_directed].
  - by rewrite !rename_id_back.
  - specialize (Hord eq_refl).
    destruct (Z.min_spec (rho a) (rho b)) as [[Hlt Hmin]|[Hle Hmin]];
      destruct (Z.max_spec (rho a) (rho b)) as [[Hlt' Hmax]|[Hle' Hmax]];
      rewrite Hmin, Hmax, !rename_id_back by done; f_equal; lia.
Qed.

Lemma old_not_node_after : oldId ∉ node_ids g'.
Proof.
  destruct (node_ids_renameNode oldId newId g Hne Hnew) as [_ ->].
  intros (i & Hi & _)%list_elem_of_fmap.
  unfold rename_id in Hi. case_decide; congruence.
Qed.

Lemma nodes_rename_back : nodes (renameNode newId oldId g').2 = nodes g.
Proof.
  pose proof old_not_node_after as Hold.
  rewrite (renameNode_renames newId oldId) by done. cbn [snd nodes].
  rewrite (renameNode_renames oldId newId) by done. cbn [snd nodes].
  rewrite <- list_fmap_compose. rewrite <- (list_fmap_id (nodes g)) at 2.
  apply list_fmap_ext. intros _ [i x y] Hn%list_elem_of_lookup_2. cbn.
  assert (i ≠ newId).
  { intros ->. apply Hnew. by apply (list_elem_of_fmap_2 n_id) in Hn. }
  destruct (decide (i = oldId)) as [->|]; cbn.
  - by rewrite decide_True.
  - by rewrite decide_False.
Qed.

Lemma edgeMap_rename_back : edgeMap (renameNode newId oldId g').2 = edgeMap g.
Proof.
  pose proof old_not_node_after as Hold.
  pose proof (edges_inv_renameNode oldId newId g Hne Hnew Hei) as Hei'.
  rewrite (edgeMap_renameNode newId oldId g') by done.
  rewrite (edgeMap_renameNode oldId newId g) by done.
  rewrite <- list_fmap_compose. rewrite <- (list_fmap_id (edgeMap g)) at 2.
  apply list_fmap_ext. intros _ [k e] Hin%list_elem_of_lookup_2. cbn.
  destruct (endpoint_not_new newId g Hnew Hei k e Hin).
  rewrite renamed_back; [|done..|by apply (ei_order g Hei k)].
  by rewrite <- (ei_key g Hei k e Hin).
Qed.

End Renaming.

(** X4. [renameNode] to an unused id is a renaming of the whole graph: it
    returns true, gives every node with the old id the new one and keeps
    all positions, rebuilds the edge map entry by entry (same number of
    entries, same order, endpoints renamed, an undirected entry put back in
    order, each under the key of its new edge object), makes two renamed
    nodes neighbours exactly when the nodes were, and moves the allocator
    past the new id. The new id is from [-2^53] to [2^53 - 1], so that the
    program computes [newId + 1] exactly. *)
Theorem renameNode_renames_graph (g : Graph) (oldId newId : Z) :
  graph_inv g → edges_inv g → oldId ≠ newId → newId ∉ node_ids g →
  exact_succ newId →
  let rho := rename_id oldId newId in
  let g' := (renameNode oldId newId g).2 in
  (renameNode oldId newId g).1 = true ∧
  nodes g' = (λ n, mkNode (rho (n_id n)) (n_x n) (n_y n)) <$> nodes g ∧
  edgeMap g' = (λ kv : string * Edge,
                  (key_of (renamed oldId newId kv.2), renamed oldId newId kv.2))
               <$> edgeMap g ∧
  (∀ x y, x ∈ node_ids g → y ∈ node_ids g →
          adjacent g' (rho x) (rho y) ↔ adjacent g x y) ∧
  nextId g' = Z.max (nextId g) (newId + 1).
Proof.
  intros Hinv Hei Hne Hnew _ rho g'. split_and!.
  - by rewrite renameNode_renames.
  - subst g'. rewrite renameNode_renames by done. cbn [snd nodes].
    apply list_fmap_ext. intros _ [i x y] _. subst rho. unfold rename_id. cbn.
    by destruct (decide (i = oldId)).
  - by apply edgeMap_renameNode.
  - intros x y. by apply adjacent_renamed.
  - by destruct (node_ids_renameNode oldId newId g Hne Hnew) as [? _].
Qed.

(** X4 on the graph of one edge 0-1, for the call [renameNode(0, 5)]. *)
Lemma renameNode_renames_graph_witness :
  (renameNode 0 5 graph_edge01).1 = true ∧
  nodes (renameNode 0 5 graph_edge01).2
  = (λ n, mkNode (rename_id 0 5 (n_id n)) (n_x n) (n_y n)) <$> nodes graph_edge01 ∧
  edgeMap (renameNode 0 5 graph_edge01).2
  = (λ kv : string * Edge, (key_of (renamed 0 5 kv.2), renamed 0 5 kv.2))
    <$> edgeMap graph_edge01 ∧
  (∀ x y, x ∈ node_ids graph_edge01 → y ∈ node_ids graph_edge01 →
          adjacent (renameNode 0 5 graph_edge01).2
                   (rename_id 0 5 x) (rename_id 0 5 y)
          ↔ adjacent graph_edge01 x y) ∧
  nextId (renameNode 0 5 graph_edge01).2 = Z.max (nextId graph_edge01) (5 + 1).
Proof.
  refine (renameNode_renames_graph graph_edge01 0 5 _ _ _ _ _).
  - apply model_invb_spec. vm_compute. reflexivity.
  - apply edges_invb_spec. vm_compute. reflexivity.
  - lia.
  - vm_compute. set_solver.
  - unfold exact_succ. lia.
Defined.

(** X5. Renaming a node to an unused id and back restores the graph: the
    node list and the edge map are what they were, entry for entry, and so
    is the neighbour relation. Only the allocator remembers: it has moved
    past the id that was used in between. Both ids are from [-2^53] to
    [2^53 - 1], so that the program computes their successors exactly. *)
Theorem renameNode_round_trip (g : Graph) (oldId newId : Z) :
  graph_inv g → edges_inv g →
  oldId ∈ node_ids g → oldId ≠ newId → newId ∉ node_ids g →
  exact_succ oldId → exact_succ newId →
  let g1 := (renameNode oldId newId g).2 in
  let g2 := (renameNode newId oldId g1).2 in
  nodes g2 = nodes g ∧ edgeMap g2 = edgeMap g ∧
  (∀ x y, adjacent g2 x y ↔ adjacent g x y) ∧
  nextId g2 = Z.max (nextId g) (newId + 1).
Proof.
  intros Hinv Hei Hold Hne Hnew _ _ g1 g2.
  pose proof (graph_inv_renameNode oldId newId g Hinv Hold) as Hinv1.
  pose proof (old_not_node_after oldId newId g Hne Hnew) as Hold1.
  destruct (node_ids_renameNode oldId newId g Hne Hnew) as [Hn1 Hids1].
  assert (newId ∈ node_ids g1) as Hnew1.
  { subst g1. rewrite Hids1. apply list_elem_of_fmap. exists oldId.
    by rewrite decide_True. }
  pose proof (graph_inv_renameNode newId oldId g1 Hinv1 Hnew1) as Hinv2.
  pose proof (nodes_rename_back oldId newId g Hne Hnew) as Hnodes.
  assert (node_ids g2 = node_ids g) as Hids2
    by (unfold node_ids; subst g2 g1; by rewrite Hnodes).
  assert (∀ x y, adjacent g x y → adjacent g2 x y) as Hfwd.
  { intros x y Hxy.
    destruct (inv_neighbor_is_node g x y Hinv Hxy) as [Hx Hy].
    assert (x ≠ newId ∧ y ≠ newId) as [Hxn Hyn] by (split; by intros ->).
    apply (adjacent_renamed oldId newId g Hinv Hne Hnew x y Hx Hy) in Hxy.
    apply (adjacent_renamed newId oldId g1 Hinv1) in Hxy; [| |done|..].
    - by rewrite !rename_id_back in Hxy.
    - done.
    - subst g1. rewrite Hids1. by apply list_elem_of_fmap_2.
    - subst g1. rewrite Hids1. by apply list_elem_of_fmap_2. }
  split_and!.
  - done.
  - by apply edgeMap_rename_back.
  - intros x y. split; [|apply Hfwd]. intros Hxy.
    destruct (inv_neighbor_is_node g2 x y Hinv2 Hxy) as [Hx Hy].
    rewrite Hids2 in Hx, Hy.
    assert (x ≠ newId ∧ y ≠ newId) as [Hxn Hyn] by (split; by intros ->).
    apply (adjacent_renamed oldId newId g Hinv Hne Hnew x y Hx Hy).
    apply (adjacent_renamed newId oldId g1 Hinv1); [done..| | |].
    + subst g1. rewrite Hids1. by apply list_elem_of_fmap_2.
    + subst g1. rewrite Hids1. by apply list_elem_of_fmap_2.
    + by rewrite !rename_id_back.
  - destruct (node_ids_renameNode newId oldId g1) as [Hn2 _]; [done..|].
    subst g2. rewrite Hn2. subst g1. rewrite Hn1.
    pose proof (inv_bound g Hinv oldId Hold). lia.
Qed.

(** X5 on the graph of one edge 0-1, renaming 0 to 5 and back. *)
Lemma renameNode_round_trip_witness :
  nodes (renameNode 5 0 (renameNode 0 5 graph_edge01).2).2 = nodes graph_edge01 ∧
  edgeMap (renameNode 5 0 (renameNode 0 5 graph_edge01).2).2
  = edgeMap graph_edge01 ∧
  (∀ x y, adjacent (renameNode 5 0 (renameNode 0 5 graph_edge01).2).2 x y
          ↔ adjacent graph_edge01 x y) ∧
  nextId (renameNode 5 0 (renameNode 0 5 graph_edge01).2).2
  = Z.max (nextId graph_edge01) (5 + 1).
Proof.
  refine (renameNode_round_trip graph_edge01 0 5 _ _ _ _ _ _ _).
  - apply model_invb_spec. vm_compute. reflexivity.
  - apply edges_invb_spec. vm_compute. reflexivity.
  - vm_compute. set_solver.
  - lia.
  - vm_compute. set_solver.
  - unfold exact_succ. lia.
  - unfold exact_succ. lia.
Defined.

(** ** Deleting *)

Section Deleting.

Lemma filter_all {A} (P : A → Prop) `{∀ x, Decision (P x)} (l : list A) :
  (∀ x, x ∈ l → P x) → filter P l = l.
Proof.
  induction l as [|x l IH]; intros Hall; [done|].
  rewrite filter_cons_True by (apply Hall; by left).
  f_equal. apply IH. intros y Hy. apply Hall. by right.
Qed.

Lemma graph_eta g :
  {| nodes := nodes g; adj := adj g; nextId := nextId g; edgeMap := edgeMap g |}
  = g.
Proof. by destruct g. Qed.

Lemma unlink_returns (a b : Z) g sa sb :
  a ≠ b → adj g !! a = Some sa → adj g !! b = Some sb →
  unlink a b g
  = Returned true
      {| nodes := nodes g;
         adj := <[b := JsSet.delete a sb]> (<[a := JsSet.delete b sa]> (adj g));
         nextId := nextId g;
         edgeMap := edgeMap g |}.
Proof.
  intros Hne Ha Hb. unfold unlink. rewrite Ha. cbn [with_adj adj].
  rewrite lookup_insert_ne by done. rewrite Hb. reflexivity.
Qed.

(** [deleteEdge] in full, on a graph where the endpoints have adjacency
    entries. *)
Lemma deleteEdge_cases (a b : Z) (d : bool) g sa sb :
  a ≠ b → adj g !! a = Some sa → adj g !! b = Some sb →
  let e := if d then mkEdge a b true
           else mkEdge (Z.min a b) (Z.max a b) false in
  deleteEdge a b d g
  = if JsMap.has (key_of e) (edgeMap g)
    then Returned true
           {| nodes := nodes g;
              adj := <[b := JsSet.delete a sb]>
                       (<[a := JsSet.delete b sa]> (adj g));
              nextId := nextId g;
              edgeMap := JsMap.delete (key_of e) (edgeMap g) |}
    else Returned false g.
Proof.
  intros Hne Ha Hb e. unfold deleteEdge. subst e.
  destruct d; cbv zeta; unfold key_of; cbn [e_directed e_a e_b];
    (destruct (JsMap.has _ _); cbn [negb]; [|done]);
    by rewrite (unlink_returns a b _ sa sb).
Qed.

Lemma JsSet_delete_add (v : Z) s : v ∉ s → JsSet.delete v (JsSet.add v s) = s.
Proof.
  intros Hv. unfold JsSet.add, JsSet.has. rewrite bool_decide_eq_false_2 by done.
  unfold JsSet.delete. rewrite filter_app, filter_cons_False, filter_nil, app_nil_r
    by (intros H; by apply H).
  apply filter_all. intros x Hx ->. done.
Qed.

(** An entry of the kind and pair a call names is in the edge map exactly
    when its key is. *)
Lemma entry_in_edgeMap (g : Graph) (e : Edge) :
  edges_inv g → (key_of e, e) ∈ edgeMap g ↔ JsMap.has (key_of e) (edgeMap g) = true.
Proof.
  intros Hei. rewrite JsMap_has_true. split.
  - intros Hin. by apply (list_elem_of_fmap_2 fst) in Hin.
  - intros ([k e0] & Hk & Hin)%list_elem_of_fmap. cbn [fst] in Hk. subst k.
    pose proof (ei_key g Hei _ _ Hin) as ->%key_of_inj. done.
Qed.

Lemma entry_endpoints (g : Graph) (a b : Z) (d : bool) :
  graph_inv g → edges_inv g →
  let e := if d then mkEdge a b true
           else mkEdge (Z.min a b) (Z.max a b) false in
  (key_of e, e) ∈ edgeMap g →
  a ≠ b ∧ is_Some (adj g !! a) ∧ is_Some (adj g !! b).
Proof.
  intros Hinv Hei e Hin. destruct (ei_ends g Hei _ _ Hin) as (Ha & Hb & Hne).
  rewrite !(inv_keys g Hinv). subst e. destruct d; cbn [e_a e_b] in *; [done|].
  destruct (Z.min_spec a b) as [[? Hmin]|[? Hmin]];
    destruct (Z.max_spec a b) as [[? Hmax]|[? Hmax]];
    rewrite Hmin, Hmax in *; split_and!; done || lia.
Qed.

Lemma entry_in_or_out (g : Graph) (e : Edge) :
  edges_inv g → (key_of e, e) ∈ edgeMap g ∨ (key_of e, e) ∉ edgeMap g.
Proof.
  intros Hei. destruct (JsMap.has (key_of e) (edgeMap g)) eqn:Hhas.
  - left. by apply entry_in_edgeMap.
  - right. intros Hin. apply entry_in_edgeMap in Hin; congruence.
Qed.

End Deleting.

(** ** [renameNode] of an id that no node carries *)

Section UnknownOld.

(** Filing an edge object under its key in a map whose entries are all
    filed under their keys adds this entry and nothing else. *)
Lemma elem_of_set_keyed (E : Edge) (m : list (string * Edge)) :
  (∀ k e, (k, e) ∈ m → k = key_of e) →
  ∀ kv, kv ∈ JsMap.set (key_of E) E m ↔ kv = (key_of E, E) ∨ kv ∈ m.
Proof.
  induction m as [|[k' e'] m IH]; intros Hkeyed kv; cbn [JsMap.set].
  { rewrite list_elem_of_singleton, elem_of_nil. tauto. }
  case_decide as Hk.
  - assert (e' = E) as ->.
    { apply key_of_inj. rewrite <- Hk. symmetry. apply Hkeyed. left. }
    subst k'. rewrite !elem_of_cons. tauto.
  - rewrite !elem_of_cons, IH; [tauto|].
    intros k e Hin. apply Hkeyed. by right.
Qed.

(** The edge map [renameNode] rebuilds holds the entries of the old map
    with their endpoints renamed, each under the key of its edge object,
    and nothing else. *)
Lemma elem_of_rebuilt oldId newId (m acc : list (string * Edge)) :
  (∀ k e, (k, e) ∈ acc → k = key_of e) →
  ∀ kv', kv' ∈ foldl (rekey oldId newId) acc m ↔
         kv' ∈ acc ∨
         ∃ kv, kv ∈ m ∧ kv' = (key_of (renamed oldId newId kv.2),
                               renamed oldId newId kv.2).
Proof.
  revert acc. induction m as [|kv m IH]; intros acc Hkeyed kv'; cbn [foldl].
  { split; [by left|]. intros [?|(? & ?%elem_of_nil & _)]; done. }
  rewrite rekey_set. cbn [fst snd]. rewrite IH; cycle 1.
  { intros k e [[= -> ->]|Hin]%elem_of_set_keyed; [done|by apply Hkeyed|done]. }
  rewrite elem_of_set_keyed by done. split.
  - intros [[->|?]|(kv0 & ? & ?)]; [right|by left|right].
    + exists kv. split; [left|done].
    + exists kv0. split; [by right|done].
  - intros [?|(kv0 & [->|?]%elem_of_cons & ->)];
      [by left; right|by left; left|].
    right. by exists kv0.
Qed.

(** On a well-formed graph an id that no node carries occurs nowhere:
    renaming it changes no edge entry and no adjacency entry but that of
    the new id. *)
Lemma renameNode_unknown_frame g oldId newId :
  graph_inv g → edges_inv g →
  oldId ∉ node_ids g → oldId ≠ newId → newId ∉ node_ids g →
  adj (renameNode oldId newId g).2 = <[newId := []]> (adj g) ∧
  edgeMap (renameNode oldId newId g).2 = edgeMap g.
Proof.
  intros Hinv Hei Hold Hne Hnew. split.
  - apply map_eq. intros k. rewrite lookup_renameNode by done.
    assert (adj g !! oldId = None) as Hnone.
    { apply eq_None_not_Some. by rewrite (inv_keys g Hinv). }
    destruct (decide (k = newId)) as [->|Hk].
    { by rewrite Hnone, lookup_insert_eq. }
    rewrite lookup_insert_ne by done.
    destruct (decide (k = oldId)) as [->|Hk']; [done|].
    destruct (adj g !! k) as [s|] eqn:Hs; [|done]. cbn. f_equal.
    destruct (JsSet.has oldId s) eqn:Hhas; [|done].
    apply JsSet_has_true in Hhas.
    assert (adjacent g k oldId) as Hadj by (apply adjacent_lookup; eauto).
    by destruct (inv_neighbor_is_node g k oldId Hinv Hadj).
  - rewrite (edgeMap_renameNode oldId newId g Hne Hnew Hei).
    rewrite <- (list_fmap_id (edgeMap g)) at 2.
    apply list_fmap_ext. intros _ [k e] Hin%list_elem_of_lookup_2. cbn [snd].
    destruct (ei_ends g Hei k e Hin) as (Ha & Hb & _).
    assert (renamed oldId newId e = e) as ->.
    { unfold renamed, rename_id.
      rewrite !decide_False by (intros Heq; rewrite Heq in *; done).
      destruct e as [a b d]. cbn [e_a e_b e_directed]. destruct d; [done|].
      pose proof (ei_order g Hei k _ Hin eq_refl) as Hlt. cbn in Hlt.
      by rewrite Z.min_l, Z.max_r by lia. }
    by rewrite <- (ei_key g Hei k e Hin).
Qed.

End UnknownOld.

(** C4, as amended. For every graph and every [oldId] that is not the id
    of any current node, [renameNode(oldId, newId)] returns false and
    changes nothing when [newId] is the id of a current node, returns true
    and changes nothing when [oldId == newId], and otherwise returns true
    and leaves the node list unchanged, while it advances the allocator to
    [max(nextId, newId + 1)] (for [newId] from [-2^53] to [2^53 - 1], where
    the program computes the sum exactly), moves the adjacency entry of
    [oldId], an empty set if there is none, to [newId], writes [newId] for
    [oldId] in every other adjacency set, and files every edge entry again
    with [newId] for [oldId], under the key of the new edge object. On a
    well-formed graph [oldId] occurs in no adjacency set and in no edge
    entry, and nothing changes but the allocator and the adjacency entry
    of [newId], which is set to the empty set: the edge collection and
    every other adjacency entry are as they were. *)
Theorem renameNode_unknown_old (g : Graph) (oldId newId : Z) :
  oldId ∉ node_ids g →
  (newId ∈ node_ids g → renameNode oldId newId g = (false, g)) ∧
  (oldId = newId → renameNode oldId newId g = (true, g)) ∧
  (oldId ≠ newId → newId ∉ node_ids g →
   ∃ g', renameNode oldId newId g = (true, g') ∧
         nodes g' = nodes g ∧
         (exact_succ newId → nextId g' = Z.max (nextId g) (newId + 1)) ∧
         (∀ k, adj g' !! k
               = if decide (k = newId) then Some (default [] (adj g !! oldId))
                 else if decide (k = oldId) then None
                 else (λ s, if JsSet.has oldId s
                            then JsSet.add newId (JsSet.delete oldId s) else s)
                        <$> adj g !! k) ∧
         (∀ kv', kv' ∈ edgeMap g' ↔
                 ∃ kv, kv ∈ edgeMap g ∧
                       kv' = (key_of (renamed oldId newId kv.2),
                              renamed oldId newId kv.2)) ∧
         (graph_inv g → edges_inv g →
          adj g' = <[newId := []]> (adj g) ∧ edgeMap g' = edgeMap g)).
Proof.
  intros Hold. split_and!.
  - intros Hnew. unfold renameNode.
    destruct (decide (oldId = newId)) as [->|_]; [done|].
    by rewrite bool_decide_eq_true_2.
  - intros ->. unfold renameNode. by rewrite decide_True.
  - intros Hne Hnew. exists (renameNode oldId newId g).2.
    split; [by rewrite renameNode_renames|]. split_and!.
    + rewrite renameNode_renames by done. cbn [snd nodes].
      rewrite <- (list_fmap_id (nodes g)) at 2.
      apply list_fmap_ext. intros i n Hn. rewrite decide_False; [done|].
      intros Hid. apply Hold. unfold node_ids.
      apply list_elem_of_fmap. exists n. split; [done|].
      by eapply list_elem_of_lookup_2.
    + intros _. by destruct (node_ids_renameNode oldId newId g Hne Hnew).
    + intros k. by apply lookup_renameNode.
    + intros kv'. rewrite renameNode_renames by done. cbn [snd edgeMap].
      rewrite elem_of_rebuilt by (by intros k e ?%elem_of_nil).
      rewrite elem_of_nil. tauto.
    + intros Hinv Hei. by apply renameNode_unknown_frame.
Qed.

(** The amended C4 on the graph of one edge 0-1: renaming the absent node
    7 to 9 adds an empty adjacency entry for 9 and moves the allocator
    from 2 to 10; the nodes, the edge 0-1 and the adjacency entries of 0
    and 1 stay. *)
Lemma renameNode_unknown_old_witness :
  ∃ g', renameNode 7 9 graph_edge01 = (true, g') ∧
        nodes g' = nodes graph_edge01 ∧
        nextId g' = Z.max (nextId graph_edge01) (9 + 1) ∧
        adj g' = <[9 := []]> (adj graph_edge01) ∧
        edgeMap g' = edgeMap graph_edge01.
Proof.
  assert (7 ∉ node_ids graph_edge01) as Hold by (vm_compute; set_solver).
  destruct (proj2 (proj2 (renameNode_unknown_old graph_edge01 7 9 Hold)))
    as (g' & Hrun & Hnodes & Hnext & _ & _ & Hframe).
  - done.
  - vm_compute. set_solver.
  - exists g'. split_and!; [done|done| | |].
    + apply Hnext. unfold exact_succ. lia.
    + apply Hframe.
      * apply model_invb_spec. vm_compute. reflexivity.
      * apply edges_invb_spec. vm_compute. reflexivity.
    + apply Hframe.
      * apply model_invb_spec. vm_compute. reflexivity.
      * apply edges_invb_spec. vm_compute. reflexivity.
Defined.

(** C4 as stated fails: on a new graph, where 7 is the id of no node,
    [renameNode(7, 9)] returns true, creates an adjacency entry for 9 and
    moves the allocator from 0 to 10. *)
Lemma renameNode_unknown_old_mutates :
  7 ∉ node_ids empty_graph ∧
  ∃ g', renameNode 7 9 empty_graph = (true, g') ∧
        adj empty_graph !! 9 = None ∧ adj g' !! 9 = Some [] ∧
        nextId empty_graph = 0 ∧ nextId g' = 10 ∧ g' ≠ empty_graph.
Proof.
  split; [vm_compute; set_solver|].
  eexists. split; [vm_compute; reflexivity|].
  split_and!; try reflexivity.
  intros H. apply (f_equal nextId) in H. vm_compute in H. discriminate.
Qed.

(** ** Symmetry of the adjacency index *)

(** C7, as amended. On a graph that satisfies the invariants of the model
    (adjacency symmetric and irreflexive, the adjacency keys exactly the
    node ids, every id below the allocator), every operation that returns
    leaves adjacency symmetric: [b] is in [adjacency[a]] if and only if
    [a] is in [adjacency[b]]. The invariants themselves are kept whenever
    the id that [renameNode] is asked to rename is the id of a node and the
    increment the operation makes is exact: the allocator in [addNode] and
    the new id in [renameNode] are from [-2^53] to [2^53 - 1]. *)
Theorem exec_keeps_adjacency_symmetric (g : Graph) (op : Op) (r : retval) (g' : Graph) :
  graph_inv g → exec op g = Returned r g' →
  adj_symmetric g' ∧ (names_node g op → increments_exact g op → graph_inv g').
Proof.
  intros Hinv Hexec.
  assert (g' = graph_after (exec op g)) as Hg' by by rewrite Hexec.
  destruct op as [x y|a b d|a b d|key|id|oldId newId|];
    cbn [names_node increments_exact].
  - rewrite graph_after_exec in Hg'. subst g'.
    pose proof (graph_inv_addNode x y g Hinv) as H. split; [apply H|done].
  - cbn [exec] in Hexec. destruct (addEdge a b d g) as [r0 g0|] eqn:Hadd; [|done].
    injection Hexec as _ <-.
    pose proof (graph_inv_addEdge a b d g r0 g0 Hinv Hadd) as H.
    split; [apply H|done].
  - cbn [exec] in Hexec. destruct (deleteEdge a b d g) as [r0 g0|] eqn:Hdel; [|done].
    injection Hexec as _ <-.
    pose proof (graph_inv_deleteEdge a b d g r0 g0 Hinv Hdel) as H.
    split; [apply H|done].
  - rewrite graph_after_exec in Hg'. subst g'.
    pose proof (graph_inv_deleteEdgeByKey key g Hinv) as H. split; [apply H|done].
  - rewrite graph_after_exec in Hg'. subst g'.
    pose proof (graph_inv_deleteNode id g Hinv) as H. split; [apply H|done].
  - rewrite graph_after_exec in Hg'. subst g'. split.
    + destruct (decide (oldId = newId ∨ newId ∈ node_ids g)) as [Hsame|Hren].
      * rewrite renameNode_same by done. apply Hinv.
      * apply adj_symmetric_renameNode; tauto.
    + intros Hold _. by apply graph_inv_renameNode.
  - rewrite graph_after_exec in Hg'. subst g'.
    pose proof (graph_inv_clear g) as H. split; [apply H|done].
Qed.

(** The amended C7 on the graph of one edge 0-1, for the call
    [renameNode(0, 5)]: node 5 is the neighbour of 1 afterwards, and 1 of
    5. *)
Lemma exec_keeps_adjacency_symmetric_witness :
  adj_symmetric (renameNode 0 5 graph_edge01).2 ∧
  graph_inv (renameNode 0 5 graph_edge01).2.
Proof.
  destruct (exec_keeps_adjacency_symmetric graph_edge01 (OpRenameNode 0 5)
              (RBool true) (renameNode 0 5 graph_edge01).2) as [Hsym Hinv].
  - apply model_invb_spec. vm_compute. reflexivity.
  - vm_compute. reflexivity.
  - split; [exact Hsym|]. apply Hinv.
    + vm_compute. set_solver.
    + unfold increments_exact, exact_succ. lia.
Defined.

(** C7 as stated fails for [renameNode]: the graph [graph_stale], built
    by calls of the model that all returned, has a symmetric adjacency
    and a node 0; [renameNode(0, 9)] returns true on it and leaves 9 in
    [adjacency[1]] with 1 no longer in [adjacency[9]]. *)
Lemma renameNode_breaks_symmetry :
  reachable graph_stale ∧ adj_symmetric graph_stale ∧
  0 ∈ node_ids graph_stale ∧
  ∃ g', exec (OpRenameNode 0 9) graph_stale = Returned (RBool true) g' ∧
        adjacent g' 1 9 ∧ ¬ adjacent g' 9 1 ∧ ¬ adj_symmetric g'.
Proof.
  split_and!.
  - apply graph_of_ops_reachable.
  - apply adj_symmetricb_spec. vm_compute. reflexivity.
  - vm_compute. set_solver.
  - eexists. split; [vm_compute; reflexivity|].
    assert (adjacent
      {| nodes := [mkNode 9 100 100; mkNode 1 200 100];
         adj := adj (renameNode 0 9 graph_stale).2;
         nextId := 10;
         edgeMap := edgeMap (renameNode 0 9 graph_stale).2 |} 1 9) as H19.
    { unfold adjacent. vm_compute. set_solver. }
    assert (¬ adjacent
      {| nodes := [mkNode 9 100 100; mkNode 1 200 100];
         adj := adj (renameNode 0 9 graph_stale).2;
         nextId := 10;
         edgeMap := edgeMap (renameNode 0 9 graph_stale).2 |} 9 1) as H91.
    { unfold adjacent. vm_compute. set_solver. }
    split_and!; [exact H19|exact H91|].
    intros Hsym. by apply H91, Hsym.
Qed.


(** X7. [deleteNode] of an id that is no node of a well-formed graph
    returns true all the same, and changes nothing. *)
Theorem deleteNode_absent (g : Graph) (id : Z) :
  graph_inv g → edges_inv g → id ∉ node_ids g → deleteNode id g = (true, g).
Proof.
  intros Hinv Hei Hid. unfold deleteNode. f_equal.
  rewrite <- (graph_eta g) at 5. f_equal.
  - apply filter_all. intros n Hn Heq. apply Hid. rewrite <- Heq.
    by apply list_elem_of_fmap_2.
  - assert (adj g !! id = None) as ->.
    { apply eq_None_not_Some. by rewrite (inv_keys g Hinv). }
    apply map_eq. intros k. rewrite lookup_fmap.
    destruct (adj g !! k) as [s|] eqn:Hk; [|done]. cbn. f_equal.
    destruct (JsSet.has id s) eqn:Hhas; [|done].
    apply JsSet_has_true in Hhas. exfalso. apply Hid.
    apply (inv_neighbor_is_node g k id Hinv). apply adjacent_lookup. eauto.
  - apply filter_all. intros [k e] Hin. cbn.
    destruct (ei_ends g Hei k e Hin) as (Ha & Hb & _).
    intros [<-|<-]; done.
Qed.

(** X7 on the graph of one edge 0-1, for the id 7. *)
Lemma deleteNode_absent_witness : deleteNode 7 graph_edge01 = (true, graph_edge01).
Proof.
  refine (deleteNode_absent graph_edge01 7 _ _ _).
  - apply model_invb_spec. vm_compute. reflexivity.
  - apply edges_invb_spec. vm_compute. reflexivity.
  - vm_compute. set_solver.
Defined.

(** X8. On a well-formed graph [deleteEdge(a, b, directed)] never throws.
    If the edge map holds the entry of that kind for the pair (directed
    from [a] to [b], or undirected between them), the call returns true,
    removes exactly that entry and takes the pair out of the adjacency
    index in both directions; otherwise it returns false and changes
    nothing. *)
Theorem deleteEdge_removes_entry (g : Graph) (a b : Z) (d : bool) :
  graph_inv g → edges_inv g →
  let e := edge_of_call a b d in
  ((key_of e, e) ∈ edgeMap g →
   ∃ g', deleteEdge a b d g = Returned true g' ∧
         nodes g' = nodes g ∧ nextId g' = nextId g ∧
         (∀ kv, kv ∈ edgeMap g' ↔ kv ∈ edgeMap g ∧ kv ≠ (key_of e, e)) ∧
         (∀ x y, adjacent g' x y ↔
                 adjacent g x y ∧ ¬ ((x = a ∧ y = b) ∨ (x = b ∧ y = a)))) ∧
  ((key_of e, e) ∉ edgeMap g → deleteEdge a b d g = Returned false g).
Proof.
  intros Hinv Hei e. split; intros Hin.
  - destruct (entry_endpoints g a b d Hinv Hei Hin) as (Hne & [sa Ha] & [sb Hb]).
    pose proof (deleteEdge_cases a b d g sa sb Hne Ha Hb) as Hdel.
    cbv zeta in Hdel. fold (edge_of_call a b d) in Hdel. fold e in Hdel.
    rewrite (proj1 (entry_in_edgeMap g e Hei) Hin) in Hdel.
    eexists. split; [exact Hdel|]. cbn [nodes nextId edgeMap]. split_and!; [done..| |].
    + intros [k e0]. rewrite elem_of_JsMap_delete. cbn [fst]. split.
      * intros [Hin0 Hk]. split; [done|]. by intros [= -> ->].
      * intros [Hin0 Hk]. split; [done|]. intros ->. apply Hk.
        by pose proof (ei_key g Hei _ _ Hin0) as ->%key_of_inj.
    + intros x y. rewrite (adjacent_deleteEdge a b d g true _ x y Hdel). tauto.
  - assert (JsMap.has (key_of e) (edgeMap g) = false) as Hhas.
    { destruct (JsMap.has _ _) eqn:Hh; [|done].
      by apply entry_in_edgeMap in Hh. }
    revert Hhas. subst e. unfold deleteEdge, edge_of_call, key_of.
    by destruct d; cbn [e_directed e_a e_b]; cbv zeta; intros ->.
Qed.

(** X8 on the graph of one edge 0-1, for the call [deleteEdge(1, 0)]. *)
Lemma deleteEdge_removes_entry_witness :
  ∃ g', deleteEdge 1 0 false graph_edge01 = Returned true g' ∧
        nodes g' = nodes graph_edge01 ∧ nextId g' = nextId graph_edge01 ∧
        (∀ kv, kv ∈ edgeMap g' ↔
               kv ∈ edgeMap graph_edge01
               ∧ kv ≠ (key_of (edge_of_call 1 0 false), edge_of_call 1 0 false)) ∧
        (∀ x y, adjacent g' x y ↔
                adjacent graph_edge01 x y
                ∧ ¬ ((x = 1 ∧ y = 0) ∨ (x = 0 ∧ y = 1))).
Proof.
  refine (proj1 (deleteEdge_removes_entry graph_edge01 1 0 false _ _) _).
  - apply model_invb_spec. vm_compute. reflexivity.
  - apply edges_invb_spec. vm_compute. reflexivity.
  - vm_compute. apply list_elem_of_singleton. reflexivity.
Defined.

(** X9. Adding an edge and deleting it again is a round trip: when
    [addEdge(a, b, directed)] returns true on a graph in which [a] and [b]
    were not neighbours, [deleteEdge(a, b, directed)] on the result returns
    true and gives back the graph as it was, entry for entry. *)
Theorem addEdge_deleteEdge (g g' : Graph) (a b : Z) (d : bool) :
  addEdge a b d g = Returned true g' →
  ¬ adjacent g a b → ¬ adjacent g b a →
  deleteEdge a b d g' = Returned true g.
Proof.
  intros Hadd Hab Hba.
  destruct (addEdge_true a b d g g' Hadd) as (Hne & [sa Ha] & [sb Hb] & Hfresh & _).
  rewrite (addEdge_cases a b d g sa sb Ha Hb) in Hadd.
  rewrite decide_False in Hadd by done. cbv zeta in Hadd, Hfresh.
  fold (edge_of_call a b d) in Hadd, Hfresh.
  assert ((if d then directedKey a b else edgeKey a b)
          = key_of (edge_of_call a b d)) as Hkey by by destruct d.
  rewrite Hkey in Hadd.
  rewrite (proj2 (JsMap_has_false _ _) Hfresh) in Hadd. injection Hadd as <-.
  rewrite (deleteEdge_cases a b d _ (JsSet.add b sa) (JsSet.add a sb)); [|done|..].
  - cbn [edgeMap nodes nextId adj]. fold (edge_of_call a b d).
    assert (JsMap.has (key_of (edge_of_call a b d))
              (edgeMap g ++ [(key_of (edge_of_call a b d), edge_of_call a b d)])
            = true) as ->.
    { apply JsMap_has_true. rewrite fmap_app, elem_of_app. right. by left. }
    rewrite JsMap_delete_fresh by done. f_equal.
    rewrite <- (graph_eta g) at 5. f_equal.
    rewrite !JsSet_delete_add.
    + apply map_eq. intros k. rewrite !lookup_insert.
      repeat case_decide; subst; congruence.
    + intros Hin. apply Hab, adjacent_lookup. eauto.
    + intros Hin. apply Hba, adjacent_lookup. eauto.
  - cbn [adj]. rewrite lookup_insert_ne by done. apply lookup_insert_eq.
  - cbn [adj]. apply lookup_insert_eq.
Qed.

(** X9 on two nodes without an edge. *)
Lemma addEdge_deleteEdge_witness :
  deleteEdge 0 1 false graph_edge01 = Returned true graph_two_nodes.
Proof.
  refine (addEdge_deleteEdge graph_two_nodes graph_edge01 0 1 false _ _ _).
  - vm_compute. reflexivity.
  - unfold adjacent. change (adj graph_two_nodes !! 0) with (Some (@nil Z)).
    cbn. by intros ?%elem_of_nil.
  - unfold adjacent. change (adj graph_two_nodes !! 1) with (Some (@nil Z)).
    cbn. by intros ?%elem_of_nil.
Defined.

(** X10. On a well-formed graph, deleting an edge by its key is deleting it
    by its endpoints: [deleteEdgeByKey] with the key that
    [deleteEdge(a, b, directed)] computes returns what that call returns and
    leaves the same graph. *)
Theorem deleteEdgeByKey_deleteEdge (g : Graph) (a b : Z) (d : bool) :
  graph_inv g → edges_inv g →
  let key := if d then directedKey a b else edgeKey a b in
  deleteEdge a b d g
  = Returned (deleteEdgeByKey key g).1 (deleteEdgeByKey key g).2.
Proof.
  intros Hinv Hei key.
  assert (key = key_of (edge_of_call a b d)) as Hkey by by destruct d.
  set (e := edge_of_call a b d) in *.
  destruct (entry_in_or_out g e Hei) as [Hin|Hout].
  - destruct (entry_endpoints g a b d Hinv Hei Hin) as (Hne & [sa Ha] & [sb Hb]).
    rewrite (deleteEdge_cases a b d g sa sb Hne Ha Hb). cbv zeta.
    fold (edge_of_call a b d). fold e.
    rewrite (proj1 (entry_in_edgeMap g e Hei) Hin).
    unfold deleteEdgeByKey. rewrite Hkey.
    rewrite (JsMap_elem_get _ _ _ (ei_nodup g Hei) Hin). cbn [fst snd].
    f_equal. f_equal. apply map_eq. intros k.
    assert ((e_a e = a ∧ e_b e = b) ∨ (e_a e = b ∧ e_b e = a)) as Hends.
    { subst e. unfold edge_of_call. destruct d; cbn [e_a e_b]; [by left|].
      destruct (Z.min_spec a b) as [[? ->]|[? ->]];
        destruct (Z.max_spec a b) as [[? ->]|[? ->]]; auto; lia. }
    rewrite !lookup_insert, !lookup_alter.
    destruct Hends as [[-> ->]|[-> ->]];
      repeat case_decide; subst; rewrite ?Ha, ?Hb; try done; congruence.
  - assert (JsMap.has key (edgeMap g) = false) as Hhas.
    { rewrite Hkey. destruct (JsMap.has _ _) eqn:Hh; [|done].
      by apply entry_in_edgeMap in Hh. }
    unfold deleteEdgeByKey.
    assert (JsMap.get key (edgeMap g) = None) as ->.
    { unfold JsMap.has in Hhas. by destruct (JsMap.get key (edgeMap g)). }
    cbn [fst snd]. revert Hhas. subst key. unfold deleteEdge, edgeKey.
    by destruct d; cbv zeta; intros ->.
Qed.

(** X10 on the graph of one edge 0-1, for the pair 1, 0. *)
Lemma deleteEdgeByKey_deleteEdge_witness :
  deleteEdge 1 0 false graph_edge01
  = Returned (deleteEdgeByKey (edgeKey 1 0) graph_edge01).1
             (deleteEdgeByKey (edgeKey 1 0) graph_edge01).2.
Proof.
  refine (deleteEdgeByKey_deleteEdge graph_edge01 1 0 false _ _).
  - apply model_invb_spec. vm_compute. reflexivity.
  - apply edges_invb_spec. vm_compute. reflexivity.
Defined.

(** ** Node ids *)

Section NodeIds.

(** No call of the model, however it ends, gives two nodes the same id. *)
Lemma exec_node_ids_NoDup op g :
  ids_below_nextId g → NoDup (node_ids g) →
  NoDup (node_ids (graph_after (exec op g))).
Proof.
  intros Hbelow Hnd. rewrite graph_after_exec.
  destruct op as [x y|a b d|a b d|key|id|oldId newId|].
  - rewrite node_ids_addNode. apply NoDup_app. split_and!; [done| |].
    + intros i Hi ->%list_elem_of_singleton. apply Hbelow in Hi. lia.
    + apply NoDup_singleton.
  - destruct (addEdge_frame a b d g) as (Hn & _). unfold node_ids. by rewrite Hn.
  - destruct (deleteEdge_frame a b d g) as (Hn & _). unfold node_ids. by rewrite Hn.
  - destruct (deleteEdgeByKey_frame key g) as (Hn & _).
    unfold node_ids. by rewrite Hn.
  - unfold node_ids, deleteNode. cbn [snd nodes].
    eapply sublist_NoDup; [exact Hnd|]. apply fmap_sublist, sublist_filter.
  - destruct (decide (oldId = newId ∨ newId ∈ node_ids g)) as [Hsame|Hren].
    + by rewrite renameNode_same.
    + destruct (node_ids_renameNode oldId newId g) as [_ ->]; [tauto..|].
      apply NoDup_fmap_2_strong; [|done].
      intros i j Hi Hj Heq. apply (rename_id_inj oldId newId); [..|done].
      * intros ->. tauto.
      * intros ->. tauto.
  - unfold node_ids. cbn. apply NoDup_nil_2.
Qed.

Lemma reachable_node_ids_NoDup g : reachable g → NoDup (node_ids g).
Proof.
  induction 1 as [|op g Hg IH].
  - unfold node_ids. cbn. apply NoDup_nil_2.
  - apply exec_node_ids_NoDup; [by apply reachable_ids_below|done].
Qed.

Lemma reachable_exact_reachable g : reachable_exact g → reachable g.
Proof. induction 1; by constructor. Qed.

End NodeIds.

(** X11. Node ids are unique. In every graph that calls of the model
    build from [new Graph()] (with any arguments, calls that threw
    included) while every increment of an id is exact (the allocator in
    [addNode] and the new id in [renameNode] from [-2^53] to [2^53 - 1]),
    no two nodes have the same id, and the id that the next [addNode]
    returns is the id of no node. *)
Theorem reachable_node_ids_unique (g : Graph) :
  reachable_exact g →
  NoDup (node_ids g) ∧ ∀ x y, (addNode x y g).1 ∉ node_ids g.
Proof.
  intros Hg%reachable_exact_reachable. split; [by apply reachable_node_ids_NoDup|].
  intros x y Hin. apply (reachable_ids_below g Hg) in Hin.
  unfold addNode in Hin. cbn [fst] in Hin. lia.
Qed.

(** X11 on the graph with node -1, which a renaming built. *)
Lemma reachable_node_ids_unique_witness :
  NoDup (node_ids graph_negative) ∧
  ∀ x y, (addNode x y graph_negative).1 ∉ node_ids graph_negative.
Proof.
  refine (reachable_node_ids_unique graph_negative _).
  unfold graph_negative, graph_of_ops. cbn [foldl].
  repeat (apply reachable_exact_exec;
          [|unfold increments_exact, exact_succ; by vm_compute]).
  apply reachable_exact_new.
Defined.

(** X22. On a well-formed graph [addEdge] refuses exactly the loops and the
    duplicates. Between two nodes [a] and [b], [addEdge(a, b, directed)]
    returns false and changes nothing when [a] is [b] or the edge map
    already holds the edge object of the call (directed from [a] to [b], or
    undirected between them, whichever endpoint comes first); in every
    other case it returns true and appends that edge object under its
    key. No other entry stands in the way: different edges never share a
    key. *)
Theorem addEdge_refuses_duplicates (g : Graph) (a b : Z) (d : bool) :
  graph_inv g → edges_inv g → a ∈ node_ids g → b ∈ node_ids g →
  let e := edge_of_call a b d in
  (a = b ∨ e ∈ (edgeMap g).*2 → addEdge a b d g = Returned false g) ∧
  (a ≠ b → e ∉ (edgeMap g).*2 →
   ∃ g', addEdge a b d g = Returned true g' ∧
         edgeMap g' = edgeMap g ++ [(key_of e, e)] ∧ nodes g' = nodes g).
Proof.
  intros Hinv Hei Ha Hb e.
  apply (inv_keys g Hinv) in Ha as [sa Ha], Hb as [sb Hb].
  pose proof (addEdge_cases a b d g sa sb Ha Hb) as Hadd. cbv zeta in Hadd.
  fold (edge_of_call a b d) in Hadd. fold e in Hadd.
  assert ((if d then directedKey a b else edgeKey a b) = key_of e) as Hkey
    by by destruct d.
  rewrite Hkey in Hadd.
  assert (e ∈ (edgeMap g).*2 ↔ JsMap.has (key_of e) (edgeMap g) = true) as Hin.
  { rewrite <- entry_in_edgeMap by done. split.
    - intros ([k e0] & -> & Hin)%list_elem_of_fmap. cbn [snd].
      by rewrite <- (ei_key g Hei _ _ Hin).
    - intros Hin. by apply (list_elem_of_fmap_2 snd) in Hin. }
  split.
  - intros [->|He%Hin]; rewrite Hadd.
    + by rewrite decide_True.
    + rewrite He. by destruct (decide (a = b)).
  - intros Hne He. rewrite Hadd, decide_False by done.
    destruct (JsMap.has (key_of e) (edgeMap g)) eqn:Hhas; [|eauto].
    exfalso. by apply He, Hin.
Qed.

(** X22 on the graph of one edge 0-1: a second edge between 1 and 0 is
    refused. *)
Lemma addEdge_refuses_duplicates_witness :
  addEdge 1 0 false graph_edge01 = Returned false graph_edge01.
Proof.
  refine (proj1 (addEdge_refuses_duplicates graph_edge01 1 0 false _ _ _ _) _).
  - apply model_invb_spec. vm_compute. reflexivity.
  - apply edges_invb_spec. vm_compute. reflexivity.
  - vm_compute. set_solver.
  - vm_compute. set_solver.
  - right. vm_compute. apply list_elem_of_singleton. reflexivity.
Defined.

(** ** Import *)

Section Importing.

Lemma renumbered_cons first nd ns :
  renumbered first (nd :: ns)
  = mkNode first (n_x nd) (n_y nd) :: renumbered (first + 1) ns.
Proof.
  unfold renumbered. cbn [length]. rewrite Nat2Z.inj_succ, seqZ_cons by lia.
  cbn [zip_with]. do 3 f_equal; lia.
Qed.

Lemma node_ids_renumbered first ns :
  n_id <$> renumbered first ns = seqZ first (Z.of_nat (length ns)).
Proof.
  revert first. induction ns as [|nd ns IH]; intros first; [done|].
  rewrite renumbered_cons. cbn [fmap list_fmap n_id length].
  rewrite IH, Nat2Z.inj_succ, (seqZ_cons first) by lia.
  do 2 f_equal; lia.
Qed.

(** The first loop of [fromJSON]: one new node per node object, and a
    mapping into the ids of the nodes. *)
Lemma import_nodes_spec ns m g :
  graph_inv g → edges_inv g → edges_adjacent g →
  (∀ i v, m !! i = Some v → v ∈ node_ids g) →
  ∃ m' g', foldl import_node (m, g) ns = (m', g') ∧
           graph_inv g' ∧ edges_inv g' ∧ edges_adjacent g' ∧
           (∀ i v, m' !! i = Some v → v ∈ node_ids g') ∧
           nodes g' = nodes g ++ renumbered (nextId g) ns ∧
           nextId g' = nextId g + Z.of_nat (length ns) ∧
           edgeMap g' = edgeMap g.
Proof.
  revert m g. induction ns as [|nd ns IH]; intros m g Hinv Hei Hea Hm.
  - exists m, g. cbn [foldl length]. split_and!; try done.
    + unfold renumbered. cbn. by rewrite app_nil_r.
    + lia.
  - cbn [foldl]. unfold import_node at 2. cbn [fst snd].
    change (addNode (n_x nd) (n_y nd) g)
      with ((addNode (n_x nd) (n_y nd) g).1, (addNode (n_x nd) (n_y nd) g).2).
    cbv iota.
    destruct (IH (<[n_id nd := (addNode (n_x nd) (n_y nd) g).1]> m)
                 (addNode (n_x nd) (n_y nd) g).2)
      as (m' & g' & Hfold & Hinv' & Hei' & Hea' & Hm' & Hn' & Hid' & Hem').
    + by apply graph_inv_addNode.
    + by apply edges_inv_addNode.
    + intros k e Hin. apply adjacent_addNode. cbn [addNode snd edgeMap] in Hin.
      pose proof (Hea k e Hin) as Hadj. split; [|done].
      intros Heq. destruct (inv_neighbor_is_node g _ _ Hinv Hadj) as [Ha _].
      apply (inv_bound g Hinv) in Ha. lia.
    + intros i v. rewrite node_ids_addNode, elem_of_app, list_elem_of_singleton.
      rewrite lookup_insert. case_decide.
      * intros [= <-]. by right.
      * intros ?%Hm. by left.
    + exists m', g'. split_and!; try done.
      * rewrite Hn'. cbn [addNode snd nodes nextId].
        by rewrite renumbered_cons, <- app_assoc.
      * rewrite Hid'. cbn [addNode snd nextId length]. lia.
Qed.

(** The second loop of [fromJSON] never throws: the ids it looks up in
    the mapping are ids of nodes. *)
Lemma import_edges_spec (m : gmap Z Z) es g :
  graph_inv g → edges_inv g → edges_adjacent g →
  (∀ i v, m !! i = Some v → v ∈ node_ids g) →
  ∃ g', for_each (import_edge m) es g = Some g' ∧
        graph_inv g' ∧ edges_inv g' ∧ edges_adjacent g' ∧
        nodes g' = nodes g ∧ nextId g' = nextId g.
Proof.
  intros Hinv Hei Hea Hm.
  destruct (for_each_invariant
    (λ s, graph_inv s ∧ edges_inv s ∧ edges_adjacent s ∧
          nodes s = nodes g ∧ nextId s = nextId g)
    (import_edge m) es) with (s := g) as (g' & Hrun & HI); [|done|eauto].
  intros e s _ (Hinv' & Hei' & Hea' & Hn & Hid). unfold import_edge.
  destruct (m !! je_a e) as [a|] eqn:Ha; [|eauto 10].
  destruct (m !! je_b e) as [b|] eqn:Hb; [|eauto 10].
  assert (node_ids s = node_ids g) as Hids by (unfold node_ids; by rewrite Hn).
  apply Hm in Ha, Hb. rewrite <- Hids in Ha, Hb.
  apply (inv_keys s Hinv') in Ha as [sa Ha], Hb as [sb Hb].
  destruct (addEdge a b (je_directed e) s) as [r s'|s'] eqn:Hadd; cycle 1.
  { rewrite (addEdge_cases a b _ s sa sb Ha Hb) in Hadd.
    repeat case_match; done. }
  exists s'. split; [done|].
  destruct (addEdge_frame a b (je_directed e) s) as (Hn' & Hid' & _).
  rewrite Hadd in Hn', Hid'. cbn [graph_after] in Hn', Hid'.
  split_and!; [by eapply graph_inv_addEdge|by eapply edges_inv_addEdge|
               |congruence|congruence].
  destruct r; [|by apply addEdge_false in Hadd as ->].
  destruct (addEdge_true _ _ _ _ _ Hadd) as (_ & _ & _ & _ & Hem & _).
  intros k e0. rewrite Hem, elem_of_app, list_elem_of_singleton.
  intros [Hin|[= -> ->]].
  - apply (proj2 (adjacent_addEdge _ _ _ _ _ _ (e_a e0) (e_b e0) Hadd)).
    left. by eapply Hea'.
  - apply (proj2 (adjacent_addEdge _ _ _ _ _ _ _ _ Hadd)). right.
    split; [done|]. destruct (je_directed e); cbn [e_a e_b]; [by left|].
    destruct (Z.min_spec a b) as [[? ->]|[? ->]];
      destruct (Z.max_spec a b) as [[? ->]|[? ->]]; auto; lia.
Qed.

(** The edge objects of the graph after an [addEdge] that returned. *)
Lemma addEdge_edge_objects a b d s r s' :
  edges_inv s → addEdge a b d s = Returned r s' →
  ∀ E, E ∈ (edgeMap s').*2 ↔
       E ∈ (edgeMap s).*2 ∨ (a ≠ b ∧ E = edge_of_call a b d).
Proof.
  intros Hei Hadd E. destruct r.
  - destruct (addEdge_true _ _ _ _ _ Hadd) as (Hne & _ & _ & _ & Hem & _).
    fold (edge_of_call a b d) in Hem.
    rewrite Hem, fmap_app, elem_of_app. cbn [fmap list_fmap snd].
    rewrite list_elem_of_singleton. naive_solver.
  - pose proof (addEdge_false _ _ _ _ _ Hadd) as ->.
    split; [by left|]. intros [?|[Hne ->]]; [done|].
    assert (JsMap.has (key_of (edge_of_call a b d)) (edgeMap s) = true) as Hhas.
    { revert Hadd. unfold addEdge, link.
      destruct (decide (a = b)); [done|].
      destruct d; cbv zeta;
        (destruct (JsMap.has _ _) eqn:Hhas; [by intros _|]);
        cbn [with_edgeMap with_adj adj]; repeat case_match; done. }
    apply entry_in_edgeMap in Hhas; [|done].
    by apply (list_elem_of_fmap_2 snd) in Hhas.
Qed.

(** The second loop of [fromJSON] files exactly the edges it is given
    between two different known nodes. *)
Lemma import_edges_objects (m : gmap Z Z) es :
  ∀ g, graph_inv g → edges_inv g → edges_adjacent g →
       (∀ i v, m !! i = Some v → v ∈ node_ids g) →
       ∀ g', for_each (import_edge m) es g = Some g' →
             ∀ E, E ∈ (edgeMap g').*2 ↔
                  E ∈ (edgeMap g).*2 ∨ ∃ je, je ∈ es ∧ imported m je E.
Proof.
  induction es as [|je es IH]; intros g Hinv Hei Hea Hm g'; cbn [for_each].
  { intros [= <-] E. split; [by left|].
    intros [?|(? & ?%elem_of_nil & _)]; done. }
  destruct (import_edge m je g) as [g1|] eqn:Hstep; [|done]. intros Hrun E.
  destruct (import_edges_spec m [je] g Hinv Hei Hea Hm)
    as (g1' & Hrun1 & Hinv1 & Hei1 & Hea1 & Hn1 & _).
  cbn [for_each] in Hrun1. rewrite Hstep in Hrun1. injection Hrun1 as <-.
  rewrite (IH g1 Hinv1 Hei1 Hea1); [|by unfold node_ids; rewrite Hn1|done].
  assert (∀ E, E ∈ (edgeMap g1).*2 ↔ E ∈ (edgeMap g).*2 ∨ imported m je E)
    as Hone.
  { clear E. intros E. unfold import_edge in Hstep. unfold imported.
    destruct (m !! je_a je) as [a|]; cycle 1.
    { injection Hstep as <-. naive_solver. }
    destruct (m !! je_b je) as [b|]; cycle 1.
    { injection Hstep as <-. naive_solver. }
    destruct (addEdge a b (je_directed je) g) as [r s|] eqn:Hadd; [|done].
    injection Hstep as ->.
    rewrite (addEdge_edge_objects a b _ g r g1 Hei Hadd). naive_solver. }
  rewrite Hone. split.
  - intros [[?|?]|(je' & ? & ?)]; [by left|right..].
    + exists je. split; [left|done].
    + exists je'. split; [by right|done].
  - intros [?|(je' & [->|?]%elem_of_cons & ?)]; [by left; left|by left; right|].
    right. by exists je'.
Qed.

Lemma import_mapping_snoc ns nd :
  import_mapping (ns ++ [nd])
  = <[n_id nd := Z.of_nat (length ns)]> (import_mapping ns).
Proof.
  unfold import_mapping. rewrite foldl_app. cbn [foldl].
  destruct (import_nodes_spec ns ∅ (clear empty_graph))
    as (m & g & Hfold & _ & _ & _ & _ & _ & Hid & _).
  - apply graph_inv_clear.
  - apply edges_inv_clear.
  - by intros k e ?%elem_of_nil.
  - intros i v. by rewrite lookup_empty.
  - rewrite Hfold. unfold import_node. cbn [fst snd addNode].
    rewrite Hid. cbn [clear nextId]. f_equal; lia.
Qed.

(** The mapping sends an id to the place of the last node object that
    carries it. *)
Lemma import_mapping_last ns i v :
  import_mapping ns !! i = Some v ↔ last_with_id ns i v.
Proof.
  revert v. induction ns as [|nd ns IH] using rev_ind; intros v.
  { unfold import_mapping. cbn [foldl fst]. rewrite lookup_empty.
    split; [done|]. by intros (k & n & Hk & _). }
  rewrite import_mapping_snoc, lookup_insert.
  destruct (decide (n_id nd = i)) as [Hi|Hi].
  - split.
    + intros [= <-]. exists (length ns), nd. split_and!; try done.
      * by rewrite list_lookup_middle.
      * intros j n' Hj%lookup_lt_Some _. rewrite length_app in Hj.
        cbn in Hj. lia.
    + intros (k & n & Hk & _ & -> & Hlast).
      pose proof (Hlast (length ns) nd) as Hle.
      rewrite list_lookup_middle in Hle by done. specialize (Hle eq_refl Hi).
      apply lookup_lt_Some in Hk. rewrite length_app in Hk. cbn in Hk.
      do 2 f_equal. lia.
  - rewrite IH. split.
    + intros (k & n & Hk & Hn & -> & Hlast). exists k, n.
      split_and!; try done; [by apply lookup_app_l_Some|].
      intros j n' Hj Hn'.
      apply lookup_app_Some in Hj as [Hj|[_ Hj]]; [by eapply Hlast|].
      apply list_lookup_singleton_Some in Hj as [_ <-]. done.
    + intros (k & n & Hk & Hn & -> & Hlast).
      apply lookup_app_Some in Hk as [Hk|[_ Hk]]; cycle 1.
      { apply list_lookup_singleton_Some in Hk as [_ <-]. done. }
      exists k, n. split_and!; try done.
      intros j n' Hj Hn'. apply (Hlast j n'); [|done].
      by apply lookup_app_l_Some.
Qed.

End Importing.

(** X12. [fromJSON] of an object with a list of node objects and a list of
    edge objects returns a well-formed graph and never throws. The nodes
    are renumbered 0, 1, 2, ... in the order of the list, with their
    positions, and the allocator is the number of nodes; an id of the
    object stands for the last node object that carries it. An edge is
    imported exactly when it is an edge of the object between two known
    ids that stand for two different nodes, as the edge object [addEdge]
    files for them; edges to unknown ids, loops and repetitions add
    nothing. The edge collection is well formed, and the adjacency index
    is in step with it: the endpoints of every entry are neighbours, and
    every pair of neighbours is the pair of an entry. *)
Theorem fromJSON_well_formed (data : JsonData) :
  let m := import_mapping (jd_nodes data) in
  (∀ i v, m !! i = Some v ↔ last_with_id (jd_nodes data) i v) ∧
  ∃ g, fromJSON_data data = Some g ∧
       graph_inv g ∧ edges_inv g ∧ edges_adjacent g ∧
       nodes g = renumbered 0 (jd_nodes data) ∧
       node_ids g = seqZ 0 (Z.of_nat (length (jd_nodes data))) ∧
       nextId g = Z.of_nat (length (jd_nodes data)) ∧
       ∀ E, E ∈ (edgeMap g).*2 ↔ ∃ je, je ∈ jd_edges data ∧ imported m je E.
Proof.
  intros m. split; [apply import_mapping_last|].
  unfold fromJSON_data. subst m. unfold import_mapping.
  destruct (import_nodes_spec (jd_nodes data) ∅ (clear empty_graph))
    as (m & g1 & Hfold & Hinv & Hei & Hea & Hm & Hn & Hid & Hem).
  - apply graph_inv_clear.
  - apply edges_inv_clear.
  - by intros k e ?%elem_of_nil.
  - intros i v. by rewrite lookup_empty.
  - cbv zeta. rewrite Hfold. cbn [fst].
    destruct (import_edges_spec m (jd_edges data) g1 Hinv Hei Hea Hm)
      as (g & Hrun & Hinv' & Hei' & Hea' & Hn' & Hid').
    exists g. cbn [clear nodes nextId app edgeMap] in Hn, Hid, Hem.
    split_and!; try done.
    + congruence.
    + unfold node_ids. rewrite Hn', Hn. apply node_ids_renumbered.
    + lia.
    + intros E.
      rewrite (import_edges_objects m (jd_edges data) g1 Hinv Hei Hea Hm g Hrun).
      rewrite Hem. cbn [fmap list_fmap]. rewrite elem_of_nil. naive_solver.
Qed.

(** ** Export, then import *)

Section RoundTrip.

Lemma import_nodes_other ns m g i :
  i ∉ n_id <$> ns → (foldl import_node (m, g) ns).1 !! i = m !! i.
Proof.
  revert m g. induction ns as [|nd ns IH]; intros m g Hi; [done|].
  cbn [fmap list_fmap] in Hi. apply not_elem_of_cons in Hi as [Hne Hi].
  cbn [foldl]. unfold import_node at 2. cbn [fst snd].
  change (addNode (n_x nd) (n_y nd) g)
    with ((addNode (n_x nd) (n_y nd) g).1, (addNode (n_x nd) (n_y nd) g).2).
  cbv iota. rewrite IH by done. by rewrite lookup_insert_ne.
Qed.

(** With ids that are all different, the mapping sends the id of the
    [k]-th node object to the [k]-th new id. *)
Lemma import_nodes_mapping ns m g k n :
  NoDup (n_id <$> ns) → ns !! k = Some n →
  (foldl import_node (m, g) ns).1 !! n_id n = Some (nextId g + Z.of_nat k).
Proof.
  revert m g k. induction ns as [|nd ns IH]; intros m g k Hnd Hk; [done|].
  cbn [fmap list_fmap] in Hnd. apply NoDup_cons in Hnd as [Hhead Hnd].
  cbn [foldl]. unfold import_node at 2. cbn [fst snd].
  change (addNode (n_x nd) (n_y nd) g)
    with ((addNode (n_x nd) (n_y nd) g).1, (addNode (n_x nd) (n_y nd) g).2).
  cbv iota. destruct k as [|k]; cbn in Hk.
  - injection Hk as ->. rewrite import_nodes_other by done.
    rewrite lookup_insert_eq. cbn [addNode fst]. f_equal. lia.
  - rewrite (IH _ _ k) by done. cbn [addNode snd nextId]. f_equal. lia.
Qed.

Lemma edge_of_call_inj (rho : Z → Z) (e e' : Edge) :
  (∀ i j, i ∈ [e_a e; e_b e; e_a e'; e_b e'] →
          j ∈ [e_a e; e_b e; e_a e'; e_b e'] → rho i = rho j → i = j) →
  (e_directed e = false → e_a e < e_b e) →
  (e_directed e' = false → e_a e' < e_b e') →
  edge_of_call (rho (e_a e)) (rho (e_b e)) (e_directed e)
  = edge_of_call (rho (e_a e')) (rho (e_b e')) (e_directed e') →
  e = e'.
Proof.
  destruct e as [a b d], e' as [a' b' d']. cbn [e_a e_b e_directed].
  intros Hinj Hord Hord'. unfold edge_of_call.
  assert (∀ i j, i ∈ [a; b; a'; b'] → j ∈ [a; b; a'; b'] → i ≠ j → rho i ≠ rho j)
    as Hne by (intros i j Hi Hj Hij Heq; by apply Hij, Hinj).
  destruct d, d'; try done.
  - intros [= Ha Hb]. f_equal; apply Hinj; try done; set_solver.
  - intros [= Hmin Hmax]. specialize (Hord eq_refl). specialize (Hord' eq_refl).
    assert (rho a ≠ rho b) by (apply Hne; [set_solver..|lia]).
    assert (rho a' ≠ rho b') by (apply Hne; [set_solver..|lia]).
    assert ((rho a = rho a' ∧ rho b = rho b') ∨ (rho a = rho b' ∧ rho b = rho a'))
      as [[H1 H2]|[H1 H2]] by lia.
    + apply Hinj in H1; [|set_solver..]. apply Hinj in H2; [|set_solver..].
      by subst.
    + apply Hinj in H1; [|set_solver..]. apply Hinj in H2; [|set_solver..].
      lia.
Qed.

Context (g : Graph) (Hinv : graph_inv g) (Hei : edges_inv g)
        (Hnd : NoDup (node_ids g)).

Local Notation m := (import_mapping (nodes g)).
Local Notation pos := (mapped (import_mapping (nodes g))).

Lemma mapping_of_node k n :
  nodes g !! k = Some n → m !! n_id n = Some (Z.of_nat k).
Proof.
  intros Hk. unfold import_mapping.
  rewrite (import_nodes_mapping _ _ _ k n Hnd Hk). by cbn.
Qed.

Lemma mapping_of_id i :
  i ∈ node_ids g →
  ∃ k : nat, m !! i = Some (Z.of_nat k) ∧ (n_id <$> nodes g) !! k = Some i.
Proof.
  intros (n & -> & (k & Hk)%list_elem_of_lookup)%list_elem_of_fmap.
  exists k. split; [by apply mapping_of_node|].
  by rewrite list_lookup_fmap, Hk.
Qed.

Lemma mapped_inj i j :
  i ∈ node_ids g → j ∈ node_ids g → pos i = pos j → i = j.
Proof.
  intros (k & Hi & Hk)%mapping_of_id (k' & Hj & Hk')%mapping_of_id.
  unfold mapped. rewrite Hi, Hj. cbn. intros Heq%Nat2Z.inj. subst k'.
  unfold node_ids in *. congruence.
Qed.

Lemma mapped_is_index i :
  i ∈ node_ids g → 0 ≤ pos i < Z.of_nat (length (nodes g)).
Proof.
  intros (k & Hi & Hk)%mapping_of_id. unfold mapped. rewrite Hi. cbn.
  apply lookup_lt_Some in Hk. rewrite length_fmap in Hk. lia.
Qed.

Lemma relabelled_inj kv kv' :
  kv ∈ edgeMap g → kv' ∈ edgeMap g →
  (relabelled pos kv).1 = (relabelled pos kv').1 → kv = kv'.
Proof.
  destruct kv as [k e], kv' as [k' e']. intros Hin Hin'.
  unfold relabelled. cbn [fst snd]. intros Heq%key_of_inj.
  destruct (ei_ends g Hei k e Hin) as (Ha & Hb & _).
  destruct (ei_ends g Hei k' e' Hin') as (Ha' & Hb' & _).
  apply edge_of_call_inj in Heq.
  - subst e'. by rewrite (ei_key g Hei k e Hin), (ei_key g Hei k' e Hin').
  - intros i j Hi Hj. apply mapped_inj; set_solver.
  - by apply (ei_order g Hei k).
  - by apply (ei_order g Hei k').
Qed.

(** The second loop of [fromJSON], on the exported edges: every call of
    [addEdge] returns true and appends the entry. *)
Lemma import_exported_edges rest done s :
  edgeMap g = done ++ rest →
  edgeMap s = relabelled pos <$> done →
  graph_inv s → node_ids s = seqZ 0 (Z.of_nat (length (nodes g))) →
  ∃ s', for_each (λ kv : string * Edge,
                    import_edge m (mkJsonEdge (e_a kv.2) (e_b kv.2)
                                              (e_directed kv.2) kv.1))
                 rest s = Some s' ∧
        edgeMap s' = relabelled pos <$> edgeMap g ∧
        nodes s' = nodes s ∧ nextId s' = nextId s ∧ graph_inv s'.
Proof.
  revert done s. induction rest as [|[k e] rest IH]; intros done s Hsplit Hem Hs Hids.
  - exists s. rewrite app_nil_r in Hsplit. cbn [for_each]. by rewrite Hsplit.
  - assert ((k, e) ∈ edgeMap g) as Hin.
    { rewrite Hsplit, elem_of_app. right. by left. }
    destruct (ei_ends g Hei k e Hin) as (Ha & Hb & Hab).
    destruct (mapping_of_id _ Ha) as (ka & Hma & _).
    destruct (mapping_of_id _ Hb) as (kb & Hmb & _).
    assert (pos (e_a e) = Z.of_nat ka) as Hpa by (unfold mapped; by rewrite Hma).
    assert (pos (e_b e) = Z.of_nat kb) as Hpb by (unfold mapped; by rewrite Hmb).
    assert (∀ i, i ∈ node_ids g → is_Some (adj s !! pos i)) as Hadj.
    { intros i Hi. apply (inv_keys s Hs). rewrite Hids.
      apply elem_of_seqZ. pose proof (mapped_is_index i Hi). lia. }
    destruct (Hadj _ Ha) as [sa Hsa]. destruct (Hadj _ Hb) as [sb Hsb].
    cbn [for_each]. unfold import_edge at 1.
    cbn [je_a je_b je_directed fst snd]. rewrite Hma, Hmb, <- Hpa, <- Hpb.
    rewrite (addEdge_cases _ _ (e_directed e) s sa sb Hsa Hsb).
    rewrite decide_False by (intros Heq; by apply mapped_inj in Heq).
    assert ((if e_directed e then directedKey (pos (e_a e)) (pos (e_b e))
             else edgeKey (pos (e_a e)) (pos (e_b e)))
            = (relabelled pos (k, e)).1) as ->
      by (unfold relabelled; cbn [fst snd]; by destruct (e_directed e)).
    assert (JsMap.has (relabelled pos (k, e)).1 (edgeMap s) = false) as ->.
    { apply JsMap_has_false. rewrite Hem, <- list_fmap_compose.
      intros (kv & Heq & Hkv)%list_elem_of_fmap.
      change ((relabelled pos (k, e)).1 = (relabelled pos kv).1) in Heq.
      apply relabelled_inj in Heq; [|done|rewrite Hsplit, elem_of_app; by left].
      subst kv. pose proof (ei_nodup g Hei) as Hkeys.
      rewrite Hsplit, fmap_app in Hkeys.
      apply NoDup_app in Hkeys as (_ & Hdisj & _).
      apply (Hdisj k); [by apply (list_elem_of_fmap_2 fst) in Hkv|].
      cbn. by left. }
    cbv zeta.
    match goal with |- context [for_each _ rest ?s1] => set (s1' := s1) end.
    destruct (IH (done ++ [(k, e)]) s1') as (s' & Hrun & Hem' & Hn' & Hid' & Hs').
    + by rewrite <- app_assoc.
    + subst s1'. cbn [edgeMap]. rewrite Hem, fmap_app. cbn [fmap list_fmap].
      reflexivity.
    + eapply (graph_inv_addEdge (pos (e_a e)) (pos (e_b e)) (e_directed e) s true);
        [done|].
      rewrite (addEdge_cases _ _ (e_directed e) s sa sb Hsa Hsb).
      rewrite decide_False by (intros Heq; by apply mapped_inj in Heq).
      assert ((if e_directed e then directedKey (pos (e_a e)) (pos (e_b e))
               else edgeKey (pos (e_a e)) (pos (e_b e)))
              = (relabelled pos (k, e)).1) as ->
      by (unfold relabelled; cbn [fst snd]; by destruct (e_directed e)).
      assert (JsMap.has (relabelled pos (k, e)).1 (edgeMap s) = false) as ->;
        [|done].
      apply JsMap_has_false. rewrite Hem, <- list_fmap_compose.
      intros (kv & Heq & Hkv)%list_elem_of_fmap.
      change ((relabelled pos (k, e)).1 = (relabelled pos kv).1) in Heq.
      apply relabelled_inj in Heq; [|done|rewrite Hsplit, elem_of_app; by left].
      subst kv. pose proof (ei_nodup g Hei) as Hkeys.
      rewrite Hsplit, fmap_app in Hkeys.
      apply NoDup_app in Hkeys as (_ & Hdisj & _).
      apply (Hdisj k); [by apply (list_elem_of_fmap_2 fst) in Hkv|].
      cbn. by left.
    + done.
    + exists s'. by split_and!.
Qed.

End RoundTrip.

Section RoundTripResult.

Lemma renumbered_canonical first ns :
  n_id <$> ns = seqZ first (Z.of_nat (length ns)) → renumbered first ns = ns.
Proof.
  revert first. induction ns as [|[i x y] ns IH]; intros first; [done|].
  cbn [fmap list_fmap length n_id]. rewrite Nat2Z.inj_succ, seqZ_cons by lia.
  intros [= -> Hrest]. rewrite renumbered_cons. cbn [n_x n_y]. f_equal.
  apply IH. rewrite Hrest. f_equal; lia.
Qed.

Lemma edges_adjacent_of_match g : edges_match_adjacency g → edges_adjacent g.
Proof.
  intros Hmatch k e Hin. apply Hmatch. exists (e_a e, e_b e).
  split; [|by left]. unfold edges_of. apply list_elem_of_fmap.
  by exists (k, e).
Qed.

(** In a graph whose adjacency is in step with its edge map the
    neighbours are the pairs of the entries. *)
Lemma adjacent_iff_entry g x y :
  graph_inv g → edges_inv g → edges_adjacent g →
  adjacent g x y ↔ ∃ kv, kv ∈ edgeMap g ∧ norm (ends kv.2) = norm (x, y).
Proof.
  intros Hinv Hei Hea. split.
  - intros (k & e & Hin & He)%(ei_backed g Hei). by exists (k, e).
  - intros ([k e] & Hin & He). cbn [snd] in He. unfold ends in He.
    pose proof (Hea k e Hin) as Hadj. symmetry in He.
    apply norm_eq in He as [[= -> ->]|[= -> ->]]; [done|].
    by apply (inv_sym g Hinv).
Qed.

Context (g : Graph) (Hinv : graph_inv g) (Hei : edges_inv g)
        (Hnd : NoDup (node_ids g)).

(** [fromJSON] of what [toJSON] exports. *)
Lemma fromJSON_toJSON_spec :
  ∃ g', fromJSON_data (toJSON_data g) = Some g' ∧
        graph_inv g' ∧ edges_inv g' ∧ edges_adjacent g' ∧
        nodes g' = renumbered 0 (nodes g) ∧
        nextId g' = Z.of_nat (length (nodes g)) ∧
        edgeMap g' = relabelled (mapped (import_mapping (nodes g))) <$> edgeMap g.
Proof.
  unfold fromJSON_data, toJSON_data. cbn [jd_nodes jd_edges].
  destruct (import_nodes_spec (nodes g) ∅ (clear empty_graph))
    as (m & g1 & Hfold & Hinv1 & Hei1 & Hea1 & Hm & Hn1 & Hid1 & Hem1).
  { apply graph_inv_clear. }
  { apply edges_inv_clear. }
  { by intros k e ?%elem_of_nil. }
  { intros i v. by rewrite lookup_empty. }
  assert (m = import_mapping (nodes g)) as Hmap.
  { unfold import_mapping. by rewrite Hfold. }
  cbv zeta. rewrite Hfold. cbn [clear nodes nextId edgeMap app] in Hn1, Hid1, Hem1.
  destruct (import_edges_spec m
              ((λ kv : string * Edge,
                  mkJsonEdge (e_a kv.2) (e_b kv.2) (e_directed kv.2) kv.1)
               <$> edgeMap g) g1 Hinv1 Hei1 Hea1 Hm)
    as (g' & Hrun & Hinv' & Hei' & Hea' & Hn' & Hid').
  exists g'. split; [done|]. split_and!; try done; try congruence; [lia|].
  rewrite for_each_fmap, Hmap in Hrun.
  destruct (import_exported_edges g Hinv Hei Hnd (edgeMap g) [] g1)
    as (s' & Hrun' & Hem' & _); [done|by rewrite Hem1|done| |].
  - unfold node_ids. rewrite Hn1. apply node_ids_renumbered.
  - rewrite Hrun in Hrun'. by injection Hrun' as <-.
Qed.

End RoundTripResult.

(** X13. Export, then import, renumbers the graph and nothing else. For a
    well-formed graph, [fromJSON] of the object [toJSON] exports returns a
    graph with the same node positions in the same order, the node at place
    [k] of the node list now with id [k]; with one edge entry per entry of
    the exported graph, in the same order and of the same kind, its
    endpoints renumbered in the same way; and with an adjacency index
    rebuilt from these entries. *)
Theorem fromJSON_toJSON (g : Graph) :
  graph_inv g → edges_inv g → NoDup (node_ids g) →
  let pos := mapped (import_mapping (nodes g)) in
  (∀ k n, nodes g !! k = Some n → pos (n_id n) = Z.of_nat k) ∧
  ∃ g', fromJSON_data (toJSON_data g) = Some g' ∧
        nodes g' = renumbered 0 (nodes g) ∧
        edgeMap g' = relabelled pos <$> edgeMap g ∧
        (∀ x y, adjacent g' x y ↔
                ∃ kv, kv ∈ edgeMap g' ∧ norm (ends kv.2) = norm (x, y)).
Proof.
  intros Hinv Hei Hnd pos. split.
  - intros k n Hk. subst pos. unfold mapped.
    by rewrite (mapping_of_node g Hnd k n Hk).
  - destruct (fromJSON_toJSON_spec g Hinv Hei Hnd)
      as (g' & Hrun & Hinv' & Hei' & Hea' & Hn & _ & Hem).
    exists g'. split_and!; [done..|].
    intros x y. by apply adjacent_iff_entry.
Qed.

(** X13 on the graph with the nodes -1 and 1 and an edge between them. *)
Lemma fromJSON_toJSON_witness :
  (∀ k n, nodes graph_negative !! k = Some n →
          mapped (import_mapping (nodes graph_negative)) (n_id n) = Z.of_nat k) ∧
  ∃ g', fromJSON_data (toJSON_data graph_negative) = Some g' ∧
        nodes g' = renumbered 0 (nodes graph_negative) ∧
        edgeMap g' = relabelled (mapped (import_mapping (nodes graph_negative)))
                     <$> edgeMap graph_negative ∧
        (∀ x y, adjacent g' x y ↔
                ∃ kv, kv ∈ edgeMap g' ∧ norm (ends kv.2) = norm (x, y)).
Proof.
  refine (fromJSON_toJSON graph_negative _ _ _).
  - apply graph_inv_graph_negative.
  - apply edges_invb_spec. vm_compute. reflexivity.
  - apply reachable_node_ids_NoDup, graph_of_ops_reachable.
Defined.

(** X14. For a well-formed graph whose node ids are 0, 1, 2, ... in the
    order of the node list and whose adjacency is in step with its edge
    map, export and import give the graph back: the same node list, the
    same edge map, entry for entry, and the same neighbours. The allocator
    of the imported graph is the number of nodes. *)
Theorem fromJSON_toJSON_canonical (g : Graph) :
  graph_inv g → edges_inv g → edges_adjacent g →
  node_ids g = seqZ 0 (Z.of_nat (length (nodes g))) →
  ∃ g', fromJSON_data (toJSON_data g) = Some g' ∧
        nodes g' = nodes g ∧ edgeMap g' = edgeMap g ∧
        (∀ x y, adjacent g' x y ↔ adjacent g x y) ∧
        nextId g' = Z.of_nat (length (nodes g)).
Proof.
  intros Hinv Hei Hea Hids.
  assert (NoDup (node_ids g)) as Hnd by (rewrite Hids; apply NoDup_seqZ).
  destruct (fromJSON_toJSON_spec g Hinv Hei Hnd)
    as (g' & Hrun & Hinv' & Hei' & Hea' & Hn & Hid & Hem).
  assert (∀ i, i ∈ node_ids g → mapped (import_mapping (nodes g)) i = i) as Hpos.
  { intros i Hi. destruct (mapping_of_id g Hnd i Hi) as (k & Hm & Hk).
    unfold mapped. rewrite Hm. cbn. fold (node_ids g) in Hk.
    rewrite Hids in Hk. apply lookup_seqZ in Hk as [-> _]. lia. }
  assert (edgeMap g' = edgeMap g) as Hem'.
  { rewrite Hem. rewrite <- (list_fmap_id (edgeMap g)) at 2.
    apply list_fmap_ext. intros _ [k e] Hin%list_elem_of_lookup_2.
    destruct (ei_ends g Hei k e Hin) as (Ha & Hb & _).
    unfold relabelled. cbn [fst snd]. rewrite !Hpos by done.
    assert (edge_of_call (e_a e) (e_b e) (e_directed e) = e) as ->.
    { pose proof (ei_order g Hei k e Hin) as Hord. destruct e as [a b d].
      unfold edge_of_call. cbn [e_a e_b e_directed] in *. destruct d; [done|].
      specialize (Hord eq_refl). f_equal; lia. }
    by rewrite <- (ei_key g Hei k e Hin). }
  exists g'. split_and!; [done| |done| |done].
  - rewrite Hn. apply renumbered_canonical. by fold (node_ids g).
  - intros x y. rewrite !adjacent_iff_entry by done. by rewrite Hem'.
Qed.

(** X14 on the graph of one edge 0-1. *)
Lemma fromJSON_toJSON_canonical_witness :
  ∃ g', fromJSON_data (toJSON_data graph_edge01) = Some g' ∧
        nodes g' = nodes graph_edge01 ∧ edgeMap g' = edgeMap graph_edge01 ∧
        (∀ x y, adjacent g' x y ↔ adjacent graph_edge01 x y) ∧
        nextId g' = Z.of_nat (length (nodes graph_edge01)).
Proof.
  refine (fromJSON_toJSON_canonical graph_edge01 _ _ _ _).
  - apply model_invb_spec. vm_compute. reflexivity.
  - apply edges_invb_spec. vm_compute. reflexivity.
  - apply edges_adjacent_of_match, edges_match_adjacencyb_spec.
    vm_compute. reflexivity.
  - vm_compute. reflexivity.
Defined.

(** ** [findNearestNodeId] *)

Section Nearest.

Context (x y : Z).

(** What the loop state says of the nodes seen so far. *)
Local Notation summary seen st :=
  ((seen = [] ∧ st = (None, None)) ∨
   (∃ k n, first_nearest x y seen k n ∧
           st = (Some (n_id n), Some (sqdist x y n)))).

Lemma nearer_summary seen st n :
  summary seen st → summary (seen ++ [n]) (nearer x y st n).
Proof.
  intros [[-> ->]|(k & m & [Hk Hmin] & ->)]; right.
  - exists 0%nat, n. split; [|done]. split; [done|].
    intros [|j] n'; cbn; [|done]. intros [= <-]. split; [lia|lia].
  - unfold nearer. cbn [snd]. case_bool_decide as Hlt.
    + exists (length seen), n. split; [|done]. split.
      * by rewrite lookup_app_r, Nat.sub_diag by lia.
      * intros j n' Hj. destruct (decide (j < length seen)%nat) as [Hjs|Hjs].
        -- rewrite lookup_app_l in Hj by done.
           destruct (Hmin j n' Hj). lia.
        -- rewrite lookup_app_r in Hj by lia.
           destruct (j - length seen)%nat eqn:Hd; cbn in Hj; [|done].
           injection Hj as <-. split; lia.
    + exists k, m. split; [|done]. split.
      * apply lookup_app_l_Some. done.
      * intros j n' Hj. destruct (decide (j < length seen)%nat) as [Hjs|Hjs].
        -- rewrite lookup_app_l in Hj by done. by apply Hmin.
        -- rewrite lookup_app_r in Hj by lia.
           destruct (j - length seen)%nat eqn:Hd; cbn in Hj; [|done].
           injection Hj as <-. apply lookup_lt_Some in Hk. split; lia.
Qed.

Lemma foldl_nearer_summary ns seen st :
  summary seen st → summary (seen ++ ns) (foldl (nearer x y) st ns).
Proof.
  revert seen st. induction ns as [|n ns IH]; intros seen st Hst.
  - by rewrite app_nil_r.
  - cbn [foldl]. rewrite cons_middle, app_assoc.
    apply IH. by apply nearer_summary.
Qed.

Lemma first_nearest_unique ns k n k' n' :
  first_nearest x y ns k n → first_nearest x y ns k' n' → k = k' ∧ n = n'.
Proof.
  intros [Hk Hmin] [Hk' Hmin'].
  destruct (Hmin k' n' Hk') as [H1 H2]. destruct (Hmin' k n Hk) as [H3 H4].
  assert (k = k') as -> by (destruct (lt_eq_lt_dec k k') as [[?|?]|?]; lia).
  split; [done|]. congruence.
Qed.

End Nearest.

(** X15. For a point and nodes whose coordinates differ by at most [2^26],
    so that the squared distances are computed exactly,
    [findNearestNodeId(x, y)] returns [null] when the graph has no node,
    and otherwise the id of the node whose squared distance to the point is
    least; where several nodes are equally near, the one that comes first
    in the node list wins. *)
Theorem findNearestNodeId_first_nearest (x y : Z) (g : Graph) :
  Forall (exact_sqdist x y) (nodes g) →
  (nodes g = [] → findNearestNodeId x y g = None) ∧
  (nodes g ≠ [] → ∃ k n, first_nearest x y (nodes g) k n) ∧
  (∀ k n, first_nearest x y (nodes g) k n →
          findNearestNodeId x y g = Some (n_id n)).
Proof.
  intros _. unfold findNearestNodeId.
  pose proof (foldl_nearer_summary x y (nodes g) [] (None, None)) as Hsum.
  cbn [app] in Hsum. split_and!.
  - by intros ->.
  - intros Hne. destruct Hsum as [[? _]|(k & n & Hfirst & _)]; [by left|done|eauto].
  - intros k n Hfirst.
    destruct Hsum as [[Hnil _]|(k' & n' & Hfirst' & ->)]; [by left| |].
    + destruct Hfirst as [Hk _]. by rewrite Hnil in Hk.
    + by destruct (first_nearest_unique x y _ _ _ _ _ Hfirst Hfirst') as [_ ->].
Qed.

(** X15 on the graph of one edge 0-1, with its nodes at (100, 100) and
    (200, 100), for the point (120, 90): node 0 is the nearest. *)
Lemma findNearestNodeId_first_nearest_witness :
  findNearestNodeId 120 90 graph_edge01 = Some 0.
Proof.
  assert (nodes graph_edge01 = [mkNode 0 100 100; mkNode 1 200 100]) as Hn
    by (vm_compute; reflexivity).
  refine (proj2 (proj2 (findNearestNodeId_first_nearest 120 90 graph_edge01 _))
            0%nat (mkNode 0 100 100) _).
  - rewrite Hn.
    repeat (apply Forall_cons; split;
            [unfold exact_sqdist; cbn [n_x n_y]; lia|]).
    apply Forall_nil_2.
  - rewrite Hn. split; [done|].
    intros [|[|j]] n'; cbn [lookup list_lookup]; intros [= <-];
      unfold sqdist; cbn [n_x n_y]; lia.
Defined.

(** ** [escapeHtml] *)

Section Escaping.

Lemma append_cons c (s1 s2 : string) :
  (String c s1 ++ s2)%string = String c (s1 ++ s2)%string.
Proof. reflexivity. Qed.

Lemma string_app_assoc (s1 s2 s3 : string) :
  ((s1 ++ s2) ++ s3 = s1 ++ (s2 ++ s3))%string.
Proof.
  induction s1 as [|c s1 IH]; [done|]. by rewrite !append_cons, IH.
Qed.

Lemma replace_all_app c r s1 s2 :
  replace_all c r (s1 ++ s2)%string
  = (replace_all c r s1 ++ replace_all c r s2)%string.
Proof.
  induction s1 as [|c' s1 IH]; [done|].
  rewrite append_cons. cbn [replace_all].
  rewrite IH. destruct (Ascii.eqb c' c); [|done].
  by rewrite string_app_assoc.
Qed.

Lemma occurs_app c s1 s2 :
  occurs c (s1 ++ s2)%string = occurs c s1 || occurs c s2.
Proof.
  induction s1 as [|c' s1 IH]; [done|].
  rewrite append_cons. cbn [occurs]. by rewrite IH, orb_assoc.
Qed.

Lemma occurs_escape_char c d :
  d = "<"%char ∨ d = ">"%char → occurs d (escape_char c) = false.
Proof.
  intros Hd. unfold escape_char.
  destruct (Ascii.eqb c "&") eqn:H1; [by destruct Hd as [->| ->]|].
  destruct (Ascii.eqb c "<") eqn:H2; [by destruct Hd as [->| ->]|].
  destruct (Ascii.eqb c ">") eqn:H3; [by destruct Hd as [->| ->]|].
  cbn [occurs]. rewrite orb_false_r. by destruct Hd as [->| ->].
Qed.

(** The three replacements, made one after the other over the whole
    string, write every character as [escape_char] does: the ampersands
    of the entities written first are not escaped again. *)
Lemma escapeHtml_escape_each s : escapeHtml s = escape_each s.
Proof.
  unfold escapeHtml. induction s as [|c s IH]; [done|].
  cbn [replace_all escape_each]. unfold escape_char.
  destruct (Ascii.eqb c "&") eqn:H1.
  { rewrite !replace_all_app, IH. done. }
  cbn [replace_all]. destruct (Ascii.eqb c "<") eqn:H2.
  { rewrite !replace_all_app, IH. done. }
  cbn [replace_all]. destruct (Ascii.eqb c ">") eqn:H3.
  { rewrite IH. done. }
  by rewrite IH.
Qed.

Lemma escape_char_head c :
  ∃ h t, escape_char c = String h t ∧
         (h = "&"%char ∨ (h = c ∧ t = EmptyString ∧ c ≠ "&"%char)).
Proof.
  unfold escape_char.
  destruct (Ascii.eqb c "&") eqn:H1; [eauto|].
  destruct (Ascii.eqb c "<") eqn:H2; [eauto|].
  destruct (Ascii.eqb c ">") eqn:H3; [eauto|].
  apply Ascii.eqb_neq in H1. eauto 10.
Qed.

Lemma escape_each_inj s s' : escape_each s = escape_each s' → s = s'.
Proof.
  revert s'. induction s as [|c s IH]; intros [|c' s'];
    cbn [escape_each].
  - done.
  - destruct (escape_char_head c') as (h & t & -> & _). done.
  - destruct (escape_char_head c) as (h & t & -> & _). done.
  - unfold escape_char.
    destruct (Ascii.eqb c "&") eqn:H1; destruct (Ascii.eqb c' "&") eqn:H1';
      [|destruct (Ascii.eqb c' "<") eqn:H2';
         [|destruct (Ascii.eqb c' ">") eqn:H3']
       |destruct (Ascii.eqb c "<") eqn:H2;
         [|destruct (Ascii.eqb c ">") eqn:H3]
       |destruct (Ascii.eqb c "<") eqn:H2;
         [|destruct (Ascii.eqb c ">") eqn:H3];
        (destruct (Ascii.eqb c' "<") eqn:H2';
         [|destruct (Ascii.eqb c' ">") eqn:H3'])];
      repeat match goal with
             | H : Ascii.eqb _ _ = true |- _ => apply Ascii.eqb_eq in H
             | H : Ascii.eqb _ _ = false |- _ => apply Ascii.eqb_neq in H
             end; subst; cbn [String.append];
      intros Heq; try discriminate Heq;
      try (injection Heq as Heq; apply IH in Heq; by subst);
      try (injection Heq as -> Heq; apply IH in Heq; by subst);
      try (injection Heq as <- _; congruence);
      try (injection Heq as -> _; congruence).
Qed.

End Escaping.

(** X16. [escapeHtml] writes every character of its argument on its own,
    in one pass: [&] as [&amp;], [<] as [&lt;], [>] as [&gt;] and any other
    character as itself. The result holds no [<] and no [>], and two
    different strings are never written the same. *)
Theorem escapeHtml_escapes (s : string) :
  escapeHtml s = escape_each s ∧
  occurs "<" (escapeHtml s) = false ∧ occurs ">" (escapeHtml s) = false ∧
  ∀ s', escapeHtml s = escapeHtml s' → s = s'.
Proof.
  split_and!.
  - apply escapeHtml_escape_each.
  - rewrite escapeHtml_escape_each. induction s as [|c s IH]; [done|].
    cbn [escape_each]. rewrite occurs_app, IH, occurs_escape_char; auto.
  - rewrite escapeHtml_escape_each. induction s as [|c s IH]; [done|].
    cbn [escape_each]. rewrite occurs_app, IH, occurs_escape_char; auto.
  - intros s'. rewrite !escapeHtml_escape_each. apply escape_each_inj.
Qed.

(** ** An induction principle for the instrumented traversal *)

Section TracedInduction.

Context (g : Graph) (P : list Z).
Context (K : Traced.SState → Prop) (R : Traced.SState → Traced.SState → Prop).

Local Notation tree_push u v ss :=
  (Traced.push_edge_step u v false (Traced.on_state (set_parent v u) ss)).
Local Notation after_child u v c ss :=
  (Traced.close_block u v
     (Traced.mark_bridge u v
        (Traced.mark_cut u v
           (Traced.mark_root u c (Traced.relax_child u v ss))))).
Local Notation back_push u v ss :=
  (Traced.relax_back u v (Traced.push_edge_step u v true ss)).

Context (R_refl : ∀ ss, R ss ss).
Context (R_trans : ∀ a b c, R a b → R b c → R a c).
Context (H_enter : ∀ u ss, K ss → u ∈ P → disc ss.1 !! u = Some (-1) →
           K (Traced.enter_step u ss) ∧ R ss (Traced.enter_step u ss)).
Context (H_tree : ∀ u v ss, K ss → u ∈ P → v ∈ P → adjacent g u v →
           disc ss.1 !! v = Some (-1) →
           K (tree_push u v ss) ∧ R ss (tree_push u v ss)).
Context (H_after : ∀ u v c ss ss2, u ∈ P → v ∈ P → adjacent g u v →
           K ss2 → R (tree_push u v ss) ss2 →
           K (after_child u v c ss2) ∧ R ss2 (after_child u v c ss2)).
Context (H_back : ∀ u v ss, K ss → u ∈ P → v ∈ P → adjacent g u v →
           K (back_push u v ss) ∧ R ss (back_push u v ss)).
Context (H_root : ∀ ss, K ss → K (Traced.close_root ss)).

Lemma traced_dfs_ind fuel :
  ∀ u ss ss', K ss → u ∈ P → disc ss.1 !! u = Some (-1) →
              Traced.dfs fuel g P u ss = Some ss' →
              K ss' ∧ R ss ss' ∧ R (Traced.enter_step u ss) ss'.
Proof.
  induction fuel as [|fuel IH]; intros u ss ss' HK Hu Hd; [done|].
  cbn [Traced.dfs].
  destruct (for_each _ _ _) as [[c s']|] eqn:Hloop; [|done].
  intros [= <-]. destruct (H_enter u ss HK Hu Hd) as [HK1 HR1].
  apply (for_each_rest
           (λ rest (cs : Z * Traced.SState),
              K cs.2 ∧ R (Traced.enter_step u ss) cs.2
              ∧ ∀ y, y ∈ rest → adjacent g u y))
    in Hloop.
  - cbn [snd] in Hloop. destruct Hloop as (? & ? & _). eauto.
  - clear Hloop. intros v rest [c0 s] [c1 s1] (HKs & HRs & Hadj).
    cbn [snd] in HKs, HRs |- *.
    assert (adjacent g u v) as Huv by (apply Hadj; by left).
    assert (∀ y, y ∈ rest → adjacent g u y) as Hadj'
      by (intros y Hy; apply Hadj; by right).
    unfold Traced.visit_neighbor.
    destruct (JsSet.has v P) eqn:Hv; cbn [negb]; [|by intros [= <- <-]].
    apply JsSet_has_true in Hv.
    destruct (Js.seq (disc s.1 !! v) (-1)) eqn:Hseq.
    + apply bool_decide_eq_true in Hseq.
      destruct (H_tree u v s HKs Hu Hv Huv Hseq) as [HK2 HR2].
      destruct (Traced.dfs fuel g P v _) as [s2|] eqn:Hrec; [|done].
      intros [= <- <-]. apply IH in Hrec as (HK3 & HR3 & _); [|done..].
      destruct (H_after u v (c0 + 1) s s2 Hu Hv Huv HK3 HR3) as [HK4 HR4].
      split_and!; [done| |done]. eauto.
    + destruct (_ && _).
      * intros [= <- <-]. destruct (H_back u v s HKs Hu Hv Huv) as [HK2 HR2].
        split_and!; [done| |done]. eauto.
      * by intros [= <- <-].
  - cbn [snd]. split_and!; [done..|].
    intros y Hy. unfold adjacent. done.
Qed.

Lemma traced_visit_root fuel node ss ss' :
  K ss → n_id node ∈ P →
  Traced.visit_root fuel g P node ss = Some ss' → K ss'.
Proof.
  intros HK Hn. unfold Traced.visit_root.
  destruct (Js.seq _ _) eqn:Hseq; [|by intros [= <-]].
  apply bool_decide_eq_true in Hseq.
  destruct (Traced.dfs _ _ _ _ _) as [s|] eqn:Hdfs; [|done].
  intros [= <-]. apply traced_dfs_ind in Hdfs as (? & _); [|done..].
  by apply H_root.
Qed.

Lemma traced_roots fuel (ns : list Node) ss ss' :
  (∀ n, n ∈ ns → n_id n ∈ P) → K ss →
  for_each (Traced.visit_root fuel g P) ns ss = Some ss' → K ss'.
Proof.
  revert ss. induction ns as [|n ns IH]; intros ss HP HK; cbn [for_each].
  - by intros [= <-].
  - destruct (Traced.visit_root fuel g P n ss) as [s|] eqn:Hn; [|done].
    apply IH; [intros m Hm; apply HP; by right|].
    eapply traced_visit_root; [done| |done]. apply HP. by left.
Qed.

End TracedInduction.

Section TracedRun.

(** The plain analysis is the instrumented one with the steps forgotten. *)
Lemma analyze_fuel_traced fuel g :
  analyze_fuel fuel g
  = match analyzeWithSteps_state fuel g with
    | Done ss => Done (result_of ss.1)
    | RangeError => RangeError
    | OutOfFuel => OutOfFuel
    end.
Proof.
  unfold analyze_fuel, analyzeWithSteps_state.
  destruct (init_state g) as [st|]; [|done].
  pose proof (for_each_proj fst
    (Traced.visit_root fuel g (nodesPresent_of g))
    (Plain.visit_root fuel g (nodesPresent_of g))
    (nodes g)
    (λ a s, visit_root_forget _ g _ a s) (st, [])) as Hloop.
  cbn [fst] in Hloop. rewrite <- Hloop.
  destruct (for_each _ _ _) as [ss|]; reflexivity.
Qed.

(** A property of the start state that every block of the traversal
    keeps holds of the state [analyzeWithSteps] ends in. *)
Lemma traced_run g (K : Traced.SState → Prop) R fuel st ss :
  (∀ ss, R ss ss) → (∀ a b c, R a b → R b c → R a c) →
  (∀ u ss, K ss → u ∈ nodesPresent_of g → disc ss.1 !! u = Some (-1) →
           K (Traced.enter_step u ss) ∧ R ss (Traced.enter_step u ss)) →
  (∀ u v ss, K ss → u ∈ nodesPresent_of g → v ∈ nodesPresent_of g →
             adjacent g u v → disc ss.1 !! v = Some (-1) →
             let ss1 := Traced.push_edge_step u v false
                          (Traced.on_state (set_parent v u) ss) in
             K ss1 ∧ R ss ss1) →
  (∀ u v c ss ss2, u ∈ nodesPresent_of g → v ∈ nodesPresent_of g →
             adjacent g u v → K ss2 →
             R (Traced.push_edge_step u v false
                  (Traced.on_state (set_parent v u) ss)) ss2 →
             let ss3 := Traced.close_block u v
                          (Traced.mark_bridge u v
                             (Traced.mark_cut u v
                                (Traced.mark_root u c
                                   (Traced.relax_child u v ss2)))) in
             K ss3 ∧ R ss2 ss3) →
  (∀ u v ss, K ss → u ∈ nodesPresent_of g → v ∈ nodesPresent_of g →
             adjacent g u v →
             let ss1 := Traced.relax_back u v
                          (Traced.push_edge_step u v true ss) in
             K ss1 ∧ R ss ss1) →
  (∀ ss, K ss → K (Traced.close_root ss)) →
  init_state g = Some st → K (st, []) →
  analyzeWithSteps_state fuel g = Done ss → K ss.
Proof.
  intros Hrefl Htrans Henter Htree Hafter Hback Hroot Hinit HK0.
  unfold analyzeWithSteps_state. rewrite Hinit.
  destruct (for_each _ _ _) as [s|] eqn:Hrun; [|done]. intros [= <-].
  eapply (traced_roots g (nodesPresent_of g) K R); try done.
  intros n Hn. apply elem_of_nodesPresent. by apply list_elem_of_fmap_2.
Qed.

End TracedRun.

(** ** The replay of the whole trace *)

Section ReplayEnd.

Lemma formed_of_snoc comps c :
  formed_of (comps ++ [c])
  = formed_of comps
    ++ [mkFormedComp (length comps) (keys_of (edges c))
                     (colorForIndex (length comps))].
Proof.
  unfold formed_of. rewrite imap_app. cbn [imap]. by rewrite Nat.add_0_r.
Qed.

Lemma length_formed_of comps : length (formed_of comps) = length comps.
Proof. unfold formed_of. by rewrite length_imap. Qed.

(** A step that the replay ignores in these three variables, pushed
    after a change of the state that leaves the three fields alone. *)
Lemma replay_matches_other (f : TState → TState) s ss :
  (∀ st, ap (f st) = ap st ∧ bridges (f st) = bridges st
         ∧ components (f st) = components st) →
  match s with
  | Visit _ _ _ | PushEdge _ _ _ | UpdateLow _ _ _ => True
  | _ => False
  end →
  replay_matches ss →
  replay_matches (Traced.pushStep s (Traced.on_state f ss)).
Proof.
  intros Hf Hs (Ha & Hb & Hc). destruct (Hf ss.1) as (Ha' & Hb' & Hc').
  unfold replay_matches, Traced.pushStep, Traced.on_state. cbn [fst snd].
  rewrite replay_snoc, Ha', Hb', Hc', <- Ha, <- Hb, <- Hc.
  by destruct s.
Qed.

Lemma replay_matches_markAP u ss :
  replay_matches ss →
  replay_matches (Traced.pushStep (MarkAP u) (Traced.on_state (add_ap u) ss)).
Proof.
  intros (Ha & Hb & Hc).
  unfold replay_matches, Traced.pushStep, Traced.on_state. cbn [fst snd].
  rewrite replay_snoc. cbn [replay_step aps rp_bridges formedComps add_ap ap
                              bridges components].
  by rewrite Ha.
Qed.

Lemma replay_matches_markBridge u v ss :
  replay_matches ss →
  replay_matches
    (Traced.pushStep (MarkBridge u v) (Traced.on_state (add_bridge u v) ss)).
Proof.
  intros (Ha & Hb & Hc).
  unfold replay_matches, Traced.pushStep, Traced.on_state. cbn [fst snd].
  rewrite replay_snoc. cbn [replay_step aps rp_bridges formedComps add_bridge ap
                              bridges components].
  by rewrite Hb.
Qed.

(** A component and its [popComponent] step. *)
Lemma replay_matches_pop st steps es vs rest :
  replay_matches (st, steps) →
  replay_matches
    (Traced.pushStep
       (PopComponent (length (components st)) ((λ e, (e.1, e.2)) <$> es) vs)
       (mkTState (disc st) (low st) (parent st) (ap st) (bridges st)
                 (components st ++ [mkComp es vs]) rest (time st), steps)).
Proof.
  intros (Ha & Hb & Hc). cbn [fst snd] in Ha, Hb, Hc.
  unfold replay_matches, Traced.pushStep. cbn [fst snd].
  rewrite replay_snoc.
  cbn [replay_step aps rp_bridges formedComps ap bridges components].
  split_and!; [done..|].
  rewrite formed_of_snoc, Hc, length_formed_of. do 3 f_equal.
  unfold keys_of. rewrite <- list_fmap_compose. cbn [edges].
  apply list_fmap_ext. by intros _ [a b] _.
Qed.

Lemma replay_matches_fields st st' steps :
  ap st' = ap st → bridges st' = bridges st → components st' = components st →
  replay_matches (st, steps) → replay_matches (st', steps).
Proof. intros Ha Hb Hc. unfold replay_matches. cbn. by rewrite Ha, Hb, Hc. Qed.

Lemma replay_matches_close_component u v ss :
  replay_matches ss → replay_matches (Traced.close_component u v ss).
Proof.
  destruct ss as [st steps]. intros HK. unfold Traced.close_component.
  cbn [fst snd]. destruct (pop_until u v (edgeStack st) [] []) as [[es vs] rest].
  destruct es as [|e es].
  - by eapply replay_matches_fields.
  - by apply replay_matches_pop.
Qed.

Lemma replay_matches_close_root ss :
  replay_matches ss → replay_matches (Traced.close_root ss).
Proof.
  destruct ss as [st steps]. intros HK. unfold Traced.close_root.
  cbn [fst snd]. destruct (edgeStack st) as [|e0 stack]; [done|].
  destruct (pop_all (e0 :: stack) [] []) as [es vs].
  destruct es as [|e es].
  - by eapply replay_matches_fields.
  - by apply replay_matches_pop.
Qed.

Lemma replay_matches_after_child u v c ss :
  replay_matches ss →
  replay_matches
    (Traced.close_block u v
       (Traced.mark_bridge u v
          (Traced.mark_cut u v
             (Traced.mark_root u c (Traced.relax_child u v ss))))).
Proof.
  intros HK.
  assert (replay_matches (Traced.relax_child u v ss)) as H1.
  { unfold Traced.relax_child. by apply replay_matches_other. }
  assert (replay_matches (Traced.mark_root u c (Traced.relax_child u v ss)))
    as H2.
  { unfold Traced.mark_root. destruct (_ && _); [|done].
    by apply replay_matches_markAP. }
  assert (replay_matches
            (Traced.mark_cut u v
               (Traced.mark_root u c (Traced.relax_child u v ss)))) as H3.
  { unfold Traced.mark_cut. destruct (_ && _); [|done].
    by apply replay_matches_markAP. }
  assert (replay_matches
            (Traced.mark_bridge u v
               (Traced.mark_cut u v
                  (Traced.mark_root u c (Traced.relax_child u v ss))))) as H4.
  { unfold Traced.mark_bridge. destruct (Js.gt _ _); [|done].
    by apply replay_matches_markBridge. }
  unfold Traced.close_block. destruct (Js.ge _ _); [|done].
  by apply replay_matches_close_component.
Qed.

Lemma replay_matches_run g fuel ss :
  analyzeWithSteps_state fuel g = Done ss → replay_matches ss.
Proof.
  intros Hrun.
  destruct (init_state g) as [st|] eqn:Hinit; cycle 1.
  { unfold analyzeWithSteps_state in Hrun. by rewrite Hinit in Hrun. }
  apply (traced_run g replay_matches (λ _ _, True) fuel st ss);
    try done.
  - intros u s HK _ _. split; [|done]. unfold Traced.enter_step.
    by apply replay_matches_other.
  - intros u v s HK _ _ _ _. split; [|done]. unfold Traced.push_edge_step.
    apply replay_matches_other; [done..|].
    destruct s as [st0 steps]. by eapply replay_matches_fields.
  - intros u v c s s2 _ _ _ HK _. split; [|done].
    by apply replay_matches_after_child.
  - intros u v s HK _ _ _. split; [|done]. unfold Traced.relax_back.
    apply replay_matches_other; [done..|]. unfold Traced.push_edge_step.
    by apply replay_matches_other.
  - apply replay_matches_close_root.
  - revert Hinit. unfold init_state. repeat case_match; try done.
    by intros [= <-].
Qed.

End ReplayEnd.

(** X17. The replay of the whole trace shows the result. When
    [analyzeWithSteps] returns, [applyStepsUpTo] at the last step has
    collected the articulation points of the result, in the same order, its
    bridges, in the same order, and one formed component per component of
    the result: the [k]-th carries the index [k], the keys of the edges of
    the [k]-th component and the colour [colorForIndex(k)] under which the
    components list shows it. *)
Theorem replay_of_trace_shows_result (g : Graph) (r : Result) (steps : list Step) :
  analyzeWithSteps g = Done (r, steps) →
  let rp := applyStepsUpTo steps (Z.of_nat (length steps) - 1) in
  aps rp = articulationPoints r ∧
  rp_bridges rp = r_bridges r ∧
  formedComps rp = formed_of (r_components r).
Proof.
  unfold analyzeWithSteps, analyzeWithSteps_fuel.
  destruct (analyzeWithSteps_state _ g) as [ss| |] eqn:Hrun; try done.
  intros [= <- <-]. apply replay_matches_run in Hrun as (Ha & Hb & Hc).
  cbv zeta. rewrite applyStepsUpTo_take, firstn_all by done.
  by cbn [result_of articulationPoints r_bridges r_components].
Qed.

(** X17 on the triangle with a tail. *)
Lemma replay_of_trace_shows_result_witness :
  ∃ r steps,
    analyzeWithSteps graph_triangle_tail = Done (r, steps) ∧
    aps (applyStepsUpTo steps (Z.of_nat (length steps) - 1))
    = articulationPoints r ∧
    rp_bridges (applyStepsUpTo steps (Z.of_nat (length steps) - 1))
    = r_bridges r ∧
    formedComps (applyStepsUpTo steps (Z.of_nat (length steps) - 1))
    = formed_of (r_components r).
Proof.
  eexists _, _. split; [vm_compute; reflexivity|].
  refine (replay_of_trace_shows_result graph_triangle_tail _ _ _).
  vm_compute. reflexivity.
Defined.

(** ** The result holds nothing that is not of the graph *)

Section Soundness.

Context (g : Graph) (P : list Z).

Local Notation shape ce cv :=
  (NoDup cv ∧ ∀ x : Z, x ∈ cv ↔ ∃ e : Z * Z, e ∈ ce ∧ (x = e.1 ∨ x = e.2)).

Lemma shape_push (ce : list (Z * Z)) (cv : list Z) e :
  shape ce cv → shape (ce ++ [e]) (JsSet.add e.2 (JsSet.add e.1 cv)).
Proof.
  intros [Hnd Hiff]. split; [by do 2 apply NoDup_JsSet_add|].
  intros x. rewrite !JsSet_elem_of_add, Hiff. split.
  - intros [->|[->|(e0 & He0 & Hx)]].
    + exists e. rewrite elem_of_app, list_elem_of_singleton. auto.
    + exists e. rewrite elem_of_app, list_elem_of_singleton. auto.
    + exists e0. rewrite elem_of_app. auto.
  - intros (e0 & [He0| ->%list_elem_of_singleton]%elem_of_app & Hx);
      [eauto 6|tauto].
Qed.

Lemma pop_until_shape u v stack (ce : list (Z * Z)) (cv : list Z) :
  shape ce cv →
  shape (pop_until u v stack ce cv).1.1 (pop_until u v stack ce cv).1.2.
Proof.
  revert ce cv. induction stack as [|e stack IH]; intros ce cv Hs; [done|].
  cbn [pop_until]. case_bool_decide.
  - by apply shape_push.
  - by apply IH, shape_push.
Qed.

Lemma pop_all_shape stack (ce : list (Z * Z)) (cv : list Z) :
  shape ce cv → shape (pop_all stack ce cv).1 (pop_all stack ce cv).2.
Proof.
  revert ce cv. induction stack as [|e stack IH]; intros ce cv Hs; [done|].
  cbn [pop_all]. by apply IH, shape_push.
Qed.

Lemma shape_nil : shape (@nil (Z * Z)) (@nil Z).
Proof.
  split; [apply NoDup_nil_2|]. intros x. split; [by intros ?%elem_of_nil|].
  by intros (e & ?%elem_of_nil & _).
Qed.

Lemma close_component_shaped u v st :
  Forall comp_shaped (components st) →
  Forall comp_shaped (components (close_component u v st)).
Proof.
  intros Hall. unfold close_component.
  pose proof (pop_until_shape u v (edgeStack st) [] [] shape_nil) as Hs.
  destruct (pop_until u v (edgeStack st) [] []) as [[ce cv] rest].
  cbn [fst snd] in Hs. cbn [components]. destruct ce as [|e ce]; [done|].
  apply Forall_app. split; [done|]. apply Forall_singleton.
  split; [done|]. exact Hs.
Qed.

Lemma close_root_shaped st :
  Forall comp_shaped (components st) →
  Forall comp_shaped (components (close_root st)).
Proof.
  intros Hall. unfold close_root. destruct (edgeStack st) as [|e0 stack]; [done|].
  pose proof (pop_all_shape (e0 :: stack) [] [] shape_nil) as Hs.
  destruct (pop_all (e0 :: stack) [] []) as [ce cv].
  cbn [fst snd] in Hs. cbn [components]. destruct ce as [|e ce]; [done|].
  apply Forall_app. split; [done|]. apply Forall_singleton.
  split; [done|]. exact Hs.
Qed.

Lemma close_component_fields u v st :
  ap (close_component u v st) = ap st ∧
  bridges (close_component u v st) = bridges st.
Proof.
  unfold close_component.
  by destruct (pop_until u v (edgeStack st) [] []) as [[ce cv] rest].
Qed.

Lemma close_root_fields st :
  ap (close_root st) = ap st ∧ bridges (close_root st) = bridges st.
Proof.
  unfold close_root. destruct (edgeStack st) as [|e0 stack]; [done|].
  by destruct (pop_all (e0 :: stack) [] []) as [ce cv].
Qed.

(** A change of the state that only reorders the pushed edges, adds
    at most the present node [u] to the articulation points and at most
    a pushed edge to the bridges, and keeps the components shaped. *)
Lemma sound_state_step st st' u (b : Z * Z) :
  (∀ e, e ∈ pushed_so_far st' ↔ e ∈ pushed_so_far st) →
  (ap st' = ap st ∨ (ap st' = JsSet.add u (ap st) ∧ u ∈ P)) →
  (bridges st' = bridges st
   ∨ (bridges st' = bridges st ++ [b] ∧ b ∈ pushed_so_far st)) →
  (Forall comp_shaped (components st) → Forall comp_shaped (components st')) →
  sound_state g P st → sound_state g P st'.
Proof.
  intros Hp Ha Hb Hc (H1 & H2 & H3 & H4 & H5). split_and!.
  - intros x y. rewrite Hp. apply H1.
  - intros e. rewrite Hp. destruct Hb as [->|[-> Hin]]; [apply H2|].
    rewrite elem_of_app, list_elem_of_singleton. intros [?| ->]; auto.
  - intros a. destruct Ha as [->|[-> Hu]]; [apply H3|].
    rewrite JsSet_elem_of_add. intros [->|?]; auto.
  - destruct Ha as [->|[-> _]]; [done|]. by apply NoDup_JsSet_add.
  - by apply Hc.
Qed.

Lemma sound_state_push st u v :
  u ∈ P → v ∈ P → adjacent g u v →
  sound_state g P st → sound_state g P (push_edge u v st).
Proof.
  intros Hu Hv Huv (H1 & H2 & H3 & H4 & H5).
  assert (∀ e, e ∈ pushed_so_far (push_edge u v st)
               ↔ e = (u, v) ∨ e ∈ pushed_so_far st) as Hp.
  { intros e. unfold pushed_so_far. cbn [push_edge edgeStack components].
    by rewrite <- app_comm_cons, elem_of_cons. }
  split_and!; try done.
  - intros x y [[= -> ->]|Hin]%Hp; [done|by apply H1].
  - intros b Hb. apply Hp. right. by apply H2.
Qed.

End Soundness.

Section SoundRun.

Context (g : Graph).

Local Notation P := (nodesPresent_of g).

Lemma after_child_forget u v c ss :
  (Traced.close_block u v
     (Traced.mark_bridge u v
        (Traced.mark_cut u v
           (Traced.mark_root u c (Traced.relax_child u v ss))))).1
  = Plain.close_block u v
      (Plain.mark_bridge u v
         (Plain.mark_cut u v
            (Plain.mark_root u c (Plain.relax_child u v ss.1)))).
Proof.
  by rewrite close_block_forget, mark_bridge_forget, mark_cut_forget,
    mark_root_forget, relax_child_forget.
Qed.

Lemma sound_after_child u v c st :
  u ∈ P → (u, v) ∈ pushed_so_far st → sound_state g P st →
  sound_state g P
    (Plain.close_block u v
       (Plain.mark_bridge u v
          (Plain.mark_cut u v
             (Plain.mark_root u c (Plain.relax_child u v st))))).
Proof.
  intros Hu Huv Hs.
  set (s1 := Plain.relax_child u v st).
  set (s2 := Plain.mark_root u c s1).
  set (s3 := Plain.mark_cut u v s2).
  set (s4 := Plain.mark_bridge u v s3).
  assert (sound_state g P s1) as H1.
  { apply (sound_state_step g P st s1 u (u, v)); try done; by left. }
  assert (sound_state g P s2) as H2.
  { apply (sound_state_step g P s1 s2 u (u, v)); try done.
    - subst s2. unfold Plain.mark_root. by destruct (_ && _).
    - subst s2. unfold Plain.mark_root. destruct (_ && _); [by right|by left].
    - subst s2. unfold Plain.mark_root. destruct (_ && _); by left.
    - subst s2. unfold Plain.mark_root. by destruct (_ && _). }
  assert (sound_state g P s3) as H3.
  { apply (sound_state_step g P s2 s3 u (u, v)); try done.
    - subst s3. unfold Plain.mark_cut. by destruct (_ && _).
    - subst s3. unfold Plain.mark_cut. destruct (_ && _); [by right|by left].
    - subst s3. unfold Plain.mark_cut. destruct (_ && _); by left.
    - subst s3. unfold Plain.mark_cut. by destruct (_ && _). }
  assert (∀ e, e ∈ pushed_so_far s3 ↔ e ∈ pushed_so_far st) as Hp3.
  { intros e. subst s3 s2 s1. unfold Plain.mark_cut, Plain.mark_root.
    by destruct (negb _ && _); destruct (_ && _). }
  assert (sound_state g P s4) as H4.
  { apply (sound_state_step g P s3 s4 u (u, v)); try done.
    - subst s4. unfold Plain.mark_bridge. by destruct (Js.gt _ _).
    - subst s4. unfold Plain.mark_bridge. destruct (Js.gt _ _); by left.
    - subst s4. unfold Plain.mark_bridge.
      destruct (Js.gt _ _); [right|by left]. split; [done|]. by apply Hp3.
    - subst s4. unfold Plain.mark_bridge. by destruct (Js.gt _ _). }
  unfold Plain.close_block. destruct (Js.ge _ _); [|done].
  apply (sound_state_step g P s4 _ u (u, v)); try done.
  - intros e. apply elem_of_pushed_same_core, same_core_close_component.
  - left. apply close_component_fields.
  - left. apply close_component_fields.
  - apply close_component_shaped.
Qed.

Lemma pushed_after_child u v c st e :
  e ∈ pushed_so_far
        (Plain.close_block u v
           (Plain.mark_bridge u v
              (Plain.mark_cut u v
                 (Plain.mark_root u c (Plain.relax_child u v st)))))
  ↔ e ∈ pushed_so_far st.
Proof. apply elem_of_pushed_same_core, same_core_after_child. Qed.

(** The state [analyzeWithSteps] ends in holds nothing that is not of
    the graph, and its edge stack is empty. *)
Lemma sound_run fuel ss :
  analyzeWithSteps_state fuel g = Done ss → sound_state g P ss.1.
Proof.
  intros Hrun.
  destruct (init_state g) as [st|] eqn:Hinit; cycle 1.
  { unfold analyzeWithSteps_state in Hrun. by rewrite Hinit in Hrun. }
  apply (traced_run g (λ ss, sound_state g P ss.1) pushed_grows fuel st ss);
    try done.
  - by intros ss0 e.
  - intros a b c Hab Hbc e He. by apply Hbc, Hab.
  - intros u s HK _ _. split; [|by intros e].
    apply (sound_state_step g P s.1 _ u (u, u)); try done; by left.
  - intros u v s HK Hu Hv Huv _. cbv zeta. split.
    + by apply (sound_state_push g P (set_parent v u s.1) u v).
    + intros e He. unfold pushed_so_far in *. cbn. by right.
  - intros u v c s s2 Hu Hv Huv HK HR. cbv zeta.
    rewrite after_child_forget.
    assert ((u, v) ∈ pushed_so_far s2.1) as Hin.
    { apply HR. unfold pushed_so_far. cbn. by left. }
    split; [by apply sound_after_child|].
    intros e He. unfold pushed_grows. rewrite after_child_forget.
    by apply pushed_after_child.
  - intros u v s HK Hu Hv Huv. cbv zeta. split.
    + apply (sound_state_step g P (push_edge u v s.1) _ u (u, u));
        try done; try by left.
      by apply sound_state_push.
    + intros e He. unfold pushed_so_far in *. cbn. by right.
  - intros s HK. rewrite close_root_forget.
    apply (sound_state_step g P s.1 _ 0 (0, 0)); try done.
    + intros e. apply elem_of_pushed_same_core, same_core_close_root.
    + left. apply close_root_fields.
    + left. apply close_root_fields.
    + apply close_root_shaped.
  - revert Hinit. unfold init_state. repeat case_match; try done.
    intros [= <-]. split_and!; cbn; try (by intros ? ?%elem_of_nil);
      try (by intros ? ? ?%elem_of_nil); [apply NoDup_nil_2|done].
Qed.

Lemma stack_empty_run fuel ss :
  analyzeWithSteps_state fuel g = Done ss → edgeStack ss.1 = [].
Proof.
  unfold analyzeWithSteps_state.
  destruct (init_state g) as [st|] eqn:Hinit; [|done].
  destruct (for_each _ _ _) as [s|] eqn:Hrun; [|done]. intros [= <-].
  apply (for_each_preserves (λ s : Traced.SState, edgeStack s.1 = [])) in Hrun;
    [done| |].
  - intros n s0 s1 Hs0. unfold Traced.visit_root.
    destruct (Js.seq _ _); [|by intros [= <-]].
    destruct (Traced.dfs _ _ _ _ _) as [s2|]; [|done].
    intros [= <-]. rewrite close_root_forget. apply edgeStack_close_root.
  - revert Hinit. unfold init_state. repeat case_match; try done.
    by intros [= <-].
Qed.

(** The same of the result of [analyze]. *)
Lemma analyze_sound r :
  analyze g = Done r →
  ∃ st, r = result_of st ∧ sound_state g P st ∧ edgeStack st = [].
Proof.
  unfold analyze. rewrite analyze_fuel_traced.
  destruct (analyzeWithSteps_state _ g) as [ss| |] eqn:Hrun; try done.
  intros [= <-]. exists ss.1. split; [done|].
  split; [by eapply sound_run|by eapply stack_empty_run].
Qed.

End SoundRun.

(** X18. The components [analyze] returns are well shaped, for every graph:
    each has at least one edge, each of its edges joins two nodes of the
    graph that are neighbours in the adjacency index, and its vertex list
    holds the endpoints of its edges, each exactly once. *)
Theorem analyze_components_shaped (g : Graph) (r : Result) :
  analyze g = Done r →
  ∀ c, c ∈ r_components r →
       edges c ≠ [] ∧ NoDup (verts c) ∧
       (∀ x, x ∈ verts c ↔ ∃ e, e ∈ edges c ∧ (x = e.1 ∨ x = e.2)) ∧
       (∀ e, e ∈ edges c →
             e.1 ∈ node_ids g ∧ e.2 ∈ node_ids g ∧ adjacent g e.1 e.2).
Proof.
  intros (st & -> & (Hedge & _ & _ & _ & Hshape) & Hstack)%analyze_sound c Hc.
  cbn [result_of r_components] in Hc. rewrite Forall_forall in Hshape.
  destruct (Hshape c Hc) as (Hne & Hnd & Hverts). split_and!; [done..|].
  intros [x y] He. cbn [fst snd].
  destruct (Hedge x y) as (Hx & Hy & Hxy).
  - unfold pushed_so_far. rewrite Hstack. cbn [app].
    apply elem_of_concat. exists (edges c). split; [done|].
    by apply list_elem_of_fmap_2.
  - by rewrite <- !elem_of_nodesPresent.
Qed.

(** X18 on the triangle with a tail. *)
Lemma analyze_components_shaped_witness :
  ∃ r, analyze graph_triangle_tail = Done r ∧
       ∀ c, c ∈ r_components r →
            edges c ≠ [] ∧ NoDup (verts c) ∧
            (∀ x, x ∈ verts c ↔ ∃ e, e ∈ edges c ∧ (x = e.1 ∨ x = e.2)) ∧
            (∀ e, e ∈ edges c →
                  e.1 ∈ node_ids graph_triangle_tail
                  ∧ e.2 ∈ node_ids graph_triangle_tail
                  ∧ adjacent graph_triangle_tail e.1 e.2).
Proof.
  eexists. split; [vm_compute; reflexivity|].
  refine (analyze_components_shaped graph_triangle_tail _ _).
  vm_compute. reflexivity.
Defined.

(** X19. The bridges and articulation points [analyze] returns are of the
    graph, for every graph: every bridge is an edge of one of the returned
    components, in the orientation the component holds it in; every
    articulation point is a node; and no articulation point is listed
    twice. *)
Theorem analyze_marks_sound (g : Graph) (r : Result) :
  analyze g = Done r →
  (∀ b, b ∈ r_bridges r → ∃ c, c ∈ r_components r ∧ b ∈ edges c) ∧
  (∀ a, a ∈ articulationPoints r → a ∈ node_ids g) ∧
  NoDup (articulationPoints r).
Proof.
  intros (st & -> & (_ & Hbr & Hap & Hnd & _) & Hstack)%analyze_sound.
  cbn [result_of r_bridges r_components articulationPoints]. split_and!.
  - intros b Hb%Hbr. unfold pushed_so_far in Hb. rewrite Hstack in Hb.
    cbn [app] in Hb. apply elem_of_concat in Hb as (l & Hb & Hl).
    apply list_elem_of_fmap in Hl as (c & -> & Hc). eauto.
  - intros a Ha%Hap. by apply elem_of_nodesPresent.
  - done.
Qed.

(** X19 on the triangle with a tail. *)
Lemma analyze_marks_sound_witness :
  ∃ r, analyze graph_triangle_tail = Done r ∧
       (∀ b, b ∈ r_bridges r → ∃ c, c ∈ r_components r ∧ b ∈ edges c) ∧
       (∀ a, a ∈ articulationPoints r → a ∈ node_ids graph_triangle_tail) ∧
       NoDup (articulationPoints r).
Proof.
  eexists. split; [vm_compute; reflexivity|].
  refine (analyze_marks_sound graph_triangle_tail _ _).
  vm_compute. reflexivity.
Defined.

(** ** Every node is visited once *)

Section Visits.

Lemma visit_steps_snoc steps s :
  visit_steps (steps ++ [s])
  = visit_steps steps ++ (if is_visit s then [s] else []).
Proof.
  unfold visit_steps. rewrite filter_app. f_equal.
  destruct (is_visit s) eqn:Hs.
  - by rewrite filter_cons_True.
  - by rewrite filter_cons_False by congruence.
Qed.

Lemma visited_in_snoc steps s :
  visited_in (steps ++ [s])
  = visited_in steps ++ match s with Visit u _ _ => [u] | _ => [] end.
Proof. unfold visited_in. rewrite omap_app. f_equal. by destruct s. Qed.

Lemma stamped_snoc order u :
  stamped (order ++ [u])
  = stamped order
    ++ [Visit u (Some (Z.of_nat (length order) + 1))
                (Some (Z.of_nat (length order) + 1))].
Proof. unfold stamped. rewrite imap_app. cbn [imap]. by rewrite Nat.add_0_r. Qed.

Lemma no_visit_refl ss : no_visit ss ss.
Proof. done. Qed.

Lemma no_visit_trans a b c : no_visit a b → no_visit b c → no_visit a c.
Proof.
  intros (H1 & H2 & H3 & H4) (H1' & H2' & H3' & H4').
  split_and!; congruence.
Qed.

Lemma no_visit_pushStep s (f : TState → TState) ss :
  is_visit s = false →
  (∀ st, disc (f st) = disc st ∧ time (f st) = time st) →
  no_visit ss (Traced.pushStep s (Traced.on_state f ss)).
Proof.
  intros Hs Hf. destruct (Hf ss.1) as [Hd Ht].
  unfold no_visit, Traced.pushStep, Traced.on_state. cbn [fst snd].
  rewrite visit_steps_snoc, visited_in_snoc, Hs, app_nil_r.
  split_and!; [done| |done..]. destruct s; try done; by rewrite app_nil_r.
Qed.

Lemma no_visit_close_component u v ss :
  no_visit ss (Traced.close_component u v ss).
Proof.
  destruct ss as [st steps]. unfold Traced.close_component. cbn [fst snd].
  destruct (pop_until u v (edgeStack st) [] []) as [[es vs] rest].
  destruct es as [|e es]; [done|].
  unfold no_visit, Traced.pushStep. cbn [fst snd].
  by rewrite visit_steps_snoc, visited_in_snoc, !app_nil_r.
Qed.

Lemma no_visit_close_root ss : no_visit ss (Traced.close_root ss).
Proof.
  destruct ss as [st steps]. unfold Traced.close_root. cbn [fst snd].
  destruct (edgeStack st) as [|e0 stack]; [done|].
  destruct (pop_all (e0 :: stack) [] []) as [es vs].
  destruct es as [|e es]; [done|].
  unfold no_visit, Traced.pushStep. cbn [fst snd].
  by rewrite visit_steps_snoc, visited_in_snoc, !app_nil_r.
Qed.

Lemma no_visit_after_child u v c ss :
  no_visit ss
    (Traced.close_block u v
       (Traced.mark_bridge u v
          (Traced.mark_cut u v
             (Traced.mark_root u c (Traced.relax_child u v ss))))).
Proof.
  eapply no_visit_trans; [|unfold Traced.close_block; destruct (Js.ge _ _);
                           [apply no_visit_close_component|apply no_visit_refl]].
  eapply no_visit_trans; [|unfold Traced.mark_bridge; destruct (Js.gt _ _);
                           [by apply no_visit_pushStep|apply no_visit_refl]].
  eapply no_visit_trans; [|unfold Traced.mark_cut; destruct (_ && _);
                           [by apply no_visit_pushStep|apply no_visit_refl]].
  eapply no_visit_trans; [|unfold Traced.mark_root; destruct (_ && _);
                           [by apply no_visit_pushStep|apply no_visit_refl]].
  unfold Traced.relax_child. by apply no_visit_pushStep.
Qed.

Context (P : list Z) (bound : Z).

Lemma visits_match_no_visit ss ss' :
  no_visit ss ss' → visits_match P bound ss → visits_match P bound ss'.
Proof.
  intros (H1 & H2 & H3 & H4) (K1 & K2 & K3 & K4 & K5 & K6).
  unfold visits_match, discovered in *. rewrite H1, H2, H3, H4. done.
Qed.

Lemma visits_match_enter u ss :
  visits_match P bound ss → u ∈ P → disc ss.1 !! u = Some (-1) →
  visits_match P bound (Traced.enter_step u ss).
Proof.
  intros (K1 & K2 & K3 & K4 & K5 & K6) Hu Hd.
  assert (u ∉ visited_in ss.2) as Hfresh.
  { intros (d & Hd' & Hne)%K4. congruence. }
  unfold visits_match, Traced.enter_step, Traced.pushStep, Traced.on_state.
  cbn [fst snd enter disc low time].
  rewrite visit_steps_snoc, visited_in_snoc, !lookup_insert_eq.
  cbn [is_visit]. rewrite stamped_snoc, length_app, K1, K2. cbn [length].
  split_and!.
  - done.
  - lia.
  - apply NoDup_app. split_and!; [done| |apply NoDup_singleton].
    intros x Hx ->%list_elem_of_singleton. done.
  - intros x. rewrite elem_of_app, list_elem_of_singleton, K4.
    unfold discovered, enter. cbn [disc].
    destruct (decide (x = u)) as [->|Hx].
    + split; [|auto]. intros _. eexists.
      rewrite lookup_insert_eq. split; [done|]. lia.
    + split.
      * intros [(d & Hd' & Hne)|?]; [|done]. exists d.
        by rewrite lookup_insert_ne.
      * intros (d & Hd' & Hne). left. exists d.
        by rewrite lookup_insert_ne in Hd'.
  - intros x. rewrite elem_of_app, list_elem_of_singleton.
    intros [?| ->]; auto.
  - intros i Hi. rewrite lookup_insert_is_Some'. auto.
Qed.

Lemma visited_enter u ss : u ∈ visited_in (Traced.enter_step u ss).2.
Proof.
  unfold Traced.enter_step, Traced.pushStep. cbn [snd].
  rewrite visited_in_snoc, elem_of_app, list_elem_of_singleton. by right.
Qed.

Context (g : Graph).

Local Notation grows :=
  (λ ss ss' : Traced.SState, ∀ x, x ∈ visited_in ss.2 → x ∈ visited_in ss'.2).

Lemma grows_no_visit (ss ss' : Traced.SState) : no_visit ss ss' → grows ss ss'.
Proof. intros (_ & H2 & _) x. by rewrite H2. Qed.

(** The call of [dfs] for a node that is not yet entered. *)
Lemma visits_dfs fuel u ss ss' :
  visits_match P bound ss → u ∈ P → disc ss.1 !! u = Some (-1) →
  Traced.dfs fuel g P u ss = Some ss' →
  visits_match P bound ss' ∧ grows ss ss' ∧ u ∈ visited_in ss'.2.
Proof.
  intros HK Hu Hd Hdfs.
  apply (traced_dfs_ind g P (visits_match P bound) grows) in Hdfs
    as (HK' & Hg & Hg'); try done.
  - split_and!; [done..|]. apply Hg', visited_enter.
  - intros a b c Hab Hbc x Hx. by apply Hbc, Hab.
  - intros w s Hs Hw Hdw. split; [by apply visits_match_enter|].
    intros x Hx. unfold Traced.enter_step, Traced.pushStep. cbn [snd].
    rewrite visited_in_snoc, elem_of_app. by left.
  - intros w v s Hs _ _ _ _.
    assert (no_visit s (Traced.push_edge_step w v false
                          (Traced.on_state (set_parent v w) s))) as Hnv.
    { unfold Traced.push_edge_step.
      eapply no_visit_trans; [|by apply no_visit_pushStep]. done. }
    split; [by eapply visits_match_no_visit|by apply grows_no_visit].
  - intros w v c s s2 _ _ _ Hs2 _.
    pose proof (no_visit_after_child w v c s2) as Hnv.
    split; [by eapply visits_match_no_visit|by apply grows_no_visit].
  - intros w v s Hs _ _ _.
    assert (no_visit s (Traced.relax_back w v
                          (Traced.push_edge_step w v true s))) as Hnv.
    { unfold Traced.relax_back, Traced.push_edge_step.
      eapply no_visit_trans; [|by apply no_visit_pushStep].
      by apply no_visit_pushStep. }
    split; [by eapply visits_match_no_visit|by apply grows_no_visit].
Qed.

Lemma visits_root fuel node ss ss' :
  visits_match P bound ss → n_id node ∈ P →
  Traced.visit_root fuel g P node ss = Some ss' →
  visits_match P bound ss' ∧ grows ss ss' ∧
  (0 ≤ n_id node < bound → n_id node ∈ visited_in ss'.2).
Proof.
  intros HK Hn. unfold Traced.visit_root.
  destruct (Js.seq _ _) eqn:Hseq.
  - apply bool_decide_eq_true in Hseq.
    destruct (Traced.dfs _ _ _ _ _) as [s|] eqn:Hdfs; [|done].
    intros [= <-]. apply visits_dfs in Hdfs as (HK' & Hg & Hin); [|done..].
    pose proof (no_visit_close_root s) as Hnv.
    split_and!.
    + by eapply visits_match_no_visit.
    + intros x Hx. by apply (grows_no_visit _ _ Hnv), Hg.
    + intros _. by apply (grows_no_visit _ _ Hnv).
  - intros [= <-]. split_and!; [done..|]. intros Hrange.
    destruct HK as (_ & _ & _ & K4 & _ & K6).
    destruct (K6 _ Hrange) as [d Hd]. apply K4. exists d. split; [done|].
    intros ->. apply bool_decide_eq_false in Hseq. done.
Qed.

Lemma visits_roots fuel (ns : list Node) ss ss' :
  (∀ n, n ∈ ns → n_id n ∈ P) → visits_match P bound ss →
  for_each (Traced.visit_root fuel g P) ns ss = Some ss' →
  visits_match P bound ss' ∧
  ∀ n, n ∈ ns → 0 ≤ n_id n < bound → n_id n ∈ visited_in ss'.2.
Proof.
  intros HP HK Hloop.
  apply (for_each_rest
           (λ rest s, (∀ n, n ∈ rest → n_id n ∈ P) ∧ visits_match P bound s ∧
                      ∀ n, n ∈ ns → 0 ≤ n_id n < bound →
                           n ∈ rest ∨ n_id n ∈ visited_in s.2)
           (Traced.visit_root fuel g P)) in Hloop.
  - destruct Hloop as (_ & HK' & Hall). split; [done|].
    intros n Hn Hr. destruct (Hall n Hn Hr) as [?%elem_of_nil|?]; done.
  - intros a rest s s' (HaP & Hs & Hall) Hstep.
    destruct (visits_root fuel a s s') as (Hs' & Hg & Ha);
      [done|apply HaP; by left|done|].
    split_and!; [intros n Hn; apply HaP; by right|done|].
    intros n Hn Hr. destruct (Hall n Hn Hr) as [[->|?]%elem_of_cons|?]; auto.
  - split_and!; [done..|]. intros n Hn _. by left.
Qed.

End Visits.

(** X20. Every node is visited once. In the steps [analyzeWithSteps]
    returns, no node has two [visit] steps and every [visit] step is for a
    node of the graph; the [k]-th [visit] step carries the number [k],
    counted from 1, as [disc] and as [low]; and every node whose id is an
    index of the arrays, at least 0 and below the allocator, has its
    [visit] step. *)
Theorem analyzeWithSteps_visits_once (g : Graph) (r : Result) (steps : list Step) :
  analyzeWithSteps g = Done (r, steps) →
  NoDup (visited_in steps) ∧
  (∀ u, u ∈ visited_in steps → u ∈ node_ids g) ∧
  visit_steps steps = stamped (visited_in steps) ∧
  (∀ u, u ∈ node_ids g → 0 ≤ u < nextId g → u ∈ visited_in steps).
Proof.
  unfold analyzeWithSteps, analyzeWithSteps_fuel, analyzeWithSteps_state.
  destruct (init_state g) as [st|] eqn:Hinit; [|done].
  destruct (for_each _ _ _) as [ss|] eqn:Hrun; [|done]. intros [= <- <-].
  apply (visits_roots (nodesPresent_of g) (nextId g)) in Hrun
    as ((K1 & K2 & K3 & K4 & K5 & K6) & Hall).
  - split_and!; [done| |done|].
    + intros u Hu%K5. by apply elem_of_nodesPresent.
    + intros u (n & -> & Hn)%list_elem_of_fmap Hr. by apply Hall.
  - intros n Hn. apply elem_of_nodesPresent. by apply list_elem_of_fmap_2.
  - revert Hinit. unfold init_state.
    destruct (Js.new_array (nextId g) (-1)) as [d|] eqn:Hd; [|done].
    destruct (Js.new_array (nextId g) 0) as [l|]; [|done].
    intros [= <-]. unfold visits_match, discovered. cbn.
    split_and!; try done; try apply NoDup_nil_2.
    + intros u. split; [by intros ?%elem_of_nil|].
      intros (d0 & Hu & Hne). exfalso. apply Hne.
      destruct (is_Some_new_array _ _ u d Hd); congruence.
    + by intros u ?%elem_of_nil.
    + intros i Hi. erewrite lookup_new_array; eauto.
Qed.

(** X20 on the triangle with a tail. *)
Lemma analyzeWithSteps_visits_once_witness :
  ∃ r steps,
    analyzeWithSteps graph_triangle_tail = Done (r, steps) ∧
    NoDup (visited_in steps) ∧
    (∀ u, u ∈ visited_in steps → u ∈ node_ids graph_triangle_tail) ∧
    visit_steps steps = stamped (visited_in steps) ∧
    (∀ u, u ∈ node_ids graph_triangle_tail →
          0 ≤ u < nextId graph_triangle_tail → u ∈ visited_in steps).
Proof.
  eexists _, _. split; [vm_compute; reflexivity|].
  refine (analyzeWithSteps_visits_once graph_triangle_tail _ _ _).
  vm_compute. reflexivity.
Defined.

(** ** The edge-to-component map *)

Section EdgeToComp.

Local Notation key := (λ e : Z * Z, edgeKey e.1 e.2).
Local Notation file :=
  (λ (m : list (string * nat)) (kv : string * nat), JsMap.set kv.1 kv.2 m).

Lemma build_edgeToComp_flat (cis : list (nat * Comp)) m :
  foldl (λ m ci, foldl (λ m e, JsMap.set (key e) ci.1 m) m (edges ci.2)) m cis
  = foldl file m
      (concat ((λ ci : nat * Comp, (λ e, (key e, ci.1)) <$> edges ci.2) <$> cis)).
Proof.
  revert m. induction cis as [|ci cis IH]; intros m; [done|].
  cbn [foldl fmap list_fmap concat]. rewrite foldl_app, IH. f_equal.
  by rewrite foldl_fmap.
Qed.

Lemma keys_indexed (f : nat → nat) comps :
  (concat (imap (λ i c, (λ e, (key e, f i)) <$> edges c) comps)).*1
  = key <$> concat (edges <$> comps).
Proof.
  revert f. induction comps as [|c comps IH]; intros f; [done|].
  cbn [imap concat fmap list_fmap]. rewrite !fmap_app. f_equal.
  - rewrite <- list_fmap_compose. by apply list_fmap_ext.
  - apply (IH (f ∘ S)).
Qed.

Lemma NoDup_fmap_coarser {A B C} (f : A → B) (h : A → C) (l : list A) :
  (∀ x y, h x = h y → f x = f y) → NoDup (f <$> l) → NoDup (h <$> l).
Proof.
  intros Hfh. induction l as [|x l IH]; cbn [fmap list_fmap];
    [intros _; apply NoDup_nil_2|].
  intros [Hx Hnd]%NoDup_cons. apply NoDup_cons. split; [|by apply IH].
  intros (y & Heq & Hy)%list_elem_of_fmap. apply Hx.
  apply list_elem_of_fmap. exists y. split; [by apply Hfh|done].
Qed.

(** Where no two component edges have the same key, the map is the list
    of the keys with their indices. *)
Lemma build_edgeToComp_indexed comps :
  NoDup (norm <$> concat (edges <$> comps)) →
  build_edgeToComp comps = indexed_keys comps ∧ NoDup (indexed_keys comps).*1.
Proof.
  intros Hnd.
  assert (NoDup (indexed_keys comps).*1) as Hkeys.
  { unfold indexed_keys. rewrite (keys_indexed id).
    eapply NoDup_fmap_coarser; [|exact Hnd].
    intros [a b] [c d] Heq. cbn [fst snd] in Heq. by apply edgeKey_norm. }
  split; [|done].
  pose proof (foldl_set_fresh id (indexed_keys comps) []) as Hf.
  rewrite list_fmap_id in Hf. specialize (Hf Hkeys).
  unfold build_edgeToComp. rewrite build_edgeToComp_flat, fmap_imap.
  exact Hf.
Qed.

Lemma elem_of_indexed_keys comps i c e :
  comps !! i = Some c → e ∈ edges c → (key e, i) ∈ indexed_keys comps.
Proof.
  intros Hi He. unfold indexed_keys. apply elem_of_concat.
  exists ((λ e, (key e, i)) <$> edges c). split.
  - by apply (list_elem_of_fmap_2 (λ e, (key e, i))).
  - by apply (elem_of_lookup_imap_2
                (λ i c, (λ e, (key e, i)) <$> edges c) comps c i).
Qed.

End EdgeToComp.

(** X21. The edge-to-component map of a result that [analyze] returned, on
    a graph that satisfies the invariants of the model and has no negative
    id: the map holds one entry per edge of every component, in the order
    of the components and of their edges, and looking up the key of an edge
    of the component with index [i] gives [i]. *)
Theorem analyze_edgeToComp (g : Graph) (r : Result) :
  graph_inv g → adj_sets g → ids_nonnegative g →
  analyze g = Done r →
  edgeToComp r = indexed_keys (r_components r) ∧
  ∀ i c e, r_components r !! i = Some c → e ∈ edges c →
           JsMap.get (edgeKey e.1 e.2) (edgeToComp r) = Some i.
Proof.
  intros Hinv Hsets Hpos Hdone.
  destruct (analyze_final_state g) as (st & Hrun & Hnd & _);
    [by apply traversable_of_inv|by eapply analyze_done_bounds|].
  rewrite Hdone in Hrun. injection Hrun as ->.
  destruct (build_edgeToComp_indexed (components st) Hnd) as [Hmap Hkeys].
  cbn [result_of edgeToComp r_components]. split; [done|].
  intros i c e Hi He. rewrite Hmap. apply JsMap_elem_get; [done|].
  by apply (elem_of_indexed_keys _ i c e).
Qed.

(** X21 on the triangle with a tail. *)
Lemma analyze_edgeToComp_witness :
  ∃ r, analyze graph_triangle_tail = Done r ∧
       edgeToComp r = indexed_keys (r_components r) ∧
       ∀ i c e, r_components r !! i = Some c → e ∈ edges c →
                JsMap.get (edgeKey e.1 e.2) (edgeToComp r) = Some i.
Proof.
  assert (∃ r, analyze graph_triangle_tail = Done r) as [r Hr]
    by (eexists; vm_compute; reflexivity).
  exists r. split; [exact Hr|].
  refine (analyze_edgeToComp graph_triangle_tail r _ _ _ Hr).
  - apply model_invb_spec. vm_compute. reflexivity.
  - apply model_invb_spec. vm_compute. reflexivity.
  - apply model_invb_spec. vm_compute. reflexivity.
Defined.

(** ** Graphs drawn in the page *)

Section Drawn.

(** Two undirected entries of a well-formed edge map that join the same
    pair are one entry. *)
Lemma undirected_entry_unique g k e k' e' :
  edges_inv g → (k, e) ∈ edgeMap g → (k', e') ∈ edgeMap g →
  e_directed e = false → e_directed e' = false →
  norm (ends e) = norm (ends e') → e = e' ∧ k = k'.
Proof.
  intros Hei Hin Hin' Hd Hd' Hn.
  pose proof (ei_order g Hei k e Hin Hd) as Ho.
  pose proof (ei_order g Hei k' e' Hin' Hd') as Ho'.
  assert (e = e') as ->.
  { destruct e as [a b d], e' as [a' b' d']. cbn in *. subst d d'.
    unfold ends, norm in Hn. cbn in Hn. injection Hn as Hmin Hmax.
    f_equal; lia. }
  split; [done|]. by rewrite (ei_key g Hei k e' Hin), (ei_key g Hei k' e' Hin').
Qed.

Lemma drawn_inv_empty : drawn_inv empty_graph.
Proof.
  split.
  - apply graph_inv_empty.
  - apply edges_inv_empty.
  - by intros k e ?%elem_of_nil.
  - by intros k e ?%elem_of_nil.
  - apply reachable_adj_sets. constructor.
Qed.

Lemma edges_adjacent_exec op g r g' :
  graph_inv g → edges_inv g → edges_adjacent g → all_undirected g →
  undirected_op op → names_node g op → exec op g = Returned r g' →
  edges_adjacent g' ∧ all_undirected g'.
Proof.
  intros Hinv Hei Hea Hun Hop Hnames Hexec.
  assert (g' = graph_after (exec op g)) as Hg' by by rewrite Hexec.
  destruct op as [x y|a b d|a b d|key|id|oldId newId|]; cbn in Hop.
  - rewrite graph_after_exec in Hg'. subst g'. split; [|done].
    intros k e Hin. apply adjacent_addNode.
    change ((k, e) ∈ edgeMap g) in Hin. split; [|by apply (Hea k)].
    destruct (ei_ends g Hei k e Hin) as (Ha & _).
    apply (inv_bound g Hinv) in Ha. lia.
  - subst d. cbn [exec] in Hexec.
    destruct (addEdge a b false g) as [r0 g0|] eqn:Hadd; [|done].
    injection Hexec as _ <-.
    destruct r0; [|by apply addEdge_false in Hadd as ->].
    destruct (addEdge_true _ _ _ _ _ Hadd) as (Hne & _ & _ & _ & Hem & _).
    pose proof (adjacent_addEdge a b false g true g0) as Hadj.
    cbv zeta in Hem. split.
    + intros k e. rewrite Hem, elem_of_app, list_elem_of_singleton.
      intros [Hin|[= -> ->]].
      * apply (proj2 (Hadj _ _ Hadd)). left. by eapply Hea.
      * apply (proj2 (Hadj _ _ Hadd)). right. split; [done|]. cbn [e_a e_b].
        destruct (Z.min_spec a b) as [[? ->]|[? ->]];
          destruct (Z.max_spec a b) as [[? ->]|[? ->]]; auto; lia.
    + intros k e. rewrite Hem, elem_of_app, list_elem_of_singleton.
      intros [Hin|[= -> ->]]; [by eapply Hun|done].
  - subst d. cbn [exec] in Hexec.
    destruct (deleteEdge a b false g) as [r0 g0|] eqn:Hdel; [|done].
    injection Hexec as _ <-.
    destruct r0; [|by apply deleteEdge_false in Hdel as ->].
    destruct (deleteEdge_true _ _ _ _ _ Hdel) as (Hem & _).
    pose proof (adjacent_deleteEdge a b false g true g0) as Hadj.
    cbv zeta in Hem. split.
    + intros k e. rewrite Hem. intros [Hin Hk]%elem_of_JsMap_delete.
      apply (proj2 (Hadj _ _ Hdel)). split; [by eapply Hea|].
      intros [_ Hpair]. apply Hk. cbn [fst].
      rewrite (ei_key g Hei k e Hin). f_equal.
      pose proof (ei_order g Hei k e Hin (Hun k e Hin)) as Ho.
      pose proof (Hun k e Hin) as Hd.
      destruct e as [ea eb ed]. cbn in *. subst ed.
      destruct Hpair as [[-> ->]|[-> ->]]; f_equal; lia.
    + intros k e. rewrite Hem. intros [Hin _]%elem_of_JsMap_delete.
      by eapply Hun.
  - rewrite graph_after_exec in Hg'. subst g'.
    destruct (deleteEdgeByKey_frame_edges key g) as [_ Hem]. split.
    + intros k e. rewrite Hem. intros [Hin Hk]%elem_of_JsMap_delete.
      apply adjacent_deleteEdgeByKey. split; [by eapply Hea|].
      intros (e0 & Hget & Hpair). apply Hk. cbn [fst].
      apply JsMap_get_elem in Hget.
      destruct (undirected_entry_unique g k e key e0) as [_ ->];
        try done; try by eapply Hun.
      unfold ends. destruct Hpair as [[-> ->]|[-> ->]]; [done|apply norm_swap].
    + intros k e. rewrite Hem. intros [Hin _]%elem_of_JsMap_delete.
      by eapply Hun.
  - rewrite graph_after_exec in Hg'. subst g'.
    assert (∀ kv, kv ∈ edgeMap (deleteNode id g).2 ↔
                  kv ∈ edgeMap g ∧ ¬ (e_a kv.2 = id ∨ e_b kv.2 = id)) as Hem.
    { intros kv. unfold deleteNode. cbn [snd edgeMap].
      rewrite list_elem_of_filter. tauto. }
    split.
    + intros k e [Hin Hid]%Hem. cbn [snd] in Hid.
      apply adjacent_deleteNode. split; [by eapply Hea|tauto].
    + intros k e [Hin _]%Hem. by eapply Hun.
  - rewrite graph_after_exec in Hg'. subst g'. cbn in Hnames.
    destruct (decide (oldId = newId ∨ newId ∈ node_ids g)) as [Hsame|Hren].
    { by rewrite renameNode_same. }
    assert (oldId ≠ newId) as Hne by tauto.
    assert (newId ∉ node_ids g) as Hnew by tauto.
    pose proof (graph_inv_renameNode oldId newId g Hinv Hnames) as Hinv'.
    pose proof (edgeMap_renameNode oldId newId g Hne Hnew Hei) as Hem. split.
    + intros k' e' Hin'. rewrite Hem in Hin'.
      apply list_elem_of_fmap in Hin' as ([k e] & [= -> ->] & Hin). cbn [snd].
      destruct (ei_ends g Hei k e Hin) as (Ha & Hb & _).
      pose proof (proj2 (adjacent_renamed oldId newId g Hinv Hne Hnew
                          _ _ Ha Hb) (Hea k e Hin)) as Hadj.
      unfold renamed. rewrite (Hun k e Hin). cbn [e_a e_b].
      destruct (Z.min_spec (rename_id oldId newId (e_a e))
                  (rename_id oldId newId (e_b e))) as [[? ->]|[? ->]];
        destruct (Z.max_spec (rename_id oldId newId (e_a e))
                    (rename_id oldId newId (e_b e))) as [[? ->]|[? ->]];
        try lia; try done; by apply (inv_sym _ Hinv').
    + intros k' e' Hin'. rewrite Hem in Hin'.
      apply list_elem_of_fmap in Hin' as ([k e] & [= -> ->] & Hin). cbn [snd].
      unfold renamed. by rewrite (Hun k e Hin).
  - rewrite graph_after_exec in Hg'. subst g'.
    split; by intros k e ?%elem_of_nil.
Qed.

Lemma drawn_inv_exec op g r g' :
  drawn_inv g → undirected_op op → names_node g op →
  exec op g = Returned r g' → drawn_inv g'.
Proof.
  intros [Hinv Hei Hea Hun Hsets] Hop Hnames Hexec.
  destruct (edges_adjacent_exec op g r g') as [Hea' Hun']; try done.
  split; [by eapply exec_graph_inv|by eapply exec_edges_inv|done..|].
  pose proof (exec_adj_sets op g Hsets) as Hs. by rewrite Hexec in Hs.
Qed.

Lemma drawn_drawn_inv g : drawn g → drawn_inv g.
Proof.
  induction 1 as [|op g r g' Hg IH Hop Hnames Hexact Hexec];
    [apply drawn_inv_empty|].
  by eapply drawn_inv_exec.
Qed.

(** A drawn graph meets the conditions under which [analyze] puts
    every edge in exactly one component. *)
Lemma drawn_inv_conditions g :
  drawn_inv g → edges_match_adjacency g ∧ edges_well_formed g.
Proof.
  intros [Hinv Hei Hea Hun Hsets]. split.
  - intros x y. rewrite adjacent_iff_entry by done. split.
    + intros ([k e] & Hin & He). exists (e_a e, e_b e). split.
      * unfold edges_of. apply list_elem_of_fmap. by exists (k, e).
      * cbn [snd] in He. symmetry in He. by apply norm_eq in He.
    + intros (e0 & (kv & -> & Hin)%list_elem_of_fmap & Hsame).
      exists kv. split; [done|]. symmetry. by apply norm_eq.
  - split.
    + intros e0 (kv & -> & Hin)%list_elem_of_fmap. cbn [fst snd].
      destruct kv as [k e]. by apply (ei_ends g Hei k e).
    + intros i j e0 e1 Hi Hj Hsame. unfold edges_of in Hi, Hj.
      rewrite list_lookup_fmap in Hi, Hj.
      destruct (edgeMap g !! i) as [[k e]|] eqn:Hki; [|done].
      destruct (edgeMap g !! j) as [[k' e']|] eqn:Hkj; [|done].
      cbn in Hi, Hj. injection Hi as <-. injection Hj as <-.
      pose proof (list_elem_of_lookup_2 _ _ _ Hki) as Hin.
      pose proof (list_elem_of_lookup_2 _ _ _ Hkj) as Hin'.
      destruct (undirected_entry_unique g k e k' e') as [_ ->];
        try done; try by eapply Hun.
      { by apply norm_eq. }
      apply (NoDup_lookup (edgeMap g).*1 i j k' (ei_nodup g Hei));
        by rewrite list_lookup_fmap, ?Hki, ?Hkj.
Qed.

End Drawn.

Section DrawnGraphs.

Lemma exact_succb_spec x : exact_succb x = true ↔ exact_succ x.
Proof. unfold exact_succb, exact_succ. apply bool_decide_eq_true. Qed.

Lemma drawn_step_exec op g g1 :
  drawn_step op g = Some g1 →
  ∃ r, undirected_op op ∧ names_node g op ∧ increments_exact g op ∧
       exec op g = Returned r g1.
Proof.
  unfold drawn_step. intros Hstep.
  destruct (exec op g) as [r g2|] eqn:Hexec;
    [|revert Hstep; by repeat case_match].
  exists r.
  assert (g2 = g1 ∧ undirected_op op ∧ names_node g op ∧ increments_exact g op)
    as (-> & Hop & Hn & Hex); [|done].
  destruct op as [x y|a b d|a b d|key|id|oldId newId|];
    cbn [undirected_op names_node increments_exact] in Hstep |- *.
  - destruct (exact_succb (nextId g)) eqn:Hx; [|done].
    apply exact_succb_spec in Hx. by injection Hstep as ->.
  - destruct d; [done|]. by injection Hstep as ->.
  - destruct d; [done|]. by injection Hstep as ->.
  - by injection Hstep as ->.
  - by injection Hstep as ->.
  - destruct (bool_decide (oldId ∈ node_ids g)) eqn:Hold; [|done].
    destruct (exact_succb newId) eqn:Hx; [|done].
    apply bool_decide_eq_true in Hold. apply exact_succb_spec in Hx.
    by injection Hstep as ->.
  - by injection Hstep as ->.
Qed.

Lemma drawn_session ops g g' :
  drawn g → for_each drawn_step ops g = Some g' → drawn g'.
Proof.
  apply (for_each_preserves drawn). clear g g'.
  intros op g g1 Hg (r & Hop & Hn & Hex & Hexec)%drawn_step_exec.
  by eapply drawn_exec.
Qed.

End DrawnGraphs.

(** X23. In a graph drawn in the page the adjacency index and the edge map
    tell the same edges. Whatever sequence of [addNode], undirected
    [addEdge] and [deleteEdge], [deleteEdgeByKey], [deleteNode],
    [renameNode] of a node and [clear] built it, with every call returning
    and every increment of an id exact (the allocator in [addNode] and the
    new id in [renameNode] from [-2^53] to [2^53 - 1]): every entry of the
    edge map is undirected, two nodes are neighbours exactly when an entry
    joins them, the endpoints of every entry are two different nodes, and
    no two entries join the same pair. *)
Theorem drawn_edges_match_adjacency (g : Graph) :
  drawn g →
  all_undirected g ∧ edges_match_adjacency g ∧ edges_well_formed g.
Proof.
  intros Hinv%drawn_drawn_inv.
  destruct (drawn_inv_conditions g Hinv). split_and!; [|done..].
  apply (di_undirected g Hinv).
Qed.

(** X23 on the triangle with a tail. *)
Lemma drawn_edges_match_adjacency_witness :
  all_undirected graph_triangle_tail ∧
  edges_match_adjacency graph_triangle_tail ∧
  edges_well_formed graph_triangle_tail.
Proof.
  refine (drawn_edges_match_adjacency graph_triangle_tail _).
  apply (drawn_session
           [OpAddNode 100 100; OpAddNode 200 100;
            OpAddNode 150 200; OpAddNode 150 300;
            OpAddEdge 0 1 false; OpAddEdge 1 2 false;
            OpAddEdge 2 0 false; OpAddEdge 2 3 false] empty_graph).
  - apply drawn_new.
  - vm_compute. reflexivity.
Defined.

(** X24. A result that [analyze] returns on a graph drawn in the page
    whose node ids are not negative holds every edge of the graph in
    exactly one component. *)
Theorem analyze_partitions_drawn (g : Graph) (r : Result) :
  drawn g → ids_nonnegative g → analyze g = Done r →
  ∀ e, e ∈ edges_of g →
       ∃ i c, r_components r !! i = Some c ∧ in_component e c ∧
              ∀ j c', r_components r !! j = Some c' →
                      in_component e c' → j = i.
Proof.
  intros Hdrawn Hpos Hrun.
  pose proof (drawn_drawn_inv g Hdrawn) as Hinv.
  destruct (drawn_inv_conditions g Hinv) as [Hmatch Hwf].
  apply analyze_partitions_returned; try done.
  - apply (di_graph g Hinv).
  - apply (di_sets g Hinv).
Qed.

(** X24 on the triangle with a tail. *)
Lemma analyze_partitions_drawn_witness :
  ∃ r, analyze graph_triangle_tail = Done r ∧
       ∀ e, e ∈ edges_of graph_triangle_tail →
            ∃ i c, r_components r !! i = Some c ∧ in_component e c ∧
                   ∀ j c', r_components r !! j = Some c' →
                           in_component e c' → j = i.
Proof.
  assert (∃ r, analyze graph_triangle_tail = Done r) as [r Hr]
    by (eexists; vm_compute; reflexivity).
  exists r. split; [exact Hr|].
  refine (analyze_partitions_drawn graph_triangle_tail r _ _ Hr).
  - apply (drawn_session
             [OpAddNode 100 100; OpAddNode 200 100;
              OpAddNode 150 200; OpAddNode 150 300;
              OpAddEdge 0 1 false; OpAddEdge 1 2 false;
              OpAddEdge 2 0 false; OpAddEdge 2 3 false] empty_graph).
    + apply drawn_new.
    + vm_compute. reflexivity.
  - apply model_invb_spec. vm_compute. reflexivity.
Defined.

Section Random.

Lemma for_each_app {A S : Type} (body : A → S → option S) l1 l2 s :
  for_each body (l1 ++ l2) s
  = match for_each body l1 s with
    | Some s' => for_each body l2 s'
    | None => None
    end.
Proof.
  revert s. induction l1 as [|a l1 IH]; intros s; [done|].
  cbn [app for_each]. destruct (body a s); [apply IH|done].
Qed.

Lemma for_each_bind {A B S : Type} (f : A → list B)
    (body : A → B → S → option S) l s :
  for_each (λ a, for_each (body a) (f a)) l s
  = for_each (λ p, body p.1 p.2) (a ← l; (λ b, (a, b)) <$> f a) s.
Proof.
  revert s. induction l as [|a l IH]; intros s; [done|].
  cbn [for_each mbind list_bind]. rewrite for_each_app, for_each_fmap.
  cbn [fst snd]. destruct (for_each (body a) (f a) s); [apply IH|done].
Qed.

Lemma elem_of_pairs_below n i j :
  (i, j) ∈ pairs_below n ↔ 0 ≤ i ∧ i < j ∧ j < n.
Proof.
  unfold pairs_below. rewrite list_elem_of_bind. split.
  - intros (i' & (j' & [= <- <-] & Hj)%list_elem_of_fmap & Hi).
    apply elem_of_seqZ in Hi, Hj. lia.
  - intros (? & ? & ?). exists i. split; [|apply elem_of_seqZ; lia].
    apply list_elem_of_fmap. exists j. split; [done|].
    apply elem_of_seqZ. lia.
Qed.

Lemma NoDup_pairs_below n : NoDup (pairs_below n).
Proof.
  unfold pairs_below. apply NoDup_bind.
  - intros i i' [a b] _ _ (? & [= -> ->] & _)%list_elem_of_fmap
      (? & [= -> _] & _)%list_elem_of_fmap. done.
  - intros i _. apply NoDup_fmap_2; [|apply NoDup_seqZ].
    by intros ?? [= ->].
  - apply NoDup_seqZ.
Qed.

(** The loop that creates the nodes. *)
Lemma add_nodes_spec {A : Type} (l : list A) g :
  let g' := foldl (λ g _, (addNode 100 100 g).2) g l in
  nodes g' = nodes g ++ ((λ i, mkNode (nextId g + Z.of_nat i) 100 100)
                           <$> seq 0 (length l)) ∧
  nextId g' = nextId g + Z.of_nat (length l) ∧
  edgeMap g' = edgeMap g ∧
  (drawn_inv g → drawn_inv g') ∧
  (∀ x y, adjacent g' x y → adjacent g x y).
Proof.
  revert g. induction l as [|a l IH]; intros g; cbn [foldl length seq].
  { cbn [fmap list_fmap]. rewrite app_nil_r. split_and!; [done|lia|done..]. }
  destruct (IH (addNode 100 100 g).2) as (Hn & Hi & He & Hd & Ha).
  cbv zeta. split_and!.
  - rewrite Hn. cbn [addNode snd nodes nextId fmap list_fmap].
    rewrite <- app_assoc. cbn [app]. do 2 f_equal; [f_equal; lia|].
    rewrite <- fmap_S_seq, <- list_fmap_compose.
    apply list_fmap_ext. intros _ i _. cbn. f_equal. lia.
  - rewrite Hi. cbn [addNode snd nextId]. lia.
  - by rewrite He.
  - intros Hg. apply Hd.
    by apply (drawn_inv_exec (OpAddNode 100 100) g (RId (nextId g))).
  - intros x y Hxy%Ha. by apply adjacent_addNode in Hxy as [_ ?].
Qed.

Lemma node_ids_place_nodes pos g : node_ids (place_nodes pos g) = node_ids g.
Proof.
  unfold node_ids, place_nodes. cbn [nodes]. rewrite fmap_imap.
  apply list_eq. intros i. rewrite list_lookup_imap, list_lookup_fmap.
  by destruct (nodes g !! i).
Qed.

Lemma drawn_inv_place_nodes pos g : drawn_inv g → drawn_inv (place_nodes pos g).
Proof.
  intros [[Hsym Hkeys Hirr Hbound] [Hnd Hkey Hord Hends Hback] Hea Hun Hsets].
  split; [split|split|done..]; try done.
  - intros a. rewrite node_ids_place_nodes. apply Hkeys.
  - intros i. rewrite node_ids_place_nodes. apply Hbound.
  - intros k e Hin. rewrite node_ids_place_nodes. by apply (Hends k).
Qed.

Lemma imap_fmap_seq {A B : Type} (f : nat → A → B) (h : nat → A) k :
  imap f (h <$> seq 0 k) = (λ i, f i (h i)) <$> seq 0 k.
Proof.
  apply list_eq. intros i.
  rewrite list_lookup_imap, !list_lookup_fmap.
  destruct (seq 0 k !! i) as [j|] eqn:Hj; [|done].
  apply lookup_seq in Hj as [-> _]. done.
Qed.

(** The graph before the edges are drawn. *)
Lemma placed_nodes_spec n pos :
  let g := place_nodes pos (add_nodes n empty_graph) in
  drawn_inv g ∧
  nodes g = (λ i, mkNode (Z.of_nat i) (pos i).1 (pos i).2)
            <$> seq 0 (Z.to_nat n) ∧
  nextId g = Z.max 0 n ∧ edgeMap g = [] ∧
  (∀ x y, ¬ adjacent g x y).
Proof.
  destruct (add_nodes_spec (seqZ 0 n) empty_graph) as (Hn & Hi & He & Hd & Ha).
  cbv zeta in *. fold (add_nodes n empty_graph) in *.
  rewrite length_seqZ in *. split_and!.
  - apply drawn_inv_place_nodes, Hd, drawn_inv_empty.
  - unfold place_nodes. cbn [nodes]. rewrite Hn. cbn [empty_graph nodes app nextId].
    rewrite imap_fmap_seq. apply list_fmap_ext. intros _ i _. cbn. f_equal.
  - cbn [place_nodes nextId]. rewrite Hi. cbn. lia.
  - cbn [place_nodes edgeMap]. by rewrite He.
  - intros x y Hxy. apply (Ha x y) in Hxy.
    unfold adjacent in Hxy. cbn in Hxy. by apply elem_of_nil in Hxy.
Qed.

(** An undirected edge between two nodes that are not neighbours is
    accepted. *)
Lemma addEdge_new_pair g a b :
  drawn_inv g → a ∈ node_ids g → b ∈ node_ids g → a ≠ b →
  ¬ adjacent g a b →
  ∃ g', addEdge a b false g = Returned true g'.
Proof.
  intros [Hinv Hei Hea Hun Hsets] Ha Hb Hne Hadj.
  apply (inv_keys g Hinv) in Ha as [sa Ha], Hb as [sb Hb].
  pose proof (addEdge_cases a b false g sa sb Ha Hb) as Hadd.
  cbv zeta in Hadd. rewrite decide_False in Hadd by done.
  set (e := mkEdge (Z.min a b) (Z.max a b) false) in *.
  change (edgeKey a b) with (key_of e) in Hadd.
  destruct (JsMap.has (key_of e) (edgeMap g)) eqn:Hhas; [|eauto].
  exfalso. apply entry_in_edgeMap in Hhas; [|done].
  apply Hea in Hhas. cbn [e e_a e_b] in Hhas. apply Hadj.
  destruct (Z.min_spec a b) as [[? Hmin]|[? Hmin]];
    destruct (Z.max_spec a b) as [[? Hmax]|[? Hmax]];
    rewrite Hmin, Hmax in Hhas; try lia; [done|].
  by apply (inv_sym g Hinv).
Qed.

(** The edges drawn for a list of pairs of nodes that are not yet
    joined. *)
Lemma draw_pairs coin ps :
  ∀ g, drawn_inv g → NoDup ps →
       (∀ a b, (a, b) ∈ ps →
               a ∈ node_ids g ∧ b ∈ node_ids g ∧ a < b ∧ ¬ adjacent g a b) →
       ∃ g', for_each (λ p, maybe_edge coin p.1 p.2) ps g = Some g' ∧
             drawn_inv g' ∧ nodes g' = nodes g ∧ nextId g' = nextId g ∧
             ∀ x y, adjacent g' x y ↔
                    adjacent g x y ∨
                    ∃ a b, (a, b) ∈ ps ∧ coin a b = true ∧
                           ((x = a ∧ y = b) ∨ (x = b ∧ y = a)).
Proof.
  induction ps as [|[a b] ps IH]; intros g Hg Hnd Hps; cbn [for_each].
  { exists g. split_and!; try done. intros x y. split; [by left|].
    intros [?|(? & ? & ?%elem_of_nil & _)]; done. }
  apply NoDup_cons in Hnd as [Hfresh Hnd].
  destruct (Hps a b) as (Ha & Hb & Hab & Hadj); [left|].
  assert (∃ g1, maybe_edge coin a b g = Some g1 ∧ drawn_inv g1 ∧
                nodes g1 = nodes g ∧ nextId g1 = nextId g ∧
                ∀ x y, adjacent g1 x y ↔
                       adjacent g x y ∨
                       (coin a b = true ∧ ((x = a ∧ y = b) ∨ (x = b ∧ y = a))))
    as (g1 & Hstep & Hg1 & Hn1 & Hi1 & Ha1).
  { unfold maybe_edge. destruct (coin a b) eqn:Hcoin.
    - destruct (addEdge_new_pair g a b) as [g1 Hadd]; [done..|lia|done|].
      rewrite Hadd. exists g1. split; [done|].
      destruct (addEdge_frame a b false g) as (Hn & Hi & _).
      rewrite Hadd in Hn, Hi. cbn [graph_after] in Hn, Hi.
      split_and!; [|done..|].
      + apply (drawn_inv_exec (OpAddEdge a b false) g (RBool true)); try done.
        cbn [exec]. by rewrite Hadd.
      + intros x y.
        destruct (adjacent_addEdge a b false g true g1 x y Hadd) as [_ ->].
        naive_solver.
    - exists g. split_and!; try done. naive_solver. }
  cbn [fst snd]. rewrite Hstep.
  destruct (IH g1) as (g' & Hrun & Hg' & Hn' & Hi' & Ha'); [done..| |].
  { intros a' b' Hin. destruct (Hps a' b') as (? & ? & ? & Hno); [by right|].
    unfold node_ids in *. rewrite Hn1. split_and!; try done.
    rewrite Ha1. intros [?|(_ & [[-> ->]|[-> ->]])]; [done|done|lia]. }
  exists g'. split; [done|]. split_and!; [done|congruence..|].
  intros x y. rewrite Ha', Ha1. split.
  - intros [[?|(? & ?)]|(a' & b' & Hin & ?)]; [by left|right..].
    + exists a, b. split; [left|done].
    + exists a', b'. split; [by right|done].
  - intros [?|(a' & b' & [[= -> ->]|Hin]%elem_of_cons & ?)].
    + by left; left.
    + left; right. done.
    + right. by exists a', b'.
Qed.

End Random.

Section RandomGraph.

Lemma node_ids_placed g n (pos : nat → Z * Z) :
  nodes g = (λ i, mkNode (Z.of_nat i) (pos i).1 (pos i).2)
            <$> seq 0 (Z.to_nat n) →
  node_ids g = seqZ 0 n.
Proof.
  intros Hn. unfold node_ids, seqZ. rewrite Hn, <- list_fmap_compose.
  apply list_fmap_ext. intros _ i _. cbn. lia.
Qed.

(** What [randomGraph] returns. *)
Lemma randomGraph_spec n pos coin :
  ∃ g, randomGraph n pos coin = Some g ∧ drawn_inv g ∧
       nodes g = (λ i, mkNode (Z.of_nat i) (pos i).1 (pos i).2)
                 <$> seq 0 (Z.to_nat n) ∧
       nextId g = Z.max 0 n ∧
       ∀ i j, i < j → adjacent g i j ↔ 0 ≤ i ∧ j < n ∧ coin i j = true.
Proof.
  unfold randomGraph.
  rewrite (for_each_bind (λ i, seqZ (i + 1) (n - (i + 1))) (maybe_edge coin)).
  fold (pairs_below n).
  destruct (placed_nodes_spec n pos) as (Hg0 & Hn0 & Hi0 & _ & Ha0).
  cbv zeta in *. set (g0 := place_nodes pos (add_nodes n empty_graph)) in *.
  pose proof (node_ids_placed g0 n pos Hn0) as Hids.
  destruct (draw_pairs coin (pairs_below n) g0)
    as (g & Hrun & Hg & Hn & Hi & Ha); [done|apply NoDup_pairs_below| |].
  { intros a b Hab%elem_of_pairs_below. rewrite Hids, !elem_of_seqZ.
    split_and!; [lia..|apply Ha0]. }
  exists g. split; [done|]. split_and!; [done|congruence..|].
  intros i j Hij. rewrite Ha. split.
  - intros [?%Ha0|(a & b & Hab%elem_of_pairs_below & Hc & Hxy)]; [done|].
    destruct Hxy as [[-> ->]|[-> ->]]; [|lia]. split_and!; [lia..|done].
  - intros (? & ? & ?). right. exists i, j.
    split; [apply elem_of_pairs_below; lia|]. split; [done|by left].
Qed.

(** A session of calls keeps what holds of a drawn graph. *)
Lemma session_drawn_inv ops g g' :
  drawn_inv g → for_each drawn_step ops g = Some g' → drawn_inv g'.
Proof.
  apply (for_each_preserves drawn_inv). clear g g'.
  intros op g g1 Hg (r & Hop & Hn & Hex & Hexec)%drawn_step_exec.
  by eapply drawn_inv_exec.
Qed.

End RandomGraph.

(** X25. [randomGraph(n, p)] never throws and returns a simple graph on the
    nodes 0, ..., n - 1: the node at place [i] has the id [i] and the
    position drawn for it, the allocator is [n] (0 for a negative [n]), the
    graph is well formed with a well-formed collection of undirected edges
    that tells the same edges as the adjacency index, and two nodes
    [i < j] are neighbours exactly when the number drawn for the pair was
    below [p]. *)
Theorem randomGraph_simple_graph (n : Z) (pos : nat → Z * Z) (coin : Z → Z → bool) :
  ∃ g, randomGraph n pos coin = Some g ∧
       nodes g = (λ i, mkNode (Z.of_nat i) (pos i).1 (pos i).2)
                 <$> seq 0 (Z.to_nat n) ∧
       nextId g = Z.max 0 n ∧
       graph_inv g ∧ edges_inv g ∧
       all_undirected g ∧ edges_match_adjacency g ∧ edges_well_formed g ∧
       ∀ i j, i < j → adjacent g i j ↔ 0 ≤ i ∧ j < n ∧ coin i j = true.
Proof.
  destruct (randomGraph_spec n pos coin) as (g & Hrun & Hg & Hn & Hi & Ha).
  exists g. destruct (drawn_inv_conditions g Hg) as [Hmatch Hwf].
  split_and!; try done.
  - apply (di_graph g Hg).
  - apply (di_edges g Hg).
  - apply (di_undirected g Hg).
Qed.

(** X26. What the page does to its random graph keeps the edges in step,
    and a result of the analysis is a partition. After [randomGraph] and
    any sequence of [addNode], undirected [addEdge] and [deleteEdge],
    [deleteEdgeByKey], [deleteNode], [renameNode] of a node and [clear],
    every call returning and every increment of an id exact (the allocator
    in [addNode] and the new id in [renameNode] from [-2^53] to
    [2^53 - 1]), every entry of the edge map is undirected, two nodes are
    neighbours exactly when an entry joins them, the endpoints of every
    entry are two different nodes and no two entries join the same pair;
    and when no id is negative, a result that [analyze] returns holds every
    edge of the graph in exactly one component. *)
Theorem analyze_partitions_random_session
    (n : Z) (pos : nat → Z * Z) (coin : Z → Z → bool) (ops : list Op)
    (g g' : Graph) :
  randomGraph n pos coin = Some g →
  for_each drawn_step ops g = Some g' →
  all_undirected g' ∧ edges_match_adjacency g' ∧ edges_well_formed g' ∧
  ∀ r, ids_nonnegative g' → analyze g' = Done r →
       ∀ e, e ∈ edges_of g' →
            ∃ i c, r_components r !! i = Some c ∧ in_component e c ∧
                   ∀ j c', r_components r !! j = Some c' →
                           in_component e c' → j = i.
Proof.
  intros Hrandom Hsession.
  destruct (randomGraph_spec n pos coin) as (g0 & Hrun & Hg & _).
  rewrite Hrandom in Hrun. injection Hrun as <-.
  pose proof (session_drawn_inv ops g g' Hg Hsession) as Hg'.
  destruct (drawn_inv_conditions g' Hg') as [Hmatch Hwf].
  split_and!; [apply (di_undirected g' Hg')|done..|].
  intros r Hpos Hdone. apply analyze_partitions_returned; try done.
  - apply (di_graph g' Hg').
  - apply (di_sets g' Hg').
Qed.

(** X26 on a random triangle from which node 1 is deleted and to which a
    node 3 is added and joined to node 0. *)
Lemma analyze_partitions_random_session_witness :
  all_undirected graph_random_edited ∧
  edges_match_adjacency graph_random_edited ∧
  edges_well_formed graph_random_edited ∧
  ∃ r, analyze graph_random_edited = Done r ∧
       ∀ e, e ∈ edges_of graph_random_edited →
            ∃ i c, r_components r !! i = Some c ∧ in_component e c ∧
                   ∀ j c', r_components r !! j = Some c' →
                           in_component e c' → j = i.
Proof.
  destruct (analyze_partitions_random_session
              3 (λ i, (150 + Z.of_nat i, 80)) (λ _ _, true)
              [OpDeleteNode 1; OpAddNode 300 200; OpAddEdge 3 0 false]
              graph_random_triangle graph_random_edited)
    as (Hu & Hm & Hw & Hanalyze).
  - vm_compute. reflexivity.
  - vm_compute. reflexivity.
  - split_and!; [done..|].
    assert (∃ r, analyze graph_random_edited = Done r) as [r Hr]
      by (eexists; vm_compute; reflexivity).
    exists r. split; [exact Hr|]. apply Hanalyze; [|exact Hr].
    apply model_invb_spec. vm_compute. reflexivity.
Defined.
